(** * Round-to-nearest weight-only quantization (rtn.py)

    A shallow embedding of [neural_compressor/torch/algorithms/rtn.py]:
    the NF4/FP4 lookup codec, the symmetric and asymmetric integer
    codecs, the grouped quantization entry point [quant_weight], the
    clip-range search and the bit-packing store [WeightOnlyLinear].

    Numbers.  Floating-point tensors are idealised as exact rationals
    ([Q]); signed zeros are identified and rounding errors of the float
    arithmetic are not modelled.  A float division whose divisor is zero
    does not raise in torch, it produces inf or nan: the lookup codec
    only compares such quotients, so they are kept as [xval]; the
    integer codecs feed them to further arithmetic, which the rationals
    cannot follow, so such a run ends in the outcome [NonFinite].
    Integer tensors are [Z] with the wrap-around of their dtype written
    out.  A 2-D tensor is the list of its rows together with its column
    count (which a tensor without rows still has). *)

From Stdlib Require Import String.
From Stdlib Require Import ZArith QArith Qround Qminmax Qabs.
From Stdlib Require Import List Bool Lia Lqa Sorted.
Import ListNotations.

Open Scope Q_scope.

(* ================================================================= *)
(** ** Outcomes of a call *)

Inductive exn : Type :=
| AssertionError (msg : string)
| IndexError
| RuntimeError
| ZeroDivisionError
| KeyError
| AttributeError.

Inductive outcome (A : Type) : Type :=
| Ok (a : A)
| Raise (e : exn)
| NonFinite.

Arguments Ok {A} a.
Arguments Raise {A} e.
Arguments NonFinite {A}.

Definition bind {A B : Type} (m : outcome A) (k : A -> outcome B) : outcome B :=
  match m with
  | Ok a => k a
  | Raise e => Raise e
  | NonFinite => NonFinite
  end.

Notation "x <- m ;; k" := (bind m (fun x => k))
  (at level 61, m at next level, right associativity).
Notation "' p <- m ;; k" := (bind m (fun p => k))
  (at level 61, p pattern, m at next level, right associativity).

Fixpoint mapM {A B : Type} (f : A -> outcome B) (l : list A) : outcome (list B) :=
  match l with
  | [] => Ok []
  | a :: l' => b <- f a ;; bs <- mapM f l' ;; Ok (b :: bs)
  end.

Definition assert (c : bool) (msg : string) : outcome unit :=
  if c then Ok tt else Raise (AssertionError msg).

(* ================================================================= *)
(** ** Numbers *)

(** [torch.round]: round half to even. *)
Definition round_half_even (x : Q) : Z :=
  let f := Qfloor x in
  match Qcompare (x - inject_Z f) (1 # 2) with
  | Lt => f
  | Gt => (f + 1)%Z
  | Eq => if Z.even f then f else (f + 1)%Z
  end.

(** [torch.clamp(x, lo, hi)] is [min(max(x, lo), hi)]. *)
Definition clamp (x lo hi : Z) : Z := Z.min (Z.max x lo) hi.

(** Conversion of an integer-valued float to an integer dtype of
    [w] bits, with the wrap-around of the dtype. *)
Definition wrap_signed (w : Z) (x : Z) : Z :=
  ((x + 2 ^ (w - 1)) mod 2 ^ w - 2 ^ (w - 1))%Z.

Definition wrap_unsigned (w : Z) (x : Z) : Z := (x mod 2 ^ w)%Z.

Definition to_int8 (x : Z) : Z := wrap_signed 8 x.
Definition to_uint8 (x : Z) : Z := wrap_unsigned 8 x.

(** Float to integer conversion truncates toward zero. *)
Definition Qtrunc (x : Q) : Z :=
  if Qle_bool 0 x then Qfloor x else Qceiling x.

(** Checked division of the integer codecs (see the header). *)
Definition qdiv (a b : Q) : outcome Q :=
  if Qeq_bool b 0 then NonFinite else Ok (a / b).

(** Quotients that are only compared afterwards. *)
Inductive xval : Type :=
| Finite (q : Q)
| PosInf
| NegInf
| NaN.

Definition float_div (a b : Q) : xval :=
  if Qeq_bool b 0 then
    match Qcompare a 0 with
    | Eq => NaN
    | Gt => PosInf
    | Lt => NegInf
    end
  else Finite (a / b).

(** [t <= m] and [t > m] for a finite [m]; both are false on nan. *)
Definition xle (t : xval) (m : Q) : bool :=
  match t with
  | Finite q => Qle_bool q m
  | NegInf => true
  | PosInf | NaN => false
  end.

Definition xgt (t : xval) (m : Q) : bool :=
  match t with
  | Finite q => negb (Qle_bool q m)
  | PosInf => true
  | NegInf | NaN => false
  end.

(** Reductions over one row; torch raises on an empty reduction
    dimension. *)
Definition row_max (r : list Q) : outcome Q :=
  match r with
  | [] => Raise IndexError
  | x :: r' => Ok (fold_left Qmax r' x)
  end.

Definition row_min (r : list Q) : outcome Q :=
  match r with
  | [] => Raise IndexError
  | x :: r' => Ok (fold_left Qmin r' x)
  end.

(** Python's [max] of a non-empty list of floats. *)
Definition list_max (l : list Q) : Q :=
  match l with
  | [] => 0
  | x :: l' => fold_left Qmax l' x
  end.

(* ================================================================= *)
(** ** Tensors *)

Record tensor (A : Type) : Type := mkT { ncols : nat; trows : list (list A) }.

Arguments mkT {A} ncols trows.
Arguments ncols {A} t.
Arguments trows {A} t.

Definition nrows {A} (t : tensor A) : nat := length (trows t).

Definition wf {A} (t : tensor A) : Prop :=
  Forall (fun r => length r = ncols t) (trows t).

Definition numel {A} (t : tensor A) : nat := (nrows t * ncols t)%nat.

Definition flat {A} (t : tensor A) : list A := concat (trows t).

(** [t.reshape(n, k)] on row-major data; the caller has checked that
    the element counts agree. *)
Definition reshape_to {A} (n k : nat) (t : tensor A) : tensor A :=
  mkT k (map (fun i => firstn k (skipn (i * k) (flat t))) (seq 0 n)).

(** [t.reshape(n, k)] *)
Definition reshape {A} (n k : nat) (t : tensor A) : outcome (tensor A) :=
  if (numel t =? n * k)%nat then Ok (reshape_to n k t) else Raise RuntimeError.

(** [t.reshape(-1, k)]: the row count is inferred; torch refuses to
    infer it when the other dimensions multiply to zero. *)
Definition reshape_rows {A} (k : nat) (t : tensor A) : outcome (tensor A) :=
  if (k =? 0)%nat then Raise RuntimeError
  else if (numel t mod k =? 0)%nat then Ok (reshape_to (numel t / k) k t)
  else Raise RuntimeError.

(** [t.reshape(n, -1)] *)
Definition reshape_cols {A} (n : nat) (t : tensor A) : outcome (tensor A) :=
  if (n =? 0)%nat then Raise RuntimeError
  else if (numel t mod n =? 0)%nat then Ok (reshape_to n (numel t / n) t)
  else Raise RuntimeError.

(** [t[:, a:b]] for [0 <= a], [0 <= b]; slices are truncated to the
    tensor. *)
Definition slice_cols {A} (a b : nat) (t : tensor A) : tensor A :=
  mkT (Nat.min b (ncols t) - a) (map (fun r => skipn a (firstn b r)) (trows t)).

(** [t[:, a:]] *)
Definition from_col {A} (a : nat) (t : tensor A) : tensor A :=
  slice_cols a (ncols t) t.

(** [torch.cat([t1, t2], dim=1)] *)
Definition cat1 {A} (t1 t2 : tensor A) : outcome (tensor A) :=
  if (nrows t1 =? nrows t2)%nat then
    Ok (mkT (ncols t1 + ncols t2) (map (fun p => fst p ++ snd p) (combine (trows t1) (trows t2))))
  else Raise RuntimeError.

(** [t.T] *)
Definition transpose {A} (d : A) (t : tensor A) : tensor A :=
  mkT (nrows t) (map (fun j => map (fun r => nth j r d) (trows t)) (seq 0 (ncols t))).

(** A column vector, as produced by [unsqueeze_(dim=-1)]. *)
Definition column {A} (l : list A) : tensor A := mkT 1 (map (fun x => [x]) l).

Definition tmap {A B} (f : A -> B) (t : tensor A) : tensor B :=
  mkT (ncols t) (map (map f) (trows t)).

Definition zeros {A} (z : A) (n k : nat) : tensor A := mkT k (repeat (repeat z k) n).

(* ================================================================= *)
(** ** Code tables *)

Definition NF4 : list Q :=
  [ -1.0;
    -0.6961928009986877;
    -0.5250730514526367;
    -0.39491748809814453;
    -0.28444138169288635;
    -0.18477343022823334;
    -0.09105003625154495;
    0.0;
    0.07958029955625534;
    0.16093020141124725;
    0.24611230194568634;
    0.33791524171829224;
    0.44070982933044434;
    0.5626170039176941;
    0.7229568362236023;
    1.0 ].

Definition FP4_BNB : list Q :=
  [-12.0; -8.0; -6.0; -4.0; -3.0; -2.0; -0.0625; 0; 0.0625; 2.0; 3.0; 4.0; 6.0; 8.0; 12.0].

Definition FP4_E2M1 : list Q :=
  [-6.0; -4.0; -3.0; -2.0; -1.5; -1.0; -0.0625; 0; 0.0625; 1.0; 1.5; 2.0; 3.0; 4.0; 6.0].

Definition NF4_BIT : list Z :=
  [7; 1; 2; 3; 4; 5; 6; 0; -8; -7; -6; -5; -4; -3; -2; -1]%Z.

Definition FP4_BNB_BIT : list Z :=
  [-5; -6; -3; -4; -1; -2; -7; 0; 1; 6; 7; 4; 5; 2; 3]%Z.

Definition FP4_E2M1_BIT : list Z :=
  [-1; -2; -3; -4; -5; -6; -7; 0; 1; 2; 3; 4; 5; 6; 7]%Z.

(** A Python dict with string keys, in insertion order. *)
Fixpoint dict_get {V : Type} (d : list (string * V)) (k : string) : option V :=
  match d with
  | [] => None
  | (k', v) :: d' => if String.eqb k k' then Some v else dict_get d' k
  end.

Definition FLOAT_MAPPING : list (string * list Q) :=
  [("nf4", NF4); ("fp4", FP4_BNB); ("fp4_e2m1_bnb", FP4_BNB); ("fp4_e2m1", FP4_E2M1)]%string.

Definition INT_MAPPING : list (string * list Z) :=
  [("nf4", NF4_BIT); ("fp4", FP4_BNB_BIT); ("fp4_e2m1_bnb", FP4_BNB_BIT);
   ("fp4_e2m1", FP4_E2M1_BIT)]%string.

(** ["int" in data_type]: a substring test. *)
Definition has_int (data_type : string) : bool :=
  match String.index 0 "int" data_type with
  | Some _ => true
  | None => false
  end.

(* ================================================================= *)
(** ** Codec library *)

(** What a codec hands back: the de-quantized float tensor, or (with
    [return_int]) the integer tensor, the scales and the zero points. *)
Inductive qresult : Type :=
| QFloat (w : tensor Q)
| QInt (q : tensor Z) (scale : tensor Q) (zp : option (tensor Z)).

(** *** quantize_4bit *)

Definition mid_data (allow_data : list Q) : list Q :=
  map (fun i => (nth i allow_data 0 + nth (i + 1) allow_data 0) / 2)
      (seq 0 (length allow_data - 1)).

(** The condition of the [i]-th [torch.where] of the loop, for a code
    table of [n] levels. *)
Definition bucket_cond (mid : list Q) (n i : nat) (t : xval) : bool :=
  if (i =? 0)%nat then xle t (nth i mid 0)
  else if (i =? n - 1)%nat then xgt t (nth (i - 1) mid 0)
  else xgt t (nth (i - 1) mid 0) && xle t (nth i mid 0).

(** One element of [q_tensor] after the loop: the sum of the 0-or-data
    terms, started from zero. *)
Definition bucket_sum (mid data : list Q) (n : nat) (t : xval) : Q :=
  fold_left (fun acc i => acc + (if bucket_cond mid n i t then nth i data 0 else 0))
            (seq 0 n) 0.

Definition q4_scale (allow_data : list Q) (quantile : Q) (row : list Q) : outcome Q :=
  m <- row_max (map Qabs row) ;;
  Ok (m * quantile / list_max allow_data).

(** One row of [quantize_4bit]: the row of [q_tensor] and its scale. *)
Definition quantize_4bit_row (allow_data data : list Q) (quantile : Q) (row : list Q)
  : outcome (list Q * Q) :=
  scale <- q4_scale allow_data quantile row ;;
  let tensor := map (fun w => float_div w scale) row in
  Ok (map (bucket_sum (mid_data allow_data) data (length allow_data)) tensor, scale).

Definition quantize_4bit (tensor : tensor Q) (quantile : Q) (data_type : string)
           (return_int : bool) : outcome qresult :=
  match dict_get FLOAT_MAPPING data_type, dict_get INT_MAPPING data_type with
  | Some allow_data, Some allow_data_bit =>
      if (ncols tensor =? 0)%nat then Raise IndexError
      else if return_int then
        rs <- mapM (quantize_4bit_row allow_data (map inject_Z allow_data_bit) quantile)
                   (trows tensor) ;;
        Ok (QInt (mkT (ncols tensor) (map (fun r => map (fun q => to_int8 (Qtrunc q)) (fst r)) rs))
                 (column (map snd rs))
                 None)
      else
        rs <- mapM (quantize_4bit_row allow_data allow_data quantile) (trows tensor) ;;
        Ok (QFloat (mkT (ncols tensor) (map (fun r => map (fun q => q * snd r) (fst r)) rs)))
  | _, _ => Raise (AssertionError "unexpected data type.")
  end.

(** *** qdq_weight_asym *)

(** One row: the clamped integers (still floats in the source), the
    scale and the zero point. *)
Definition qdq_weight_asym_row (num_bits : Z) (quantile : Q) (row : list Q)
  : outcome (list Z * Q * Z) :=
  let maxq := (2 ^ num_bits - 1)%Z in
  mn <- row_min row ;;
  mx <- row_max row ;;
  let wmin := Qmin mn 0 * quantile in
  let wmax := Qmax mx 0 * quantile in
  let tmp := Qeq_bool wmin 0 && Qeq_bool wmax 0 in
  let wmin := if tmp then - (1) else wmin in
  let wmax := if tmp then 1 else wmax in
  scale <- qdiv (wmax - wmin) (inject_Z maxq) ;;
  z <- qdiv (- wmin) scale ;;
  let zp := round_half_even z in
  q <- mapM (fun w => t <- qdiv w scale ;; Ok (clamp (round_half_even t + zp) 0 maxq)) row ;;
  Ok (q, scale, zp).

Definition qdq_weight_asym (weight : tensor Q) (num_bits : Z) (quantile : Q)
           (return_int : bool) : outcome qresult :=
  if (ncols weight =? 0)%nat then Raise IndexError
  else
    rs <- mapM (qdq_weight_asym_row num_bits quantile) (trows weight) ;;
    if return_int then
      Ok (QInt (mkT (ncols weight) (map (fun '(q, _, _) => map to_uint8 q) rs))
               (column (map (fun '(_, scale, _) => scale) rs))
               (Some (column (map (fun '(_, _, zp) => to_uint8 zp) rs))))
    else
      Ok (QFloat (mkT (ncols weight)
                      (map (fun '(q, scale, zp) => map (fun x => scale * inject_Z (x - zp)) q) rs))).

(** *** qdq_weight_sym *)

(** [(minq, maxq)], with the 1-bit special case. *)
Definition sym_bounds (num_bits : Z) : Z * Z :=
  if (num_bits =? 1)%Z then (2 ^ (num_bits - 1) - 1, 2 ^ (num_bits - 1))%Z
  else (- 2 ^ (num_bits - 1), 2 ^ (num_bits - 1) - 1)%Z.

Definition sym_scale (num_bits : Z) (quantile : Q) (full_range : bool) (row : list Q)
  : outcome Q :=
  let '(minq, maxq) := sym_bounds num_bits in
  max_val <- row_max row ;;
  min_val <- row_min row ;;
  let flip_flag := negb (Qle_bool (Qabs max_val) (Qabs min_val)) in
  let wmax := Qmax (Qabs max_val) (Qabs min_val) in
  let wmax := wmax * quantile in
  let wmax := if Qeq_bool wmax 0 then 1 else wmax in
  if full_range then
    scale <- qdiv wmax (inject_Z (- minq)) ;;
    let tmp := scale * (if flip_flag then 1 else 0) in
    Ok (scale - 2 * tmp)
  else qdiv wmax (inject_Z maxq).

Definition qdq_weight_sym_row (num_bits : Z) (quantile : Q) (full_range : bool)
           (row : list Q) : outcome (list Z * Q) :=
  let '(minq, maxq) := sym_bounds num_bits in
  scale <- sym_scale num_bits quantile full_range row ;;
  q <- mapM (fun w => t <- qdiv w scale ;; Ok (clamp (round_half_even t) minq maxq)) row ;;
  Ok (q, scale).

Definition qdq_weight_sym (weight : tensor Q) (num_bits : Z) (quantile : Q)
           (return_int full_range : bool) : outcome qresult :=
  if (ncols weight =? 0)%nat then Raise IndexError
  else
    rs <- mapM (qdq_weight_sym_row num_bits quantile full_range) (trows weight) ;;
    if return_int then
      Ok (QInt (mkT (ncols weight) (map (fun r => map to_int8 (fst r)) rs))
               (column (map snd rs))
               None)
    else
      Ok (QFloat (mkT (ncols weight)
                      (map (fun r => map (fun x => snd r * inject_Z x) (fst r)) rs))).

(** *** qdq_weight_actor *)

Definition qdq_weight_actor (weight : tensor Q) (num_bits : Z) (scheme : string)
           (quantile : Q) (data_type : string) (return_int full_range : bool)
  : outcome qresult :=
  _ <- assert (0 <? num_bits)%Z "num_bits should be larger than 0" ;;
  if negb (has_int data_type) && (num_bits =? 4)%Z then
    quantize_4bit weight quantile data_type return_int
  else if String.eqb scheme "sym" then
    qdq_weight_sym weight num_bits quantile return_int full_range
  else
    qdq_weight_asym weight num_bits quantile return_int.

(* ================================================================= *)
(** ** Group partitioner *)

(** [weight, scale, zp = ...]: the callee was asked for integers, so
    the other case does not arise. *)
Definition unpack3 (r : qresult) : outcome (tensor Z * tensor Q * option (tensor Z)) :=
  match r with
  | QInt q scale zp => Ok (q, scale, zp)
  | QFloat _ => Raise RuntimeError
  end.

(** [weight = ...] of a callee asked for floats. *)
Definition unpack1 (r : qresult) : outcome (tensor Q) :=
  match r with
  | QFloat w => Ok w
  | QInt _ _ _ => Raise RuntimeError
  end.

(** [if zp is not None: zp = zp.reshape(orig_shape[0], -1)] *)
Definition reshape_zp (n : nat) (zp : option (tensor Z)) : outcome (option (tensor Z)) :=
  match zp with
  | Some z => z' <- reshape_cols n z ;; Ok (Some z')
  | None => Ok None
  end.

(** [quant_weight].  A group size of 0 raises at
    [weight.shape[1] % group_size]; a negative one other than -1 raises
    at the first [reshape(-1, group_size)]. *)
Definition quant_weight (weight : tensor Q) (num_bits group_size : Z) (scheme : string)
           (quantile : Q) (data_type : string) (return_int full_range : bool)
  : outcome qresult :=
  if (num_bits <=? 0)%Z then Ok (QFloat weight)
  else if (group_size =? -1)%Z || (Z.of_nat (ncols weight) <? group_size)%Z then
    qdq_weight_actor weight num_bits scheme quantile data_type return_int full_range
  else if (group_size =? 0)%Z then Raise ZeroDivisionError
  else if (group_size <? 0)%Z then Raise RuntimeError
  else
    let g := Z.to_nat group_size in
    let orig0 := nrows weight in
    let orig1 := ncols weight in
    if (orig1 mod g =? 0)%nat then
      weight <- reshape_rows g weight ;;
      if return_int then
        r <- qdq_weight_actor weight num_bits scheme quantile data_type true full_range ;;
        '(weight, scale, zp) <- unpack3 r ;;
        weight <- reshape orig0 orig1 weight ;;
        scale <- reshape_cols orig0 scale ;;
        zp <- reshape_zp orig0 zp ;;
        Ok (QInt weight scale zp)
      else
        r <- qdq_weight_actor weight num_bits scheme quantile data_type false full_range ;;
        weight <- unpack1 r ;;
        weight <- reshape orig0 orig1 weight ;;
        Ok (QFloat weight)
    else
      let split_index := (orig1 / g * g)%nat in
      weight1 <- reshape_rows g (slice_cols 0 split_index weight) ;;
      if return_int then
        r1 <- qdq_weight_actor weight1 num_bits scheme quantile data_type true full_range ;;
        '(weight1, scale1, zp1) <- unpack3 r1 ;;
        scale1 <- reshape_cols orig0 scale1 ;;
        zp1 <- reshape_zp orig0 zp1 ;;
        weight1 <- reshape orig0 split_index weight1 ;;
        let weight2 := from_col split_index weight in
        r2 <- qdq_weight_actor weight2 num_bits scheme quantile data_type true full_range ;;
        '(weight2, scale2, zp2) <- unpack3 r2 ;;
        weight <- cat1 weight1 weight2 ;;
        scale <- cat1 scale1 scale2 ;;
        match zp2, zp1 with
        | Some zp2, Some zp1 => zp <- cat1 zp1 zp2 ;; Ok (QInt weight scale (Some zp))
        | Some _, None => Raise RuntimeError
        | None, _ => Ok (QInt weight scale None)
        end
      else
        r1 <- qdq_weight_actor weight1 num_bits scheme quantile data_type false full_range ;;
        weight1 <- unpack1 r1 ;;
        weight1 <- reshape orig0 split_index weight1 ;;
        let weight2 := from_col split_index weight in
        r2 <- qdq_weight_actor weight2 num_bits scheme quantile data_type false full_range ;;
        weight2 <- unpack1 r2 ;;
        weight <- cat1 weight1 weight2 ;;
        Ok (QFloat weight).

(* ================================================================= *)
(** ** Clip-range search *)

(** A Python float as the search holds it: a loss (the mean of no
    element is nan) or [best_error], which starts at [float("inf")]. *)
Inductive fval : Type :=
| FNaN
| FInf
| FVal (l : Q).

(** [loss < best_error] *)
Definition is_best (loss best_error : fval) : bool :=
  match loss, best_error with
  | FVal l, FVal b => negb (Qle_bool b l)
  | FVal _, FInf => true
  | _, _ => false
  end.

Definition Qsum (l : list Q) : Q := fold_left Qplus l 0.

(** [(org_weight - cur_weight).float().pow(2).mean().item()]; the two
    tensors have one shape (shapes that differ and broadcast are not
    modelled). *)
Definition mse_loss (org_weight cur_weight : tensor Q) : outcome fval :=
  if (nrows org_weight =? nrows cur_weight)%nat && (ncols org_weight =? ncols cur_weight)%nat then
    let d := map (fun p => (fst p - snd p) ^ 2) (combine (flat org_weight) (flat cur_weight)) in
    match d with
    | [] => Ok FNaN
    | _ => Ok (FVal (Qsum d / inject_Z (Z.of_nat (length d))))
    end
  else Raise RuntimeError.

Definition n_grid : Q := 200.
Definition max_shrink : Q := 0.2.

(** [ratio = 1 - i_s / n_grid] *)
Definition clip_ratio (i_s : nat) : Q := 1 - inject_Z (Z.of_nat i_s) / n_grid.

(** The loss of one candidate of the grid. *)
Definition clip_loss (weight : tensor Q) (num_bits group_size : Z) (scheme data_type : string)
           (enable_full_range : bool) (i_s : nat) : outcome fval :=
  r <- quant_weight weight num_bits group_size scheme (clip_ratio i_s) data_type false
                    enable_full_range ;;
  cur_weight <- unpack1 r ;;
  mse_loss weight cur_weight.

(** The loop state: [best_error], [best_clip_ratio] and [history]. *)
Definition clip_state : Type := fval * option Q * list fval.

Definition clip_step (weight : tensor Q) (num_bits group_size : Z) (scheme data_type : string)
           (enable_full_range : bool) (st : clip_state) (i_s : nat) : outcome clip_state :=
  let '(best_error, best_clip_ratio, history) := st in
  loss <- clip_loss weight num_bits group_size scheme data_type enable_full_range i_s ;;
  let history := history ++ [loss] in
  if is_best loss best_error then Ok (loss, Some (clip_ratio i_s), history)
  else Ok (best_error, best_clip_ratio, history).

Fixpoint clip_loop (weight : tensor Q) (num_bits group_size : Z) (scheme data_type : string)
         (enable_full_range : bool) (l : list nat) (st : clip_state) : outcome clip_state :=
  match l with
  | [] => Ok st
  | i_s :: l' =>
      st' <- clip_step weight num_bits group_size scheme data_type enable_full_range st i_s ;;
      clip_loop weight num_bits group_size scheme data_type enable_full_range l' st'
  end.

(** [search_clip]; [None] is Python's [None]. *)
Definition search_clip (weight : tensor Q) (num_bits group_size : Z) (scheme data_type : string)
           (enable_full_range : bool) : outcome (option Q) :=
  st <- clip_loop weight num_bits group_size scheme data_type enable_full_range
                  (seq 0 (Z.to_nat (Qtrunc (max_shrink * n_grid)))) (FInf, None, []) ;;
  Ok (snd (fst st)).

(* ================================================================= *)
(** ** Bit-packing store *)

(** [math.ceil(a / b)] for Python integers. *)
Definition py_ceil_div (a b : Z) : outcome Z :=
  if (b =? 0)%Z then Raise ZeroDivisionError else Ok (- ((- a) / b))%Z.

(** A dimension handed to [torch.zeros]. *)
Definition zeros_dim (n : Z) : outcome nat :=
  if (n <? 0)%Z then Raise RuntimeError else Ok (Z.to_nat n).

(** [d[k] = v] on a dict kept in insertion order. *)
Fixpoint dict_set (d : list (Z * Q)) (k : Z) (v : Q) : list (Z * Q) :=
  match d with
  | [] => [(k, v)]
  | (k', v') :: d' => if (k =? k')%Z then (k, v) :: d' else (k', v') :: dict_set d' k v
  end.

(** [l[i] = v] for an index inside the list. *)
Fixpoint set_nth {A : Type} (i : nat) (v : A) (l : list A) : list A :=
  match l, i with
  | [], _ => []
  | _ :: l', O => v :: l'
  | x :: l', S i' => x :: set_nth i' v l'
  end.

Module WeightOnlyLinear.

Record t : Type := mk {
  dtype : string;
  int2float_mapping : list (Z * Q);
  in_features : nat;
  out_features : nat;
  bits : Z;
  groupsize : Z;
  compression_dim : Z;
  compress_bits : Z;
  n_pack : Z;
  scale : tensor Q;
  packed_weight : tensor Z;
  packed_zp : option (tensor Z);
  bias : option (list Q)
}.

(** [__init__]; the compression dtype is given by its width in bits
    (any other dtype has width 0 here and fails the assertion). *)
Definition init (in_features out_features : nat) (bits groupsize : Z) (dtype : string)
           (zp bias : bool) (compress_bits compression_dim : Z) : outcome t :=
  mapping <- (if negb (has_int dtype) then
                match dict_get FLOAT_MAPPING dtype, dict_get INT_MAPPING dtype with
                | Some float_list, Some int_list =>
                    Ok (fold_left (fun d kv => dict_set d (fst kv) (snd kv))
                                  (combine int_list float_list) [])
                | _, _ => Raise KeyError
                end
              else Ok []) ;;
  let groupsize := if (groupsize =? -1)%Z then Z.of_nat in_features else groupsize in
  _ <- assert ((compress_bits =? 8) || (compress_bits =? 16) || (compress_bits =? 32)
               || (compress_bits =? 64))%Z
              "Only support torch.int8|16|32|64 as compressed dtype." ;;
  _ <- (if (bits =? 0)%Z then Raise ZeroDivisionError else Ok tt) ;;
  let n_pack := (compress_bits / bits)%Z in
  _ <- assert ((compression_dim =? 0) || (compression_dim =? 1))%Z
              "Only support 0 or 1 as compression dimension, 0 is output channel, 1 is input channel." ;;
  n_groups <- (d <- py_ceil_div (Z.of_nat in_features) groupsize ;; zeros_dim d) ;;
  let scale := zeros 0 out_features n_groups in
  '(packed_weight, packed_zp) <-
    (if (compression_dim =? 1)%Z then
       k <- (d <- py_ceil_div (Z.of_nat in_features) n_pack ;; zeros_dim d) ;;
       pz <- (if zp then
                kz <- (d <- py_ceil_div (Z.of_nat in_features) (groupsize * n_pack) ;; zeros_dim d) ;;
                Ok (Some (zeros 0%Z out_features kz))
              else Ok None) ;;
       Ok (zeros 0%Z out_features k, pz)
     else
       n <- (d <- py_ceil_div (Z.of_nat out_features) n_pack ;; zeros_dim d) ;;
       pz <- (if zp then Ok (Some (zeros 0%Z n n_groups)) else Ok None) ;;
       Ok (zeros 0%Z n in_features, pz)) ;;
  Ok (mk dtype mapping in_features out_features bits groupsize compression_dim
         compress_bits n_pack scale packed_weight packed_zp
         (if bias then Some (repeat 0 out_features) else None)).

(** [torch.tensor(2**self.bits - 1, dtype=self.compressed_dtype)].
    For a field narrower than the word the mask fits the dtype; for a
    negative bit count [2**bits - 1] is a float between -1 and 0 and
    converts to 0.  A mask beyond the dtype is refused where torch
    checks the scalar conversion (a build without the check wraps
    it); that branch is torch's behaviour, not this module's, and no
    statement below relies on it: every result on [pack] and
    [recover] is about a field narrower than the word. *)
Definition mask_of (s : t) : outcome Z :=
  if (bits s <? 0)%Z then Ok 0%Z
  else if (2 ^ bits s - 1 <? 2 ^ (compress_bits s - 1))%Z then Ok (2 ^ bits s - 1)%Z
  else Raise RuntimeError.

(** The inner loop of [pack] on one row: the columns [tmp[:, e]] of the
    slice are masked, shifted and or-ed into the word. *)
Definition pack_word (s : t) (mask : Z) (tmp : list Z) (word : Z) : Z :=
  fold_left (fun acc ev =>
               let v := Z.land (wrap_signed (compress_bits s) (snd ev)) mask in
               let v := wrap_signed (compress_bits s) (Z.shiftl v (bits s * Z.of_nat (fst ev))) in
               Z.lor acc v)
            (combine (seq 0 (length tmp)) tmp) word.

(** The outer loop of [pack] on one row of the source and of the
    target. *)
Definition pack_row (s : t) (mask : Z) (int_row packed_row : list Z) : list Z :=
  map (fun jw =>
         let start := Z.to_nat (n_pack s * Z.of_nat (fst jw)) in
         let stop := Z.to_nat (n_pack s * (Z.of_nat (fst jw) + 1)) in
         pack_word s mask (skipn start (firstn stop int_row)) (snd jw))
      (combine (seq 0 (length packed_row)) packed_row).

Definition pack_loops (s : t) (mask : Z) (int_weight packed : tensor Z) : outcome (tensor Z) :=
  if (nrows int_weight =? nrows packed)%nat then
    Ok (mkT (ncols packed)
            (map (fun p => pack_row s mask (fst p) (snd p))
                 (combine (trows int_weight) (trows packed))))
  else Raise RuntimeError.

Definition pack (s : t) (int_weight : tensor Z) (scale : tensor Q) (zp : option (tensor Z))
           (bias : option (list Q)) : outcome t :=
  let bias' := match bias with Some b => Some b | None => WeightOnlyLinear.bias s end in
  _ <- assert ((nrows scale =? nrows (WeightOnlyLinear.scale s))%nat
               && (ncols scale =? ncols (WeightOnlyLinear.scale s))%nat)
              "Scale shape is mismatched" ;;
  let dim0 := (compression_dim s =? 0)%Z in
  let int_weight := if dim0 then transpose 0%Z int_weight else int_weight in
  let packed := if dim0 then transpose 0%Z (packed_weight s) else packed_weight s in
  _ <- assert (nrows int_weight =? nrows packed)%nat "output channels mismatch, please check." ;;
  mask <- mask_of s ;;
  packed <- pack_loops s mask int_weight packed ;;
  let packed := if dim0 then transpose 0%Z packed else packed in
  pz <- match zp with
        | None => Ok (packed_zp s)
        | Some zp =>
            let zp := if dim0 then transpose 0%Z zp else zp in
            match packed_zp s with
            | None => if dim0 then Raise AttributeError
                      else Raise (AssertionError "zp is not set when initializing.")
            | Some pzp =>
                let pzp := if dim0 then transpose 0%Z pzp else pzp in
                pzp <- pack_loops s mask zp pzp ;;
                Ok (Some (if dim0 then transpose 0%Z pzp else pzp))
            end
        end ;;
  Ok (mk (dtype s) (int2float_mapping s) (in_features s) (out_features s) (bits s)
         (groupsize s) (compression_dim s) (compress_bits s) (n_pack s)
         scale packed pz bias').

(** One field of a packed word: shift left, arithmetic shift right,
    conversion to [weight_dtype = torch.int8]. *)
Definition unpack_field (s : t) (word : Z) (e : nat) : Z :=
  let tmp := wrap_signed (compress_bits s)
                         (Z.shiftl word (compress_bits s - bits s * (Z.of_nat e + 1))) in
  let tmp := Z.shiftr tmp (compress_bits s - bits s) in
  to_int8 tmp.

(** The two loops of [recover] on one row. *)
Definition unpack_row (s : t) (origin1 target1 : nat) (packed_row weight_row : list Z)
  : list Z :=
  fold_left
    (fun w j =>
       fold_left
         (fun w e =>
            let index := (j * Z.to_nat (n_pack s) + e)%nat in
            if (origin1 <=? index)%nat then w
            else set_nth index (unpack_field s (nth j packed_row 0%Z) e) w)
         (seq 0 (Z.to_nat (n_pack s))) w)
    (seq 0 target1) weight_row.

(** [weight * scale] for a scale of one column. *)
Definition mul_scale (weight scale : tensor Q) : outcome (tensor Q) :=
  if (nrows weight =? nrows scale)%nat && (ncols scale =? 1)%nat then
    Ok (mkT (ncols weight)
            (map (fun p => map (fun x => x * hd 0 (snd p)) (fst p))
                 (combine (trows weight) (trows scale))))
  else Raise RuntimeError.

Definition recover (s : t) : outcome (tensor Q) :=
  _ <- mask_of s ;;
  let dim0 := (compression_dim s =? 0)%Z in
  let weight := zeros 0%Z (out_features s) (in_features s) in
  let weight := if dim0 then transpose 0%Z weight else weight in
  let packed := if dim0 then transpose 0%Z (packed_weight s) else packed_weight s in
  weight <- (if (nrows weight =? nrows packed)%nat then
               Ok (mkT (ncols weight)
                       (map (fun p => unpack_row s (ncols weight) (ncols packed) (fst p) (snd p))
                            (combine (trows packed) (trows weight))))
             else Raise RuntimeError) ;;
  let weight := if dim0 then transpose 0%Z weight else weight in
  let weight :=
    if negb (has_int (dtype s)) then
      tmap (fun x => fold_left (fun acc kv => acc + (if (x =? fst kv)%Z then snd kv else 0))
                               (int2float_mapping s) 0) weight
    else tmap inject_Z weight in
  _ <- (if (groupsize s =? 0)%Z then Raise ZeroDivisionError else Ok tt) ;;
  let gs := Z.to_nat (groupsize s) in
  let left_element := (in_features s mod gs)%nat in
  if negb (left_element =? 0)%nat then
    let split_index := (in_features s / gs * gs)%nat in
    weight1 <- reshape_rows gs (slice_cols 0 split_index weight) ;;
    scale1 <- reshape_rows 1 (slice_cols 0 (ncols (scale s) - 1) (scale s)) ;;
    weight1 <- mul_scale weight1 scale1 ;;
    weight1 <- reshape_cols (out_features s) weight1 ;;
    let weight2 := from_col split_index weight in
    let scale2 := from_col (ncols (scale s) - 1) (scale s) in
    weight2 <- mul_scale weight2 scale2 ;;
    cat1 weight1 weight2
  else
    weight <- reshape_rows gs weight ;;
    scale <- reshape_rows 1 (scale s) ;;
    fp32_weight <- mul_scale weight scale ;;
    reshape_cols (out_features s) fp32_weight.

End WeightOnlyLinear.

(* ================================================================= *)
(** ** Layer-rewrite driver *)

(** The [return_int] branch of [rtn_quantize] for one linear layer
    with weight [weight] of shape [(out_features, in_features)]. *)
Definition rtn_quantize_int (weight : tensor Q) (bias : option (list Q))
           (num_bits group_size : Z) (scheme : string) (quantile : Q) (data_type : string)
           (enable_full_range : bool) (group_dim compress_bits compression_dim : Z)
  : outcome WeightOnlyLinear.t :=
  let in_features := ncols weight in
  let out_features := nrows weight in
  let weight := if (group_dim =? 0)%Z then transpose 0 weight else weight in
  r <- quant_weight weight num_bits group_size scheme quantile data_type true
                    enable_full_range ;;
  '(int_weight, scale, zp) <- unpack3 r ;;
  let int_weight := if (group_dim =? 0)%Z then transpose 0%Z int_weight else int_weight in
  let scale := if (group_dim =? 0)%Z then transpose 0 scale else scale in
  let zp := match zp with
            | Some z => Some (if (group_dim =? 0)%Z then transpose 0%Z z else z)
            | None => None
            end in
  new_module <- WeightOnlyLinear.init in_features out_features num_bits group_size data_type
                  (match zp with Some _ => true | None => false end)
                  (match bias with Some _ => true | None => false end)
                  compress_bits compression_dim ;;
  WeightOnlyLinear.pack new_module int_weight scale zp bias.

(* ================================================================= *)
(** ** Reference definitions, written from the specification *)

(** Direct de-quantization of an integer result: [scale * (q - zp)]
    with zero points, [scale * q] without, each column taking the scale
    and zero point of its group. *)
Definition dequantize (q : tensor Z) (scale : tensor Q) (zp : option (tensor Z))
           (group_size : nat) : tensor Q :=
  mkT (ncols q)
      (map (fun i =>
              let srow := nth i (trows scale) [] in
              let zrow := match zp with Some z => nth i (trows z) [] | None => [] end in
              map (fun cx =>
                     let g := (fst cx / group_size)%nat in
                     nth g srow 0 * inject_Z (snd cx - nth g zrow 0%Z))
                  (combine (seq 0 (length (nth i (trows q) []))) (nth i (trows q) [])))
           (seq 0 (nrows q))).

(** [min(row)] and [max(row)] *)
Definition spec_min (row : list Q) : Q := fold_left Qmin (tl row) (hd 0 row).
Definition spec_max (row : list Q) : Q := fold_left Qmax (tl row) (hd 0 row).

(** The asymmetric codec as the specification words it. *)
Definition spec_asym_wmin (quantile : Q) (row : list Q) : Q :=
  let wmin := Qmin 0 (spec_min row * quantile) in
  let wmax := Qmax 0 (spec_max row * quantile) in
  if Qeq_bool wmin 0 && Qeq_bool wmax 0 then - (1) else wmin.

Definition spec_asym_wmax (quantile : Q) (row : list Q) : Q :=
  let wmin := Qmin 0 (spec_min row * quantile) in
  let wmax := Qmax 0 (spec_max row * quantile) in
  if Qeq_bool wmin 0 && Qeq_bool wmax 0 then 1 else wmax.

Definition spec_asym_scale (num_bits : Z) (quantile : Q) (row : list Q) : Q :=
  (spec_asym_wmax quantile row - spec_asym_wmin quantile row) / inject_Z (2 ^ num_bits - 1).

Definition spec_asym_zero_point (num_bits : Z) (quantile : Q) (row : list Q) : Z :=
  round_half_even (- spec_asym_wmin quantile row / spec_asym_scale num_bits quantile row).

Definition spec_asym_q (num_bits : Z) (quantile : Q) (row : list Q) (w : Q) : Z :=
  clamp (round_half_even (w / spec_asym_scale num_bits quantile row)
         + spec_asym_zero_point num_bits quantile row)
        0 (2 ^ num_bits - 1).

Definition spec_asym_dequant (num_bits : Z) (quantile : Q) (row : list Q) (w : Q) : Q :=
  spec_asym_scale num_bits quantile row
  * inject_Z (spec_asym_q num_bits quantile row w - spec_asym_zero_point num_bits quantile row).

(** [wmax] of the symmetric codec: the larger magnitude times the
    quantile, zero forced to 1. *)
Definition sym_wmax (quantile max_val min_val : Q) : Q :=
  let wmax := Qmax (Qabs max_val) (Qabs min_val) * quantile in
  if Qeq_bool wmax 0 then 1 else wmax.

(** The three code families: floats and their integer codes. *)
Definition families : list (list Q * list Z) :=
  [(NF4, NF4_BIT); (FP4_BNB, FP4_BNB_BIT); (FP4_E2M1, FP4_E2M1_BIT)].


(** The bucket of a finite value: the number of midpoints below it. *)
Definition bucket_index (mid : list Q) (t : Q) : nat :=
  length (filter (fun m => negb (Qle_bool t m)) mid).

(** Decidable form of "strictly ascending". *)
Fixpoint ascendingb (l : list Q) : bool :=
  match l with
  | x :: l' =>
      match l' with
      | y :: _ => negb (Qle_bool y x) && ascendingb l'
      | [] => true
      end
  | [] => true
  end.

(** The entry of a matrix at row [i] and column [j]. *)
Definition entry (t : tensor Q) (i j : nat) : Q := nth j (nth i (trows t) []) 0.

(** The squared reconstruction error of [cur] against the original
    [org], summed over the rows and the columns of [org]. *)
Definition spec_squared_error (org cur : tensor Q) : Q :=
  Qsum (map (fun i =>
               Qsum (map (fun j => (entry org i j - entry cur i j) ^ 2)
                         (seq 0 (ncols org))))
            (seq 0 (nrows org))).

(** The mean squared reconstruction error: the squared error divided
    by the number of entries. *)
Definition spec_mean_squared_error (org cur : tensor Q) : Q :=
  spec_squared_error org cur / inject_Z (Z.of_nat (nrows org * ncols org)).

(** The state of the clip search after the candidates [0 .. j-1]: the
    best error is the least loss so far, held by the earliest candidate
    reaching it, and the history lists the losses in order. *)
Definition clip_inv (weight : tensor Q) (num_bits group_size : Z) (scheme data_type : string)
           (enable_full_range : bool) (j : nat) (st : clip_state) : Prop :=
  let L := clip_loss weight num_bits group_size scheme data_type enable_full_range in
  let '(best_error, best_clip_ratio, history) := st in
  map Ok history = map L (seq 0 j) /\
  ((j = 0%nat /\ best_error = FInf /\ best_clip_ratio = None) \/
   (exists k lk,
       (k < j)%nat /\ best_error = FVal lk /\ best_clip_ratio = Some (clip_ratio k) /\
       L k = Ok (FVal lk) /\
       (forall i li, (i < j)%nat -> L i = Ok (FVal li) -> lk <= li) /\
       (forall i li, (i < k)%nat -> L i = Ok (FVal li) -> lk < li))).

(** A tensor of [n] rows with [k] entries each. *)
Definition shape_is {A : Type} (t : tensor A) (n k : nat) : Prop :=
  nrows t = n /\ ncols t = k /\ wf t.
(** Whether [qdq_weight_actor] hands back zero points: only the
    asymmetric integer codec does. *)
Definition actor_has_zp (num_bits : Z) (scheme data_type : string) : bool :=
  negb (negb (has_int data_type) && (num_bits =? 4)%Z) && negb (String.eqb scheme "sym").

(** Data-type tags the codecs and the store both accept. *)
Definition supported (data_type : string) : Prop :=
  has_int data_type = true \/ exists allow_data, dict_get FLOAT_MAPPING data_type = Some allow_data.

(** What [__init__] and [pack] leave in a store of 33 input features
    and groups of 32: the static parameters, and the buffer shapes
    that [pack] and [recover] rely on. *)
Definition store_ok (s : WeightOnlyLinear.t) (n : nat) (num_bits cd : Z) : Prop :=
  WeightOnlyLinear.in_features s = 33%nat /\
  WeightOnlyLinear.out_features s = n /\
  WeightOnlyLinear.bits s = num_bits /\
  WeightOnlyLinear.groupsize s = 32%Z /\
  WeightOnlyLinear.compression_dim s = cd /\
  WeightOnlyLinear.compress_bits s = 32%Z /\
  shape_is (WeightOnlyLinear.scale s) n 2 /\
  (if (cd =? 0)%Z then ncols (WeightOnlyLinear.packed_weight s) = 33%nat
   else nrows (WeightOnlyLinear.packed_weight s) = n).

(** The packed zero points of such a store, when it has them. *)
Definition store_zp_ok (s : WeightOnlyLinear.t) (n : nat) (cd : Z) (has_zp : bool) : Prop :=
  if has_zp then
    exists pz, WeightOnlyLinear.packed_zp s = Some pz /\
               (if (cd =? 0)%Z then ncols pz = 2%nat else nrows pz = n)
  else True.

(** The unsigned value of a word made of fields of [b] bits, the
    first field in the lowest bits. *)
Fixpoint fields_value (b : Z) (vals : list Z) : Z :=
  match vals with
  | [] => 0%Z
  | v :: r => (v mod 2 ^ b + 2 ^ b * fields_value b r)%Z
  end.

(** The dict [__init__] builds for a lookup data type (empty for an
    integer one). *)
Definition int2float_mapping_of (dtype : string) : outcome (list (Z * Q)) :=
  if negb (has_int dtype) then
    match dict_get FLOAT_MAPPING dtype, dict_get INT_MAPPING dtype with
    | Some float_list, Some int_list =>
        Ok (fold_left (fun d kv => dict_set d (fst kv) (snd kv))
                      (combine int_list float_list) [])
    | _, _ => Raise KeyError
    end
  else Ok [].

(** What [recover] makes of one unpacked integer before the scales are
    applied: the sum of the [torch.where] terms over the mapping for a
    lookup data type, the integer itself otherwise. *)
Definition to_float_weight (dtype : string) (mapping : list (Z * Q)) (x : Z) : Q :=
  if negb (has_int dtype) then
    fold_left (fun acc kv => acc + (if (x =? fst kv)%Z then snd kv else 0)) mapping 0
  else inject_Z x.

(** Two float tensors of one shape whose entries are equal as rational
    numbers. *)
Definition tensor_eq (a b : tensor Q) : Prop :=
  ncols a = ncols b /\ Forall2 (Forall2 Qeq) (trows a) (trows b).

(** The last part of [recover]: the float weight, cut into groups of
    [groupsize] columns, times the scales (one column of the scale
    tensor per group, the last one for the remainder group). *)
Definition scale_groups (in_features out_features : nat) (groupsize : Z)
           (scale weight : tensor Q) : outcome (tensor Q) :=
  _ <- (if (groupsize =? 0)%Z then Raise ZeroDivisionError else Ok tt) ;;
  let gs := Z.to_nat groupsize in
  let left_element := (in_features mod gs)%nat in
  if negb (left_element =? 0)%nat then
    let split_index := (in_features / gs * gs)%nat in
    weight1 <- reshape_rows gs (slice_cols 0 split_index weight) ;;
    scale1 <- reshape_rows 1 (slice_cols 0 (ncols scale - 1) scale) ;;
    weight1 <- WeightOnlyLinear.mul_scale weight1 scale1 ;;
    weight1 <- reshape_cols out_features weight1 ;;
    let weight2 := from_col split_index weight in
    let scale2 := from_col (ncols scale - 1) scale in
    weight2 <- WeightOnlyLinear.mul_scale weight2 scale2 ;;
    cat1 weight1 weight2
  else
    weight <- reshape_rows gs weight ;;
    scale <- reshape_rows 1 scale ;;
    fp32_weight <- WeightOnlyLinear.mul_scale weight scale ;;
    reshape_cols out_features fp32_weight.

(* ================================================================= *)
(** ** Sample inputs *)

(** A 1 x 2 layer whose asymmetric 4-bit codes are [[0; 15]] with zero
    point 8. *)
Definition sample_weight : tensor Q := mkT 2 [[- (1); 1]].

(** Two rows of 33 weights. *)
Definition sample_weight33 : tensor Q :=
  mkT 33 [map (fun i => inject_Z (Z.of_nat i) - 16) (seq 0 33);
          map (fun i => 3 - inject_Z (Z.of_nat i) / 4) (seq 0 33)].

(** A 2 x 3 layer with one outlier. *)
Definition sample_outlier : tensor Q := mkT 3 [[1; 2; 3]; [4; 5; - (60)]].

(** The store [__init__] builds for 16 input features, one output
    feature, 4 bits, whole-row groups and 32-bit words. *)
Definition sample_store : WeightOnlyLinear.t :=
  WeightOnlyLinear.mk "int" [] 16 1 4 16 1 32 8 (zeros 0 1 1) (zeros 0%Z 1 2) None None.

(** A row that uses every 4-bit pattern, written as unsigned values. *)
Definition sample_codes : list Z :=
  [0; 1; 2; 3; 4; 5; 6; 7; 8; 9; 10; 11; 12; 13; 14; 15]%Z.

(** A 2 x 4 layer, for groups of 2 columns. *)
Definition sample_weight24 : tensor Q := mkT 4 [[1; 2; 3; 4]; [- (4); 5; 60; - (1)]].

(* ================================================================= *)
(** * Properties *)

(** ** Arithmetic helpers *)

Lemma qdiv_ok (a b : Q) : ~ b == 0 -> qdiv a b = Ok (a / b).
Proof.
  intros H. unfold qdiv. destruct (Qeq_bool b 0) eqn:E; [|reflexivity].
  apply Qeq_bool_eq in E. contradiction.
Qed.

Lemma pow2_pos (n : Z) : (0 <= n)%Z -> (0 < 2 ^ n)%Z.
Proof. intros. apply Z.pow_pos_nonneg; lia. Qed.

Lemma pow2_ge2 (n : Z) : (1 <= n)%Z -> (2 <= 2 ^ n)%Z.
Proof.
  intros. replace n with (1 + (n - 1))%Z by lia.
  rewrite Z.pow_add_r by lia. pose proof (pow2_pos (n - 1)). lia.
Qed.

Lemma inject_Z_nonzero (z : Z) : z <> 0%Z -> ~ inject_Z z == 0.
Proof. intros H E. apply H. unfold Qeq, inject_Z in E. simpl in E. lia. Qed.

Lemma sym_bounds_ge2 (num_bits : Z) :
  (2 <= num_bits)%Z ->
  sym_bounds num_bits = (- 2 ^ (num_bits - 1), 2 ^ (num_bits - 1) - 1)%Z.
Proof. intros H. unfold sym_bounds. destruct (Z.eqb_spec num_bits 1); [lia|reflexivity]. Qed.

Lemma fold_Qmax_zero (r : list Q) : forall x,
  x == 0 -> Forall (fun w => w == 0) r -> fold_left Qmax r x == 0.
Proof.
  induction r as [|y r IH]; intros x Hx Hr; simpl; [exact Hx|].
  inversion Hr; subst. apply IH; [|assumption].
  rewrite Hx, H1. apply Q.max_id.
Qed.

Lemma fold_Qmin_zero (r : list Q) : forall x,
  x == 0 -> Forall (fun w => w == 0) r -> fold_left Qmin r x == 0.
Proof.
  induction r as [|y r IH]; intros x Hx Hr; simpl; [exact Hx|].
  inversion Hr; subst. apply IH; [|assumption].
  rewrite Hx, H1. apply Q.min_id.
Qed.

Lemma sym_wmax_nonzero (quantile max_val min_val : Q) : ~ sym_wmax quantile max_val min_val == 0.
Proof.
  unfold sym_wmax. destruct (Qeq_bool _ 0) eqn:E.
  - discriminate.
  - apply Qeq_bool_neq in E. exact E.
Qed.

(** The scale of the symmetric codec on any non-empty row, for two or
    more bits. *)
Lemma sym_scale_value (num_bits : Z) (quantile : Q) (full_range : bool) (row : list Q)
      (max_val min_val : Q) :
  (2 <= num_bits)%Z -> row_max row = Ok max_val -> row_min row = Ok min_val ->
  exists scale,
    sym_scale num_bits quantile full_range row = Ok scale /\
    scale ==
      (if full_range then
         (if Qle_bool (Qabs max_val) (Qabs min_val) then 1 else - (1))
         * (sym_wmax quantile max_val min_val / inject_Z (2 ^ (num_bits - 1)))
       else sym_wmax quantile max_val min_val / inject_Z (2 ^ (num_bits - 1) - 1)).
Proof.
  intros Hb Hmax Hmin. unfold sym_scale. rewrite sym_bounds_ge2 by assumption.
  rewrite Hmax, Hmin. cbn [bind].
  fold (sym_wmax quantile max_val min_val).
  pose proof (pow2_ge2 (num_bits - 1) ltac:(lia)) as Hp.
  destruct full_range.
  - rewrite Z.opp_involutive. rewrite qdiv_ok by (apply inject_Z_nonzero; lia).
    cbn [bind]. eexists; split; [reflexivity|].
    destruct (Qle_bool (Qabs max_val) (Qabs min_val)); cbn [negb]; ring.
  - rewrite qdiv_ok by (apply inject_Z_nonzero; lia).
    eexists; split; [reflexivity|]. reflexivity.
Qed.

(** ** Symmetric scale *)

(** C8 (amended).  On an all-zero row the symmetric codec forces
    [wmax] to 1, so the scale is one over the divisor, never 0. *)
Theorem sym_scale_zero_row (num_bits : Z) (quantile : Q) (full_range : bool) (row : list Q) :
  (2 <= num_bits)%Z -> row <> [] -> Forall (fun w => w == 0) row ->
  exists scale,
    sym_scale num_bits quantile full_range row = Ok scale /\
    scale == 1 / inject_Z (if full_range then 2 ^ (num_bits - 1) else 2 ^ (num_bits - 1) - 1) /\
    ~ scale == 0.
Proof.
  intros Hb Hne Hz. destruct row as [|x r]; [congruence|].
  inversion Hz as [|? ? Hx Hr]; subst.
  pose proof (fold_Qmax_zero r x Hx Hr) as Hmax.
  pose proof (fold_Qmin_zero r x Hx Hr) as Hmin.
  destruct (sym_scale_value num_bits quantile full_range (x :: r) _ _ Hb eq_refl eq_refl)
    as [scale [Hs Hv]].
  exists scale. split; [exact Hs|].
  assert (Hw : sym_wmax quantile (fold_left Qmax r x) (fold_left Qmin r x) = 1).
  { unfold sym_wmax.
    assert (E : Qmax (Qabs (fold_left Qmax r x)) (Qabs (fold_left Qmin r x)) * quantile == 0).
    { rewrite Hmax, Hmin. reflexivity. }
    apply Qeq_eq_bool in E. rewrite E. reflexivity. }
  assert (Hle : Qle_bool (Qabs (fold_left Qmax r x)) (Qabs (fold_left Qmin r x)) = true).
  { apply Qle_bool_iff. rewrite Hmax, Hmin. apply Qle_refl. }
  rewrite Hw, Hle in Hv.
  pose proof (pow2_ge2 (num_bits - 1) ltac:(lia)) as Hp.
  assert (Hv' : scale == 1 / inject_Z (if full_range then 2 ^ (num_bits - 1)
                                       else 2 ^ (num_bits - 1) - 1)).
  { rewrite Hv. destruct full_range; cbv beta iota; ring. }
  split; [exact Hv'|].
  rewrite Hv'. intros E.
  assert (Hd : ~ inject_Z (if full_range then 2 ^ (num_bits - 1) else 2 ^ (num_bits - 1) - 1) == 0).
  { apply inject_Z_nonzero. destruct full_range; lia. }
  pose proof (Qmult_div_r 1 _ Hd) as Hm. rewrite E in Hm.
  rewrite Qmult_0_r in Hm. discriminate Hm.
Qed.

Lemma sym_scale_zero_row_witness :
  (2 <= 4)%Z /\ Forall (fun w => w == 0) [0; 0] /\
  exists scale,
    sym_scale 4 1 false [0; 0] = Ok scale /\
    scale == 1 / inject_Z (2 ^ (4 - 1) - 1) /\ ~ scale == 0.
Proof.
  split; [lia|]. split; [repeat constructor; reflexivity|].
  apply (sym_scale_zero_row 4 1 false [0; 0]);
    [lia | discriminate | repeat constructor; reflexivity].
Defined.

(** C8 as stated fails: at 4 bits the scale of an all-zero row is 1/7. *)
Lemma sym_scale_zero_row_not_one :
  ~ (forall (num_bits : Z) (quantile : Q) (full_range : bool) (row : list Q) (scale : Q),
        (0 < num_bits)%Z -> row <> [] -> Forall (fun w => w == 0) row ->
        sym_scale num_bits quantile full_range row = Ok scale -> scale == 1).
Proof.
  intros H.
  assert (E : (1 # 7) == 1).
  { apply (H 4%Z 1 false [0; 0] (1 # 7)).
    - lia.
    - discriminate.
    - repeat constructor; reflexivity.
    - reflexivity. }
  discriminate E.
Qed.

(** C2 (amended).  With two or more bits the symmetric scale is
    [wmax / 2^(bits-1)] under [full_range], negated exactly when
    |max| > |min| (the flag computed by the code), and
    [wmax / (2^(bits-1) - 1)], never negated, otherwise. *)
Theorem sym_scale_divisor_and_flip (num_bits : Z) (quantile : Q) (full_range : bool)
        (row : list Q) (max_val min_val : Q) :
  (2 <= num_bits)%Z -> row_max row = Ok max_val -> row_min row = Ok min_val ->
  exists scale,
    sym_scale num_bits quantile full_range row = Ok scale /\
    (full_range = true -> Qabs min_val < Qabs max_val ->
     scale == - (sym_wmax quantile max_val min_val / inject_Z (2 ^ (num_bits - 1)))) /\
    (full_range = true -> Qabs max_val <= Qabs min_val ->
     scale == sym_wmax quantile max_val min_val / inject_Z (2 ^ (num_bits - 1))) /\
    (full_range = false ->
     scale == sym_wmax quantile max_val min_val / inject_Z (2 ^ (num_bits - 1) - 1)) /\
    (0 <= quantile ->
     (full_range = true -> (scale < 0 <-> Qabs min_val < Qabs max_val)) /\
     (full_range = false -> 0 < scale)).
Proof.
  intros Hb Hmax Hmin.
  destruct (sym_scale_value num_bits quantile full_range row _ _ Hb Hmax Hmin)
    as [scale [Hs Hv]].
  exists scale. split; [exact Hs|].
  pose proof (pow2_ge2 (num_bits - 1) ltac:(lia)) as Hp.
  assert (Hflip : Qabs min_val < Qabs max_val ->
                  Qle_bool (Qabs max_val) (Qabs min_val) = false).
  { intros Hlt. destruct (Qle_bool _ _) eqn:E; [|reflexivity].
    apply Qle_bool_iff in E. exfalso. apply (Qlt_not_le _ _ Hlt E). }
  assert (Hkeep : Qabs max_val <= Qabs min_val ->
                  Qle_bool (Qabs max_val) (Qabs min_val) = true).
  { intros Hle. apply Qle_bool_iff. exact Hle. }
  split; [|split; [|split]].
  - intros -> Hlt. rewrite Hv, (Hflip Hlt). ring.
  - intros -> Hle. rewrite Hv, (Hkeep Hle). ring.
  - intros ->. exact Hv.
  - intros Hq.
    assert (Hw : 0 < sym_wmax quantile max_val min_val).
    { unfold sym_wmax. destruct (Qeq_bool _ 0) eqn:E; [reflexivity|].
      apply Qeq_bool_neq in E.
      assert (Hn : 0 <= Qmax (Qabs max_val) (Qabs min_val) * quantile).
      { apply Qmult_le_0_compat; [|exact Hq].
        apply Qle_trans with (Qabs max_val); [apply Qabs_nonneg|apply Q.le_max_l]. }
      apply Qle_lteq in Hn. destruct Hn as [Hn|Hn]; [exact Hn|].
      exfalso. apply E. symmetry. exact Hn. }
    assert (Hd1 : 0 < inject_Z (2 ^ (num_bits - 1))).
    { unfold Qlt, inject_Z. simpl. lia. }
    assert (Hd2 : 0 < inject_Z (2 ^ (num_bits - 1) - 1)).
    { unfold Qlt, inject_Z. simpl. lia. }
    split.
    + intros ->.
      assert (Hpos : 0 < sym_wmax quantile max_val min_val / inject_Z (2 ^ (num_bits - 1))).
      { apply Qlt_shift_div_l; [exact Hd1|]. rewrite Qmult_0_l. exact Hw. }
      destruct (Qlt_le_dec (Qabs min_val) (Qabs max_val)) as [Hlt|Hle].
      * split; [intros _; exact Hlt|]. intros _.
        rewrite Hv, (Hflip Hlt).
        setoid_replace (- (1) * (sym_wmax quantile max_val min_val / inject_Z (2 ^ (num_bits - 1))))
          with (- (sym_wmax quantile max_val min_val / inject_Z (2 ^ (num_bits - 1)))) by ring.
        apply Qopp_lt_compat in Hpos. exact Hpos.
      * split.
        -- intros Hneg. exfalso. rewrite Hv, (Hkeep Hle) in Hneg.
           rewrite Qmult_1_l in Hneg. apply (Qlt_irrefl 0).
           apply Qlt_trans with (sym_wmax quantile max_val min_val / inject_Z (2 ^ (num_bits - 1)));
             assumption.
        -- intros Hlt. exfalso. apply (Qlt_not_le _ _ Hlt Hle).
    + intros ->. rewrite Hv.
      apply Qlt_shift_div_l; [exact Hd2|]. rewrite Qmult_0_l. exact Hw.
Qed.

Lemma sym_scale_divisor_and_flip_witness :
  exists scale,
    sym_scale 4 1 true [3; - (1)] = Ok scale /\
    (true = true -> Qabs (- (1)) < Qabs 3 ->
     scale == - (sym_wmax 1 3 (- (1)) / inject_Z (2 ^ (4 - 1)))) /\
    (true = true -> Qabs 3 <= Qabs (- (1)) ->
     scale == sym_wmax 1 3 (- (1)) / inject_Z (2 ^ (4 - 1))) /\
    (true = false ->
     scale == sym_wmax 1 3 (- (1)) / inject_Z (2 ^ (4 - 1) - 1)) /\
    (0 <= 1 ->
     (true = true -> (scale < 0 <-> Qabs (- (1)) < Qabs 3)) /\
     (true = false -> 0 < scale)).
Proof.
  apply (sym_scale_divisor_and_flip 4 1 true [3; - (1)] 3 (- (1)));
    [lia | reflexivity | reflexivity].
Defined.

(** C2 as stated fails: on the row [3; -1], where |min| < |max|, the
    full-range scale is negative. *)
Lemma sym_scale_flip_not_on_abs_min :
  ~ (forall (num_bits : Z) (quantile : Q) (row : list Q) (max_val min_val scale : Q),
        (2 <= num_bits)%Z -> 0 < quantile ->
        row_max row = Ok max_val -> row_min row = Ok min_val ->
        sym_scale num_bits quantile true row = Ok scale ->
        (scale < 0 <-> Qabs max_val < Qabs min_val)).
Proof.
  intros H.
  assert (Hs : exists scale, sym_scale 4 1 true [3; - (1)] = Ok scale /\ scale < 0).
  { eexists. split; [vm_compute; reflexivity|reflexivity]. }
  destruct Hs as [scale [Hs Hneg]].
  assert (F : Qabs 3 < Qabs (- (1))).
  { apply (H 4%Z 1 [3; - (1)] 3 (- (1)) scale); try reflexivity; [lia|exact Hs|exact Hneg]. }
  discriminate F.
Qed.

(** ** Lookup codec, code tables, bit-width guard *)

(** C3, at the failing input.  The lookup codec has no guard for an
    all-zero row: its scale is 0, every quotient [w / scale] is 0/0,
    and the zero scale is handed back to the caller. *)
Theorem quantize_4bit_zero_row_scale :
  exists scale,
    q4_scale NF4 1 [0; 0] = Ok scale /\
    scale == 0 /\
    map (fun w => float_div w scale) [0; 0] = [NaN; NaN] /\
    quantize_4bit (mkT 2 [[0; 0]]) 1 "nf4" true
    = Ok (QInt (mkT 2 [[0; 0]%Z]) (column [scale]) None).
Proof.
  eexists. split; [vm_compute; reflexivity|].
  split; [reflexivity|]. split; vm_compute; reflexivity.
Qed.

(** C4 (amended).  NF4 has 16 levels, the two FP4 tables have 15; each
    table is strictly ascending, its codes are pairwise distinct, lie
    in [-8, 7] and are as many as the floats. *)
Theorem code_tables_levels :
  length NF4 = 16%nat /\ length FP4_BNB = 15%nat /\ length FP4_E2M1 = 15%nat /\
  Forall (fun fam =>
            StronglySorted Qlt (fst fam) /\
            NoDup (snd fam) /\
            Forall (fun c => (-8 <= c <= 7)%Z) (snd fam) /\
            length (snd fam) = length (fst fam))
         families /\
  (forall data_type allow_data allow_data_bit,
      dict_get FLOAT_MAPPING data_type = Some allow_data ->
      dict_get INT_MAPPING data_type = Some allow_data_bit ->
      In (allow_data, allow_data_bit) families).
Proof.
  split; [reflexivity|]. split; [reflexivity|]. split; [reflexivity|]. split.
  - unfold families, NF4, FP4_BNB, FP4_E2M1, NF4_BIT, FP4_BNB_BIT, FP4_E2M1_BIT.
    repeat (apply Forall_cons || apply Forall_nil); cbn [fst snd];
      (split; [|split; [|split]]);
      try reflexivity;
      try (repeat (apply SSorted_cons || apply SSorted_nil || apply Forall_cons || apply Forall_nil);
           reflexivity);
      try (repeat (apply NoDup_cons || apply NoDup_nil); cbn [In]; intuition discriminate);
      try (repeat (apply Forall_cons || apply Forall_nil); lia).
  - intros data_type allow_data allow_data_bit Hf Hi.
    unfold FLOAT_MAPPING, INT_MAPPING in *. cbn [dict_get] in *.
    repeat match type of Hf with
           | (if ?c then _ else _) = _ =>
               destruct c; [inversion Hf; inversion Hi; subst; cbn; auto|]
           end.
    discriminate.
Qed.

(** C4 as stated fails: the FP4 tables do not have 16 levels. *)
Lemma fp4_tables_not_16_levels :
  ~ (forall fam, In fam families -> length (fst fam) = 16%nat /\ length (snd fam) = 16%nat).
Proof.
  intros H. destruct (H (FP4_BNB, FP4_BNB_BIT)) as [E _].
  - cbn. auto.
  - discriminate E.
Qed.

(** C7 (amended).  With a non-positive bit width [quant_weight] hands
    the weight back unchanged; the assertion of [qdq_weight_actor] is
    what fails on such a width. *)
Theorem quant_weight_nonpositive_bits (weight : tensor Q) (num_bits group_size : Z)
        (scheme : string) (quantile : Q) (data_type : string) (return_int full_range : bool) :
  (num_bits <= 0)%Z ->
  quant_weight weight num_bits group_size scheme quantile data_type return_int full_range
  = Ok (QFloat weight) /\
  qdq_weight_actor weight num_bits scheme quantile data_type return_int full_range
  = Raise (AssertionError "num_bits should be larger than 0").
Proof.
  intros H. unfold quant_weight, qdq_weight_actor.
  destruct (Z.leb_spec num_bits 0); [|lia].
  destruct (Z.ltb_spec 0 num_bits); [lia|].
  split; reflexivity.
Qed.

Lemma quant_weight_nonpositive_bits_witness :
  (0 <= 0)%Z /\
  quant_weight sample_weight 0 32 "asym" 1 "int" true false = Ok (QFloat sample_weight) /\
  qdq_weight_actor sample_weight 0 "asym" 1 "int" true false
  = Raise (AssertionError "num_bits should be larger than 0").
Proof.
  split; [lia|].
  apply (quant_weight_nonpositive_bits sample_weight 0 32 "asym" 1 "int" true false). lia.
Defined.

(** C7 as stated fails: no error reaches the caller of [quant_weight]. *)
Lemma quant_weight_zero_bits_no_error :
  ~ (forall (weight : tensor Q) (num_bits : Z),
        (num_bits <= 0)%Z ->
        exists e, quant_weight weight num_bits 32 "asym" 1 "int" false false = Raise e).
Proof.
  intros H. destruct (H sample_weight 0%Z ltac:(lia)) as [e E].
  discriminate E.
Qed.

(** ** Lookup codec: the buckets partition the line *)

Lemma Qplus_0_r_eq (x : Q) : x + 0 = x.
Proof.
  destruct x as [n d]. unfold Qplus. cbn [Qnum Qden].
  rewrite Z.mul_1_r, Z.mul_0_l, Z.add_0_r, Pos.mul_1_r. reflexivity.
Qed.

Lemma Qplus_0_l_eq (x : Q) : 0 + x = x.
Proof.
  destruct x as [n d]. unfold Qplus. cbn [Qnum Qden].
  rewrite Z.mul_0_l, Z.add_0_l, Z.mul_1_r, Pos.mul_1_l. reflexivity.
Qed.

Lemma bucket_index_le (mid : list Q) (t : Q) : (bucket_index mid t <= length mid)%nat.
Proof. unfold bucket_index. apply filter_length_le. Qed.

Lemma nth_below_iff (mid : list Q) (t : Q) :
  StronglySorted Qlt mid ->
  forall j, (j < length mid)%nat ->
       (negb (Qle_bool t (nth j mid 0)) = true <-> (j < bucket_index mid t)%nat).
Proof.
  induction 1 as [|m ms Hs IH Hall]; intros j Hj; [inversion Hj|].
  unfold bucket_index in *. cbn [filter].
  destruct (negb (Qle_bool t m)) eqn:E.
  - destruct j as [|j]; cbn [nth length].
    + rewrite E. split; [intros _; lia|reflexivity].
    + cbn [length] in Hj. rewrite (IH j) by lia. lia.
  - assert (Hnone : filter (fun m0 => negb (Qle_bool t m0)) ms = []).
    { apply negb_false_iff, Qle_bool_iff in E.
      clear IH Hs Hj. induction ms as [|y ys IHy]; [reflexivity|].
      inversion Hall; subst. cbn [filter].
      assert (Ey : negb (Qle_bool t y) = false).
      { apply negb_false_iff, Qle_bool_iff.
        apply Qle_trans with m; [exact E|apply Qlt_le_weak; assumption]. }
      rewrite Ey. apply IHy. assumption. }
    rewrite Hnone. cbn [length].
    destruct j as [|j]; cbn [nth].
    + rewrite E. split; [discriminate|lia].
    + split; [|lia]. intros Hb. exfalso.
      cbn [length] in Hj.
      assert (Hin : In (nth j ms 0) ms) by (apply nth_In; lia).
      assert (Hf : In (nth j ms 0) (filter (fun m0 => negb (Qle_bool t m0)) ms)).
      { apply filter_In. split; assumption. }
      rewrite Hnone in Hf. inversion Hf.
Qed.

(** For strictly ascending midpoints the conditions of the loop hold
    at exactly one level. *)
Lemma bucket_cond_iff (mid : list Q) (t : Q) (i : nat) :
  StronglySorted Qlt mid -> (1 <= length mid)%nat -> (i <= length mid)%nat ->
  (bucket_cond mid (S (length mid)) i (Finite t) = true <-> i = bucket_index mid t).
Proof.
  intros Hs Hlen Hi.
  pose proof (bucket_index_le mid t) as Hk.
  pose proof (nth_below_iff mid t Hs) as Hn.
  unfold bucket_cond. cbn [xle xgt].
  replace (S (length mid) - 1)%nat with (length mid) by lia.
  destruct (Nat.eqb_spec i 0) as [->|Hi0].
  - specialize (Hn 0%nat ltac:(lia)).
    destruct (Qle_bool t (nth 0 mid 0)); cbn [negb] in Hn.
    + split; [intros _|reflexivity].
      destruct (bucket_index mid t); [reflexivity|].
      assert (false = true) by (apply Hn; lia). discriminate.
    + split; [discriminate|]. intros E.
      assert (0 < bucket_index mid t)%nat by (apply Hn; reflexivity). lia.
  - destruct (Nat.eqb_spec i (length mid)) as [->|Hil].
    + specialize (Hn (length mid - 1)%nat ltac:(lia)). rewrite Hn. lia.
    + pose proof (Hn (i - 1)%nat ltac:(lia)) as H1.
      pose proof (Hn i ltac:(lia)) as H2.
      rewrite andb_true_iff, H1.
      destruct (Qle_bool t (nth i mid 0)); cbn [negb] in H2.
      * split.
        -- intros [Ha _].
           destruct (Nat.lt_ge_cases i (bucket_index mid t)) as [Hlt|Hge]; [|lia].
           apply H2 in Hlt. discriminate.
        -- intros ->. split; [lia|reflexivity].
      * split; [intros [_ Hb]; discriminate|].
        intros E. assert (i < bucket_index mid t)%nat by (apply H2; reflexivity). lia.
Qed.

(** A sum of terms that are all zero but the [k]-th is that term. *)
Lemma onehot_fold (f : nat -> bool) (d : nat -> Q) (k : nat) :
  forall len a acc,
    (forall i, (a <= i < a + len)%nat -> (f i = true <-> i = k)) ->
    fold_left (fun acc i => acc + (if f i then d i else 0)) (seq a len) acc
    = if ((a <=? k) && (k <? a + len))%nat then acc + d k else acc.
Proof.
  induction len as [|len IH]; intros a acc Hf.
  - cbn [seq fold_left]. replace (a + 0)%nat with a by lia.
    destruct (Nat.leb_spec a k), (Nat.ltb_spec k a); try reflexivity; lia.
  - cbn [seq fold_left]. rewrite IH by (intros i Hi; apply Hf; lia).
    pose proof (Hf a ltac:(lia)) as Ha.
    destruct (f a) eqn:E.
    + assert (a = k) by (apply Ha; reflexivity). subst a.
      destruct (Nat.leb_spec (S k) k); [lia|].
      destruct (Nat.leb_spec k k); [|lia].
      destruct (Nat.ltb_spec k (k + S len)); [|lia]. reflexivity.
    + assert (a <> k) by (intros ->; assert (false = true) by (apply Ha; reflexivity); discriminate).
      rewrite Qplus_0_r_eq.
      destruct (Nat.leb_spec (S a) k), (Nat.leb_spec a k),
               (Nat.ltb_spec k (S a + len)), (Nat.ltb_spec k (a + S len));
        try reflexivity; lia.
Qed.

Lemma bucket_sum_value (mid data : list Q) (t : Q) :
  StronglySorted Qlt mid -> (1 <= length mid)%nat ->
  bucket_sum mid data (S (length mid)) (Finite t) = nth (bucket_index mid t) data 0.
Proof.
  intros Hs Hlen. unfold bucket_sum.
  rewrite (onehot_fold _ (fun i => nth i data 0) (bucket_index mid t)).
  - pose proof (bucket_index_le mid t).
    destruct (Nat.leb_spec 0 (bucket_index mid t)); [|lia].
    destruct (Nat.ltb_spec (bucket_index mid t) (0 + S (length mid))); [|lia].
    cbn [andb]. apply Qplus_0_l_eq.
  - intros i Hi. apply bucket_cond_iff; [assumption|assumption|lia].
Qed.

Lemma ascendingb_sound (l : list Q) : ascendingb l = true -> StronglySorted Qlt l.
Proof.
  intros H. apply Sorted_StronglySorted.
  - intros x y z. apply Qlt_trans.
  - induction l as [|x l IH]; [constructor|].
    cbn [ascendingb] in H. destruct l as [|y l'].
    + repeat constructor.
    + apply andb_true_iff in H. destruct H as [Hxy Hrest].
      constructor; [apply IH; exact Hrest|].
      constructor. apply Qnot_le_lt. intros Hle.
      apply Qle_bool_iff in Hle. rewrite Hle in Hxy. discriminate.
Qed.

Lemma families_mid_sorted (fam : list Q * list Z) :
  In fam families ->
  StronglySorted Qlt (mid_data (fst fam)) /\
  length (fst fam) = S (length (mid_data (fst fam))) /\
  (1 <= length (mid_data (fst fam)))%nat /\
  length (snd fam) = length (fst fam) /\
  Forall (fun c => (-8 <= c <= 7)%Z) (snd fam).
Proof.
  unfold families. cbn [In].
  intros [<-|[<-|[<-|[]]]]; cbn [fst snd].
  all: split; [apply ascendingb_sound; vm_compute; reflexivity|].
  all: split; [vm_compute; reflexivity|].
  all: split; [vm_compute; lia|].
  all: split; [vm_compute; reflexivity|].
  all: repeat (apply Forall_cons || apply Forall_nil); lia.
Qed.

Lemma Qtrunc_inject_Z (z : Z) : Qtrunc (inject_Z z) = z.
Proof.
  unfold Qtrunc. destruct (Qle_bool 0 (inject_Z z)).
  - apply Qfloor_Z.
  - apply Qceiling_Z.
Qed.

Lemma to_int8_small (z : Z) : (-128 <= z <= 127)%Z -> to_int8 z = z.
Proof.
  intros H. unfold to_int8, wrap_signed.
  change (2 ^ (8 - 1))%Z with 128%Z. change (2 ^ 8)%Z with 256%Z.
  rewrite Z.mod_small by lia. lia.
Qed.



(** ** Asymmetric codec against the specification *)

Lemma mapM_pure {A B : Type} (f : A -> outcome B) (g : A -> B) (l : list A) :
  (forall a, In a l -> f a = Ok (g a)) -> mapM f l = Ok (map g l).
Proof.
  induction l as [|a l IH]; intros H; [reflexivity|].
  cbn [mapM map]. rewrite (H a (or_introl eq_refl)). cbn [bind].
  rewrite IH by (intros b Hb; apply H; right; exact Hb). reflexivity.
Qed.

Lemma mapM_Forall2 {A B : Type} (f : A -> outcome B) (P : A -> B -> Prop) (l : list A) :
  (forall a, In a l -> exists b, f a = Ok b /\ P a b) ->
  exists bs, mapM f l = Ok bs /\ Forall2 P l bs.
Proof.
  induction l as [|a l IH]; intros H.
  - exists []. split; [reflexivity|constructor].
  - destruct (H a (or_introl eq_refl)) as [b [Hb Pb]].
    destruct IH as [bs [Hbs Pbs]]; [intros x Hx; apply H; right; exact Hx|].
    exists (b :: bs). cbn [mapM]. rewrite Hb. cbn [bind]. rewrite Hbs. cbn [bind].
    split; [reflexivity|constructor; assumption].
Qed.

Lemma Forall2_map_right {A B C : Type} (P : A -> B -> Prop) (R : A -> C -> Prop)
      (h : B -> C) (l : list A) (bs : list B) :
  Forall2 P l bs -> (forall a b, P a b -> R a (h b)) -> Forall2 R l (map h bs).
Proof.
  intros HF HR. induction HF; cbn [map]; constructor; auto.
Qed.

Lemma Forall2_length_eq {A B : Type} (P : A -> B -> Prop) (l : list A) (bs : list B) :
  Forall2 P l bs -> length bs = length l.
Proof. induction 1; cbn [length]; congruence. Qed.

#[local] Instance round_half_even_comp : Proper (Qeq ==> eq) round_half_even.
Proof.
  intros x y E. unfold round_half_even.
  rewrite (Qfloor_comp x y E).
  assert (E2 : x - inject_Z (Qfloor y) == y - inject_Z (Qfloor y)) by (rewrite E; reflexivity).
  rewrite (Qcompare_comp _ _ E2 (1 # 2) (1 # 2) (Qeq_refl _)). reflexivity.
Qed.

Lemma Qdiv_zero_num (a b : Q) : ~ b == 0 -> a / b == 0 -> a == 0.
Proof.
  intros Hb E. rewrite <- (Qmult_div_r a b Hb), E. apply Qmult_0_r.
Qed.

(** The bounds of the asymmetric codec after the all-zero guard differ. *)
Lemma asym_bounds_differ (mn mx quantile : Q) :
  let wmin := Qmin mn 0 * quantile in
  let wmax := Qmax mx 0 * quantile in
  let tmp := Qeq_bool wmin 0 && Qeq_bool wmax 0 in
  ~ (if tmp then 1 else wmax) - (if tmp then - (1) else wmin) == 0.
Proof.
  intros wmin wmax tmp. destruct tmp eqn:E; [discriminate|].
  intros H. assert (Hp : (Qmax mx 0 - Qmin mn 0) * quantile == 0).
  { cbv iota in H. transitivity (wmax - wmin); [unfold wmin, wmax; ring|exact H]. }
  assert (Hboth : wmin == 0 /\ wmax == 0).
  { apply Qmult_integral in Hp. destruct Hp as [Hd|Hq].
    - assert (H1 : 0 <= Qmax mx 0) by apply Q.le_max_r.
      assert (H2 : Qmin mn 0 <= 0) by apply Q.le_min_r.
      assert (H3 : Qmax mx 0 == Qmin mn 0).
      { transitivity (Qmax mx 0 - Qmin mn 0 + Qmin mn 0); [ring|].
        rewrite Hd. apply Qplus_0_l. }
      assert (H4 : Qmax mx 0 == 0).
      { apply Qle_antisym; [rewrite H3; exact H2|exact H1]. }
      assert (H5 : Qmin mn 0 == 0) by (rewrite <- H3; exact H4).
      unfold wmin, wmax. rewrite H4, H5. split; ring.
    - unfold wmin, wmax. rewrite Hq. split; ring. }
  destruct Hboth as [Ha Hb].
  unfold tmp in E. rewrite (Qeq_eq_bool _ _ Ha), (Qeq_eq_bool _ _ Hb) in E. discriminate.
Qed.

(** One row of the asymmetric codec, for a non-empty row and one or
    more bits: no division by zero, and the three results. *)
Lemma asym_row_value (num_bits : Z) (quantile : Q) (x : Q) (r : list Q) :
  (1 <= num_bits)%Z ->
  let maxq := (2 ^ num_bits - 1)%Z in
  let wmin0 := Qmin (fold_left Qmin r x) 0 * quantile in
  let wmax0 := Qmax (fold_left Qmax r x) 0 * quantile in
  let tmp := Qeq_bool wmin0 0 && Qeq_bool wmax0 0 in
  let wmin := if tmp then - (1) else wmin0 in
  let wmax := if tmp then 1 else wmax0 in
  let scale := (wmax - wmin) / inject_Z maxq in
  let zp := round_half_even (- wmin / scale) in
  ~ scale == 0 /\
  qdq_weight_asym_row num_bits quantile (x :: r)
  = Ok (map (fun w => clamp (round_half_even (w / scale) + zp) 0 maxq) (x :: r), scale, zp).
Proof.
  intros Hb maxq wmin0 wmax0 tmp wmin wmax scale zp.
  pose proof (pow2_ge2 num_bits Hb) as Hp.
  assert (Hm : ~ inject_Z maxq == 0) by (apply inject_Z_nonzero; unfold maxq; lia).
  assert (Hs : ~ scale == 0).
  { intros E. apply (Qdiv_zero_num _ _ Hm) in E.
    apply (asym_bounds_differ (fold_left Qmin r x) (fold_left Qmax r x) quantile). exact E. }
  split; [exact Hs|].
  unfold qdq_weight_asym_row. cbn [row_min row_max bind].
  fold maxq. fold wmin0. fold wmax0. fold tmp. fold wmin. fold wmax.
  rewrite (qdiv_ok _ _ Hm). cbn [bind]. fold scale.
  rewrite (qdiv_ok _ _ Hs). cbn [bind]. fold zp.
  rewrite (mapM_pure _ (fun w => clamp (round_half_even (w / scale) + zp) 0 maxq)).
  - reflexivity.
  - intros a _. rewrite (qdiv_ok _ _ Hs). reflexivity.
Qed.

Lemma Qmin_scale_nonneg (m quantile : Q) :
  0 <= quantile -> Qmin m 0 * quantile == Qmin 0 (m * quantile).
Proof.
  intros Hq. destruct (Qlt_le_dec m 0) as [Hlt|Hge].
  - assert (Hm : m <= 0) by (apply Qlt_le_weak; exact Hlt).
    rewrite (Q.min_l m 0 Hm).
    assert (H : m * quantile <= 0).
    { rewrite <- (Qmult_0_l quantile). apply Qmult_le_compat_r; assumption. }
    rewrite (Q.min_r 0 (m * quantile) H). reflexivity.
  - rewrite (Q.min_r m 0 Hge).
    assert (H : 0 <= m * quantile) by (apply Qmult_le_0_compat; assumption).
    rewrite (Q.min_l 0 (m * quantile) H). ring.
Qed.

Lemma Qmax_scale_nonneg (m quantile : Q) :
  0 <= quantile -> Qmax m 0 * quantile == Qmax 0 (m * quantile).
Proof.
  intros Hq. destruct (Qlt_le_dec m 0) as [Hlt|Hge].
  - assert (Hm : m <= 0) by (apply Qlt_le_weak; exact Hlt).
    rewrite (Q.max_r m 0 Hm).
    assert (H : m * quantile <= 0).
    { rewrite <- (Qmult_0_l quantile). apply Qmult_le_compat_r; assumption. }
    rewrite (Q.max_l 0 (m * quantile) H). ring.
  - rewrite (Q.max_l m 0 Hge).
    assert (H : 0 <= m * quantile) by (apply Qmult_le_0_compat; assumption).
    rewrite (Q.max_r 0 (m * quantile) H). reflexivity.
Qed.

(** One row of the code against the specification's formulas. *)
Lemma asym_row_refines (num_bits : Z) (quantile : Q) (row : list Q) :
  (1 <= num_bits)%Z -> 0 <= quantile -> row <> [] ->
  exists scale,
    qdq_weight_asym_row num_bits quantile row
    = Ok (map (spec_asym_q num_bits quantile row) row, scale,
          spec_asym_zero_point num_bits quantile row) /\
    scale == spec_asym_scale num_bits quantile row /\
    ~ scale == 0.
Proof.
  intros Hb Hq Hne. destruct row as [|x r]; [congruence|].
  destruct (asym_row_value num_bits quantile x r Hb) as [Hs Hv].
  cbv zeta in Hs, Hv.
  set (wmin0 := Qmin (fold_left Qmin r x) 0 * quantile) in *.
  set (wmax0 := Qmax (fold_left Qmax r x) 0 * quantile) in *.
  set (tmp := Qeq_bool wmin0 0 && Qeq_bool wmax0 0) in *.
  set (wmin := if tmp then - (1) else wmin0) in *.
  set (wmax := if tmp then 1 else wmax0) in *.
  set (scale := (wmax - wmin) / inject_Z (2 ^ num_bits - 1)) in *.
  assert (E1 : wmin0 == Qmin 0 (spec_min (x :: r) * quantile))
    by (apply Qmin_scale_nonneg; exact Hq).
  assert (E2 : wmax0 == Qmax 0 (spec_max (x :: r) * quantile))
    by (apply Qmax_scale_nonneg; exact Hq).
  assert (Et : tmp = Qeq_bool (Qmin 0 (spec_min (x :: r) * quantile)) 0
                     && Qeq_bool (Qmax 0 (spec_max (x :: r) * quantile)) 0).
  { unfold tmp. rewrite E1, E2. reflexivity. }
  assert (Emin : wmin == spec_asym_wmin quantile (x :: r)).
  { unfold wmin, spec_asym_wmin. rewrite <- Et. destruct tmp; [reflexivity|exact E1]. }
  assert (Emax : wmax == spec_asym_wmax quantile (x :: r)).
  { unfold wmax, spec_asym_wmax. rewrite <- Et. destruct tmp; [reflexivity|exact E2]. }
  assert (Es : scale == spec_asym_scale num_bits quantile (x :: r)).
  { unfold scale, spec_asym_scale. rewrite Emin, Emax. reflexivity. }
  assert (Ez : round_half_even (- wmin / scale) = spec_asym_zero_point num_bits quantile (x :: r)).
  { unfold spec_asym_zero_point. rewrite Emin, Es. reflexivity. }
  exists scale. split; [|split; [exact Es|exact Hs]].
  rewrite Hv, Ez.
  rewrite (map_ext _ (spec_asym_q num_bits quantile (x :: r))); [reflexivity|].
  intros w. unfold spec_asym_q. rewrite Es. reflexivity.
Qed.

Lemma round_half_even_bounds (x : Q) (m : Z) :
  0 <= x -> x <= inject_Z m -> (0 <= round_half_even x <= m)%Z.
Proof.
  intros H0 Hm.
  pose proof (Qfloor_le x) as Hf1. pose proof (Qlt_floor x) as Hf2.
  assert (Hf0 : (0 <= Qfloor x)%Z).
  { assert (H : inject_Z 0 < inject_Z (Qfloor x + 1)).
    { apply Qle_lt_trans with x; assumption. }
    rewrite <- Zlt_Qlt in H. lia. }
  assert (Hfm : (Qfloor x <= m)%Z).
  { rewrite Zle_Qle. apply Qle_trans with x; assumption. }
  unfold round_half_even.
  assert (Hup : 1 # 2 <= x - inject_Z (Qfloor x) -> (Qfloor x + 1 <= m)%Z).
  { intros Hh. destruct (Z.eq_dec (Qfloor x) m) as [E|E]; [|lia].
    exfalso. rewrite E in Hh.
    assert (Hc : x - inject_Z m <= 0).
    { apply Qle_minus_iff in Hm. apply Qle_minus_iff.
      setoid_replace (0 + - (x - inject_Z m)) with (inject_Z m + - x) by ring. exact Hm. }
    assert (Hbad : 1 # 2 <= 0) by (apply Qle_trans with (x - inject_Z m); assumption).
    exact (Hbad eq_refl). }
  destruct (Qcompare_spec (x - inject_Z (Qfloor x)) (1 # 2)) as [E|E|E].
  - assert (Hh : 1 # 2 <= x - inject_Z (Qfloor x)) by (rewrite E; apply Qle_refl).
    specialize (Hup Hh). destruct (Z.even (Qfloor x)); lia.
  - lia.
  - specialize (Hup (Qlt_le_weak _ _ E)). lia.
Qed.

Lemma clamp_bounds (x lo hi : Z) : (lo <= hi)%Z -> (lo <= clamp x lo hi <= hi)%Z.
Proof. intros H. unfold clamp. lia. Qed.

Lemma to_uint8_small (z : Z) : (0 <= z <= 255)%Z -> to_uint8 z = z.
Proof.
  intros H. unfold to_uint8, wrap_unsigned. change (2 ^ 8)%Z with 256%Z.
  apply Z.mod_small. lia.
Qed.

Lemma spec_asym_wmin_nonpos (quantile : Q) (row : list Q) : spec_asym_wmin quantile row <= 0.
Proof.
  unfold spec_asym_wmin. destruct (_ && _); [discriminate|apply Q.le_min_l].
Qed.

Lemma spec_asym_wmax_nonneg (quantile : Q) (row : list Q) : 0 <= spec_asym_wmax quantile row.
Proof.
  unfold spec_asym_wmax. destruct (_ && _); [discriminate|apply Q.le_max_l].
Qed.

(** The zero point of the specification lies in [0, 2^bits - 1]. *)
Lemma spec_asym_zero_point_bounds (num_bits : Z) (quantile : Q) (row : list Q) :
  (1 <= num_bits)%Z ->
  ~ spec_asym_scale num_bits quantile row == 0 ->
  (0 <= spec_asym_zero_point num_bits quantile row <= 2 ^ num_bits - 1)%Z.
Proof.
  intros Hb Hs. unfold spec_asym_zero_point.
  pose proof (pow2_ge2 num_bits Hb) as Hp.
  pose proof (spec_asym_wmin_nonpos quantile row) as Hmin.
  pose proof (spec_asym_wmax_nonneg quantile row) as Hmax.
  set (wmin := spec_asym_wmin quantile row) in *.
  set (wmax := spec_asym_wmax quantile row) in *.
  set (m := inject_Z (2 ^ num_bits - 1)).
  assert (Hm : 0 < m) by (unfold m, Qlt, inject_Z; simpl; lia).
  assert (Hd : 0 <= wmax - wmin).
  { apply Qle_minus_iff in Hmin. setoid_replace (wmax - wmin) with (wmax + (0 + - wmin)) by ring.
    rewrite <- (Qplus_0_l 0). apply Qplus_le_compat; assumption. }
  assert (Hd' : 0 < wmax - wmin).
  { apply Qle_lteq in Hd. destruct Hd as [Hd|Hd]; [exact Hd|].
    exfalso. apply Hs. unfold spec_asym_scale. fold wmin wmax. rewrite <- Hd.
    unfold Qdiv. apply Qmult_0_l. }
  assert (Hsc : 0 < spec_asym_scale num_bits quantile row).
  { unfold spec_asym_scale. fold wmin wmax m.
    apply Qlt_shift_div_l; [exact Hm|]. rewrite Qmult_0_l. exact Hd'. }
  assert (Hn : 0 <= - wmin).
  { apply Qle_minus_iff in Hmin. rewrite Qplus_0_l in Hmin. exact Hmin. }
  apply round_half_even_bounds.
  - apply Qle_shift_div_l; [exact Hsc|]. rewrite Qmult_0_l. exact Hn.
  - apply Qle_shift_div_r; [exact Hsc|]. fold m.
    unfold spec_asym_scale. fold wmin wmax m.
    setoid_replace (m * ((wmax - wmin) / m)) with (wmax - wmin)
      by (apply Qmult_div_r; intros E; rewrite E in Hm; discriminate Hm).
    apply Qle_minus_iff. setoid_replace (wmax - wmin + - - wmin) with wmax by ring.
    exact Hmax.
Qed.

Lemma wf_rows_nonempty {A : Type} (t : tensor A) (row : list A) :
  wf t -> ncols t <> 0%nat -> In row (trows t) -> row <> [].
Proof.
  intros Hwf Hc Hin. unfold wf in Hwf. rewrite Forall_forall in Hwf.
  specialize (Hwf row Hin). intros ->. cbn in Hwf. congruence.
Qed.

Lemma Forall2_map_pointwise {A B : Type} (R : B -> B -> Prop) (f g : A -> B) (l : list A) :
  (forall a, R (f a) (g a)) -> Forall2 R (map f l) (map g l).
Proof. intros H. induction l; cbn [map]; constructor; auto. Qed.

(** C5.  For a non-negative quantile the asymmetric codec computes, row
    by row, the bounds, scale, zero point, quantized values and
    de-quantized output of the specification; up to 8 bits the
    conversion to uint8 of the integer output changes nothing. *)
Theorem qdq_weight_asym_refines_spec (weight : tensor Q) (num_bits : Z) (quantile : Q) :
  (1 <= num_bits)%Z -> 0 <= quantile -> wf weight -> ncols weight <> 0%nat ->
  (exists q scale zp,
      qdq_weight_asym weight num_bits quantile true = Ok (QInt q scale (Some zp)) /\
      Forall2 (fun row qrow =>
                 qrow = map (fun w => to_uint8 (spec_asym_q num_bits quantile row w)) row)
              (trows weight) (trows q) /\
      Forall2 (fun row srow => exists s, srow = [s] /\ s == spec_asym_scale num_bits quantile row)
              (trows weight) (trows scale) /\
      Forall2 (fun row zrow => zrow = [to_uint8 (spec_asym_zero_point num_bits quantile row)])
              (trows weight) (trows zp)) /\
  (exists w,
      qdq_weight_asym weight num_bits quantile false = Ok (QFloat w) /\
      Forall2 (fun row orow => Forall2 Qeq orow (map (spec_asym_dequant num_bits quantile row) row))
              (trows weight) (trows w)) /\
  ((num_bits <= 8)%Z ->
   forall row, In row (trows weight) ->
     to_uint8 (spec_asym_zero_point num_bits quantile row)
     = spec_asym_zero_point num_bits quantile row /\
     forall w, to_uint8 (spec_asym_q num_bits quantile row w) = spec_asym_q num_bits quantile row w).
Proof.
  intros Hb Hq Hwf Hc.
  pose proof (pow2_ge2 num_bits Hb) as Hp.
  set (P := fun (row : list Q) (r : list Z * Q * Z) =>
              fst (fst r) = map (spec_asym_q num_bits quantile row) row /\
              snd (fst r) == spec_asym_scale num_bits quantile row /\
              snd r = spec_asym_zero_point num_bits quantile row).
  destruct (mapM_Forall2 (qdq_weight_asym_row num_bits quantile) P (trows weight))
    as [rs [Hrs HP]].
  { intros row Hin.
    destruct (asym_row_refines num_bits quantile row Hb Hq (wf_rows_nonempty _ _ Hwf Hc Hin))
      as [scale [Hv [Hs _]]].
    eexists. split; [exact Hv|]. unfold P. cbn [fst snd]. auto. }
  unfold qdq_weight_asym. destruct (Nat.eqb_spec (ncols weight) 0); [contradiction|].
  rewrite Hrs. cbn [bind].
  split; [|split].
  - do 3 eexists. split; [reflexivity|]. cbn [trows column].
    split; [|split].
    + apply (Forall2_map_right P); [exact HP|].
      intros row [[q s] z] [H1 _]. cbn [fst snd] in H1. rewrite H1, map_map. reflexivity.
    + rewrite map_map. apply (Forall2_map_right P); [exact HP|].
      intros row [[q s] z] [_ [H2 _]]. cbn [fst snd] in H2. exists s. auto.
    + rewrite map_map. apply (Forall2_map_right P); [exact HP|].
      intros row [[q s] z] [_ [_ H3]]. cbn [fst snd] in H3. rewrite H3. reflexivity.
  - eexists. split; [reflexivity|]. cbn [trows].
    apply (Forall2_map_right P); [exact HP|].
    intros row [[q s] z] [H1 [H2 H3]]. cbn [fst snd] in H1, H2, H3. subst q z.
    rewrite map_map. apply Forall2_map_pointwise. intros w.
    unfold spec_asym_dequant. rewrite H2. reflexivity.
  - intros H8 row Hin.
    assert (Hp8 : (2 ^ num_bits <= 2 ^ 8)%Z) by (apply Z.pow_le_mono_r; lia).
    change (2 ^ 8)%Z with 256%Z in Hp8.
    destruct (asym_row_refines num_bits quantile row Hb Hq (wf_rows_nonempty _ _ Hwf Hc Hin))
      as [scale [_ [Hs Hn]]].
    rewrite Hs in Hn.
    pose proof (spec_asym_zero_point_bounds num_bits quantile row Hb Hn) as Hz.
    split.
    + apply to_uint8_small. lia.
    + intros w. apply to_uint8_small. unfold spec_asym_q.
      pose proof (clamp_bounds (round_half_even (w / spec_asym_scale num_bits quantile row)
                                + spec_asym_zero_point num_bits quantile row)
                               0 (2 ^ num_bits - 1) ltac:(lia)). lia.
Qed.

Lemma qdq_weight_asym_refines_spec_witness :
  (exists q scale zp,
      qdq_weight_asym sample_outlier 4 1 true = Ok (QInt q scale (Some zp)) /\
      Forall2 (fun row qrow =>
                 qrow = map (fun w => to_uint8 (spec_asym_q 4 1 row w)) row)
              (trows sample_outlier) (trows q) /\
      Forall2 (fun row srow => exists s, srow = [s] /\ s == spec_asym_scale 4 1 row)
              (trows sample_outlier) (trows scale) /\
      Forall2 (fun row zrow => zrow = [to_uint8 (spec_asym_zero_point 4 1 row)])
              (trows sample_outlier) (trows zp)) /\
  (exists w,
      qdq_weight_asym sample_outlier 4 1 false = Ok (QFloat w) /\
      Forall2 (fun row orow => Forall2 Qeq orow (map (spec_asym_dequant 4 1 row) row))
              (trows sample_outlier) (trows w)) /\
  ((4 <= 8)%Z ->
   forall row, In row (trows sample_outlier) ->
     to_uint8 (spec_asym_zero_point 4 1 row) = spec_asym_zero_point 4 1 row /\
     forall w, to_uint8 (spec_asym_q 4 1 row w) = spec_asym_q 4 1 row w).
Proof.
  apply (qdq_weight_asym_refines_spec sample_outlier 4 1).
  - lia.
  - discriminate.
  - repeat constructor.
  - discriminate.
Defined.

(** ** Clip-range search *)

Section ClipSearch.

Variable weight : tensor Q.
Variables num_bits group_size : Z.
Variables scheme data_type : string.
Variable enable_full_range : bool.

Local Abbreviation L := (clip_loss weight num_bits group_size scheme data_type enable_full_range).
Local Abbreviation loop := (clip_loop weight num_bits group_size scheme data_type enable_full_range).

Local Abbreviation inv := (clip_inv weight num_bits group_size scheme data_type enable_full_range).

Lemma clip_step_inv (j : nat) (st : clip_state) (l : Q) :
  inv j st -> L j = Ok (FVal l) ->
  exists st',
    clip_step weight num_bits group_size scheme data_type enable_full_range st j = Ok st' /\
    inv (S j) st'.
Proof.
  destruct st as [[best_error best_clip_ratio] history].
  unfold clip_inv. cbv zeta.
  intros [Hh Hinv] Hl. unfold clip_step. rewrite Hl. cbn [bind].
  assert (Hh' : map Ok (history ++ [FVal l]) = map L (seq 0 (S j))).
  { rewrite seq_S, !map_app, Hh. cbn [map plus]. rewrite Hl. reflexivity. }
  destruct Hinv as [[-> [-> ->]]|[k [lk [Hk [-> [-> [Hlk [Hmin Hfirst]]]]]]]].
  - cbn [is_best]. eexists. split; [reflexivity|]. split; [exact Hh'|].
    right. exists 0%nat, l. repeat split; try lia; try assumption.
    + intros i li Hi Hli. assert (i = 0%nat) by lia. subst i.
      rewrite Hl in Hli. inversion Hli. apply Qle_refl.
  - cbn [is_best]. destruct (Qle_bool lk l) eqn:E; cbn [negb].
    + apply Qle_bool_iff in E. eexists. split; [reflexivity|]. split; [exact Hh'|].
      right. exists k, lk. repeat split; try lia; try assumption.
      intros i li Hi Hli. destruct (Nat.eq_dec i j) as [->|Hne].
      * rewrite Hl in Hli. inversion Hli. subst li. exact E.
      * apply (Hmin i li); [lia|exact Hli].
    + assert (Hlt : l < lk).
      { apply Qnot_le_lt. intros Hle. apply Qle_bool_iff in Hle. congruence. }
      eexists. split; [reflexivity|]. split; [exact Hh'|].
      right. exists j, l. repeat split; try lia; try assumption.
      * intros i li Hi Hli. destruct (Nat.eq_dec i j) as [->|Hne].
        -- rewrite Hl in Hli. inversion Hli. apply Qle_refl.
        -- apply Qle_trans with lk; [apply Qlt_le_weak; exact Hlt|].
           apply (Hmin i li); [lia|exact Hli].
      * intros i li Hi Hli. apply Qlt_le_trans with lk; [exact Hlt|].
        apply (Hmin i li); [lia|exact Hli].
Qed.

Lemma clip_loop_inv (len : nat) : forall (a : nat) (st : clip_state),
  inv a st ->
  (forall i, (a <= i < a + len)%nat -> exists l, L i = Ok (FVal l)) ->
  exists st', loop (seq a len) st = Ok st' /\ inv (a + len) st'.
Proof.
  induction len as [|len IH]; intros a st Hinv Hall.
  - exists st. split; [reflexivity|]. replace (a + 0)%nat with a by lia. exact Hinv.
  - destruct (Hall a ltac:(lia)) as [l Hl].
    destruct (clip_step_inv a st l Hinv Hl) as [st1 [Hstep Hinv1]].
    destruct (IH (S a) st1 Hinv1) as [st' [Hloop Hinv']].
    { intros i Hi. apply Hall. lia. }
    exists st'. split.
    + cbn [seq clip_loop]. rewrite Hstep. cbn [bind]. exact Hloop.
    + replace (a + S len)%nat with (S a + len)%nat by lia. exact Hinv'.
Qed.

End ClipSearch.

(** ** Shapes through the group partitioner *)

Lemma chunks_concat {A : Type} (k : nat) (rows : list (list A)) :
  Forall (fun r => length r = k) rows ->
  map (fun i => firstn k (skipn (i * k) (concat rows))) (seq 0 (length rows)) = rows.
Proof.
  induction 1 as [|r rows Hr Hrows IH]; [reflexivity|].
  cbn [length seq map concat]. f_equal.
  - cbn [Nat.mul skipn]. rewrite firstn_app, Hr, Nat.sub_diag, firstn_O, app_nil_r.
    rewrite <- Hr. apply firstn_all.
  - rewrite <- seq_shift, map_map. rewrite <- IH at 2.
    apply map_ext. intros i.
    replace (S i * k)%nat with (length r + i * k)%nat by (rewrite Hr; lia).
    rewrite skipn_app, Nat.add_comm, Nat.add_sub.
    rewrite (skipn_all2 r) by lia. reflexivity.
Qed.

Lemma reshape_to_id {A : Type} (t : tensor A) (n k : nat) :
  shape_is t n k -> reshape_to n k t = t.
Proof.
  intros [Hn [Hk Hwf]]. destruct t as [c rows]. unfold reshape_to, flat, nrows, wf in *.
  cbn [ncols trows] in *. subst c n. rewrite chunks_concat by exact Hwf. reflexivity.
Qed.

Lemma shape_numel {A : Type} (t : tensor A) (n k : nat) :
  shape_is t n k -> numel t = (n * k)%nat.
Proof. intros [Hn [Hk _]]. unfold numel. congruence. Qed.

Lemma reshape_id {A : Type} (t : tensor A) (n k : nat) :
  shape_is t n k -> reshape n k t = Ok t.
Proof.
  intros H. unfold reshape. rewrite (shape_numel t n k H), Nat.eqb_refl.
  rewrite (reshape_to_id t n k H). reflexivity.
Qed.

Lemma reshape_rows_id {A : Type} (t : tensor A) (n k : nat) :
  shape_is t n k -> k <> 0%nat -> reshape_rows k t = Ok t.
Proof.
  intros H Hk. unfold reshape_rows. rewrite (shape_numel t n k H).
  destruct (Nat.eqb_spec k 0); [contradiction|].
  rewrite Nat.Div0.mod_mul, Nat.eqb_refl, Nat.div_mul by exact Hk.
  rewrite (reshape_to_id t n k H). reflexivity.
Qed.

Lemma reshape_cols_id {A : Type} (t : tensor A) (n k : nat) :
  shape_is t n k -> n <> 0%nat -> reshape_cols n t = Ok t.
Proof.
  intros H Hn. unfold reshape_cols. rewrite (shape_numel t n k H).
  destruct (Nat.eqb_spec n 0); [contradiction|].
  rewrite (Nat.mul_comm n k), Nat.Div0.mod_mul, Nat.eqb_refl, Nat.div_mul by exact Hn.
  rewrite (reshape_to_id t n k H). reflexivity.
Qed.

Lemma slice_cols_shape {A : Type} (t : tensor A) (n k a b : nat) :
  shape_is t n k -> (a <= b <= k)%nat -> shape_is (slice_cols a b t) n (b - a).
Proof.
  intros [Hn [Hk Hwf]] Hab. unfold shape_is, slice_cols, nrows, wf in *. cbn [ncols trows].
  rewrite length_map. split; [exact Hn|]. split; [lia|].
  apply Forall_map. apply (Forall_impl _ (P := fun r => length r = ncols t)); [|exact Hwf].
  intros r Hr. rewrite length_skipn, length_firstn. lia.
Qed.

Lemma from_col_shape {A : Type} (t : tensor A) (n k a : nat) :
  shape_is t n k -> (a <= k)%nat -> shape_is (from_col a t) n (k - a).
Proof.
  intros H Ha. unfold from_col. destruct H as [Hn [Hk Hwf]]. rewrite Hk.
  apply (slice_cols_shape t n k a k); [repeat split; assumption|lia].
Qed.

Lemma Ok_inv {A : Type} (a b : A) : Ok a = Ok b -> a = b.
Proof. intros H. injection H as H. exact H. Qed.

Lemma cat1_shape {A : Type} (t1 t2 : tensor A) (n a b : nat) :
  shape_is t1 n a -> shape_is t2 n b ->
  exists t, cat1 t1 t2 = Ok t /\ shape_is t n (a + b) /\
            trows t = map (fun p => fst p ++ snd p) (combine (trows t1) (trows t2)).
Proof.
  intros [Hn1 [Hc1 Hwf1]] [Hn2 [Hc2 Hwf2]]. unfold cat1. rewrite Hn1, Hn2, Nat.eqb_refl.
  eexists. split; [reflexivity|]. split; [|reflexivity].
  unfold shape_is, nrows, wf in *. cbn [ncols trows].
  rewrite length_map, length_combine. split; [lia|]. split; [congruence|].
  apply Forall_map. apply Forall_forall. intros [r1 r2] Hin. cbn [fst snd].
  rewrite length_app. rewrite Forall_forall in Hwf1, Hwf2.
  rewrite (Hwf1 r1 (in_combine_l _ _ _ _ Hin)), (Hwf2 r2 (in_combine_r _ _ _ _ Hin)).
  reflexivity.
Qed.

Lemma map_fst_combine {A B : Type} (l : list A) (l' : list B) :
  length l = length l' -> map fst (combine l l') = l.
Proof.
  revert l'. induction l as [|x l IH]; intros [|y l'] H; try discriminate; [reflexivity|].
  cbn [combine map fst]. f_equal. apply IH. cbn in H. lia.
Qed.

Lemma map_snd_combine {A B : Type} (l : list A) (l' : list B) :
  length l = length l' -> map snd (combine l l') = l'.
Proof.
  revert l'. induction l as [|x l IH]; intros [|y l'] H; try discriminate; [reflexivity|].
  cbn [combine map snd]. f_equal. apply IH. cbn in H. lia.
Qed.

(** The left columns of a concatenation are its first operand. *)
Lemma slice_cols_cat1_left {A : Type} (t1 t2 t : tensor A) (n a b : nat) :
  shape_is t1 n a -> shape_is t2 n b -> cat1 t1 t2 = Ok t -> slice_cols 0 a t = t1.
Proof.
  intros [H1n [H1k H1wf]] [H2n [H2k H2wf]] H. unfold cat1 in H.
  rewrite H1n, H2n, Nat.eqb_refl in H. apply Ok_inv in H. subst t.
  unfold slice_cols. cbn [ncols trows]. destruct t1 as [c1 rows1]. cbn [ncols trows] in *.
  subst c1. f_equal; [lia|].
  rewrite map_map. unfold nrows in *. cbn [trows] in *.
  rewrite <- (map_fst_combine rows1 (trows t2)) at 2 by lia.
  apply map_ext_in. intros [r1 r2] Hin. cbn [fst snd skipn].
  unfold wf in H1wf. cbn [trows ncols] in H1wf. rewrite Forall_forall in H1wf.
  pose proof (H1wf r1 (in_combine_l _ _ _ _ Hin)) as Hl.
  rewrite firstn_app, Hl, Nat.sub_diag, firstn_O, app_nil_r.
  rewrite <- Hl. apply firstn_all.
Qed.

(** The right columns of a concatenation are its second operand. *)
Lemma from_col_cat1_right {A : Type} (t1 t2 t : tensor A) (n a b : nat) :
  shape_is t1 n a -> shape_is t2 n b -> cat1 t1 t2 = Ok t -> from_col a t = t2.
Proof.
  intros [H1n [H1k H1wf]] [H2n [H2k H2wf]] H. unfold cat1 in H.
  rewrite H1n, H2n, Nat.eqb_refl in H. apply Ok_inv in H. subst t.
  unfold from_col, slice_cols. cbn [ncols trows]. destruct t2 as [c2 rows2].
  cbn [ncols trows] in *. subst c2. rewrite H1k. f_equal; [lia|].
  rewrite map_map. unfold nrows in *. cbn [trows] in *.
  rewrite <- (map_snd_combine (trows t1) rows2) at 2 by lia.
  apply map_ext_in. intros [r1 r2] Hin. cbn [fst snd].
  unfold wf in H1wf, H2wf. cbn [trows ncols] in H2wf. rewrite Forall_forall in H1wf, H2wf.
  pose proof (H1wf r1 (in_combine_l _ _ _ _ Hin)) as Hl1. rewrite H1k in Hl1.
  pose proof (H2wf r2 (in_combine_r _ _ _ _ Hin)) as Hl2.
  rewrite firstn_all2 by (rewrite length_app; lia).
  rewrite skipn_app, Hl1, Nat.sub_diag. cbn [skipn].
  rewrite <- Hl1, skipn_all. reflexivity.
Qed.

Lemma transpose_shape {A : Type} (d : A) (t : tensor A) :
  shape_is (transpose d t) (ncols t) (nrows t).
Proof.
  unfold shape_is, transpose, nrows, wf. cbn [ncols trows].
  rewrite length_map, length_seq. split; [reflexivity|]. split; [reflexivity|].
  apply Forall_map. apply Forall_forall. intros j _. apply length_map.
Qed.

Lemma zeros_shape {A : Type} (z : A) (n k : nat) : shape_is (zeros z n k) n k.
Proof.
  unfold shape_is, zeros, nrows, wf. cbn [ncols trows].
  rewrite repeat_length. split; [reflexivity|]. split; [reflexivity|].
  apply Forall_forall. intros r Hr. apply repeat_spec in Hr. subst r. apply repeat_length.
Qed.

Lemma tmap_shape {A B : Type} (f : A -> B) (t : tensor A) (n k : nat) :
  shape_is t n k -> shape_is (tmap f t) n k.
Proof.
  intros [Hn [Hk Hwf]]. unfold shape_is, tmap, nrows, wf in *. cbn [ncols trows].
  rewrite length_map. split; [exact Hn|]. split; [exact Hk|].
  apply Forall_map. apply (Forall_impl _ (P := fun r => length r = ncols t)); [|exact Hwf].
  intros r Hr. rewrite length_map. exact Hr.
Qed.

Lemma column_shape {A : Type} (l : list A) : shape_is (column l) (length l) 1.
Proof.
  unfold shape_is, column, nrows, wf. cbn [ncols trows]. rewrite length_map.
  split; [reflexivity|]. split; [reflexivity|]. apply Forall_map, Forall_forall.
  intros x _. reflexivity.
Qed.

Lemma bind_Ok {A B : Type} (m : outcome A) (k : A -> outcome B) (b : B) :
  bind m k = Ok b -> exists a, m = Ok a /\ k a = Ok b.
Proof. destruct m; cbn [bind]; intros H; try discriminate. eauto. Qed.

Lemma mapM_inv {A B : Type} (f : A -> outcome B) (l : list A) : forall rs,
  mapM f l = Ok rs -> Forall2 (fun a b => f a = Ok b) l rs.
Proof.
  induction l as [|a l IH]; intros rs H; cbn [mapM] in H.
  - inversion H. constructor.
  - apply bind_Ok in H. destruct H as [b [Hb H]].
    apply bind_Ok in H. destruct H as [bs [Hbs H]]. inversion H; subst.
    constructor; [exact Hb|apply IH; exact Hbs].
Qed.

Lemma mapM_length {A B : Type} (f : A -> outcome B) (l : list A) (rs : list B) :
  mapM f l = Ok rs -> length rs = length l.
Proof. intros H. apply mapM_inv in H. apply (Forall2_length_eq _ _ _ H). Qed.

Lemma qdq_weight_asym_row_length (num_bits : Z) (quantile : Q) (row : list Q) q scale zp :
  qdq_weight_asym_row num_bits quantile row = Ok (q, scale, zp) -> length q = length row.
Proof.
  unfold qdq_weight_asym_row. intros H.
  repeat (apply bind_Ok in H; destruct H as [? [? H]]).
  inversion H; subst. eapply mapM_length; eassumption.
Qed.

Lemma qdq_weight_sym_row_length (num_bits : Z) (quantile : Q) (full_range : bool)
      (row : list Q) q scale :
  qdq_weight_sym_row num_bits quantile full_range row = Ok (q, scale) -> length q = length row.
Proof.
  unfold qdq_weight_sym_row. destruct (sym_bounds num_bits) as [minq maxq]. intros H.
  repeat (apply bind_Ok in H; destruct H as [? [? H]]).
  inversion H; subst. eapply mapM_length; eassumption.
Qed.

Lemma quantize_4bit_row_length (allow_data data : list Q) (quantile : Q) (row : list Q) q scale :
  quantize_4bit_row allow_data data quantile row = Ok (q, scale) -> length q = length row.
Proof.
  unfold quantize_4bit_row. intros H.
  apply bind_Ok in H. destruct H as [? [? H]]. inversion H; subst.
  rewrite !length_map. reflexivity.
Qed.

(** Rows produced from the rows of a tensor, one for one and of the
    same length, form a tensor of the same shape. *)
Lemma rowwise_shape {A B C : Type} (P : list A -> B -> Prop) (h : B -> list C)
      (t : tensor A) (rs : list B) (n k : nat) :
  shape_is t n k -> Forall2 P (trows t) rs ->
  (forall row r, P row r -> length (h r) = length row) ->
  shape_is (mkT (ncols t) (map h rs)) n k.
Proof.
  intros [Hn [Hk Hwf]] HF Hlen. unfold shape_is, nrows, wf in *. cbn [ncols trows].
  rewrite length_map, (Forall2_length_eq _ _ _ HF). split; [exact Hn|]. split; [exact Hk|].
  clear Hn. induction HF as [|row r rows rs' Hp HF IH]; cbn [map]; [constructor|].
  inversion Hwf; subst. constructor; [|apply IH; assumption].
  rewrite (Hlen row r Hp). assumption.
Qed.

Lemma column_rows_shape {A B C : Type} (P : A -> B -> Prop) (h : B -> C)
      (l : list A) (rs : list B) :
  Forall2 P l rs -> shape_is (column (map h rs)) (length l) 1.
Proof.
  intros HF. rewrite <- (Forall2_length_eq _ _ _ HF), <- (length_map h rs).
  apply column_shape.
Qed.

Lemma float_mapping_int_mapping (data_type : string) (allow_data : list Q) :
  dict_get FLOAT_MAPPING data_type = Some allow_data ->
  exists allow_data_bit, dict_get INT_MAPPING data_type = Some allow_data_bit.
Proof.
  unfold FLOAT_MAPPING, INT_MAPPING. cbn [dict_get]. intros H.
  repeat match type of H with
         | (if ?c then _ else _) = _ => destruct c; [eauto|]
         end.
  discriminate.
Qed.

(** The shapes of what the actor returns when asked for integers. *)
Lemma actor_int_shape (weight : tensor Q) (n k : nat) (num_bits : Z) (scheme : string)
      (quantile : Q) (data_type : string) (full_range : bool) q scale zp :
  shape_is weight n k ->
  qdq_weight_actor weight num_bits scheme quantile data_type true full_range
  = Ok (QInt q scale zp) ->
  shape_is q n k /\ shape_is scale n 1 /\
  (if actor_has_zp num_bits scheme data_type
   then exists z, zp = Some z /\ shape_is z n 1
   else zp = None).
Proof.
  intros Hsh H. pose proof Hsh as [Hn _]. unfold nrows in Hn.
  unfold qdq_weight_actor in H. apply bind_Ok in H. destruct H as [_ [_ H]].
  unfold actor_has_zp.
  destruct (negb (has_int data_type) && (num_bits =? 4)%Z); cbn [negb andb].
  - unfold quantize_4bit in H.
    destruct (dict_get FLOAT_MAPPING data_type) as [allow_data|]; [|discriminate].
    destruct (dict_get INT_MAPPING data_type) as [allow_data_bit|]; [|discriminate].
    destruct (ncols weight =? 0)%nat; [discriminate|].
    apply bind_Ok in H. destruct H as [rs [Hrs H]]. inversion H; subst. clear H.
    apply mapM_inv in Hrs. split; [|split; [|reflexivity]].
    + apply (rowwise_shape _ _ _ _ _ _ Hsh Hrs).
      intros row [q s] Hr. cbn [fst]. rewrite length_map.
      eapply quantize_4bit_row_length; eassumption.
    + apply (column_rows_shape _ _ _ _ Hrs).
  - destruct (String.eqb scheme "sym"); cbn [negb].
    + unfold qdq_weight_sym in H. destruct (ncols weight =? 0)%nat; [discriminate|].
      apply bind_Ok in H. destruct H as [rs [Hrs H]]. inversion H; subst. clear H.
      apply mapM_inv in Hrs. split; [|split; [|reflexivity]].
      * apply (rowwise_shape _ _ _ _ _ _ Hsh Hrs).
        intros row [q s] Hr. cbn [fst]. rewrite length_map.
        eapply qdq_weight_sym_row_length; eassumption.
      * apply (column_rows_shape _ _ _ _ Hrs).
    + unfold qdq_weight_asym in H. destruct (ncols weight =? 0)%nat; [discriminate|].
      apply bind_Ok in H. destruct H as [rs [Hrs H]]. inversion H; subst. clear H.
      apply mapM_inv in Hrs. split; [|split].
      * apply (rowwise_shape _ _ _ _ _ _ Hsh Hrs).
        intros row [[q s] z] Hr. rewrite length_map.
        eapply qdq_weight_asym_row_length; eassumption.
      * apply (column_rows_shape _ _ _ _ Hrs).
      * eexists. split; [reflexivity|].
        apply (column_rows_shape _ _ _ _ Hrs).
Qed.

Lemma sym_scale_nonzero (num_bits : Z) (quantile : Q) (full_range : bool) (x : Q) (r : list Q) :
  (2 <= num_bits)%Z ->
  exists scale, sym_scale num_bits quantile full_range (x :: r) = Ok scale /\ ~ scale == 0.
Proof.
  intros Hb.
  destruct (sym_scale_value num_bits quantile full_range (x :: r) _ _ Hb eq_refl eq_refl)
    as [scale [Hs Hv]].
  exists scale. split; [exact Hs|]. rewrite Hv.
  pose proof (pow2_ge2 (num_bits - 1) ltac:(lia)) as Hp.
  pose proof (sym_wmax_nonzero quantile (fold_left Qmax r x) (fold_left Qmin r x)) as Hw.
  destruct full_range.
  - intros E. apply Qmult_integral in E. destruct E as [E|E].
    + destruct (Qle_bool _ _); discriminate E.
    + apply Qdiv_zero_num in E; [contradiction|]. apply inject_Z_nonzero. lia.
  - intros E. apply Qdiv_zero_num in E; [contradiction|]. apply inject_Z_nonzero. lia.
Qed.

Lemma qdq_weight_sym_row_total (num_bits : Z) (quantile : Q) (full_range : bool)
      (row : list Q) :
  (2 <= num_bits)%Z -> row <> [] ->
  exists res, qdq_weight_sym_row num_bits quantile full_range row = Ok res.
Proof.
  intros Hb Hne. destruct row as [|x r]; [congruence|].
  destruct (sym_scale_nonzero num_bits quantile full_range x r Hb) as [scale [Hs Hn]].
  unfold qdq_weight_sym_row. destruct (sym_bounds num_bits) as [minq maxq].
  rewrite Hs. cbn [bind].
  rewrite (mapM_pure _ (fun w => clamp (round_half_even (w / scale)) minq maxq)).
  - eexists. reflexivity.
  - intros a _. rewrite (qdiv_ok _ _ Hn). reflexivity.
Qed.

Lemma qdq_weight_asym_row_total (num_bits : Z) (quantile : Q) (row : list Q) :
  (1 <= num_bits)%Z -> row <> [] ->
  exists res, qdq_weight_asym_row num_bits quantile row = Ok res.
Proof.
  intros Hb Hne. destruct row as [|x r]; [congruence|].
  destruct (asym_row_value num_bits quantile x r Hb) as [_ Hv].
  eexists. exact Hv.
Qed.

Lemma quantize_4bit_row_total (allow_data data : list Q) (quantile : Q) (row : list Q) :
  row <> [] -> exists res, quantize_4bit_row allow_data data quantile row = Ok res.
Proof.
  intros Hne. destruct row as [|x r]; [congruence|].
  unfold quantize_4bit_row, q4_scale. cbn [map row_max bind]. eexists. reflexivity.
Qed.

Lemma mapM_total {A B : Type} (f : A -> outcome B) (l : list A) :
  (forall a, In a l -> exists b, f a = Ok b) -> exists bs, mapM f l = Ok bs.
Proof.
  intros H. destruct (mapM_Forall2 f (fun _ _ => True) l) as [bs [Hbs _]].
  - intros a Ha. destruct (H a Ha) as [b Hb]. eauto.
  - eauto.
Qed.

(** With two or more bits and a supported data type the actor returns
    on every tensor whose rows are not empty. *)
Lemma actor_total (weight : tensor Q) (n k : nat) (num_bits : Z) (scheme : string)
      (quantile : Q) (data_type : string) (return_int full_range : bool) :
  shape_is weight n k -> k <> 0%nat -> (2 <= num_bits)%Z -> supported data_type ->
  exists r,
    qdq_weight_actor weight num_bits scheme quantile data_type return_int full_range = Ok r /\
    (if return_int then exists q scale zp, r = QInt q scale zp else exists w, r = QFloat w).
Proof.
  intros [Hn [Hk Hwf]] Hk0 Hb Hsup.
  assert (Hrows : forall row, In row (trows weight) -> row <> []).
  { intros row Hin. apply (wf_rows_nonempty weight row Hwf); [congruence|exact Hin]. }
  unfold qdq_weight_actor, assert.
  destruct (Z.ltb_spec 0 num_bits); [|lia]. cbn [bind].
  assert (Hc : (ncols weight =? 0)%nat = false) by (apply Nat.eqb_neq; congruence).
  destruct (negb (has_int data_type) && (num_bits =? 4)%Z) eqn:E.
  - apply andb_true_iff in E. destruct E as [E _]. apply negb_true_iff in E.
    destruct Hsup as [Hs|[allow_data Hf]]; [congruence|].
    destruct (float_mapping_int_mapping data_type allow_data Hf) as [allow_data_bit Hi].
    unfold quantize_4bit. rewrite Hf, Hi, Hc.
    destruct return_int.
    + destruct (mapM_total (quantize_4bit_row allow_data (map inject_Z allow_data_bit) quantile)
                           (trows weight)) as [rs Hrs].
      { intros row Hin. apply quantize_4bit_row_total. apply Hrows. exact Hin. }
      rewrite Hrs. cbn [bind]. eexists. split; [reflexivity|]. eauto.
    + destruct (mapM_total (quantize_4bit_row allow_data allow_data quantile) (trows weight))
        as [rs Hrs].
      { intros row Hin. apply quantize_4bit_row_total. apply Hrows. exact Hin. }
      rewrite Hrs. cbn [bind]. eexists. split; [reflexivity|]. eauto.
  - destruct (String.eqb scheme "sym").
    + unfold qdq_weight_sym. rewrite Hc.
      destruct (mapM_total (qdq_weight_sym_row num_bits quantile full_range) (trows weight))
        as [rs Hrs].
      { intros row Hin. apply qdq_weight_sym_row_total; [exact Hb|]. apply Hrows. exact Hin. }
      rewrite Hrs. cbn [bind]. destruct return_int; eexists; (split; [reflexivity|]); eauto.
    + unfold qdq_weight_asym. rewrite Hc.
      destruct (mapM_total (qdq_weight_asym_row num_bits quantile) (trows weight))
        as [rs Hrs].
      { intros row Hin. apply qdq_weight_asym_row_total; [lia|]. apply Hrows. exact Hin. }
      rewrite Hrs. cbn [bind]. destruct return_int; eexists; (split; [reflexivity|]); eauto.
Qed.

Section Group33.

Variable weight : tensor Q.
Variable n : nat.
Variable num_bits : Z.
Variables scheme data_type : string.
Variable quantile : Q.
Variable full_range : bool.

Hypothesis weight_shape : shape_is weight n 33.
Hypothesis rows_pos : n <> 0%nat.
Hypothesis bits_ge2 : (2 <= num_bits)%Z.
Hypothesis dtype_ok : supported data_type.

Local Abbreviation actor w :=
  (qdq_weight_actor w num_bits scheme quantile data_type true full_range).

(** [quant_weight] on 33 columns with groups of 32 takes the branch
    that splits the columns at 32. *)
Lemma quant_weight_33_32_unfold :
  quant_weight weight num_bits 32 scheme quantile data_type true full_range
  = (weight1 <- reshape_rows 32 (slice_cols 0 32 weight) ;;
     r1 <- actor weight1 ;;
     '(weight1, scale1, zp1) <- unpack3 r1 ;;
     scale1 <- reshape_cols n scale1 ;;
     zp1 <- reshape_zp n zp1 ;;
     weight1 <- reshape n 32 weight1 ;;
     r2 <- actor (from_col 32 weight) ;;
     '(weight2, scale2, zp2) <- unpack3 r2 ;;
     weight <- cat1 weight1 weight2 ;;
     scale <- cat1 scale1 scale2 ;;
     match zp2, zp1 with
     | Some zp2, Some zp1 => zp <- cat1 zp1 zp2 ;; Ok (QInt weight scale (Some zp))
     | Some _, None => Raise RuntimeError
     | None, _ => Ok (QInt weight scale None)
     end).
Proof.
  destruct weight_shape as [Hn [Hk _]].
  unfold quant_weight. rewrite Hn, Hk.
  destruct (Z.leb_spec num_bits 0); [lia|]. reflexivity.
Qed.

Lemma left_part_shape : shape_is (slice_cols 0 32 weight) n 32.
Proof using weight_shape.
  apply (slice_cols_shape weight n 33 0 32 weight_shape).
  split; [apply Nat.le_0_l|repeat constructor].
Qed.

Lemma remainder_shape : shape_is (from_col 32 weight) n 1.
Proof using weight_shape.
  apply (from_col_shape weight n 33 32 weight_shape). repeat constructor.
Qed.

(** The integer path: both parts are quantized on their own, and the
    results are put side by side. *)
Lemma quant_weight_33_32_int :
  exists q1 s1 z1 q2 s2 z2 q scale zp,
    actor (slice_cols 0 32 weight) = Ok (QInt q1 s1 z1) /\
    actor (from_col 32 weight) = Ok (QInt q2 s2 z2) /\
    shape_is q1 n 32 /\ shape_is s1 n 1 /\ shape_is q2 n 1 /\ shape_is s2 n 1 /\
    quant_weight weight num_bits 32 scheme quantile data_type true full_range
    = Ok (QInt q scale zp) /\
    shape_is q n 33 /\ shape_is scale n 2 /\
    trows q = map (fun p => fst p ++ snd p) (combine (trows q1) (trows q2)) /\
    trows scale = map (fun p => fst p ++ snd p) (combine (trows s1) (trows s2)) /\
    slice_cols 0 32 q = q1 /\ from_col 32 q = q2 /\
    slice_cols 0 1 scale = s1 /\ from_col 1 scale = s2 /\
    (if actor_has_zp num_bits scheme data_type
     then exists zt1 zt2 z,
         z1 = Some zt1 /\ z2 = Some zt2 /\ zp = Some z /\
         shape_is zt1 n 1 /\ shape_is zt2 n 1 /\ shape_is z n 2 /\
         trows z = map (fun p => fst p ++ snd p) (combine (trows zt1) (trows zt2)) /\
         slice_cols 0 1 z = zt1 /\ from_col 1 z = zt2
     else z1 = None /\ z2 = None /\ zp = None).
Proof.
  pose proof left_part_shape as Hl. pose proof remainder_shape as Hr.
  destruct (actor_total _ n 32 num_bits scheme quantile data_type true full_range
                        Hl ltac:(lia) bits_ge2 dtype_ok) as [r1 [Hr1 [q1 [s1 [z1 ->]]]]].
  destruct (actor_total _ n 1 num_bits scheme quantile data_type true full_range
                        Hr ltac:(lia) bits_ge2 dtype_ok) as [r2 [Hr2 [q2 [s2 [z2 ->]]]]].
  destruct (actor_int_shape _ n 32 _ _ _ _ _ _ _ _ Hl Hr1) as [Hq1 [Hs1 Hz1]].
  destruct (actor_int_shape _ n 1 _ _ _ _ _ _ _ _ Hr Hr2) as [Hq2 [Hs2 Hz2]].
  destruct (cat1_shape q1 q2 n 32 1 Hq1 Hq2) as [q [Hq [Hqs Hqr]]].
  destruct (cat1_shape s1 s2 n 1 1 Hs1 Hs2) as [scale [Hsc [Hscs Hscr]]].
  pose proof (slice_cols_cat1_left q1 q2 q n 32 1 Hq1 Hq2 Hq) as Hql.
  pose proof (from_col_cat1_right q1 q2 q n 32 1 Hq1 Hq2 Hq) as Hqrr.
  pose proof (slice_cols_cat1_left s1 s2 scale n 1 1 Hs1 Hs2 Hsc) as Hsl.
  pose proof (from_col_cat1_right s1 s2 scale n 1 1 Hs1 Hs2 Hsc) as Hsrr.
  exists q1, s1, z1, q2, s2, z2, q, scale.
  assert (Hqw :
    quant_weight weight num_bits 32 scheme quantile data_type true full_range
    = (zp1 <- reshape_zp n z1 ;;
       match z2, zp1 with
       | Some zp2, Some zp1 => zp <- cat1 zp1 zp2 ;; Ok (QInt q scale (Some zp))
       | Some _, None => Raise RuntimeError
       | None, _ => Ok (QInt q scale None)
       end)).
  { rewrite quant_weight_33_32_unfold.
    rewrite (reshape_rows_id _ n 32 Hl) by lia. cbn [bind].
    rewrite Hr1. cbn [bind unpack3].
    rewrite (reshape_cols_id _ n 1 Hs1 rows_pos). cbn [bind].
    destruct (reshape_zp n z1) as [zp1| |]; cbn [bind]; try reflexivity.
    rewrite (reshape_id _ n 32 Hq1). cbn [bind].
    rewrite Hr2. cbn [bind unpack3].
    rewrite Hq. cbn [bind]. rewrite Hsc. cbn [bind]. reflexivity. }
  destruct (actor_has_zp num_bits scheme data_type).
  - destruct Hz1 as [zt1 [-> Hzt1]]. destruct Hz2 as [zt2 [-> Hzt2]].
    destruct (cat1_shape zt1 zt2 n 1 1 Hzt1 Hzt2) as [zp [Hzp [Hzps Hzpr]]].
    exists (Some zp). repeat (split; [assumption|]).
    split.
    { rewrite Hqw. cbn [reshape_zp].
      rewrite (reshape_cols_id _ n 1 Hzt1 rows_pos). cbn [bind].
      rewrite Hzp. reflexivity. }
    repeat (split; [assumption|]). exists zt1, zt2, zp.
    split; [reflexivity|]. split; [reflexivity|]. split; [reflexivity|].
    split; [exact Hzt1|]. split; [exact Hzt2|]. split; [exact Hzps|].
    split; [exact Hzpr|].
    split; [exact (slice_cols_cat1_left zt1 zt2 zp n 1 1 Hzt1 Hzt2 Hzp)
           |exact (from_col_cat1_right zt1 zt2 zp n 1 1 Hzt1 Hzt2 Hzp)].
  - subst z1 z2. exists None. cbn [reshape_zp bind] in Hqw.
    repeat (split; [assumption|]). repeat split; reflexivity.
Qed.

End Group33.

(** ** Shapes through the bit-packing store *)

Lemma set_nth_length {A : Type} (v : A) (l : list A) : forall i, length (set_nth i v l) = length l.
Proof.
  induction l as [|x l IH]; intros i; [destruct i; reflexivity|].
  destruct i; cbn [set_nth length]; [reflexivity|]. rewrite IH. reflexivity.
Qed.

Lemma fold_left_length_inv {A B : Type} (f : list A -> B -> list A) (l : list B) :
  (forall w b, length (f w b) = length w) ->
  forall w, length (fold_left f l w) = length w.
Proof.
  intros Hf. induction l as [|b l IH]; intros w; cbn [fold_left]; [reflexivity|].
  rewrite IH. apply Hf.
Qed.

Lemma unpack_row_length (s : WeightOnlyLinear.t) (origin1 target1 : nat)
      (packed_row weight_row : list Z) :
  length (WeightOnlyLinear.unpack_row s origin1 target1 packed_row weight_row)
  = length weight_row.
Proof.
  unfold WeightOnlyLinear.unpack_row.
  apply fold_left_length_inv. intros w j.
  apply fold_left_length_inv. intros w' e.
  destruct (origin1 <=? _)%nat; [reflexivity|apply set_nth_length].
Qed.

Lemma combine_rows_shape {A B C : Type} (f : list A * list B -> list C)
      (l1 : list (list A)) (l2 : list (list B)) (n k c : nat) :
  length l1 = n -> length l2 = n ->
  (forall p, In p (combine l1 l2) -> length (f p) = k) ->
  c = k ->
  shape_is (mkT c (map f (combine l1 l2))) n k.
Proof.
  intros H1 H2 Hf ->. unfold shape_is, nrows, wf. cbn [ncols trows].
  rewrite length_map, length_combine, H1, H2, Nat.min_id.
  split; [reflexivity|]. split; [reflexivity|].
  apply Forall_map, Forall_forall. exact Hf.
Qed.

Lemma mul_scale_shape (weight scale : tensor Q) (n k : nat) :
  shape_is weight n k -> shape_is scale n 1 ->
  exists r, WeightOnlyLinear.mul_scale weight scale = Ok r /\ shape_is r n k.
Proof.
  intros [Hn [Hk Hwf]] [Hsn [Hsk _]]. unfold WeightOnlyLinear.mul_scale.
  rewrite Hn, Hsn, Hsk, !Nat.eqb_refl. cbn [andb]. eexists. split; [reflexivity|].
  apply combine_rows_shape; try assumption.
  intros [r srow] Hin. cbn [fst snd]. rewrite length_map.
  unfold wf in Hwf. rewrite Forall_forall in Hwf. rewrite <- Hk.
  apply Hwf. apply (in_combine_l _ _ _ _ Hin).
Qed.

Lemma pack_loops_rows (s : WeightOnlyLinear.t) (mask : Z) (int_weight packed : tensor Z)
      (n : nat) :
  nrows int_weight = n -> nrows packed = n ->
  exists p, WeightOnlyLinear.pack_loops s mask int_weight packed = Ok p /\
            nrows p = n /\ ncols p = ncols packed.
Proof.
  intros H1 H2. unfold WeightOnlyLinear.pack_loops. rewrite H1, H2, Nat.eqb_refl.
  eexists. split; [reflexivity|]. unfold nrows in *. cbn [ncols trows].
  rewrite length_map, length_combine, H1, H2, Nat.min_id. split; reflexivity.
Qed.

Lemma ceil_dim_ok (a b : Z) :
  (0 <= a)%Z -> (0 < b)%Z ->
  exists k, (d <- py_ceil_div a b ;; zeros_dim d) = Ok k.
Proof.
  intros Ha Hb. unfold py_ceil_div, zeros_dim.
  destruct (Z.eqb_spec b 0); [lia|]. cbn [bind].
  assert (H : (- a / b <= 0)%Z).
  { apply Z.div_le_upper_bound; [exact Hb|]. lia. }
  destruct (Z.ltb_spec (- (- a / b)) 0); [lia|]. eexists. reflexivity.
Qed.

(** ** Round trip through the store *)

(** C1, at the failing input.  The 1 x 2 layer [[-1; 1]], quantized
    asymmetrically to 4 bits, has codes [[0; 15]], scale 2/15 and zero
    point 8, so direct de-quantization gives [[-16/15; 14/15]]; packed
    and recovered it gives [[0; -2/15]]: [recover] never reads the
    packed zero points and sign-extends the 4-bit fields. *)
Theorem recover_ignores_zero_points :
  exists m scale w,
    quant_weight sample_weight 4 (-1) "asym" 1 "int" true false
    = Ok (QInt (mkT 2 [[0; 15]%Z]) scale (Some (mkT 1 [[8%Z]]))) /\
    rtn_quantize_int sample_weight None 4 (-1) "asym" 1 "int" false 1 32 1 = Ok m /\
    WeightOnlyLinear.packed_weight m = mkT 1 [[240%Z]] /\
    WeightOnlyLinear.packed_zp m = Some (mkT 1 [[8%Z]]) /\
    WeightOnlyLinear.recover m = Ok w /\
    tmap Qred w = mkT 2 [[0; - (2 # 15)]] /\
    tmap Qred (dequantize (mkT 2 [[0; 15]%Z]) scale (Some (mkT 1 [[8%Z]])) 2)
    = mkT 2 [[- (16 # 15); 14 # 15]] /\
    ~ Forall2 (Forall2 Qeq) (trows w)
              (trows (dequantize (mkT 2 [[0; 15]%Z]) scale (Some (mkT 1 [[8%Z]])) 2)).
Proof.
  do 3 eexists.
  split; [vm_compute; reflexivity|].
  split; [vm_compute; reflexivity|].
  split; [reflexivity|]. split; [reflexivity|].
  split; [vm_compute; reflexivity|].
  split; [vm_compute; reflexivity|].
  split; [vm_compute; reflexivity|].
  intros H. vm_compute in H.
  inversion H as [|? ? ? ? Hrow _]; subst.
  inversion Hrow as [|? ? ? ? Hx _]; subst.
  vm_compute in Hx. discriminate Hx.
Qed.

(** The same layer under the symmetric scheme survives the round
    trip. *)
Lemma round_trip_sym_sample :
  exists m q scale w,
    quant_weight sample_weight 4 (-1) "sym" 1 "int" true false = Ok (QInt q scale None) /\
    rtn_quantize_int sample_weight None 4 (-1) "sym" 1 "int" false 1 32 1 = Ok m /\
    WeightOnlyLinear.recover m = Ok w /\
    Forall2 (Forall2 Qeq) (trows w) (trows (dequantize q scale None 2)).
Proof.
  do 4 eexists.
  split; [vm_compute; reflexivity|].
  split; [vm_compute; reflexivity|].
  split; [vm_compute; reflexivity|].
  vm_compute. repeat constructor.
Qed.

(** ** The store for 33 input features and groups of 32 *)

Lemma init_ok (n : nat) (num_bits cd : Z) (data_type : string) (zp : bool) :
  (2 <= num_bits <= 8)%Z -> cd = 0%Z \/ cd = 1%Z -> supported data_type ->
  exists s,
    WeightOnlyLinear.init 33 n num_bits 32 data_type zp false 32 cd = Ok s /\
    store_ok s n num_bits cd /\ store_zp_ok s n cd zp.
Proof.
  intros Hb Hcd Hsup. unfold WeightOnlyLinear.init.
  assert (Hmap : exists mapping,
             (if negb (has_int data_type)
              then match dict_get FLOAT_MAPPING data_type, dict_get INT_MAPPING data_type with
                   | Some float_list, Some int_list =>
                       Ok (fold_left (fun d kv => dict_set d (fst kv) (snd kv))
                                     (combine int_list float_list) [])
                   | _, _ => Raise KeyError
                   end
              else Ok []) = Ok mapping).
  { destruct (has_int data_type) eqn:E; cbn [negb]; [eauto|].
    destruct Hsup as [Hs|[fl Hf]]; [congruence|].
    destruct (float_mapping_int_mapping data_type fl Hf) as [il Hi].
    rewrite Hf, Hi. eauto. }
  destruct Hmap as [mapping ->]. cbn [bind].
  change (32 =? -1)%Z with false. cbv iota.
  change (assert _ "Only support torch.int8|16|32|64 as compressed dtype.") with (Ok tt).
  cbn [bind]. destruct (Z.eqb_spec num_bits 0); [lia|]. cbn [bind].
  assert (Hnp : (0 < 32 / num_bits)%Z) by (apply Z.div_str_pos; lia).
  assert (Hg : (d <- py_ceil_div (Z.of_nat 33) 32 ;; zeros_dim d) = Ok 2%nat) by reflexivity.
  destruct Hcd as [-> | ->]; cbn [assert Z.eqb orb bind]; rewrite Hg; cbn [bind].
  - destruct (ceil_dim_ok (Z.of_nat n) (32 / num_bits) ltac:(lia) Hnp) as [m ->].
    cbn [bind]. destruct zp; cbn [bind]; eexists; (split; [reflexivity|]).
    + split.
      * unfold store_ok. cbn. repeat split; try reflexivity; try apply zeros_shape.
      * unfold store_zp_ok. cbn. eexists. split; reflexivity.
    + split.
      * unfold store_ok. cbn. repeat split; try reflexivity; try apply zeros_shape.
      * exact I.
  - destruct (ceil_dim_ok (Z.of_nat 33) (32 / num_bits) ltac:(lia) Hnp) as [k ->].
    cbn [bind]. destruct zp; cbn [bind].
    + destruct (ceil_dim_ok (Z.of_nat 33) (32 * (32 / num_bits)) ltac:(lia) ltac:(lia))
        as [kz ->].
      cbn [bind]. eexists. split; [reflexivity|]. split.
      * unfold store_ok. cbn. repeat split; try reflexivity; try apply zeros_shape;
          try apply repeat_length.
      * unfold store_zp_ok. cbn. eexists. split; [reflexivity|]. apply repeat_length.
    + eexists. split; [reflexivity|]. split.
      * unfold store_ok. cbn. repeat split; try reflexivity; try apply zeros_shape;
          try apply repeat_length.
      * exact I.
Qed.

Lemma mask_of_ok (s : WeightOnlyLinear.t) :
  (2 <= WeightOnlyLinear.bits s <= 8)%Z -> WeightOnlyLinear.compress_bits s = 32%Z ->
  exists mask, WeightOnlyLinear.mask_of s = Ok mask.
Proof.
  intros Hb Hc. unfold WeightOnlyLinear.mask_of. rewrite Hc.
  destruct (Z.ltb_spec (WeightOnlyLinear.bits s) 0); [lia|].
  assert (H8 : (2 ^ WeightOnlyLinear.bits s <= 2 ^ 8)%Z) by (apply Z.pow_le_mono_r; lia).
  change (2 ^ 8)%Z with 256%Z in H8. change (2 ^ (32 - 1))%Z with 2147483648%Z.
  destruct (Z.ltb_spec (2 ^ WeightOnlyLinear.bits s - 1) 2147483648); [|lia].
  eexists. reflexivity.
Qed.

Lemma transpose_nrows {A : Type} (d : A) (t : tensor A) : nrows (transpose d t) = ncols t.
Proof. apply (transpose_shape d t). Qed.

(** [pack] on a fresh store of the right shapes succeeds and keeps
    them. *)
Lemma pack_ok (s : WeightOnlyLinear.t) (n : nat) (num_bits cd : Z) (has_zp : bool)
      (int_weight : tensor Z) (scale : tensor Q) (zp : option (tensor Z)) :
  store_ok s n num_bits cd -> store_zp_ok s n cd has_zp ->
  (2 <= num_bits <= 8)%Z -> cd = 0%Z \/ cd = 1%Z ->
  shape_is int_weight n 33 -> shape_is scale n 2 ->
  match zp with
  | Some z => has_zp = true /\ shape_is z n 2
  | None => True
  end ->
  exists s',
    WeightOnlyLinear.pack s int_weight scale zp None = Ok s' /\
    store_ok s' n num_bits cd /\ WeightOnlyLinear.scale s' = scale.
Proof.
  intros [Hin [Hout [Hbits [Hgs [Hcd [Hcb [Hsc Hpw]]]]]]] Hzp Hb Hcds Hiw Hscale Hz.
  destruct Hiw as [Hiwn [Hiwk Hiwf]]. pose proof Hscale as [Hsn [Hsk _]].
  destruct Hsc as [Hsn0 [Hsk0 _]].
  unfold WeightOnlyLinear.pack.
  rewrite Hsn, Hsn0, Hsk, Hsk0, !Nat.eqb_refl. cbn [andb assert bind].
  rewrite Hcd.
  destruct (mask_of_ok s ltac:(rewrite Hbits; exact Hb) Hcb) as [mask Hmask].
  destruct Hcds as [-> | ->]; cbn [Z.eqb] in *; cbv iota.
  - (* compression along the output channels *)
    rewrite !transpose_nrows, Hiwk, Hpw, Nat.eqb_refl. cbn [assert bind].
    rewrite Hmask. cbn [bind].
    destruct (pack_loops_rows s mask (transpose 0%Z int_weight)
                              (transpose 0%Z (WeightOnlyLinear.packed_weight s)) 33)
      as [p [Hp [Hpn Hpc]]]; [rewrite transpose_nrows; assumption..|].
    rewrite Hp. cbn [bind].
    assert (Hfin : forall pz, store_ok
               (WeightOnlyLinear.mk (WeightOnlyLinear.dtype s)
                  (WeightOnlyLinear.int2float_mapping s) (WeightOnlyLinear.in_features s)
                  (WeightOnlyLinear.out_features s) (WeightOnlyLinear.bits s)
                  (WeightOnlyLinear.groupsize s) 0 (WeightOnlyLinear.compress_bits s)
                  (WeightOnlyLinear.n_pack s) scale (transpose 0%Z p) pz
                  (WeightOnlyLinear.bias s)) n num_bits 0).
    { intros pz. unfold store_ok. cbn. repeat split; try assumption. destruct Hscale as [_ [_ H]]; exact H. }
    destruct zp as [z|].
    + destruct Hz as [-> [Hzn [Hzk _]]]. destruct Hzp as [pz [Hpz Hpzc]].
      rewrite Hpz.
      destruct (pack_loops_rows s mask (transpose 0%Z z) (transpose 0%Z pz) 2)
        as [p2 [Hp2 _]]; [rewrite transpose_nrows; assumption..|].
      rewrite Hp2. cbn [bind]. eexists. split; [reflexivity|]. split; [apply Hfin|reflexivity].
    + cbn [bind]. eexists. split; [reflexivity|]. split; [apply Hfin|reflexivity].
  - (* compression along the input channels *)
    rewrite Hiwn, Hpw, Nat.eqb_refl. cbn [assert bind].
    rewrite Hmask. cbn [bind].
    destruct (pack_loops_rows s mask int_weight (WeightOnlyLinear.packed_weight s) n Hiwn Hpw)
      as [p [Hp [Hpn Hpc]]].
    rewrite Hp. cbn [bind].
    assert (Hfin : forall pz, store_ok
               (WeightOnlyLinear.mk (WeightOnlyLinear.dtype s)
                  (WeightOnlyLinear.int2float_mapping s) (WeightOnlyLinear.in_features s)
                  (WeightOnlyLinear.out_features s) (WeightOnlyLinear.bits s)
                  (WeightOnlyLinear.groupsize s) 1 (WeightOnlyLinear.compress_bits s)
                  (WeightOnlyLinear.n_pack s) scale p pz
                  (WeightOnlyLinear.bias s)) n num_bits 1).
    { intros pz. unfold store_ok. cbn. repeat split; try assumption. destruct Hscale as [_ [_ H]]; exact H. }
    destruct zp as [z|].
    + destruct Hz as [-> [Hzn [Hzk _]]]. destruct Hzp as [pz [Hpz Hpzc]].
      rewrite Hpz.
      destruct (pack_loops_rows s mask z pz n Hzn Hpzc) as [p2 [Hp2 _]].
      rewrite Hp2. cbn [bind]. eexists. split; [reflexivity|]. split; [apply Hfin|reflexivity].
    + cbn [bind]. eexists. split; [reflexivity|]. split; [apply Hfin|reflexivity].
Qed.

(** The integer matrix that the two loops of [recover] rebuild has the
    shape of the zero matrix they start from. *)
Lemma unpack_rows_shape (s : WeightOnlyLinear.t) (packed weight : tensor Z) (n k : nat) :
  shape_is weight n k -> nrows packed = n ->
  shape_is (mkT (ncols weight)
                (map (fun p => WeightOnlyLinear.unpack_row s (ncols weight) (ncols packed)
                                                           (fst p) (snd p))
                     (combine (trows packed) (trows weight))))
           n k.
Proof.
  intros [Hn [Hk Hwf]] Hp.
  apply combine_rows_shape; try assumption.
  intros [pr wr] Hin. cbn [fst snd]. rewrite unpack_row_length.
  unfold wf in Hwf. rewrite Forall_forall in Hwf. rewrite <- Hk.
  apply Hwf. apply (in_combine_r _ _ _ _ Hin).
Qed.

(** The group-wise de-quantization at the end of [recover], for 33
    columns and groups of 32. *)
Lemma dequant_33_32_shape (weight scale : tensor Q) (n : nat) :
  shape_is weight n 33 -> shape_is scale n 2 -> n <> 0%nat ->
  exists fp32_weight,
    (weight1 <- reshape_rows 32 (slice_cols 0 32 weight) ;;
     scale1 <- reshape_rows 1 (slice_cols 0 (ncols scale - 1) scale) ;;
     weight1 <- WeightOnlyLinear.mul_scale weight1 scale1 ;;
     weight1 <- reshape_cols n weight1 ;;
     weight2 <- WeightOnlyLinear.mul_scale (from_col 32 weight) (from_col (ncols scale - 1) scale) ;;
     cat1 weight1 weight2) = Ok fp32_weight /\
    shape_is fp32_weight n 33.
Proof.
  intros Hw Hs Hn. pose proof Hs as [_ [Hsk _]]. rewrite Hsk. cbn [Nat.sub].
  assert (Hw1 : shape_is (slice_cols 0 32 weight) n 32)
    by (apply (slice_cols_shape weight n 33 0 32 Hw); lia).
  assert (Hs1 : shape_is (slice_cols 0 1 scale) n 1)
    by (apply (slice_cols_shape scale n 2 0 1 Hs); lia).
  assert (Hw2 : shape_is (from_col 32 weight) n 1)
    by (apply (from_col_shape weight n 33 32 Hw); lia).
  assert (Hs2 : shape_is (from_col 1 scale) n 1)
    by (apply (from_col_shape scale n 2 1 Hs); lia).
  rewrite (reshape_rows_id _ n 32 Hw1) by lia. cbn [bind].
  rewrite (reshape_rows_id _ n 1 Hs1) by lia. cbn [bind].
  destruct (mul_scale_shape _ _ n 32 Hw1 Hs1) as [p1 [Hp1 Hp1s]].
  rewrite Hp1. cbn [bind].
  rewrite (reshape_cols_id _ n 32 Hp1s Hn). cbn [bind].
  destruct (mul_scale_shape _ _ n 1 Hw2 Hs2) as [p2 [Hp2 Hp2s]].
  rewrite Hp2. cbn [bind].
  destruct (cat1_shape p1 p2 n 32 1 Hp1s Hp2s) as [r [Hr [Hrs _]]].
  exists r. split; assumption.
Qed.

(** [recover] on a store of 33 input features and groups of 32 gives a
    matrix of the shape of the layer. *)
Lemma recover_ok (s : WeightOnlyLinear.t) (n : nat) (num_bits cd : Z) :
  store_ok s n num_bits cd -> (2 <= num_bits <= 8)%Z -> cd = 0%Z \/ cd = 1%Z -> n <> 0%nat ->
  exists w, WeightOnlyLinear.recover s = Ok w /\ shape_is w n 33.
Proof.
  intros [Hin [Hout [Hbits [Hgs [Hcd [Hcb [Hsc Hpw]]]]]]] Hb Hcds Hn.
  destruct (mask_of_ok s ltac:(rewrite Hbits; exact Hb) Hcb) as [mask Hmask].
  unfold WeightOnlyLinear.recover. rewrite Hmask. cbn [bind].
  rewrite Hin, Hout, Hgs, Hcd.
  change (32 =? 0)%Z with false. cbv iota. cbn [bind].
  change (Z.to_nat 32) with 32%nat.
  change (negb (33 mod 32 =? 0)%nat) with true. cbv iota.
  change (33 / 32 * 32)%nat with 32%nat.
  assert (Hunpacked : exists weight : tensor Z,
    (let dim0 := (cd =? 0)%Z in
     let weight := zeros 0%Z n 33 in
     let weight := if dim0 then transpose 0%Z weight else weight in
     let packed := if dim0 then transpose 0%Z (WeightOnlyLinear.packed_weight s)
                   else WeightOnlyLinear.packed_weight s in
     weight <- (if (nrows weight =? nrows packed)%nat then
                  Ok (mkT (ncols weight)
                          (map (fun p => WeightOnlyLinear.unpack_row s (ncols weight) (ncols packed)
                                                                     (fst p) (snd p))
                               (combine (trows packed) (trows weight))))
                else Raise RuntimeError) ;;
     Ok (if dim0 then transpose 0%Z weight else weight)) = Ok weight /\
    shape_is weight n 33).
  { cbv zeta. destruct Hcds as [-> | ->]; cbn [Z.eqb] in *; cbv iota.
    - rewrite !transpose_nrows, Hpw. cbn [ncols zeros Nat.eqb].
      cbn [bind]. eexists. split; [reflexivity|].
      pose proof (unpack_rows_shape s (transpose 0%Z (WeightOnlyLinear.packed_weight s))
                                    (transpose 0%Z (zeros 0%Z n 33)) 33 n) as Hu.
      destruct Hu as [Hun [Huk _]].
      + pose proof (transpose_shape 0%Z (zeros 0%Z n 33)) as Ht.
        cbn [ncols zeros] in Ht. destruct (zeros_shape 0%Z n 33) as [Hzn _].
        rewrite Hzn in Ht. exact Ht.
      + rewrite transpose_nrows. exact Hpw.
      + match goal with
        | |- shape_is (transpose _ ?t) _ _ =>
            pose proof (transpose_shape 0%Z t) as Hfin
        end.
        rewrite Hun in Hfin. rewrite Huk in Hfin. exact Hfin.
    - destruct (zeros_shape 0%Z n 33) as [Hzn _]. rewrite Hzn, Hpw, Nat.eqb_refl.
      cbn [bind]. eexists. split; [reflexivity|].
      apply unpack_rows_shape; [apply zeros_shape|exact Hpw]. }
  cbv zeta in Hunpacked. destruct Hunpacked as [weight [Hw Hws]].
  apply bind_Ok in Hw. destruct Hw as [w0 [Hw0 Hw]]. inversion Hw as [Hweq]. clear Hw.
  rewrite Hw0. cbn [bind]. rewrite Hweq.
  match goal with
  | |- context [reshape_rows 32 (slice_cols 0 32 ?wq)] =>
      assert (Hq : shape_is wq n 33) by (destruct (negb _); apply tmap_shape; exact Hws);
      destruct (dequant_33_32_shape wq (WeightOnlyLinear.scale s) n Hq Hsc Hn)
        as [fp [Hfp Hfps]]
  end.
  exists fp. split; [exact Hfp|exact Hfps].
Qed.

(** The shape of what the actor returns when asked for floats. *)
Lemma actor_float_shape (weight : tensor Q) (n k : nat) (num_bits : Z) (scheme : string)
      (quantile : Q) (data_type : string) (full_range : bool) w :
  shape_is weight n k ->
  qdq_weight_actor weight num_bits scheme quantile data_type false full_range
  = Ok (QFloat w) ->
  shape_is w n k.
Proof.
  intros Hsh H.
  unfold qdq_weight_actor in H. apply bind_Ok in H. destruct H as [_ [_ H]].
  destruct (negb (has_int data_type) && (num_bits =? 4)%Z).
  - unfold quantize_4bit in H.
    destruct (dict_get FLOAT_MAPPING data_type) as [allow_data|]; [|discriminate].
    destruct (dict_get INT_MAPPING data_type) as [allow_data_bit|]; [|discriminate].
    destruct (ncols weight =? 0)%nat; [discriminate|].
    apply bind_Ok in H. destruct H as [rs [Hrs H]]. inversion H; subst. clear H.
    apply mapM_inv in Hrs. apply (rowwise_shape _ _ _ _ _ _ Hsh Hrs).
    intros row [q s] Hr. cbn [fst]. rewrite length_map.
    eapply quantize_4bit_row_length; eassumption.
  - destruct (String.eqb scheme "sym").
    + unfold qdq_weight_sym in H. destruct (ncols weight =? 0)%nat; [discriminate|].
      apply bind_Ok in H. destruct H as [rs [Hrs H]]. inversion H; subst. clear H.
      apply mapM_inv in Hrs. apply (rowwise_shape _ _ _ _ _ _ Hsh Hrs).
      intros row [q s] Hr. cbn [fst]. rewrite length_map.
      eapply qdq_weight_sym_row_length; eassumption.
    + unfold qdq_weight_asym in H. destruct (ncols weight =? 0)%nat; [discriminate|].
      apply bind_Ok in H. destruct H as [rs [Hrs H]]. inversion H; subst. clear H.
      apply mapM_inv in Hrs. apply (rowwise_shape _ _ _ _ _ _ Hsh Hrs).
      intros row [[q s] z] Hr. rewrite length_map.
      eapply qdq_weight_asym_row_length; eassumption.
Qed.

(** The float path of [quant_weight] on 33 columns with groups of 32. *)
Lemma quant_weight_33_32_float (weight : tensor Q) (n : nat) (num_bits : Z)
      (scheme data_type : string) (quantile : Q) (full_range : bool) :
  shape_is weight n 33 -> (2 <= num_bits)%Z -> supported data_type ->
  exists w,
    quant_weight weight num_bits 32 scheme quantile data_type false full_range = Ok (QFloat w) /\
    shape_is w n 33.
Proof.
  intros Hsh Hb Hsup.
  pose proof (left_part_shape weight n Hsh) as Hl.
  pose proof (remainder_shape weight n Hsh) as Hr.
  destruct (actor_total _ n 32 num_bits scheme quantile data_type false full_range
                        Hl ltac:(lia) Hb Hsup) as [r1 [Hr1 [w1 ->]]].
  destruct (actor_total _ n 1 num_bits scheme quantile data_type false full_range
                        Hr ltac:(lia) Hb Hsup) as [r2 [Hr2 [w2 ->]]].
  pose proof (actor_float_shape _ n 32 _ _ _ _ _ _ Hl Hr1) as Hw1.
  pose proof (actor_float_shape _ n 1 _ _ _ _ _ _ Hr Hr2) as Hw2.
  destruct (cat1_shape w1 w2 n 32 1 Hw1 Hw2) as [w [Hw [Hws _]]].
  exists w. split; [|exact Hws].
  destruct Hsh as [Hn [Hk _]].
  unfold quant_weight. rewrite Hn, Hk.
  destruct (Z.leb_spec num_bits 0); [lia|].
  change ((32 =? -1)%Z || (Z.of_nat 33 <? 32)%Z) with false. cbv iota.
  change (32 =? 0)%Z with false. change (32 <? 0)%Z with false. cbv iota.
  change (Z.to_nat 32) with 32%nat. cbv zeta.
  change (33 mod 32 =? 0)%nat with false. cbv iota.
  change (33 / 32 * 32)%nat with 32%nat.
  rewrite (reshape_rows_id _ n 32 Hl) by lia. cbn [bind].
  rewrite Hr1. cbn [bind unpack1].
  rewrite (reshape_id _ n 32 Hw1). cbn [bind].
  rewrite Hr2. cbn [bind unpack1]. rewrite Hw. reflexivity.
Qed.

(** C9.  A weight of 33 columns quantized with groups of 32: every row
    is cut into the group of its first 32 columns and the remainder
    group of its last column, each quantized on its own; the quantized
    matrix has the shape of the weight and is the two quantized parts
    side by side; the scales have two columns, the first holding the
    scales of the groups of 32 and the last those of the remainder;
    when the codec has zero points they have two columns as well, and
    their last column is exactly the zero points the codec returned
    for the remainder group; packed into a store and recovered, the
    matrix again has the shape of the weight. *)
Theorem group_boundary_33_32 (weight : tensor Q) (n : nat) (num_bits : Z)
        (scheme data_type : string) (quantile : Q) (full_range : bool) (cd : Z) :
  shape_is weight n 33 -> n <> 0%nat -> (2 <= num_bits <= 8)%Z -> supported data_type ->
  cd = 0%Z \/ cd = 1%Z ->
  exists q1 s1 z1 q2 s2 z2 q scale zp wf32 m w,
    shape_is (slice_cols 0 32 weight) n 32 /\ shape_is (from_col 32 weight) n 1 /\
    qdq_weight_actor (slice_cols 0 32 weight) num_bits scheme quantile data_type true full_range
    = Ok (QInt q1 s1 z1) /\
    qdq_weight_actor (from_col 32 weight) num_bits scheme quantile data_type true full_range
    = Ok (QInt q2 s2 z2) /\
    shape_is q1 n 32 /\ shape_is s1 n 1 /\ shape_is q2 n 1 /\ shape_is s2 n 1 /\
    quant_weight weight num_bits 32 scheme quantile data_type true full_range
    = Ok (QInt q scale zp) /\
    shape_is q n 33 /\ shape_is scale n 2 /\
    trows q = map (fun p => fst p ++ snd p) (combine (trows q1) (trows q2)) /\
    trows scale = map (fun p => fst p ++ snd p) (combine (trows s1) (trows s2)) /\
    slice_cols 0 32 q = q1 /\ from_col 32 q = q2 /\
    slice_cols 0 1 scale = s1 /\ from_col 1 scale = s2 /\
    (if actor_has_zp num_bits scheme data_type
     then exists zt1 zt2 z,
         z1 = Some zt1 /\ z2 = Some zt2 /\ zp = Some z /\
         shape_is zt1 n 1 /\ shape_is zt2 n 1 /\ shape_is z n 2 /\
         trows z = map (fun p => fst p ++ snd p) (combine (trows zt1) (trows zt2)) /\
         slice_cols 0 1 z = zt1 /\ from_col 1 z = zt2
     else z1 = None /\ z2 = None /\ zp = None) /\
    quant_weight weight num_bits 32 scheme quantile data_type false full_range
    = Ok (QFloat wf32) /\
    shape_is wf32 n 33 /\
    rtn_quantize_int weight None num_bits 32 scheme quantile data_type full_range 1 32 cd
    = Ok m /\
    WeightOnlyLinear.recover m = Ok w /\
    shape_is w n 33.
Proof.
  intros Hsh Hn Hb Hsup Hcd.
  destruct (quant_weight_33_32_int weight n num_bits scheme data_type quantile full_range
                                   Hsh Hn ltac:(lia) Hsup)
    as [q1 [s1 [z1 [q2 [s2 [z2 [q [scale [zp H]]]]]]]]].
  destruct H as [Ha1 [Ha2 [Hq1 [Hs1 [Hq2 [Hs2 [Hqw [Hq [Hsc [Hqr [Hsr H]]]]]]]]]]].
  destruct H as [Hql [Hqrr [Hsl [Hsrr Hzp]]]].
  destruct (quant_weight_33_32_float weight n num_bits scheme data_type quantile full_range
                                     Hsh ltac:(lia) Hsup) as [wf32 [Hf Hfs]].
  set (hz := match zp with Some _ => true | None => false end).
  destruct (init_ok n num_bits cd data_type hz Hb Hcd Hsup) as [s0 [Hinit [Hok Hzok]]].
  destruct (pack_ok s0 n num_bits cd hz q scale zp Hok Hzok Hb Hcd Hq Hsc) as [m [Hpack [Hmok _]]].
  { unfold hz. destruct zp as [z|]; [|exact I]. split; [reflexivity|].
    destruct (actor_has_zp num_bits scheme data_type).
    - destruct Hzp as [zt1 [zt2 [z' [_ [_ [Hz' [_ [_ [Hzs _]]]]]]]]].
      inversion Hz'; subst. exact Hzs.
    - destruct Hzp as [_ [_ Hzp]]. discriminate Hzp. }
  destruct (recover_ok m n num_bits cd Hmok Hb Hcd Hn) as [w [Hrec Hws]].
  exists q1, s1, z1, q2, s2, z2, q, scale, zp, wf32, m, w.
  split; [apply (left_part_shape weight n Hsh)|].
  split; [apply (remainder_shape weight n Hsh)|].
  repeat (split; [assumption|]).
  split; [|split; [exact Hrec|exact Hws]].
  unfold rtn_quantize_int. cbn [Z.eqb]. cbv iota. rewrite Hqw. cbn [bind unpack3].
  destruct Hsh as [Hwn [Hwk _]]. rewrite Hwn, Hwk.
  replace (match match zp with Some z => Some z | None => None end with
           | Some _ => true | None => false end) with hz by (unfold hz; destruct zp; reflexivity).
  rewrite Hinit. cbn [bind].
  replace (match zp with Some z => Some z | None => None end) with zp by (destruct zp; reflexivity).
  exact Hpack.
Qed.

Lemma group_boundary_33_32_witness :
  shape_is sample_weight33 2 33 /\
  exists q1 s1 z1 q2 s2 z2 q scale zp wf32 m w,
    shape_is (slice_cols 0 32 sample_weight33) 2 32 /\
    shape_is (from_col 32 sample_weight33) 2 1 /\
    qdq_weight_actor (slice_cols 0 32 sample_weight33) 4 "asym" 1 "int" true false
    = Ok (QInt q1 s1 z1) /\
    qdq_weight_actor (from_col 32 sample_weight33) 4 "asym" 1 "int" true false
    = Ok (QInt q2 s2 z2) /\
    shape_is q1 2 32 /\ shape_is s1 2 1 /\ shape_is q2 2 1 /\ shape_is s2 2 1 /\
    quant_weight sample_weight33 4 32 "asym" 1 "int" true false = Ok (QInt q scale zp) /\
    shape_is q 2 33 /\ shape_is scale 2 2 /\
    trows q = map (fun p => fst p ++ snd p) (combine (trows q1) (trows q2)) /\
    trows scale = map (fun p => fst p ++ snd p) (combine (trows s1) (trows s2)) /\
    slice_cols 0 32 q = q1 /\ from_col 32 q = q2 /\
    slice_cols 0 1 scale = s1 /\ from_col 1 scale = s2 /\
    (if actor_has_zp 4 "asym" "int"
     then exists zt1 zt2 z,
         z1 = Some zt1 /\ z2 = Some zt2 /\ zp = Some z /\
         shape_is zt1 2 1 /\ shape_is zt2 2 1 /\ shape_is z 2 2 /\
         trows z = map (fun p => fst p ++ snd p) (combine (trows zt1) (trows zt2)) /\
         slice_cols 0 1 z = zt1 /\ from_col 1 z = zt2
     else z1 = None /\ z2 = None /\ zp = None) /\
    quant_weight sample_weight33 4 32 "asym" 1 "int" false false = Ok (QFloat wf32) /\
    shape_is wf32 2 33 /\
    rtn_quantize_int sample_weight33 None 4 32 "asym" 1 "int" false 1 32 1 = Ok m /\
    WeightOnlyLinear.recover m = Ok w /\
    shape_is w 2 33.
Proof.
  assert (Hsh : shape_is sample_weight33 2 33).
  { split; [reflexivity|]. split; [reflexivity|]. repeat constructor. }
  split; [exact Hsh|].
  apply (group_boundary_33_32 sample_weight33 2 4 "asym" "int" 1 false 1 Hsh).
  - discriminate.
  - lia.
  - left. reflexivity.
  - right. reflexivity.
Defined.

(** ** When the search and the lookup codec return *)

Lemma flat_length {A : Type} (t : tensor A) (n k : nat) :
  shape_is t n k -> length (flat t) = (n * k)%nat.
Proof.
  intros [Hn [Hk Hwf]]. unfold flat, nrows, wf in *. rewrite <- Hn, <- Hk. clear Hn Hk.
  induction Hwf as [|r rows Hr Hrows IH]; [reflexivity|].
  cbn [concat length]. rewrite length_app, IH, Hr. reflexivity.
Qed.

Lemma mse_loss_finite (org_weight cur_weight : tensor Q) (n k : nat) :
  shape_is org_weight n k -> shape_is cur_weight n k -> n <> 0%nat -> k <> 0%nat ->
  exists l, mse_loss org_weight cur_weight = Ok (FVal l).
Proof.
  intros Ho Hc Hn Hk. unfold mse_loss.
  pose proof (flat_length _ _ _ Ho) as Hlo. pose proof (flat_length _ _ _ Hc) as Hlc.
  destruct Ho as [Hon [Hok _]]. destruct Hc as [Hcn [Hck _]].
  rewrite Hon, Hcn, Hok, Hck, !Nat.eqb_refl. cbn [andb].
  destruct (map _ (combine (flat org_weight) (flat cur_weight))) as [|x d] eqn:E.
  - exfalso. apply (f_equal (@length Q)) in E.
    rewrite length_map, length_combine, Hlo, Hlc, Nat.min_id in E. cbn [length] in E.
    apply Nat.eq_mul_0 in E. destruct E; contradiction.
  - eexists. reflexivity.
Qed.

(** With whole rows as groups every candidate of the search gets a
    loss, whatever the codec. *)
Lemma clip_loss_total_whole (weight : tensor Q) (n k : nat) (num_bits group_size : Z)
      (scheme data_type : string) (enable_full_range : bool) (i_s : nat) :
  shape_is weight n k -> n <> 0%nat -> k <> 0%nat -> (2 <= num_bits)%Z ->
  supported data_type -> group_size = (-1)%Z \/ (Z.of_nat k < group_size)%Z ->
  exists l,
    clip_loss weight num_bits group_size scheme data_type enable_full_range i_s = Ok (FVal l).
Proof.
  intros Hsh Hn Hk Hb Hsup Hg. unfold clip_loss, quant_weight.
  destruct (Z.leb_spec num_bits 0); [lia|].
  assert (Hwhole : ((group_size =? -1)%Z || (Z.of_nat (ncols weight) <? group_size)%Z) = true).
  { destruct Hsh as [_ [Hc _]]. rewrite Hc. apply orb_true_iff.
    destruct Hg as [-> | Hlt]; [left; reflexivity|right; apply Z.ltb_lt; exact Hlt]. }
  rewrite Hwhole.
  destruct (actor_total weight n k num_bits scheme (clip_ratio i_s) data_type false
                        enable_full_range Hsh Hk Hb Hsup) as [r [Hr [cw ->]]].
  rewrite Hr. cbn [bind unpack1].
  apply (mse_loss_finite weight cw n k Hsh); try assumption.
  apply (actor_float_shape _ _ _ _ _ _ _ _ _ Hsh Hr).
Qed.

(** So the search returns one of its 40 ratios. *)
Lemma search_clip_total_whole (weight : tensor Q) (n k : nat) (num_bits group_size : Z)
      (scheme data_type : string) (enable_full_range : bool) :
  shape_is weight n k -> n <> 0%nat -> k <> 0%nat -> (2 <= num_bits)%Z ->
  supported data_type -> group_size = (-1)%Z \/ (Z.of_nat k < group_size)%Z ->
  exists j, (j < 40)%nat /\
            search_clip weight num_bits group_size scheme data_type enable_full_range
            = Ok (Some (clip_ratio j)).
Proof.
  intros Hsh Hn Hk Hb Hsup Hg.
  destruct (clip_loop_inv weight num_bits group_size scheme data_type enable_full_range
                          40 0 (FInf, None, [])) as [st [Hloop Hinv]].
  - unfold clip_inv. cbv zeta. split; [reflexivity|]. left. auto.
  - intros i _. apply (clip_loss_total_whole weight n k); assumption.
  - destruct st as [[best_error best_clip_ratio] history].
    unfold clip_inv in Hinv. cbv zeta in Hinv. cbn [plus] in Hinv.
    destruct Hinv as [_ [[Hj _]|[j [lj [Hj [_ [-> _]]]]]]]; [discriminate|].
    exists j. split; [exact Hj|]. unfold search_clip.
    replace (Z.to_nat (Qtrunc (max_shrink * n_grid))) with 40%nat by reflexivity.
    rewrite Hloop. reflexivity.
Qed.

(** Every element the lookup codec produces from a row with a non-zero
    scale is an entry of the table it was asked to use. *)
Lemma quantize_4bit_row_levels (fam : list Q * list Z) (quantile : Q) (row : list Q)
      (scale : Q) :
  In fam families -> q4_scale (fst fam) quantile row = Ok scale -> ~ scale == 0 ->
  exists q,
    quantize_4bit_row (fst fam) (fst fam) quantile row = Ok (q, scale) /\
    Forall (fun x => In x (fst fam)) q.
Proof.
  intros Hfam Hs Hnz. unfold quantize_4bit_row. rewrite Hs. cbn [bind].
  eexists. split; [reflexivity|].
  destruct (families_mid_sorted fam Hfam) as [Hsorted [Hn [H1 [Hlen _]]]].
  rewrite map_map. apply Forall_map, Forall_forall. intros w _.
  unfold float_div. destruct (Qeq_bool scale 0) eqn:E.
  - apply Qeq_bool_eq in E. contradiction.
  - rewrite Hn at 1. rewrite bucket_sum_value by assumption.
    apply nth_In. pose proof (bucket_index_le (mid_data (fst fam)) (w / scale)). lia.
Qed.

(** ** Full range keeps the extreme weight *)

(** With the flag of the code the extreme weight survives full-range
    quantization: on the row [3; -1] at 4 bits the scale is -3/8, the
    weight 3 gets the code -8 and is reconstructed exactly. *)
Lemma full_range_keeps_extreme_sample :
  exists q scale w,
    qdq_weight_sym (mkT 2 [[3; - (1)]]) 4 1 true true
    = Ok (QInt (mkT 2 [[-8; 3]%Z]) scale None) /\
    tmap Qred scale = mkT 1 [[- (3 # 8)]] /\
    q = mkT 2 [[-8; 3]%Z] /\
    qdq_weight_sym (mkT 2 [[3; - (1)]]) 4 1 false true = Ok (QFloat w) /\
    tmap Qred w = mkT 2 [[3; - (9 # 8)]].
Proof.
  do 3 eexists.
  split; [vm_compute; reflexivity|].
  split; [vm_compute; reflexivity|].
  split; [reflexivity|].
  split; vm_compute; reflexivity.
Qed.

(** ** Bit-packing round trips *)

Open Scope Z_scope.

Lemma fields_value_bounds (b : Z) (vals : list Z) :
  0 <= b -> 0 <= fields_value b vals < 2 ^ (b * Z.of_nat (length vals)).
Proof.
  intros Hb. induction vals as [|v r IH]; cbn [fields_value length].
  - rewrite Z.mul_0_r. cbn. lia.
  - rewrite Nat2Z.inj_succ, Z.mul_succ_r, Z.pow_add_r by lia.
    pose proof (pow2_pos b Hb) as Hp.
    pose proof (Z.mod_pos_bound v (2 ^ b) Hp) as Hm.
    nia.
Qed.

Lemma fields_value_app (b : Z) (l1 l2 : list Z) :
  0 <= b ->
  fields_value b (l1 ++ l2)
  = fields_value b l1 + 2 ^ (b * Z.of_nat (length l1)) * fields_value b l2.
Proof.
  intros Hb. induction l1 as [|v r IH]; cbn [fields_value length app].
  - rewrite Z.mul_0_r. cbn [Z.pow]. lia.
  - rewrite IH, Nat2Z.inj_succ, Z.mul_succ_r, Z.pow_add_r by lia. ring.
Qed.

Lemma wrap_signed_mod (w x : Z) : 0 < w -> (wrap_signed w x) mod 2 ^ w = x mod 2 ^ w.
Proof.
  intros Hw. unfold wrap_signed.
  rewrite Zminus_mod_idemp_l. f_equal. lia.
Qed.

Lemma wrap_signed_range (w x : Z) :
  0 < w -> - 2 ^ (w - 1) <= wrap_signed w x < 2 ^ (w - 1).
Proof.
  intros Hw. unfold wrap_signed.
  assert (H2 : 2 ^ w = 2 * 2 ^ (w - 1)).
  { replace w with (1 + (w - 1)) at 1 by lia. rewrite Z.pow_add_r by lia. reflexivity. }
  pose proof (pow2_pos (w - 1) ltac:(lia)) as Hp.
  pose proof (Z.mod_pos_bound (x + 2 ^ (w - 1)) (2 ^ w) ltac:(lia)). lia.
Qed.

Lemma wrap_signed_id (w x : Z) :
  0 < w -> - 2 ^ (w - 1) <= x < 2 ^ (w - 1) -> wrap_signed w x = x.
Proof.
  intros Hw Hx. unfold wrap_signed.
  assert (H2 : 2 ^ w = 2 * 2 ^ (w - 1)).
  { replace w with (1 + (w - 1)) at 1 by lia. rewrite Z.pow_add_r by lia. reflexivity. }
  rewrite Z.mod_small by lia. lia.
Qed.

(** The signed reading of a residue. *)
Lemma wrap_signed_of_mod (w x : Z) :
  0 < w ->
  wrap_signed w x = if x mod 2 ^ w <? 2 ^ (w - 1) then x mod 2 ^ w else x mod 2 ^ w - 2 ^ w.
Proof.
  intros Hw.
  assert (H2 : 2 ^ w = 2 * 2 ^ (w - 1)).
  { replace w with (1 + (w - 1)) at 1 by lia. rewrite Z.pow_add_r by lia. reflexivity. }
  pose proof (pow2_pos (w - 1) ltac:(lia)) as Hp.
  pose proof (Z.mod_pos_bound x (2 ^ w) ltac:(lia)) as Hm.
  unfold wrap_signed.
  rewrite <- (Zplus_mod_idemp_l x).
  destruct (Z.ltb_spec (x mod 2 ^ w) (2 ^ (w - 1))).
  - rewrite Z.mod_small by lia. lia.
  - replace (x mod 2 ^ w + 2 ^ (w - 1)) with ((x mod 2 ^ w - 2 ^ (w - 1)) + 1 * 2 ^ w) by lia.
    rewrite Z_mod_plus_full, Z.mod_small by lia. lia.
Qed.

Lemma mod_pow2_mod_pow2 (x a b : Z) : 0 <= a <= b -> (x mod 2 ^ b) mod 2 ^ a = x mod 2 ^ a.
Proof.
  intros H. apply Z.mod_mod_divide.
  exists (2 ^ (b - a)). rewrite <- Z.pow_add_r by lia. f_equal. lia.
Qed.

Lemma lor_mod_pow2 (a b w : Z) :
  0 <= w -> (Z.lor a b) mod 2 ^ w = Z.lor (a mod 2 ^ w) (b mod 2 ^ w).
Proof.
  intros Hw. rewrite <- !Z.land_ones by lia. apply Z.land_lor_distr_l.
Qed.

Lemma lor_disjoint (x u k : Z) :
  0 <= k -> 0 <= x < 2 ^ k -> Z.lor x (u * 2 ^ k) = x + u * 2 ^ k.
Proof.
  intros Hk Hx.
  assert (Hland : Z.land x (u * 2 ^ k) = 0).
  { apply Z.bits_inj'. intros n Hn. rewrite Z.land_spec, Z.bits_0.
    destruct (Z.lt_ge_cases n k) as [Hlt|Hge].
    - rewrite <- Z.shiftl_mul_pow2 by lia. rewrite Z.shiftl_spec_low by lia.
      apply andb_false_r.
    - replace (Z.testbit x n) with false; [reflexivity|].
      symmetry. destruct (Z.eq_dec x 0) as [->|Hx0]; [apply Z.bits_0|].
      apply Z.bits_above_log2; [lia|].
      apply Z.log2_lt_pow2; [lia|].
      apply Z.lt_le_trans with (2 ^ k); [lia|]. apply Z.pow_le_mono_r; lia. }
  rewrite <- Z.lxor_lor by exact Hland. symmetry. apply Z.add_nocarry_lxor. exact Hland.
Qed.

Section PackWord.

Variable s : WeightOnlyLinear.t.
Variables b cb : Z.
Hypothesis bits_eq : WeightOnlyLinear.bits s = b.
Hypothesis cb_eq : WeightOnlyLinear.compress_bits s = cb.
Hypothesis b_pos : 0 < b.
Hypothesis cb_pos : 0 < cb.

Local Abbreviation step :=
  (fun acc (ev : nat * Z) =>
     let v := Z.land (wrap_signed (WeightOnlyLinear.compress_bits s) (snd ev)) (2 ^ b - 1) in
     let v := wrap_signed (WeightOnlyLinear.compress_bits s)
                          (Z.shiftl v (WeightOnlyLinear.bits s * Z.of_nat (fst ev))) in
     Z.lor acc v).

(** The residue of the word after the inner loop of [pack]: the fields
    are laid side by side above what the word held. *)
Lemma pack_fold_mod (vals : list Z) : forall (a : nat) (acc : Z),
  b * (Z.of_nat a + Z.of_nat (length vals)) <= cb ->
  0 <= acc mod 2 ^ cb < 2 ^ (b * Z.of_nat a) ->
  (fold_left step (combine (seq a (length vals)) vals) acc) mod 2 ^ cb
  = acc mod 2 ^ cb + 2 ^ (b * Z.of_nat a) * fields_value b vals.
Proof using bits_eq cb_eq b_pos cb_pos.
  induction vals as [|v r IH]; intros a acc Hfit Hacc.
  - cbn [length seq combine fold_left fields_value]. lia.
  - cbn [length seq combine fold_left fields_value].
    cbn [length] in Hfit. rewrite Nat2Z.inj_succ in Hfit.
    assert (Hbcb : b <= cb) by nia.
    pose proof (pow2_pos b ltac:(lia)) as Hpb.
    pose proof (pow2_pos (b * Z.of_nat a) ltac:(nia)) as Hpa.
    pose proof (Z.mod_pos_bound v (2 ^ b) Hpb) as Hv.
    assert (Hfield : Z.land (wrap_signed cb v) (2 ^ b - 1) = v mod 2 ^ b).
    { replace (2 ^ b - 1) with (Z.ones b) by (rewrite Z.ones_equiv; lia).
      rewrite Z.land_ones by lia.
      rewrite <- (mod_pow2_mod_pow2 (wrap_signed cb v) b cb) by lia.
      rewrite wrap_signed_mod by lia. apply mod_pow2_mod_pow2. lia. }
    assert (Hle : 2 ^ (b * Z.of_nat a) * 2 ^ b <= 2 ^ cb).
    { rewrite <- Z.pow_add_r by nia. apply Z.pow_le_mono_r; nia. }
    assert (Hshift : (wrap_signed cb (Z.shiftl (v mod 2 ^ b) (b * Z.of_nat a))) mod 2 ^ cb
                     = (v mod 2 ^ b) * 2 ^ (b * Z.of_nat a)).
    { rewrite wrap_signed_mod by lia. rewrite Z.shiftl_mul_pow2 by nia.
      apply Z.mod_small. nia. }
    rewrite IH.
    + cbv zeta. cbn [fst snd]. rewrite cb_eq, bits_eq, Hfield.
      rewrite lor_mod_pow2 by lia. rewrite Hshift.
      rewrite lor_disjoint by (try nia; exact Hacc).
      rewrite Nat2Z.inj_succ, Z.mul_succ_r, Z.pow_add_r by nia. ring.
    + lia.
    + cbv zeta. cbn [fst snd]. rewrite cb_eq, bits_eq, Hfield.
      rewrite lor_mod_pow2 by lia. rewrite Hshift.
      rewrite lor_disjoint by (try nia; exact Hacc).
      rewrite Nat2Z.inj_succ, Z.mul_succ_r, Z.pow_add_r by nia. nia.
Qed.

(** One field read back by [recover]: the signed reading of its [b]
    bits. *)
Lemma unpack_field_value (word : Z) (vals : list Z) (e : nat) :
  b <= 8 -> b * Z.of_nat (length vals) <= cb -> (e < length vals)%nat ->
  word mod 2 ^ cb = fields_value b vals ->
  WeightOnlyLinear.unpack_field s word e = wrap_signed b (nth e vals 0).
Proof using bits_eq cb_eq b_pos cb_pos.
  intros Hb8 Hfit He Hword.
  unfold WeightOnlyLinear.unpack_field. rewrite cb_eq, bits_eq.
  (* split the fields around the e-th *)
  rewrite <- (firstn_skipn e vals) in Hword.
  assert (Hlen1 : length (firstn e vals) = e) by (rewrite length_firstn; lia).
  destruct (skipn e vals) as [|v rest] eqn:Hskip.
  { exfalso. apply (f_equal (@length Z)) in Hskip. rewrite length_skipn in Hskip.
    cbn [length] in Hskip. lia. }
  assert (Hnth : nth e vals 0 = v).
  { rewrite <- (firstn_skipn e vals), Hskip, app_nth2 by lia.
    rewrite Hlen1, Nat.sub_diag. reflexivity. }
  assert (Hlenr : (length vals = e + S (length rest))%nat).
  { rewrite <- (firstn_skipn e vals), Hskip, length_app, Hlen1. reflexivity. }
  rewrite fields_value_app in Hword by lia. rewrite Hlen1 in Hword.
  cbn [fields_value] in Hword.
  pose proof (fields_value_bounds b (firstn e vals) ltac:(lia)) as HL. rewrite Hlen1 in HL.
  pose proof (fields_value_bounds b rest ltac:(lia)) as HH.
  set (L := fields_value b (firstn e vals)) in *.
  set (H := fields_value b rest) in *.
  set (u := v mod 2 ^ b) in *.
  set (E := Z.of_nat e) in *.
  assert (HE : 0 <= E) by (unfold E; lia).
  assert (Hfit' : b * (E + 1) <= cb) by (unfold E; nia).
  set (sh := cb - b * (E + 1)).
  pose proof (pow2_pos b ltac:(lia)) as Hpb.
  pose proof (pow2_pos sh ltac:(unfold sh; lia)) as Hpsh.
  pose proof (pow2_pos (b * E) ltac:(nia)) as HpE.
  pose proof (pow2_pos (cb - b) ltac:(nia)) as HpD.
  pose proof (Z.mod_pos_bound v (2 ^ b) Hpb) as Hu. fold u in Hu.
  assert (HD : 2 ^ (cb - b) = 2 ^ (b * E) * 2 ^ sh).
  { rewrite <- Z.pow_add_r by (unfold sh; nia). f_equal. unfold sh. lia. }
  assert (HM : 2 ^ cb = 2 ^ b * 2 ^ (cb - b)).
  { rewrite <- Z.pow_add_r by nia. f_equal. lia. }
  (* the word after the left shift, as a residue *)
  assert (HX : (Z.shiftl word sh) mod 2 ^ cb = u * 2 ^ (cb - b) + L * 2 ^ sh).
  { rewrite Z.shiftl_mul_pow2 by (unfold sh; lia).
    rewrite <- Zmult_mod_idemp_l, Hword.
    replace ((L + 2 ^ (b * E) * (u + 2 ^ b * H)) * 2 ^ sh)
      with ((u * 2 ^ (cb - b) + L * 2 ^ sh) + H * 2 ^ cb) by (rewrite HM, HD; ring).
    rewrite Z_mod_plus_full. apply Z.mod_small. rewrite HM, HD. nia. }
  assert (Hlow : 0 <= L * 2 ^ sh < 2 ^ (cb - b)) by (rewrite HD; nia).
  set (low := L * 2 ^ sh) in *.
  rewrite (wrap_signed_of_mod cb) by lia. rewrite HX.
  rewrite Z.shiftr_div_pow2 by nia.
  assert (Hhalf : 2 ^ (cb - 1) = 2 ^ (b - 1) * 2 ^ (cb - b)).
  { rewrite <- Z.pow_add_r by nia. f_equal. lia. }
  assert (Hb2 : 2 ^ b = 2 * 2 ^ (b - 1)).
  { replace b with (1 + (b - 1)) at 1 by lia. rewrite Z.pow_add_r by lia. reflexivity. }
  pose proof (pow2_pos (b - 1) ltac:(lia)) as Hpb1.
  assert (H8 : 2 ^ (b - 1) <= 2 ^ 7) by (apply Z.pow_le_mono_r; lia).
  change (2 ^ 7) with 128 in H8.
  rewrite Hnth, (wrap_signed_of_mod b v) by lia. fold u.
  destruct (Z.ltb_spec (u * 2 ^ (cb - b) + low) (2 ^ (cb - 1))) as [Hlt|Hge].
  - assert (Hu1 : u < 2 ^ (b - 1)) by (rewrite Hhalf in Hlt; nia).
    destruct (Z.ltb_spec u (2 ^ (b - 1))); [|lia].
    replace ((u * 2 ^ (cb - b) + low) / 2 ^ (cb - b)) with u.
    + apply to_int8_small. lia.
    + apply Z.div_unique with low; [left; lia|ring].
  - assert (Hu1 : 2 ^ (b - 1) <= u) by (rewrite Hhalf in Hge; nia).
    destruct (Z.ltb_spec u (2 ^ (b - 1))); [lia|].
    replace ((u * 2 ^ (cb - b) + low - 2 ^ cb) / 2 ^ (cb - b)) with (u - 2 ^ b).
    + apply to_int8_small. lia.
    + apply Z.div_unique with low; [left; lia|rewrite HM; ring].
Qed.

End PackWord.
Close Scope Z_scope.

Lemma nth_set_nth {A : Type} (d v : A) (l : list A) : forall (k i : nat),
  nth i (set_nth k v l) d = if ((i =? k) && (k <? length l))%nat then v else nth i l d.
Proof.
  induction l as [|x l IH]; intros k i.
  - destruct k; cbn [set_nth length]; rewrite andb_false_r; reflexivity.
  - destruct k as [|k]; cbn [set_nth length].
    + destruct i as [|i]; reflexivity.
    + destruct i as [|i]; cbn [nth]; [reflexivity|].
      rewrite IH. reflexivity.
Qed.

Section UnpackRow.

Variable s : WeightOnlyLinear.t.
Variable np : nat.
Hypothesis np_eq : Z.to_nat (WeightOnlyLinear.n_pack s) = np.
Hypothesis np_pos : (0 < np)%nat.
Variable origin1 : nat.
Variable packed_row : list Z.

Local Abbreviation field j e := (WeightOnlyLinear.unpack_field s (nth j packed_row 0%Z) e).

Local Abbreviation inner j :=
  (fun w e => let index := (j * np + e)%nat in
              if (origin1 <=? index)%nat then w else set_nth index (field j e) w).

Lemma unpack_inner_nth (j : nat) (len : nat) : forall (a : nat) (w : list Z) (i : nat),
  length w = origin1 ->
  length (fold_left (inner j) (seq a len) w) = origin1 /\
  nth i (fold_left (inner j) (seq a len) w) 0%Z
  = if ((j * np + a <=? i) && (i <? j * np + a + len) && (i <? origin1))%nat
    then field j (i - j * np) else nth i w 0%Z.
Proof.
  induction len as [|len IH]; intros a w i Hw.
  - cbn [seq fold_left]. split; [exact Hw|].
    destruct (Nat.leb_spec (j * np + a) i), (Nat.ltb_spec i (j * np + a + 0));
      cbn [andb]; try reflexivity; lia.
  - cbn [seq fold_left]. cbv beta zeta.
    pose proof (IH (S a) (if (origin1 <=? j * np + a)%nat then w
                          else set_nth (j * np + a) (field j a) w) i) as IH'.
    cbv beta zeta in IH'.
    assert (Hw1 : length (if (origin1 <=? j * np + a)%nat then w
                          else set_nth (j * np + a) (field j a) w) = origin1).
    { destruct (origin1 <=? j * np + a)%nat; [exact Hw|].
      rewrite set_nth_length. exact Hw. }
    destruct (IH' Hw1) as [Hl Hn]. split; [exact Hl|]. rewrite Hn.
    assert (Hn1 : nth i (if (origin1 <=? j * np + a)%nat then w
                         else set_nth (j * np + a) (field j a) w) 0%Z
                  = if ((i =? j * np + a) && (i <? origin1))%nat then field j a
                    else nth i w 0%Z).
    { destruct (Nat.leb_spec origin1 (j * np + a)).
      - destruct (Nat.eqb_spec i (j * np + a)), (Nat.ltb_spec i origin1);
          cbn [andb]; try reflexivity; lia.
      - rewrite nth_set_nth, Hw.
        destruct (Nat.eqb_spec i (j * np + a)), (Nat.ltb_spec (j * np + a) origin1),
                 (Nat.ltb_spec i origin1); cbn [andb]; try reflexivity; lia. }
    rewrite Hn1.
    destruct (Nat.leb_spec (j * np + S a) i), (Nat.ltb_spec i (j * np + S a + len)),
             (Nat.leb_spec (j * np + a) i), (Nat.ltb_spec i (j * np + a + S len)),
             (Nat.ltb_spec i origin1), (Nat.eqb_spec i (j * np + a));
      cbn [andb]; try reflexivity; try lia.
    subst i. f_equal. lia.
Qed.

Lemma unpack_outer_nth (len : nat) : forall (a : nat) (w : list Z) (i : nat),
  length w = origin1 ->
  length (fold_left (fun w j => fold_left (inner j) (seq 0 np) w) (seq a len) w) = origin1 /\
  nth i (fold_left (fun w j => fold_left (inner j) (seq 0 np) w) (seq a len) w) 0%Z
  = if ((a * np <=? i) && (i <? (a + len) * np) && (i <? origin1))%nat
    then field (i / np) (i mod np) else nth i w 0%Z.
Proof.
  induction len as [|len IH]; intros a w i Hw.
  - cbn [seq fold_left]. split; [exact Hw|].
    replace (a + 0)%nat with a by lia.
    destruct (Nat.leb_spec (a * np) i), (Nat.ltb_spec i (a * np));
      cbn [andb]; try reflexivity; lia.
  - cbn [seq fold_left]. cbv beta zeta.
    pose proof (unpack_inner_nth a np 0 w) as Hin. cbv beta zeta in Hin.
    destruct (Hin i Hw) as [Hl1 Hn1].
    pose proof (IH (S a) _ i Hl1) as IH'. cbv beta zeta in IH'.
    destruct IH' as [Hl Hn]. split; [exact Hl|]. rewrite Hn, Hn1.
    replace (a * np + 0)%nat with (a * np)%nat by lia.
    destruct (Nat.leb_spec (S a * np) i), (Nat.ltb_spec i ((S a + len) * np)),
             (Nat.leb_spec (a * np) i), (Nat.ltb_spec i ((a + S len) * np)),
             (Nat.ltb_spec i (a * np + np)), (Nat.ltb_spec i origin1);
      cbn [andb]; try reflexivity; try nia.
    assert (Hq : (i / np = a)%nat).
    { symmetry. apply (Nat.div_unique i np a (i - a * np)); nia. }
    assert (Hr : (i mod np = i - a * np)%nat).
    { symmetry. apply (Nat.mod_unique i np a (i - a * np)); nia. }
    rewrite Hq, Hr. reflexivity.
Qed.

(** What the two loops of [recover] leave in a row: every column
    covered by a word holds the field of the word at its place. *)
Lemma unpack_row_nth (target1 : nat) (weight_row : list Z) (i : nat) :
  length weight_row = origin1 ->
  length (WeightOnlyLinear.unpack_row s origin1 target1 packed_row weight_row) = origin1 /\
  nth i (WeightOnlyLinear.unpack_row s origin1 target1 packed_row weight_row) 0%Z
  = if ((i <? target1 * np) && (i <? origin1))%nat
    then field (i / np) (i mod np) else nth i weight_row 0%Z.
Proof.
  intros Hw. unfold WeightOnlyLinear.unpack_row. rewrite np_eq.
  pose proof (unpack_outer_nth target1 0 weight_row i Hw) as H.
  cbv beta zeta in H |- *. destruct H as [Hl Hn].
  split; [exact Hl|]. rewrite Hn. cbn [Nat.mul Nat.add Nat.leb andb]. reflexivity.
Qed.

End UnpackRow.

Lemma mask_of_value (s : WeightOnlyLinear.t) (mask : Z) :
  (0 <= WeightOnlyLinear.bits s)%Z -> WeightOnlyLinear.mask_of s = Ok mask ->
  mask = (2 ^ WeightOnlyLinear.bits s - 1)%Z.
Proof.
  intros Hb. unfold WeightOnlyLinear.mask_of.
  destruct (Z.ltb_spec (WeightOnlyLinear.bits s) 0); [lia|].
  destruct (_ <? _)%Z; intros Hm; inversion Hm. reflexivity.
Qed.

Lemma pack_row_nth (s : WeightOnlyLinear.t) (mask : Z) (int_row : list Z) (m j : nat) :
  (j < m)%nat ->
  nth j (WeightOnlyLinear.pack_row s mask int_row (repeat 0%Z m)) 0%Z
  = WeightOnlyLinear.pack_word s mask
      (skipn (Z.to_nat (WeightOnlyLinear.n_pack s * Z.of_nat j))
             (firstn (Z.to_nat (WeightOnlyLinear.n_pack s * (Z.of_nat j + 1))) int_row))
      0%Z.
Proof.
  intros Hj. unfold WeightOnlyLinear.pack_row. rewrite repeat_length.
  set (f := fun jw : nat * Z => _).
  rewrite (nth_indep _ 0%Z (f (0%nat, 0%Z)))
    by (rewrite length_map, length_combine, length_seq, repeat_length; lia).
  rewrite map_nth, combine_nth by (rewrite length_seq, repeat_length; reflexivity).
  rewrite seq_nth, nth_repeat by exact Hj. reflexivity.
Qed.

(** Round trip of one row through the packed words.  A row packed into
    fresh (zero) words and unpacked comes back with every entry read
    as a signed number of [bits] bits. *)
Lemma pack_unpack_row (s : WeightOnlyLinear.t) (mask : Z) (int_row weight_row : list Z)
        (m : nat) :
  (1 <= WeightOnlyLinear.bits s <= 8)%Z ->
  (WeightOnlyLinear.bits s <= WeightOnlyLinear.compress_bits s)%Z ->
  WeightOnlyLinear.n_pack s
  = (WeightOnlyLinear.compress_bits s / WeightOnlyLinear.bits s)%Z ->
  WeightOnlyLinear.mask_of s = Ok mask ->
  (length int_row <= Z.to_nat (WeightOnlyLinear.n_pack s) * m)%nat ->
  length weight_row = length int_row ->
  WeightOnlyLinear.unpack_row s (length int_row) m
    (WeightOnlyLinear.pack_row s mask int_row (repeat 0%Z m)) weight_row
  = map (wrap_signed (WeightOnlyLinear.bits s)) int_row.
Proof.
  intros Hb Hbcb Hnp Hmask Hfit Hlen.
  set (b := WeightOnlyLinear.bits s) in *.
  set (cb := WeightOnlyLinear.compress_bits s) in *.
  set (np := Z.to_nat (WeightOnlyLinear.n_pack s)) in *.
  assert (Hmv : mask = (2 ^ b - 1)%Z) by (apply mask_of_value; [unfold b in *; lia|exact Hmask]).
  assert (Hnpz : (1 <= WeightOnlyLinear.n_pack s)%Z).
  { rewrite Hnp. apply Z.div_le_lower_bound; lia. }
  assert (Hnpb : (b * WeightOnlyLinear.n_pack s <= cb)%Z).
  { rewrite Hnp. apply Z.mul_div_le. lia. }
  assert (Hnpnat : Z.of_nat np = WeightOnlyLinear.n_pack s) by (unfold np; lia).
  assert (Hnppos : (0 < np)%nat) by lia.
  assert (Hw0 : wrap_signed b 0 = 0%Z) by (apply wrap_signed_id; [lia|]; pose proof (pow2_pos (b - 1) ltac:(lia)); lia).
  apply (nth_ext _ _ 0%Z 0%Z).
  - rewrite length_map.
    apply (unpack_row_nth s np eq_refl Hnppos (length int_row) _ m weight_row 0 Hlen).
  - intros i Hi.
    destruct (unpack_row_nth s np eq_refl Hnppos (length int_row)
                (WeightOnlyLinear.pack_row s mask int_row (repeat 0%Z m)) m weight_row i Hlen)
      as [Hl Hn].
    rewrite Hl in Hi. rewrite Hn.
    destruct (Nat.ltb_spec i (m * np)); [|lia].
    destruct (Nat.ltb_spec i (length int_row)); [|lia]. cbn [andb].
    pose proof (Nat.div_mod_eq i np) as Hdm.
    pose proof (Nat.mod_upper_bound i np ltac:(lia)) as Hmod.
    set (j := (i / np)%nat) in *. set (e := (i mod np)%nat) in *.
    assert (Hj : (j < m)%nat) by nia.
    rewrite pack_row_nth by exact Hj.
    replace (Z.to_nat (WeightOnlyLinear.n_pack s * Z.of_nat j)) with (np * j)%nat by nia.
    replace (Z.to_nat (WeightOnlyLinear.n_pack s * (Z.of_nat j + 1))) with (np * j + np)%nat
      by nia.
    set (slice := skipn (np * j) (firstn (np * j + np) int_row)).
    assert (Hsl : length slice = (Nat.min (np * j + np) (length int_row) - np * j)%nat).
    { unfold slice. rewrite length_skipn, length_firstn. reflexivity. }
    assert (Hnthsl : nth e slice 0%Z = nth i int_row 0%Z).
    { unfold slice. rewrite nth_skipn, nth_firstn.
      destruct (Nat.ltb_spec (np * j + e) (np * j + np)); [|lia]. f_equal. lia. }
    rewrite (unpack_field_value s b cb eq_refl eq_refl ltac:(lia) ltac:(lia) _ slice e).
    + rewrite Hnthsl. rewrite (nth_indep (map (wrap_signed b) int_row) 0%Z (wrap_signed b 0))
        by (rewrite length_map; lia).
      rewrite map_nth. reflexivity.
    + lia.
    + rewrite Hsl. nia.
    + lia.
    + unfold WeightOnlyLinear.pack_word. subst mask.
      pose proof (pack_fold_mod s b cb eq_refl eq_refl ltac:(lia) ltac:(lia) slice 0 0%Z) as Hp.
      cbv beta zeta in Hp |- *. rewrite Hp.
      * rewrite Z.mod_0_l by (apply Z.pow_nonzero; lia). cbn [Z.of_nat]. rewrite Z.mul_0_r.
        cbn [Z.pow]. lia.
      * rewrite Hsl. nia.
      * rewrite Z.mod_0_l by (apply Z.pow_nonzero; lia). cbn [Z.of_nat]. rewrite Z.mul_0_r.
        cbn [Z.pow]. lia.
Qed.

Lemma Qmult_comm_eq (x y : Q) : x * y = y * x.
Proof.
  destruct x as [a b], y as [c d]. unfold Qmult. cbn [Qnum Qden].
  rewrite Z.mul_comm, Pos.mul_comm. reflexivity.
Qed.

Lemma map_combine_repeat {A B C : Type} (f : A * B -> C) (c : B) (l : list A) :
  map f (combine l (repeat c (length l))) = map (fun x => f (x, c)) l.
Proof. induction l as [|x l IH]; cbn [length repeat combine map]; [reflexivity|]. rewrite IH. reflexivity. Qed.

Lemma map_combine_map_l {A A' B C : Type} (f : A' * B -> C) (g : A -> A')
      (l : list A) (l' : list B) :
  map f (combine (map g l) l') = map (fun p => f (g (fst p), snd p)) (combine l l').
Proof.
  revert l'. induction l as [|x l IH]; intros l'; [reflexivity|].
  destruct l' as [|y l']; [reflexivity|]. cbn [map combine fst snd]. rewrite IH. reflexivity.
Qed.

Lemma firstn_whole {A : Type} (l : list A) (k : nat) : length l = k -> firstn k l = l.
Proof. intros <-. apply firstn_all. Qed.

(** [__init__] for groups of whole rows ([groupsize = -1]), no zero
    points, no bias, compression along the input channels. *)
Lemma init_whole_rows (k n : nat) (b cb : Z) (data_type : string) (mp : list (Z * Q)) :
  k <> 0%nat -> (1 <= b)%Z -> (b <= cb)%Z ->
  (cb = 8 \/ cb = 16 \/ cb = 32 \/ cb = 64)%Z ->
  int2float_mapping_of data_type = Ok mp ->
  WeightOnlyLinear.init k n b (-1) data_type false false cb 1
  = Ok (WeightOnlyLinear.mk data_type mp k n b (Z.of_nat k) 1 cb (cb / b)
          (zeros 0 n 1)
          (zeros 0%Z n (Z.to_nat (- (- Z.of_nat k / (cb / b)))))
          None None).
Proof.
  intros Hk Hb Hbcb Hcb Hmp. unfold WeightOnlyLinear.init.
  unfold int2float_mapping_of in Hmp. rewrite Hmp.
  cbn [negb bind]. change (-1 =? -1)%Z with true. cbv iota.
  assert (Ha : assert ((cb =? 8) || (cb =? 16) || (cb =? 32) || (cb =? 64))%Z
                      "Only support torch.int8|16|32|64 as compressed dtype." = Ok tt).
  { destruct Hcb as [-> | [-> | [-> | ->]]]; reflexivity. }
  rewrite Ha. cbn [bind]. destruct (Z.eqb_spec b 0); [lia|]. cbn [bind assert Z.eqb orb].
  assert (Hnp : (1 <= cb / b)%Z) by (apply Z.div_le_lower_bound; lia).
  assert (Hg : py_ceil_div (Z.of_nat k) (Z.of_nat k) = Ok 1%Z).
  { unfold py_ceil_div. destruct (Z.eqb_spec (Z.of_nat k) 0); [lia|].
    f_equal. rewrite Z.div_opp_l_z by (try lia; apply Z_mod_same_full).
    rewrite Z.div_same by lia. reflexivity. }
  rewrite Hg. cbn [bind zeros_dim Z.ltb Z.compare]. cbn [Z.to_nat Pos.to_nat Pos.iter_op Nat.add].
  unfold py_ceil_div. destruct (Z.eqb_spec (cb / b) 0); [lia|]. cbn [bind].
  unfold zeros_dim.
  assert (Hneg : (- Z.of_nat k / (cb / b) <= 0)%Z).
  { apply Z.div_le_upper_bound; lia. }
  destruct (Z.ltb_spec (- (- Z.of_nat k / (cb / b))) 0); [lia|]. reflexivity.
Qed.

Lemma ceil_words_cover (k : nat) (np : Z) :
  (1 <= np)%Z -> (k <= Z.to_nat np * Z.to_nat (- (- Z.of_nat k / np)))%nat.
Proof.
  intros Hnp.
  pose proof (Z.mul_div_le (- Z.of_nat k) np ltac:(lia)) as H.
  assert (Hneg : (- Z.of_nat k / np <= 0)%Z) by (apply Z.div_le_upper_bound; lia).
  nia.
Qed.

Lemma to_float_weight_tmap (dtype : string) (mapping : list (Z * Q)) (weight : tensor Z) :
  (if negb (has_int dtype) then
     tmap (fun x => fold_left (fun acc kv => acc + (if (x =? fst kv)%Z then snd kv else 0))
                              mapping 0) weight
   else tmap inject_Z weight)
  = tmap (to_float_weight dtype mapping) weight.
Proof. unfold to_float_weight. destruct (negb (has_int dtype)); reflexivity. Qed.

(** Packing an integer matrix with one scale per row into a fresh
    store and recovering it: every entry comes back as the signed
    reading of its [b] bits, turned into a float and multiplied by the
    scale of its row. *)
Lemma recover_pack_whole_rows (q : tensor Z) (scale : tensor Q) (n k : nat) (b cb : Z)
      (data_type : string) (mp : list (Z * Q)) :
  shape_is q n k -> shape_is scale n 1 -> n <> 0%nat -> k <> 0%nat ->
  (1 <= b <= 8)%Z -> (b < cb)%Z -> (cb = 8 \/ cb = 16 \/ cb = 32 \/ cb = 64)%Z ->
  int2float_mapping_of data_type = Ok mp ->
  exists s0 s1,
    WeightOnlyLinear.init k n b (-1) data_type false false cb 1 = Ok s0 /\
    WeightOnlyLinear.pack s0 q scale None None = Ok s1 /\
    WeightOnlyLinear.recover s1
    = Ok (mkT k (map (fun p => map (fun x => to_float_weight data_type mp (wrap_signed b x)
                                             * hd 0 (snd p)) (fst p))
                     (combine (trows q) (trows scale)))).
Proof.
  intros Hq Hs Hn Hk Hb Hbcb Hcb Hmp.
  pose proof Hq as [Hqn [Hqk Hqwf]]. pose proof Hs as [Hsn [Hsk Hswf]].
  set (m := Z.to_nat (- (- Z.of_nat k / (cb / b)))).
  assert (Hnp : (1 <= cb / b)%Z) by (apply Z.div_le_lower_bound; lia).
  assert (Hmask : forall sc pw,
             WeightOnlyLinear.mask_of
               (WeightOnlyLinear.mk data_type mp k n b (Z.of_nat k) 1 cb (cb / b) sc pw None None)
             = Ok (2 ^ b - 1)%Z).
  { intros sc pw. unfold WeightOnlyLinear.mask_of.
    cbn [WeightOnlyLinear.bits WeightOnlyLinear.compress_bits].
    destruct (Z.ltb_spec b 0); [lia|].
    assert (H2 : (2 ^ b <= 2 ^ (cb - 1))%Z) by (apply Z.pow_le_mono_r; lia).
    destruct (Z.ltb_spec (2 ^ b - 1) (2 ^ (cb - 1))); [reflexivity|lia]. }
  set (packed := mkT m (map (fun qrow =>
                   WeightOnlyLinear.pack_row
                     (WeightOnlyLinear.mk data_type mp k n b (Z.of_nat k) 1 cb (cb / b)
                        (zeros 0 n 1) (zeros 0%Z n m) None None)
                     (2 ^ b - 1)%Z qrow (repeat 0%Z m)) (trows q))).
  eexists. exists (WeightOnlyLinear.mk data_type mp k n b (Z.of_nat k) 1 cb (cb / b)
                     scale packed None None).
  split; [apply (init_whole_rows k n b cb data_type mp Hk); [lia|lia|exact Hcb|exact Hmp]|].
  fold m. split.
  - (* pack *)
    unfold WeightOnlyLinear.pack.
    cbn [WeightOnlyLinear.scale WeightOnlyLinear.compression_dim WeightOnlyLinear.packed_weight
         WeightOnlyLinear.packed_zp WeightOnlyLinear.bias WeightOnlyLinear.dtype
         WeightOnlyLinear.int2float_mapping WeightOnlyLinear.in_features
         WeightOnlyLinear.out_features WeightOnlyLinear.bits WeightOnlyLinear.groupsize
         WeightOnlyLinear.compress_bits WeightOnlyLinear.n_pack].
    destruct (zeros_shape 0 n 1) as [Hz1n [Hz1k _]].
    destruct (zeros_shape 0%Z n m) as [Hzmn [Hzmk _]].
    rewrite Hsn, Hz1n, Hsk, Hz1k, !Nat.eqb_refl. cbn [andb assert bind].
    change (1 =? 0)%Z with false. cbv iota.
    rewrite Hqn, Hzmn, Nat.eqb_refl. cbn [assert bind].
    rewrite Hmask. cbn [bind].
    unfold WeightOnlyLinear.pack_loops. rewrite Hqn, Hzmn, Nat.eqb_refl. cbn [bind].
    unfold packed. do 2 f_equal.
    cbn [zeros ncols trows]. rewrite <- Hqn. unfold nrows.
    rewrite map_combine_repeat. reflexivity.
  - (* recover *)
    unfold WeightOnlyLinear.recover. rewrite Hmask. cbn [bind].
    cbn [WeightOnlyLinear.scale WeightOnlyLinear.compression_dim WeightOnlyLinear.packed_weight
         WeightOnlyLinear.dtype WeightOnlyLinear.int2float_mapping WeightOnlyLinear.in_features
         WeightOnlyLinear.out_features WeightOnlyLinear.groupsize].
    change (1 =? 0)%Z with false. cbv iota.
    destruct (zeros_shape 0%Z n k) as [Hzn [Hzk _]].
    assert (Hpn : nrows packed = n) by (unfold packed, nrows; cbn [trows]; rewrite length_map; exact Hqn).
    rewrite Hzn, Hpn, Nat.eqb_refl. cbn [bind].
    destruct (Z.eqb_spec (Z.of_nat k) 0); [lia|]. cbn [bind].
    rewrite Nat2Z.id, Nat.Div0.mod_same, Nat.eqb_refl. cbn [negb].
    (* the unpacked integer matrix *)
    assert (Hun :
      mkT (ncols (zeros 0%Z n k))
          (map (fun p => WeightOnlyLinear.unpack_row
                           (WeightOnlyLinear.mk data_type mp k n b (Z.of_nat k) 1 cb (cb / b)
                              scale packed None None)
                           (ncols (zeros 0%Z n k)) (ncols packed) (fst p) (snd p))
               (combine (trows packed) (trows (zeros 0%Z n k))))
      = mkT k (map (map (wrap_signed b)) (trows q))).
    { cbn [zeros ncols trows]. f_equal.
      change (trows packed) with (map (fun qrow =>
                   WeightOnlyLinear.pack_row
                     (WeightOnlyLinear.mk data_type mp k n b (Z.of_nat k) 1 cb (cb / b)
                        (zeros 0 n 1) (zeros 0%Z n m) None None)
                     (2 ^ b - 1)%Z qrow (repeat 0%Z m)) (trows q)).
      change (ncols packed) with m.
      rewrite map_combine_map_l. cbn [fst snd].
      replace (repeat (repeat 0%Z k) n) with (repeat (repeat 0%Z k) (length (trows q)))
        by (f_equal; exact Hqn).
      rewrite map_combine_repeat. cbn [fst snd].
      apply map_ext_in. intros qrow Hin.
      assert (Hlr : length qrow = k).
      { unfold wf in Hqwf. rewrite Forall_forall in Hqwf. rewrite <- Hqk. apply Hqwf. exact Hin. }
      match goal with
      | |- WeightOnlyLinear.unpack_row ?S _ _ _ _ = _ =>
          pose proof (pack_unpack_row S (2 ^ b - 1)%Z qrow (repeat 0%Z k) m) as Hrt
      end.
      cbn [WeightOnlyLinear.bits WeightOnlyLinear.compress_bits WeightOnlyLinear.n_pack] in Hrt.
      rewrite Hlr in Hrt. apply Hrt.
      - exact Hb.
      - lia.
      - reflexivity.
      - apply Hmask.
      - apply ceil_words_cover. exact Hnp.
      - apply repeat_length. }
    rewrite Hun, to_float_weight_tmap.
    assert (HwQ : shape_is (tmap (to_float_weight data_type mp) (mkT k (map (map (wrap_signed b)) (trows q)))) n k).
    { apply tmap_shape. unfold shape_is, nrows, wf. cbn [ncols trows].
      rewrite length_map. split; [exact Hqn|]. split; [reflexivity|].
      apply Forall_map. unfold wf in Hqwf. rewrite Hqk in Hqwf.
      apply (Forall_impl _ (P := fun r => length r = k)); [|exact Hqwf].
      intros r Hr. rewrite length_map. exact Hr. }
    rewrite (reshape_rows_id _ n k HwQ Hk). cbn [bind].
    rewrite (reshape_rows_id _ n 1 Hs) by lia. cbn [bind].
    destruct (mul_scale_shape _ _ n k HwQ Hs) as [p [Hp Hps]].
    rewrite Hp. cbn [bind]. rewrite (reshape_cols_id _ n k Hps Hn).
    f_equal. unfold WeightOnlyLinear.mul_scale in Hp.
    destruct HwQ as [HwQn _]. rewrite HwQn, Hsn, Hsk, !Nat.eqb_refl in Hp. cbn [andb] in Hp.
    inversion Hp. cbn [tmap ncols trows]. f_equal.
    rewrite map_map, map_combine_map_l. apply map_ext. intros [qrow srow]. cbn [fst snd].
    rewrite !map_map. reflexivity.
Qed.

Lemma Forall2_Ok_Forall {A B : Type} (f : A -> outcome B) (P : B -> Prop)
      (l : list A) (rs : list B) :
  Forall2 (fun a b => f a = Ok b) l rs ->
  (forall a b, f a = Ok b -> P b) -> Forall P rs.
Proof.
  intros H HP. induction H as [|a b l rs Hab _ IH]; constructor; [exact (HP a b Hab)|exact IH].
Qed.

Lemma mapM_Forall_out {A B : Type} (f : A -> outcome B) (P : B -> Prop)
      (l : list A) (rs : list B) :
  mapM f l = Ok rs -> (forall a b, f a = Ok b -> P b) -> Forall P rs.
Proof. intros H HP. exact (Forall2_Ok_Forall f P l rs (mapM_inv f l rs H) HP). Qed.

Lemma sym_bounds_ordered (num_bits : Z) :
  (1 <= num_bits)%Z -> (fst (sym_bounds num_bits) <= snd (sym_bounds num_bits))%Z.
Proof.
  intros Hb. unfold sym_bounds.
  destruct (Z.eqb_spec num_bits 1) as [->|Hne]; cbn [fst snd]; [cbn; lia|].
  assert (0 < 2 ^ (num_bits - 1))%Z by (apply Z.pow_pos_nonneg; lia). lia.
Qed.

(** The integers of one row of the symmetric codec lie between the two
    bounds. *)
Lemma qdq_weight_sym_row_range (num_bits : Z) (quantile : Q) (full_range : bool)
      (row : list Q) (q : list Z) (scale : Q) :
  (1 <= num_bits)%Z ->
  qdq_weight_sym_row num_bits quantile full_range row = Ok (q, scale) ->
  Forall (fun x => (fst (sym_bounds num_bits) <= x <= snd (sym_bounds num_bits))%Z) q.
Proof.
  intros Hb H. pose proof (sym_bounds_ordered num_bits Hb) as Hord.
  unfold qdq_weight_sym_row in H. destruct (sym_bounds num_bits) as [minq maxq].
  cbn [fst snd] in *.
  apply bind_Ok in H. destruct H as [sc [_ H]].
  apply bind_Ok in H. destruct H as [q' [Hq H]]. inversion H; subst q' sc.
  apply (mapM_Forall_out _ _ _ _ Hq).
  intros w z Hz. apply bind_Ok in Hz. destruct Hz as [t [_ Hz]]. inversion Hz.
  apply clamp_bounds. exact Hord.
Qed.

(** The integers of one row of the asymmetric codec lie in
    [[0, 2^bits - 1]]. *)
Lemma qdq_weight_asym_row_range (num_bits : Z) (quantile : Q)
      (row : list Q) (q : list Z) (scale : Q) (zp : Z) :
  (0 <= num_bits)%Z ->
  qdq_weight_asym_row num_bits quantile row = Ok (q, scale, zp) ->
  Forall (fun x => (0 <= x <= 2 ^ num_bits - 1)%Z) q.
Proof.
  intros Hb H. unfold qdq_weight_asym_row in H.
  apply bind_Ok in H. destruct H as [mn [_ H]].
  apply bind_Ok in H. destruct H as [mx [_ H]].
  apply bind_Ok in H. destruct H as [sc [_ H]].
  apply bind_Ok in H. destruct H as [z [_ H]].
  apply bind_Ok in H. destruct H as [q' [Hq H]]. inversion H; subst q'.
  apply (mapM_Forall_out _ _ _ _ Hq).
  intros w x Hx. apply bind_Ok in Hx. destruct Hx as [t [_ Hx]]. inversion Hx.
  apply clamp_bounds. assert (0 < 2 ^ num_bits)%Z by (apply Z.pow_pos_nonneg; lia). lia.
Qed.

Lemma combine_map_map {A B C : Type} (f : A -> B) (g : A -> C) (l : list A) :
  combine (map f l) (map g l) = map (fun x => (f x, g x)) l.
Proof. induction l as [|x l IH]; cbn [map combine]; [reflexivity|]. rewrite IH. reflexivity. Qed.

Lemma Forall2_In_r {A B : Type} (P : A -> B -> Prop) (l : list A) (rs : list B) (b : B) :
  Forall2 P l rs -> In b rs -> exists a, In a l /\ P a b.
Proof.
  intros H. induction H as [|a0 b0 l rs Hab _ IH]; intros Hin; [destruct Hin|].
  destruct Hin as [<-|Hin].
  - exists a0. split; [left; reflexivity|exact Hab].
  - destruct (IH Hin) as [a [Ha HP]]. exists a. split; [right; exact Ha|exact HP].
Qed.

(** The symmetric codec asked for integers and asked for floats, on
    the same rows. *)
Lemma actor_sym_int_unfold (weight : tensor Q) (num_bits : Z) (quantile : Q)
      (data_type : string) (return_int full_range : bool) :
  (0 < num_bits)%Z -> has_int data_type = true -> ncols weight <> 0%nat ->
  qdq_weight_actor weight num_bits "sym" quantile data_type return_int full_range
  = (rs <- mapM (qdq_weight_sym_row num_bits quantile full_range) (trows weight) ;;
     if return_int then
       Ok (QInt (mkT (ncols weight) (map (fun r => map to_int8 (fst r)) rs))
                (column (map snd rs)) None)
     else
       Ok (QFloat (mkT (ncols weight)
                       (map (fun r => map (fun x => snd r * inject_Z x) (fst r)) rs)))).
Proof.
  intros Hb Hint Hk. unfold qdq_weight_actor.
  destruct (Z.ltb_spec 0 num_bits); [|lia]. cbn [assert bind].
  rewrite Hint. cbn [negb andb]. cbn [String.eqb Ascii.eqb Bool.eqb].
  unfold qdq_weight_sym. destruct (Nat.eqb_spec (ncols weight) 0); [contradiction|]. reflexivity.
Qed.

(** The symmetric round trip with one group per row
    ([group_size = -1]). *)
Lemma sym_round_trip_whole (weight : tensor Q) (n k : nat) (num_bits cb : Z)
        (quantile : Q) (data_type : string) (full_range : bool) (w : tensor Q) :
  shape_is weight n k -> n <> 0%nat -> k <> 0%nat ->
  (2 <= num_bits <= 8)%Z -> (num_bits < cb)%Z ->
  (cb = 8 \/ cb = 16 \/ cb = 32 \/ cb = 64)%Z ->
  has_int data_type = true ->
  quant_weight weight num_bits (-1) "sym" quantile data_type false full_range = Ok (QFloat w) ->
  exists m,
    rtn_quantize_int weight None num_bits (-1) "sym" quantile data_type full_range 1 cb 1 = Ok m /\
    WeightOnlyLinear.recover m = Ok w.
Proof.
  intros Hw Hn Hk Hb Hbcb Hcb Hint Hfloat.
  pose proof Hw as [Hwn [Hwk Hwwf]].
  assert (Hk' : ncols weight <> 0%nat) by (rewrite Hwk; exact Hk).
  unfold rtn_quantize_int. change (1 =? 0)%Z with false. cbv iota.
  unfold quant_weight in *.
  destruct (Z.leb_spec num_bits 0); [lia|].
  change (-1 =? -1)%Z with true in *. cbn [orb] in *.
  rewrite actor_sym_int_unfold in * by (assumption || lia).
  destruct (mapM (qdq_weight_sym_row num_bits quantile full_range) (trows weight))
    as [rs| |] eqn:Hrs; cbn [bind] in *; try discriminate.
  inversion Hfloat as [Hw']. clear Hfloat.
  cbn [unpack3 bind].
  assert (Hlen : length rs = n) by (rewrite (mapM_length _ _ _ Hrs); exact Hwn).
  assert (HQ : shape_is (mkT (ncols weight) (map (fun r => map to_int8 (fst r)) rs)) n k).
  { apply (rowwise_shape (fun row r => qdq_weight_sym_row num_bits quantile full_range row = Ok r)
                         (fun r => map to_int8 (fst r)) weight rs n k Hw (mapM_inv _ _ _ Hrs)).
    intros row [q sc] Hr. cbn [fst]. rewrite length_map.
    exact (qdq_weight_sym_row_length _ _ _ _ _ _ Hr). }
  assert (HS : shape_is (column (map snd rs)) n 1).
  { rewrite <- Hlen, <- (length_map snd rs). apply column_shape. }
  assert (Hmp : int2float_mapping_of data_type = Ok []).
  { unfold int2float_mapping_of. rewrite Hint. reflexivity. }
  destruct (recover_pack_whole_rows _ _ n k num_bits cb data_type [] HQ HS Hn Hk
              ltac:(lia) Hbcb Hcb Hmp) as [s0 [s1 [Hinit [Hpack Hrec]]]].
  rewrite Hwk in Hpack, Hrec |- *.
  rewrite Hwn, Hinit. cbn [bind]. exists s1. split; [exact Hpack|].
  rewrite Hrec. do 2 f_equal.
  unfold column. cbn [trows]. rewrite (map_map snd (fun x => [x]) rs).
  rewrite combine_map_map, map_map. cbn [fst snd hd].
  apply map_ext_in. intros [q sc] Hin. cbn [fst snd].
  destruct (Forall2_In_r _ _ _ _ (mapM_inv _ _ _ Hrs) Hin) as [row [_ Hrow]].
  assert (Hb1 : (1 <= num_bits)%Z) by lia.
  pose proof (qdq_weight_sym_row_range num_bits quantile full_range row q sc Hb1 Hrow) as Hrange.
  rewrite sym_bounds_ge2 in Hrange by lia. cbn [fst snd] in Hrange.
  rewrite map_map. rewrite Forall_forall in Hrange.
  apply map_ext_in. intros x Hx. specialize (Hrange x Hx).
  assert (H27 : (2 ^ (num_bits - 1) <= 2 ^ 7)%Z) by (apply Z.pow_le_mono_r; lia).
  change (2 ^ 7)%Z with 128%Z in H27.
  rewrite to_int8_small by lia. rewrite wrap_signed_id by lia.
  unfold to_float_weight. rewrite Hint. cbn [negb]. apply Qmult_comm_eq.
Qed.

Lemma lookup_keys (data_type : string) (allow_data : list Q) :
  dict_get FLOAT_MAPPING data_type = Some allow_data ->
  exists allow_data_bit,
    dict_get INT_MAPPING data_type = Some allow_data_bit /\
    In (allow_data, allow_data_bit) families /\
    has_int data_type = false.
Proof.
  unfold FLOAT_MAPPING, INT_MAPPING, families. cbn [dict_get]. intros H.
  destruct (String.eqb_spec data_type "nf4") as [->|_].
  { inversion H. exists NF4_BIT. cbn [In]. repeat split; auto. }
  destruct (String.eqb_spec data_type "fp4") as [->|_].
  { inversion H. exists FP4_BNB_BIT. cbn [In]. repeat split; auto. }
  destruct (String.eqb_spec data_type "fp4_e2m1_bnb") as [->|_].
  { inversion H. exists FP4_BNB_BIT. cbn [In]. repeat split; auto. }
  destruct (String.eqb_spec data_type "fp4_e2m1") as [->|_].
  { inversion H. exists FP4_E2M1_BIT. cbn [In]. repeat split; auto. }
  discriminate.
Qed.

(** The rows of the lookup codec, with the scales computed first. *)
Lemma quantize_4bit_rows (allow_data data : list Q) (quantile : Q) (rows : list (list Q)) :
  mapM (quantize_4bit_row allow_data data quantile) rows
  = (ss <- mapM (q4_scale allow_data quantile) rows ;;
     Ok (map (fun p => (map (fun w => bucket_sum (mid_data allow_data) data (length allow_data)
                                                 (float_div w (snd p))) (fst p), snd p))
             (combine rows ss))).
Proof.
  induction rows as [|row rows IH]; [reflexivity|].
  cbn [mapM]. unfold quantize_4bit_row at 1.
  destruct (q4_scale allow_data quantile row) as [s| |]; cbn [bind]; try reflexivity.
  rewrite IH. rewrite map_map.
  destruct (mapM (q4_scale allow_data quantile) rows) as [ss| |]; reflexivity.
Qed.

(** The code of a level, stored in 4 bits and looked up in the dict of
    the store, is the level: for every quotient, finite or not. *)
Lemma lookup_code_round_trip (fam : list Q * list Z) (t : xval) :
  In fam families ->
  fold_left (fun acc kv =>
               acc + (if (wrap_signed 4
                            (to_int8 (Qtrunc (bucket_sum (mid_data (fst fam))
                                                         (map inject_Z (snd fam))
                                                         (length (fst fam)) t)))
                          =? fst kv)%Z
                      then snd kv else 0))
            (fold_left (fun d kv => dict_set d (fst kv) (snd kv))
                       (combine (snd fam) (fst fam)) [])
            0
  == bucket_sum (mid_data (fst fam)) (fst fam) (length (fst fam)) t.
Proof.
  intros Hfam.
  destruct (families_mid_sorted fam Hfam) as [Hsorted [Hn [H1 _]]].
  destruct t as [q| | |].
  - rewrite Hn. rewrite !bucket_sum_value by assumption.
    pose proof (bucket_index_le (mid_data (fst fam)) q) as Hi.
    generalize dependent (bucket_index (mid_data (fst fam)) q). intros i Hi.
    clear Hsorted Hn H1.
    unfold families in Hfam. cbn [In] in Hfam.
    destruct Hfam as [<-|[<-|[<-|[]]]]; cbn [fst snd] in *.
    + replace (length (mid_data NF4)) with 15%nat in Hi by reflexivity.
      do 16 (destruct i as [|i]; [vm_compute; reflexivity|]). exfalso. lia.
    + replace (length (mid_data FP4_BNB)) with 14%nat in Hi by reflexivity.
      do 15 (destruct i as [|i]; [vm_compute; reflexivity|]). exfalso. lia.
    + replace (length (mid_data FP4_E2M1)) with 14%nat in Hi by reflexivity.
      do 15 (destruct i as [|i]; [vm_compute; reflexivity|]). exfalso. lia.
  - unfold families in Hfam. cbn [In] in Hfam.
    destruct Hfam as [<-|[<-|[<-|[]]]]; vm_compute; reflexivity.
  - unfold families in Hfam. cbn [In] in Hfam.
    destruct Hfam as [<-|[<-|[<-|[]]]]; vm_compute; reflexivity.
  - unfold families in Hfam. cbn [In] in Hfam.
    destruct Hfam as [<-|[<-|[<-|[]]]]; vm_compute; reflexivity.
Qed.

Lemma Forall2_map_both {A B C : Type} (R : B -> C -> Prop) (f : A -> B) (g : A -> C)
      (l : list A) :
  (forall a, In a l -> R (f a) (g a)) -> Forall2 R (map f l) (map g l).
Proof.
  induction l as [|x l IH]; intros H; cbn [map]; constructor.
  - apply H. left. reflexivity.
  - apply IH. intros a Ha. apply H. right. exact Ha.
Qed.

(** X5.  For a lookup data type (NF4 or one of the FP4 tables), 4 bits and
    one group per row, the packed layer [rtn_quantize] builds recovers
    the weight the quantize-dequantize path writes back, entry by
    entry. *)
Theorem rtn_lookup_pack_recover (weight : tensor Q) (n k : nat) (cb : Z) (scheme : string)
        (quantile : Q) (data_type : string) (full_range : bool) (allow_data : list Q)
        (w : tensor Q) :
  shape_is weight n k -> n <> 0%nat -> k <> 0%nat ->
  (cb = 8 \/ cb = 16 \/ cb = 32 \/ cb = 64)%Z ->
  dict_get FLOAT_MAPPING data_type = Some allow_data ->
  quant_weight weight 4 (-1) scheme quantile data_type false full_range = Ok (QFloat w) ->
  exists m w',
    rtn_quantize_int weight None 4 (-1) scheme quantile data_type full_range 1 cb 1 = Ok m /\
    WeightOnlyLinear.recover m = Ok w' /\
    tensor_eq w' w.
Proof.
  intros Hw Hn Hk Hcb Hfl Hfloat.
  pose proof Hw as [Hwn [Hwk Hwwf]].
  destruct (lookup_keys data_type allow_data Hfl) as [bits [Hil [Hfam Hint]]].
  assert (Hact : forall return_int,
             qdq_weight_actor weight 4 scheme quantile data_type return_int full_range
             = quantize_4bit weight quantile data_type return_int).
  { intros ri. unfold qdq_weight_actor. cbn [assert bind Z.ltb Z.compare].
    rewrite Hint. reflexivity. }
  unfold quant_weight in Hfloat. cbn [Z.leb Z.compare Z.eqb Pos.eqb orb] in Hfloat.
  rewrite Hact in Hfloat. unfold quantize_4bit in Hfloat. rewrite Hfl, Hil in Hfloat.
  destruct (Nat.eqb_spec (ncols weight) 0) as [E|_]; [rewrite Hwk in E; contradiction|].
  rewrite quantize_4bit_rows in Hfloat.
  destruct (mapM (q4_scale allow_data quantile) (trows weight)) as [ss| |] eqn:Hss;
    cbn [bind] in Hfloat; try discriminate.
  inversion Hfloat as [Hw']. clear Hfloat.
  set (rs := map (fun p => (map (fun w0 => bucket_sum (mid_data allow_data) (map inject_Z bits)
                                              (length allow_data) (float_div w0 (snd p)))
                                (fst p), snd p))
                 (combine (trows weight) ss)).
  assert (Hint_res :
            qdq_weight_actor weight 4 scheme quantile data_type true full_range
            = Ok (QInt (mkT (ncols weight)
                            (map (fun r => map (fun q => to_int8 (Qtrunc q)) (fst r)) rs))
                       (column (map snd rs)) None)).
  { rewrite Hact. unfold quantize_4bit. rewrite Hfl, Hil.
    destruct (Nat.eqb_spec (ncols weight) 0) as [E|_]; [rewrite Hwk in E; contradiction|].
    rewrite quantize_4bit_rows, Hss. reflexivity. }
  destruct (actor_int_shape _ n k _ _ _ _ _ _ _ _ Hw Hint_res) as [HQ [HS _]].
  assert (Hmp : int2float_mapping_of data_type
                = Ok (fold_left (fun d kv => dict_set d (fst kv) (snd kv))
                                (combine bits allow_data) [])).
  { unfold int2float_mapping_of. rewrite Hint, Hfl, Hil. reflexivity. }
  destruct (recover_pack_whole_rows _ _ n k 4 cb data_type _ HQ HS Hn Hk
              ltac:(lia) ltac:(lia) Hcb Hmp) as [s0 [s1 [Hinit [Hpack Hrec]]]].
  unfold rtn_quantize_int. change (1 =? 0)%Z with false. cbv iota.
  unfold quant_weight. cbn [Z.leb Z.compare Z.eqb Pos.eqb orb].
  rewrite Hint_res. cbn [bind unpack3].
  rewrite Hwk in Hpack, Hrec |- *. rewrite Hwn, Hinit. cbn [bind].
  exists s1. eexists. split; [exact Hpack|]. split; [exact Hrec|].
  unfold tensor_eq. cbn [ncols trows]. split; [reflexivity|].
  unfold column. cbn [trows]. rewrite (map_map snd (fun x => [x]) rs).
  rewrite combine_map_map. unfold rs. cbn [trows].
  rewrite !map_map. cbn [fst snd hd].
  apply Forall2_map_both. intros [row s] _. cbn [fst snd].
  rewrite !map_map. apply Forall2_map_both. intros x _.
  apply Qmult_comp; [|reflexivity].
  unfold to_float_weight. rewrite Hint. cbn [negb].
  exact (lookup_code_round_trip (allow_data, bits) (float_div x s) Hfam).
Qed.

(** X1.  Round trip of one row through the packed words, for any
    store of 1 to 8 bits whose fields fit the word: a row packed into
    fresh (zero) words by the loops of [pack] and read back by the loops
    of [recover] comes back with every entry reduced to the signed
    number its low [bits] bits spell, whatever the entry was. *)
Theorem packed_row_round_trip (s : WeightOnlyLinear.t) (mask : Z) (int_row weight_row : list Z)
        (m : nat) :
  (1 <= WeightOnlyLinear.bits s <= 8)%Z ->
  (WeightOnlyLinear.bits s <= WeightOnlyLinear.compress_bits s)%Z ->
  WeightOnlyLinear.n_pack s
  = (WeightOnlyLinear.compress_bits s / WeightOnlyLinear.bits s)%Z ->
  WeightOnlyLinear.mask_of s = Ok mask ->
  (length int_row <= Z.to_nat (WeightOnlyLinear.n_pack s) * m)%nat ->
  length weight_row = length int_row ->
  WeightOnlyLinear.unpack_row s (length int_row) m
    (WeightOnlyLinear.pack_row s mask int_row (repeat 0%Z m)) weight_row
  = map (wrap_signed (WeightOnlyLinear.bits s)) int_row.
Proof. exact (pack_unpack_row s mask int_row weight_row m). Qed.

Lemma packed_row_round_trip_witness :
  WeightOnlyLinear.unpack_row sample_store (length sample_codes) 2
    (WeightOnlyLinear.pack_row sample_store 15 sample_codes (repeat 0%Z 2)) (repeat 0%Z 16)
  = map (wrap_signed (WeightOnlyLinear.bits sample_store)) sample_codes.
Proof.
  apply (packed_row_round_trip sample_store 15 sample_codes (repeat 0%Z 16) 2).
  - cbn. lia.
  - cbn. lia.
  - reflexivity.
  - reflexivity.
  - cbn. lia.
  - reflexivity.
Defined.

(** X2.  What the round trip does to unsigned codes: an entry in the
    upper half [[2^(bits-1), 2^bits)] of the unsigned range is read
    back [2^bits] too low, as a negative number. *)
Theorem packed_row_unsigned_high (s : WeightOnlyLinear.t) (mask : Z)
        (int_row weight_row : list Z) (m : nat) :
  (1 <= WeightOnlyLinear.bits s <= 8)%Z ->
  (WeightOnlyLinear.bits s <= WeightOnlyLinear.compress_bits s)%Z ->
  WeightOnlyLinear.n_pack s
  = (WeightOnlyLinear.compress_bits s / WeightOnlyLinear.bits s)%Z ->
  WeightOnlyLinear.mask_of s = Ok mask ->
  (length int_row <= Z.to_nat (WeightOnlyLinear.n_pack s) * m)%nat ->
  length weight_row = length int_row ->
  Forall (fun v => (2 ^ (WeightOnlyLinear.bits s - 1) <= v < 2 ^ WeightOnlyLinear.bits s)%Z)
         int_row ->
  WeightOnlyLinear.unpack_row s (length int_row) m
    (WeightOnlyLinear.pack_row s mask int_row (repeat 0%Z m)) weight_row
  = map (fun v => (v - 2 ^ WeightOnlyLinear.bits s)%Z) int_row.
Proof.
  intros Hb Hbcb Hnp Hmask Hfit Hlen Hhigh.
  rewrite (pack_unpack_row s mask int_row weight_row m Hb Hbcb Hnp Hmask Hfit Hlen).
  apply map_ext_in. intros v Hv. rewrite Forall_forall in Hhigh. specialize (Hhigh v Hv).
  rewrite wrap_signed_of_mod by lia.
  rewrite Z.mod_small by lia.
  destruct (Z.ltb_spec v (2 ^ (WeightOnlyLinear.bits s - 1))); [lia|reflexivity].
Qed.

Lemma packed_row_unsigned_high_witness :
  WeightOnlyLinear.unpack_row sample_store (length [8; 15; 12]%Z) 2
    (WeightOnlyLinear.pack_row sample_store 15 [8; 15; 12]%Z (repeat 0%Z 2)) [0; 0; 0]%Z
  = map (fun v => (v - 2 ^ WeightOnlyLinear.bits sample_store)%Z) [8; 15; 12]%Z.
Proof.
  apply (packed_row_unsigned_high sample_store 15 [8; 15; 12]%Z [0; 0; 0]%Z 2).
  - cbn. lia.
  - cbn. lia.
  - reflexivity.
  - reflexivity.
  - cbn. lia.
  - reflexivity.
  - repeat constructor; cbn; lia.
Defined.

(** X3.  A whole layer through [__init__], [pack] and [recover]: for
    an integer data type, one scale per row, no zero points and entries
    within the signed range of [b] bits, the recovered weight is the
    integer matrix times the scales, [int_weight * scale]. *)
Theorem init_pack_recover_signed (q : tensor Z) (scale : tensor Q) (n k : nat) (b cb : Z)
        (data_type : string) :
  shape_is q n k -> shape_is scale n 1 -> n <> 0%nat -> k <> 0%nat ->
  (1 <= b <= 8)%Z -> (b < cb)%Z -> (cb = 8 \/ cb = 16 \/ cb = 32 \/ cb = 64)%Z ->
  has_int data_type = true ->
  Forall (Forall (fun x => (- 2 ^ (b - 1) <= x < 2 ^ (b - 1))%Z)) (trows q) ->
  exists s0 s1,
    WeightOnlyLinear.init k n b (-1) data_type false false cb 1 = Ok s0 /\
    WeightOnlyLinear.pack s0 q scale None None = Ok s1 /\
    WeightOnlyLinear.recover s1 = WeightOnlyLinear.mul_scale (tmap inject_Z q) scale.
Proof.
  intros Hq Hs Hn Hk Hb Hbcb Hcb Hint Hrange.
  assert (Hmp : int2float_mapping_of data_type = Ok []).
  { unfold int2float_mapping_of. rewrite Hint. reflexivity. }
  destruct (recover_pack_whole_rows q scale n k b cb data_type [] Hq Hs Hn Hk Hb Hbcb Hcb Hmp)
    as [s0 [s1 [Hinit [Hpack Hrec]]]].
  exists s0, s1. split; [exact Hinit|]. split; [exact Hpack|].
  rewrite Hrec. unfold WeightOnlyLinear.mul_scale.
  destruct Hq as [Hqn [Hqk _]]. destruct Hs as [Hsn [Hsk _]].
  assert (Htn : nrows (tmap inject_Z q) = n) by (unfold nrows, tmap; cbn [trows]; rewrite length_map; exact Hqn).
  rewrite Htn, Hsn, Hsk, !Nat.eqb_refl. cbn [andb tmap ncols trows]. f_equal.
  rewrite Hqk. f_equal. rewrite map_combine_map_l. cbn [fst snd].
  apply map_ext_in. intros [qrow srow] Hin. cbn [fst snd].
  apply in_combine_l in Hin. rewrite Forall_forall in Hrange. specialize (Hrange qrow Hin).
  rewrite map_map. apply map_ext_in. intros x Hx.
  rewrite Forall_forall in Hrange. specialize (Hrange x Hx).
  rewrite wrap_signed_id by lia.
  unfold to_float_weight. rewrite Hint. reflexivity.
Qed.

Lemma init_pack_recover_signed_witness :
  exists s0 s1,
    WeightOnlyLinear.init 3 2 4 (-1) "int" false false 32 1 = Ok s0 /\
    WeightOnlyLinear.pack s0 (mkT 3 [[- (8); 0; 7]; [1; - (1); 3]]%Z) (column [1 # 7; 2 # 7])
                          None None = Ok s1 /\
    WeightOnlyLinear.recover s1
    = WeightOnlyLinear.mul_scale (tmap inject_Z (mkT 3 [[- (8); 0; 7]; [1; - (1); 3]]%Z))
                                 (column [1 # 7; 2 # 7]).
Proof.
  apply (init_pack_recover_signed (mkT 3 [[- (8); 0; 7]; [1; - (1); 3]]%Z)
                                  (column [1 # 7; 2 # 7]) 2 3 4 32 "int").
  - repeat split; repeat constructor.
  - repeat split; repeat constructor.
  - discriminate.
  - discriminate.
  - lia.
  - lia.
  - right. right. left. reflexivity.
  - reflexivity.
  - repeat constructor; cbn; lia.
Defined.

Lemma rtn_lookup_pack_recover_witness :
  exists m w',
    rtn_quantize_int sample_weight None 4 (-1) "sym" 1 "nf4" false 1 32 1 = Ok m /\
    WeightOnlyLinear.recover m = Ok w' /\
    tensor_eq w' (mkT 2 [[-1.00; 1.00]]).
Proof.
  apply (rtn_lookup_pack_recover sample_weight 1 2 32 "sym" 1 "nf4" false NF4).
  - repeat split; repeat constructor.
  - discriminate.
  - discriminate.
  - right. right. left. reflexivity.
  - reflexivity.
  - vm_compute. reflexivity.
Defined.

(** ** Lookup codes, clip grid and group shapes *)

(** The integer code of any quotient, finite or not, is an entry of
    the code list of its family. *)
Lemma lookup_code_in_table (fam : list Q * list Z) (t : xval) :
  In fam families ->
  In (to_int8 (Qtrunc (bucket_sum (mid_data (fst fam)) (map inject_Z (snd fam))
                                  (length (fst fam)) t)))
     (snd fam).
Proof.
  intros Hfam.
  destruct (families_mid_sorted fam Hfam) as [Hsorted [Hn [H1 [Hlen Hrange]]]].
  destruct t as [q| | |].
  - rewrite Hn. rewrite bucket_sum_value by assumption.
    pose proof (bucket_index_le (mid_data (fst fam)) q) as Hi.
    set (i := bucket_index (mid_data (fst fam)) q) in *.
    assert (Hib : (i < length (snd fam))%nat) by lia.
    rewrite (nth_indep (map inject_Z (snd fam)) 0 (inject_Z 0))
      by (rewrite length_map; exact Hib).
    rewrite map_nth, Qtrunc_inject_Z.
    rewrite Forall_forall in Hrange.
    pose proof (Hrange (nth i (snd fam) 0%Z) (nth_In _ _ Hib)) as Hc.
    rewrite to_int8_small by lia. apply nth_In. exact Hib.
  - unfold families in Hfam. cbn [In] in Hfam.
    destruct Hfam as [<-|[<-|[<-|[]]]]; vm_compute; tauto.
  - unfold families in Hfam. cbn [In] in Hfam.
    destruct Hfam as [<-|[<-|[<-|[]]]]; vm_compute; tauto.
  - unfold families in Hfam. cbn [In] in Hfam.
    destruct Hfam as [<-|[<-|[<-|[]]]]; vm_compute; tauto.
Qed.

(** X6.  Whatever the rows hold (zero rows and a zero quantile
    included, where the quotients are nan or infinite), every integer
    the lookup codec returns is an entry of the code list of its data
    type, hence a signed 4-bit value, and no zero points are returned. *)
Theorem quantize_4bit_codes (weight : tensor Q) (quantile : Q) (data_type : string)
        (q : tensor Z) (scale : tensor Q) (zp : option (tensor Z)) :
  quantize_4bit weight quantile data_type true = Ok (QInt q scale zp) ->
  exists allow_data allow_data_bit,
    dict_get FLOAT_MAPPING data_type = Some allow_data /\
    dict_get INT_MAPPING data_type = Some allow_data_bit /\
    zp = None /\
    Forall (Forall (fun c => In c allow_data_bit /\ (-8 <= c <= 7)%Z)) (trows q).
Proof.
  intros H. unfold quantize_4bit in H.
  destruct (dict_get FLOAT_MAPPING data_type) as [allow_data|] eqn:Hfl;
    [|destruct (dict_get INT_MAPPING data_type); discriminate].
  destruct (lookup_keys data_type allow_data Hfl) as [bits [Hil [Hfam _]]].
  rewrite Hil in H. exists allow_data, bits. split; [reflexivity|]. split; [exact Hil|].
  destruct (ncols weight =? 0)%nat; [discriminate|].
  rewrite quantize_4bit_rows in H.
  destruct (mapM (q4_scale allow_data quantile) (trows weight)) as [ss| |];
    cbn [bind] in H; try discriminate.
  inversion H. split; [reflexivity|]. cbn [trows].
  rewrite map_map. apply Forall_map, Forall_forall. intros [row s] _. cbn [fst snd].
  rewrite map_map. apply Forall_map, Forall_forall. intros w _.
  pose proof (lookup_code_in_table (allow_data, bits) (float_div w s) Hfam) as Hin.
  cbn [fst snd] in Hin. split; [exact Hin|].
  destruct (families_mid_sorted (allow_data, bits) Hfam) as [_ [_ [_ [_ Hrange]]]].
  rewrite Forall_forall in Hrange. exact (Hrange _ Hin).
Qed.

Lemma quantize_4bit_codes_witness :
  exists allow_data allow_data_bit,
    dict_get FLOAT_MAPPING "nf4" = Some allow_data /\
    dict_get INT_MAPPING "nf4" = Some allow_data_bit /\
    (None : option (tensor Z)) = None /\
    Forall (Forall (fun c => In c allow_data_bit /\ (-8 <= c <= 7)%Z)) (trows (mkT 2 [[0; 0]%Z])).
Proof.
  apply (quantize_4bit_codes (mkT 2 [[0; 0]]) 1 "nf4" (mkT 2 [[0; 0]%Z]) (column [0.0]) None).
  vm_compute. reflexivity.
Defined.

(** The ratio held by the clip search is never anything but a
    candidate already visited. *)
Lemma clip_loop_ratio_in_grid (weight : tensor Q) (num_bits group_size : Z)
      (scheme data_type : string) (enable_full_range : bool) (len : nat) :
  forall (a : nat) (st st' : clip_state),
    (forall r, snd (fst st) = Some r -> exists i, (i < a)%nat /\ r = clip_ratio i) ->
    clip_loop weight num_bits group_size scheme data_type enable_full_range (seq a len) st
    = Ok st' ->
    forall r, snd (fst st') = Some r -> exists i, (i < a + len)%nat /\ r = clip_ratio i.
Proof.
  induction len as [|len IH]; intros a st st' Hst Hloop r Hr.
  - cbn [seq clip_loop] in Hloop. inversion Hloop; subst st'.
    destruct (Hst r Hr) as [i [Hi Hri]]. exists i. split; [lia|exact Hri].
  - cbn [seq clip_loop] in Hloop. apply bind_Ok in Hloop.
    destruct Hloop as [st1 [Hstep Hloop]].
    assert (Hst1 : forall r1, snd (fst st1) = Some r1 ->
                          exists i, (i < S a)%nat /\ r1 = clip_ratio i).
    { intros r1 Hr1. unfold clip_step in Hstep.
      destruct st as [[best_error best_clip_ratio] history].
      apply bind_Ok in Hstep. destruct Hstep as [loss [_ Hstep]].
      destruct (is_best loss best_error); inversion Hstep; subst st1; cbn [fst snd] in Hr1.
      - inversion Hr1. exists a. split; [lia|reflexivity].
      - destruct (Hst r1 Hr1) as [i [Hi Hri]]. exists i. split; [lia|exact Hri]. }
    destruct (IH (S a) st1 st' Hst1 Hloop r Hr) as [i [Hi Hri]].
    exists i. split; [lia|exact Hri].
Qed.

Lemma clip_ratio_range (i : nat) : (i < 40)%nat -> 0.8 < clip_ratio i /\ clip_ratio i <= 1.
Proof.
  intros Hi.
  do 40 (destruct i as [|i]; [split; [reflexivity|discriminate]|]).
  exfalso. lia.
Qed.

(** X7.  Whenever [search_clip] returns a ratio, it is one of the 40
    candidates [1 - i/200] of its grid, so it lies in (0.8, 1]: the
    search never shrinks the range by 20 % or more and never widens it. *)
Theorem search_clip_in_grid (weight : tensor Q) (num_bits group_size : Z)
        (scheme data_type : string) (enable_full_range : bool) (r : Q) :
  search_clip weight num_bits group_size scheme data_type enable_full_range = Ok (Some r) ->
  exists i, (i < 40)%nat /\ r = clip_ratio i /\ 0.8 < r /\ r <= 1.
Proof.
  intros H. unfold search_clip in H. apply bind_Ok in H. destruct H as [st [Hloop H]].
  inversion H as [Hr]. clear H.
  replace (Z.to_nat (Qtrunc (max_shrink * n_grid))) with 40%nat in Hloop by reflexivity.
  destruct (clip_loop_ratio_in_grid weight num_bits group_size scheme data_type
              enable_full_range 40 0 (FInf, None, []) st) with (r := r) as [i [Hi Hri]].
  - cbn [fst snd]. intros r0 Hr0. discriminate.
  - exact Hloop.
  - exact Hr.
  - exists i. split; [lia|]. split; [exact Hri|]. subst r. apply clip_ratio_range. lia.
Qed.

Lemma search_clip_in_grid_witness :
  exists i, (i < 40)%nat /\ clip_ratio 0 = clip_ratio i /\ 0.8 < clip_ratio 0 /\ clip_ratio 0 <= 1.
Proof.
  apply (search_clip_in_grid sample_weight 4 (-1) "sym" "int" false (clip_ratio 0)).
  vm_compute. reflexivity.
Defined.

Lemma reshape_to_shape {A : Type} (t : tensor A) (n k : nat) :
  length (flat t) = (n * k)%nat -> shape_is (reshape_to n k t) n k.
Proof.
  intros Hlen. unfold shape_is, reshape_to, nrows, wf. cbn [ncols trows].
  rewrite length_map, length_seq. split; [reflexivity|]. split; [reflexivity|].
  apply Forall_map, Forall_forall. intros i Hi. apply in_seq in Hi.
  rewrite length_firstn, length_skipn, Hlen. nia.
Qed.

Lemma reshape_rows_shape {A : Type} (t : tensor A) (n k g : nat) :
  shape_is t n k -> g <> 0%nat -> ((n * k) mod g = 0)%nat ->
  exists t', reshape_rows g t = Ok t' /\ shape_is t' (n * k / g) g.
Proof.
  intros Hsh Hg Hmod. unfold reshape_rows.
  rewrite (shape_numel t n k Hsh).
  destruct (Nat.eqb_spec g 0); [contradiction|].
  rewrite Hmod. cbn [Nat.eqb]. eexists. split; [reflexivity|].
  apply reshape_to_shape. rewrite (flat_length t n k Hsh).
  pose proof (Nat.div_mod_eq (n * k) g). lia.
Qed.

Lemma reshape_shape {A : Type} (t : tensor A) (m g n k : nat) :
  shape_is t m g -> (m * g = n * k)%nat ->
  exists t', reshape n k t = Ok t' /\ shape_is t' n k.
Proof.
  intros Hsh Heq. unfold reshape. rewrite (shape_numel t m g Hsh), Heq, Nat.eqb_refl.
  eexists. split; [reflexivity|].
  apply reshape_to_shape. rewrite (flat_length t m g Hsh). exact Heq.
Qed.

Lemma reshape_cols_shape {A : Type} (t : tensor A) (m c n : nat) :
  shape_is t m c -> n <> 0%nat -> ((m * c) mod n = 0)%nat ->
  exists t', reshape_cols n t = Ok t' /\ shape_is t' n (m * c / n).
Proof.
  intros Hsh Hn Hmod. unfold reshape_cols.
  rewrite (shape_numel t m c Hsh).
  destruct (Nat.eqb_spec n 0); [contradiction|].
  rewrite Hmod. cbn [Nat.eqb]. eexists. split; [reflexivity|].
  apply reshape_to_shape. rewrite (flat_length t m c Hsh).
  pose proof (Nat.div_mod_eq (m * c) n). lia.
Qed.

Lemma mul_mod_zero (n k g : nat) : (k mod g = 0)%nat -> ((n * k) mod g = 0)%nat.
Proof.
  intros H. destruct (Nat.eq_dec g 0) as [->|Hg]; [cbn in *; subst k; lia|].
  rewrite Nat.Div0.mul_mod, H, Nat.mul_0_r. apply Nat.Div0.mod_0_l.
Qed.

Lemma div_mul_mod_zero (k g : nat) : ((k / g * g) mod g = 0)%nat.
Proof. apply Nat.Div0.mod_mul. Qed.

(** The quantize-dequantize path of [quant_weight], for any positive
    group size. *)
Lemma quant_weight_float_ok (weight : tensor Q) (n k : nat) (num_bits group_size : Z)
        (scheme : string) (quantile : Q) (data_type : string) (full_range : bool) :
  shape_is weight n k -> k <> 0%nat -> (2 <= num_bits)%Z -> supported data_type ->
  (group_size = -1 \/ 1 <= group_size)%Z ->
  exists w,
    quant_weight weight num_bits group_size scheme quantile data_type false full_range
    = Ok (QFloat w) /\
    shape_is w n k.
Proof.
  intros Hsh Hk Hb Hsup Hg.
  pose proof Hsh as [Hn [Hkk Hwf]].
  unfold quant_weight.
  destruct (Z.leb_spec num_bits 0); [lia|].
  destruct ((group_size =? -1)%Z || (Z.of_nat (ncols weight) <? group_size)%Z) eqn:Hwhole.
  { destruct (actor_total weight n k num_bits scheme quantile data_type false full_range
                          Hsh Hk Hb Hsup) as [r [Hr [w ->]]].
    exists w. split; [exact Hr|]. exact (actor_float_shape _ n k _ _ _ _ _ _ Hsh Hr). }
  apply orb_false_iff in Hwhole. destruct Hwhole as [Hne Hle].
  apply Z.eqb_neq in Hne. apply Z.ltb_ge in Hle. rewrite Hkk in Hle.
  destruct (Z.eqb_spec group_size 0); [lia|].
  destruct (Z.ltb_spec group_size 0); [lia|].
  cbv zeta. rewrite Hn, Hkk.
  set (g := Z.to_nat group_size).
  assert (Hg0 : g <> 0%nat) by (unfold g; lia).
  assert (Hgk : (g <= k)%nat) by (unfold g; lia).
  destruct (Nat.eqb_spec (k mod g) 0) as [Hdiv|Hrem].
  - destruct (reshape_rows_shape weight n k g Hsh Hg0 (mul_mod_zero n k g Hdiv))
      as [w1 [Hw1 Hw1s]].
    rewrite Hw1. cbn [bind].
    destruct (actor_total w1 _ g num_bits scheme quantile data_type false full_range
                          Hw1s Hg0 Hb Hsup) as [r [Hr [w2 ->]]].
    rewrite Hr. cbn [bind unpack1].
    pose proof (actor_float_shape _ _ g _ _ _ _ _ _ Hw1s Hr) as Hw2s.
    destruct (reshape_shape w2 _ g n k Hw2s) as [w3 [Hw3 Hw3s]].
    { pose proof (Nat.div_mod_eq (n * k) g). pose proof (mul_mod_zero n k g Hdiv). lia. }
    rewrite Hw3. cbn [bind]. exists w3. split; [reflexivity|exact Hw3s].
  - set (split_index := (k / g * g)%nat).
    assert (Hsplit : (split_index <= k)%nat).
    { unfold split_index. pose proof (Nat.div_mod_eq k g). lia. }
    assert (Hl : shape_is (slice_cols 0 split_index weight) n split_index).
    { replace split_index with (split_index - 0)%nat at 2 by lia.
      apply (slice_cols_shape weight n k 0 split_index Hsh). lia. }
    destruct (reshape_rows_shape _ n split_index g Hl Hg0
                (mul_mod_zero n split_index g (div_mul_mod_zero k g))) as [w1 [Hw1 Hw1s]].
    rewrite Hw1. cbn [bind].
    destruct (actor_total w1 _ g num_bits scheme quantile data_type false full_range
                          Hw1s Hg0 Hb Hsup) as [r1 [Hr1 [w2 ->]]].
    rewrite Hr1. cbn [bind unpack1].
    pose proof (actor_float_shape _ _ g _ _ _ _ _ _ Hw1s Hr1) as Hw2s.
    destruct (reshape_shape w2 _ g n split_index Hw2s) as [w3 [Hw3 Hw3s]].
    { pose proof (Nat.div_mod_eq (n * split_index) g).
      pose proof (mul_mod_zero n split_index g (div_mul_mod_zero k g)). lia. }
    rewrite Hw3. cbn [bind].
    pose proof (from_col_shape weight n k split_index Hsh Hsplit) as Hrs.
    assert (Hrem0 : (k - split_index <> 0)%nat).
    { unfold split_index. pose proof (Nat.div_mod_eq k g). lia. }
    destruct (actor_total _ n _ num_bits scheme quantile data_type false full_range
                          Hrs Hrem0 Hb Hsup) as [r2 [Hr2 [w4 ->]]].
    rewrite Hr2. cbn [bind unpack1].
    pose proof (actor_float_shape _ n _ _ _ _ _ _ _ Hrs Hr2) as Hw4s.
    destruct (cat1_shape w3 w4 n _ _ Hw3s Hw4s) as [w [Hw [Hws _]]].
    rewrite Hw. exists w. split; [reflexivity|].
    replace (split_index + (k - split_index))%nat with k in Hws by lia. exact Hws.
Qed.

(** X8.  The quantize-dequantize path of [quant_weight] is total and
    keeps the shape of the weight, for every positive group size (and
    for -1): whether the group size divides the number of columns or
    leaves a remainder group, on a weight with at least one column,
    with two or more bits and a supported data type, it returns a float
    tensor of the shape of its input; no reshape, concatenation or
    division fails on the way. *)
Theorem quant_weight_float_shape (weight : tensor Q) (n k : nat) (num_bits group_size : Z)
        (scheme : string) (quantile : Q) (data_type : string) (full_range : bool) :
  shape_is weight n k -> k <> 0%nat -> (2 <= num_bits)%Z -> supported data_type ->
  (group_size = -1 \/ 1 <= group_size)%Z ->
  exists w,
    quant_weight weight num_bits group_size scheme quantile data_type false full_range
    = Ok (QFloat w) /\
    shape_is w n k.
Proof.
  exact (quant_weight_float_ok weight n k num_bits group_size scheme quantile data_type
                               full_range).
Qed.

Lemma quant_weight_float_shape_witness :
  exists w,
    quant_weight sample_weight33 4 8 "asym" 1 "int" false false = Ok (QFloat w) /\
    shape_is w 2 33.
Proof.
  apply (quant_weight_float_shape sample_weight33 2 33 4 8 "asym" 1 "int" false).
  - repeat split; repeat constructor.
  - discriminate.
  - lia.
  - left. reflexivity.
  - right. lia.
Defined.

(** ** The clip search scores by mean squared error *)

(** *** The loss is the mean squared error *)

Lemma Qsum_from (l : list Q) : forall a, fold_left Qplus l a == a + Qsum l.
Proof.
  unfold Qsum. induction l as [|x l IH]; intros a; cbn [fold_left].
  - ring.
  - rewrite (IH (a + x)), (IH (0 + x)). ring.
Qed.

Lemma Qsum_cons (x : Q) (l : list Q) : Qsum (x :: l) == x + Qsum l.
Proof. unfold Qsum at 1. cbn [fold_left]. rewrite Qsum_from. ring. Qed.

Lemma Qsum_app (l1 l2 : list Q) : Qsum (l1 ++ l2) == Qsum l1 + Qsum l2.
Proof.
  induction l1 as [|x l1 IH]; cbn [app].
  - unfold Qsum at 2. cbn [fold_left]. ring.
  - rewrite !Qsum_cons, IH. ring.
Qed.

Lemma combine_app_same {A B : Type} (l1 : list A) : forall (l1' : list B) l2 l2',
  length l1 = length l1' ->
  combine (l1 ++ l2) (l1' ++ l2') = combine l1 l1' ++ combine l2 l2'.
Proof.
  induction l1 as [|x l1 IH]; intros [|y l1'] l2 l2' H; cbn [length] in H; try discriminate.
  - reflexivity.
  - cbn [app combine]. f_equal. apply IH. lia.
Qed.

(** A map over two rows side by side, read by column index. *)
Lemma map_combine_by_index {A B C : Type} (f : A * B -> C) (da : A) (db : B)
      (l1 : list A) : forall (l2 : list B) (k : nat),
  length l1 = k -> length l2 = k ->
  map f (combine l1 l2) = map (fun j => f (nth j l1 da, nth j l2 db)) (seq 0 k).
Proof.
  induction l1 as [|x l1 IH]; intros [|y l2] k H1 H2; cbn [length] in H1, H2; subst k;
    try discriminate; [reflexivity|].
  cbn [combine map seq nth]. f_equal.
  rewrite <- seq_shift, map_map. cbn [nth]. apply IH; [reflexivity|lia].
Qed.

(** The sum over the flattened entries of two matrices of one shape
    is the sum over the rows of the sums over the columns. *)
Lemma Qsum_rows (f : Q * Q -> Q) (k : nat) (rs1 : list (list Q)) : forall rs2,
  Forall (fun r => length r = k) rs1 -> Forall (fun r => length r = k) rs2 ->
  length rs1 = length rs2 ->
  Qsum (map f (combine (concat rs1) (concat rs2)))
  == Qsum (map (fun i => Qsum (map (fun j => f (nth j (nth i rs1 []) 0, nth j (nth i rs2 []) 0))
                                   (seq 0 k)))
               (seq 0 (length rs1))).
Proof.
  induction rs1 as [|r1 rs1 IH]; intros [|r2 rs2] H1 H2 Hlen; cbn [length] in Hlen;
    try discriminate; [reflexivity|].
  inversion H1 as [|? ? Hr1 H1']; subst. inversion H2 as [|? ? Hr2 H2']; subst.
  cbn [concat length seq map].
  rewrite combine_app_same by congruence.
  rewrite map_app, Qsum_app, Qsum_cons.
  rewrite <- seq_shift, map_map. cbn [nth].
  rewrite (IH rs2 H1' H2') by lia.
  rewrite (map_combine_by_index f 0 0 r1 r2 (length r1) eq_refl Hr2).
  reflexivity.
Qed.

(** What [mse_loss] returns on two matrices of one shape with at least
    one entry: the mean squared error. *)
Lemma mse_loss_value (org_weight cur_weight : tensor Q) (n k : nat) (l : fval) :
  shape_is org_weight n k -> shape_is cur_weight n k ->
  mse_loss org_weight cur_weight = Ok l ->
  match l with
  | FVal v => v == spec_mean_squared_error org_weight cur_weight
  | _ => n = 0%nat \/ k = 0%nat
  end.
Proof.
  intros Ho Hc H. unfold mse_loss in H.
  pose proof (flat_length _ _ _ Ho) as Hlo. pose proof (flat_length _ _ _ Hc) as Hlc.
  destruct Ho as [Hon [Hok Hwfo]]. destruct Hc as [Hcn [Hck Hwfc]].
  rewrite Hon, Hcn, Hok, Hck, !Nat.eqb_refl in H. cbn [andb] in H.
  assert (Hlen : length (map (fun p : Q * Q => (fst p - snd p) ^ 2)
                             (combine (flat org_weight) (flat cur_weight))) = (n * k)%nat).
  { rewrite length_map, length_combine, Hlo, Hlc. apply Nat.min_id. }
  assert (Hsum : Qsum (map (fun p : Q * Q => (fst p - snd p) ^ 2)
                           (combine (flat org_weight) (flat cur_weight)))
                 == spec_squared_error org_weight cur_weight).
  { unfold flat, spec_squared_error, entry.
    unfold wf in Hwfo, Hwfc. rewrite Hok in Hwfo. rewrite Hck in Hwfc.
    unfold nrows in Hon, Hcn.
    rewrite (Qsum_rows (fun p => (fst p - snd p) ^ 2) k _ _ Hwfo Hwfc) by congruence.
    unfold nrows. rewrite Hok. reflexivity. }
  destruct (map _ (combine (flat org_weight) (flat cur_weight))) as [|x d] eqn:E.
  - apply Ok_inv in H. subst l. cbn [length] in Hlen.
    symmetry in Hlen. apply Nat.eq_mul_0 in Hlen. exact Hlen.
  - apply Ok_inv in H. subst l. unfold spec_mean_squared_error.
    rewrite Hlen, Hsum, Hon, Hok. reflexivity.
Qed.

(** *** The quantize-dequantize path keeps the shape *)

Lemma reshape_to_wf {A : Type} (t : tensor A) (m g n k : nat) :
  shape_is t m g -> (m * g = n * k)%nat -> shape_is (reshape_to n k t) n k.
Proof.
  intros Hsh Heq. apply reshape_to_shape. rewrite (flat_length t m g Hsh). exact Heq.
Qed.

Lemma reshape_rows_returns {A : Type} (t t' : tensor A) (n k g : nat) :
  shape_is t n k -> reshape_rows g t = Ok t' -> shape_is t' (n * k / g) g.
Proof.
  intros Hsh H. unfold reshape_rows in H. rewrite (shape_numel t n k Hsh) in H.
  destruct (g =? 0)%nat; [discriminate|].
  destruct (Nat.eqb_spec ((n * k) mod g) 0) as [Hmod|]; [|discriminate].
  apply Ok_inv in H. subst t'. apply (reshape_to_wf t n k _ _ Hsh).
  pose proof (Nat.div_mod_eq (n * k) g). lia.
Qed.

Lemma reshape_returns {A : Type} (t t' : tensor A) (m g n k : nat) :
  shape_is t m g -> reshape n k t = Ok t' -> shape_is t' n k.
Proof.
  intros Hsh H. unfold reshape in H. rewrite (shape_numel t m g Hsh) in H.
  destruct (Nat.eqb_spec (m * g) (n * k)) as [Heq|]; [|discriminate].
  apply Ok_inv in H. subst t'. exact (reshape_to_wf t m g n k Hsh Heq).
Qed.

Lemma cat1_returns {A : Type} (t1 t2 t : tensor A) (n n' a b : nat) :
  shape_is t1 n a -> shape_is t2 n' b -> cat1 t1 t2 = Ok t -> shape_is t n (a + b).
Proof.
  intros H1 H2 H.
  assert (Hn : n' = n).
  { unfold cat1 in H. destruct H1 as [H1 _], H2 as [H2 _]. rewrite H1, H2 in H.
    destruct (Nat.eqb_spec n n'); [congruence|discriminate]. }
  subst n'. destruct (cat1_shape t1 t2 n a b H1 H2) as [t0 [Ht0 [Hs _]]].
  rewrite Ht0 in H. apply Ok_inv in H. subst t0. exact Hs.
Qed.

(** Whenever the quantize-dequantize path of [quant_weight] returns,
    its result has the shape of the weight. *)
Lemma quant_weight_float_returns (weight cur : tensor Q) (n k : nat)
      (num_bits group_size : Z) (scheme : string) (quantile : Q) (data_type : string)
      (full_range : bool) :
  shape_is weight n k ->
  quant_weight weight num_bits group_size scheme quantile data_type false full_range
  = Ok (QFloat cur) ->
  shape_is cur n k.
Proof.
  intros Hsh H. pose proof Hsh as [Hn [Hk Hwf]]. unfold quant_weight in H.
  destruct (num_bits <=? 0)%Z.
  { apply Ok_inv in H. injection H as <-. exact Hsh. }
  destruct ((group_size =? -1)%Z || (Z.of_nat (ncols weight) <? group_size)%Z).
  { exact (actor_float_shape _ n k _ _ _ _ _ _ Hsh H). }
  destruct (group_size =? 0)%Z; [discriminate|].
  destruct (group_size <? 0)%Z; [discriminate|].
  cbv zeta in H. rewrite Hn, Hk in H.
  set (g := Z.to_nat group_size) in *.
  destruct (k mod g =? 0)%nat.
  - apply bind_Ok in H. destruct H as [w1 [Hw1 H]].
    apply bind_Ok in H. destruct H as [r [Hr H]].
    apply bind_Ok in H. destruct H as [w2 [Hw2 H]].
    apply bind_Ok in H. destruct H as [w3 [Hw3 H]].
    apply Ok_inv in H. injection H as <-.
    destruct r as [w2'|]; [|discriminate]. apply Ok_inv in Hw2. subst w2'.
    pose proof (reshape_rows_returns _ _ n k g Hsh Hw1) as Hs1.
    pose proof (actor_float_shape _ _ g _ _ _ _ _ _ Hs1 Hr) as Hs2.
    exact (reshape_returns _ _ _ g n k Hs2 Hw3).
  - set (split_index := (k / g * g)%nat) in *.
    apply bind_Ok in H. destruct H as [w1 [Hw1 H]].
    apply bind_Ok in H. destruct H as [r1 [Hr1 H]].
    apply bind_Ok in H. destruct H as [w2 [Hw2 H]].
    apply bind_Ok in H. destruct H as [w3 [Hw3 H]].
    apply bind_Ok in H. destruct H as [r2 [Hr2 H]].
    apply bind_Ok in H. destruct H as [w4 [Hw4 H]].
    apply bind_Ok in H. destruct H as [w [Hw H]].
    apply Ok_inv in H. injection H as <-.
    destruct r1 as [w2'|]; [|discriminate]. apply Ok_inv in Hw2. subst w2'.
    destruct r2 as [w4'|]; [|discriminate]. apply Ok_inv in Hw4. subst w4'.
    assert (Hsplit : (split_index <= k)%nat).
    { unfold split_index. destruct (Nat.eq_dec g 0) as [->|Hg]; [cbn; lia|].
      pose proof (Nat.div_mod_eq k g). lia. }
    assert (Hl : shape_is (slice_cols 0 split_index weight) n split_index).
    { replace split_index with (split_index - 0)%nat at 2 by lia.
      apply (slice_cols_shape weight n k 0 split_index Hsh). lia. }
    pose proof (reshape_rows_returns _ _ n split_index g Hl Hw1) as Hs1.
    pose proof (actor_float_shape _ _ g _ _ _ _ _ _ Hs1 Hr1) as Hs2.
    pose proof (reshape_returns _ _ _ g n split_index Hs2 Hw3) as Hs3.
    pose proof (from_col_shape weight n k split_index Hsh Hsplit) as Hrs.
    pose proof (actor_float_shape _ n _ _ _ _ _ _ _ Hrs Hr2) as Hs4.
    pose proof (cat1_returns _ _ _ _ _ _ _ Hs3 Hs4 Hw) as Hs.
    replace (split_index + (k - split_index))%nat with k in Hs by lia. exact Hs.
Qed.

(** The loss of a candidate is the mean squared error between the
    weight and its quantize-dequantize image at the candidate's
    ratio. *)
Lemma clip_loss_scores_mse (weight : tensor Q) (n k : nat) (num_bits group_size : Z)
      (scheme data_type : string) (enable_full_range : bool) (i_s : nat) (l : Q) :
  shape_is weight n k ->
  clip_loss weight num_bits group_size scheme data_type enable_full_range i_s = Ok (FVal l) ->
  exists cur_weight,
    quant_weight weight num_bits group_size scheme (clip_ratio i_s) data_type false
                 enable_full_range = Ok (QFloat cur_weight) /\
    shape_is cur_weight n k /\
    l == spec_mean_squared_error weight cur_weight.
Proof.
  intros Hsh H. unfold clip_loss in H.
  apply bind_Ok in H. destruct H as [r [Hr H]].
  apply bind_Ok in H. destruct H as [cur [Hcur H]].
  destruct r as [cur'|]; [|discriminate]. apply Ok_inv in Hcur. subst cur'.
  pose proof (quant_weight_float_returns _ _ n k _ _ _ _ _ _ Hsh Hr) as Hcs.
  exists cur. split; [exact Hr|]. split; [exact Hcs|].
  exact (mse_loss_value weight cur n k (FVal l) Hsh Hcs H).
Qed.

(** C6.  When each of the 40 candidates gets a loss, [search_clip]
    runs over the ratios [1 - i/200], i = 0 .. 39, from 1 down to
    0.805; the loss of a candidate is the mean squared error between
    the weight and what [quant_weight] writes back at the candidate's
    ratio; the search returns the ratio of the least loss, the earliest
    one on a tie; its loss is at most the loss at ratio 1. *)
Theorem search_clip_minimizer (weight : tensor Q) (n k : nat) (num_bits group_size : Z)
        (scheme data_type : string) (enable_full_range : bool) :
  let L := clip_loss weight num_bits group_size scheme data_type enable_full_range in
  shape_is weight n k ->
  (forall i, (i < 40)%nat -> exists l, L i = Ok (FVal l)) ->
  exists k0 lk best_error history,
    (k0 < 40)%nat /\
    clip_loop weight num_bits group_size scheme data_type enable_full_range
              (seq 0 40) (FInf, None, [])
    = Ok (best_error, Some (clip_ratio k0), history) /\
    map Ok history = map L (seq 0 40) /\
    (forall i, (i < 40)%nat ->
       exists cur_weight li,
         quant_weight weight num_bits group_size scheme (clip_ratio i) data_type false
                      enable_full_range = Ok (QFloat cur_weight) /\
         shape_is cur_weight n k /\
         L i = Ok (FVal li) /\
         li == spec_mean_squared_error weight cur_weight) /\
    search_clip weight num_bits group_size scheme data_type enable_full_range
    = Ok (Some (clip_ratio k0)) /\
    L k0 = Ok (FVal lk) /\
    (forall i li, (i < 40)%nat -> L i = Ok (FVal li) -> lk <= li) /\
    (forall i li, (i < k0)%nat -> L i = Ok (FVal li) -> lk < li) /\
    (forall l0, L 0%nat = Ok (FVal l0) -> lk <= l0) /\
    clip_ratio 0 == 1 /\ clip_ratio 39 == 0.805 /\
    (forall i, clip_ratio (S i) < clip_ratio i).
Proof.
  intros L Hsh Hall.
  destruct (clip_loop_inv weight num_bits group_size scheme data_type enable_full_range
                          40 0 (FInf, None, [])) as [st [Hloop Hinv]].
  - unfold clip_inv. cbv zeta. split; [reflexivity|]. left. auto.
  - intros i Hi. apply Hall. lia.
  - destruct st as [[best_error best_clip_ratio] history].
    unfold clip_inv in Hinv. cbv zeta in Hinv. cbn [plus] in Hinv.
    destruct Hinv as [Hh [[Hj _]|[k0 [lk [Hk [-> [-> [Hlk [Hmin Hfirst]]]]]]]]]; [discriminate|].
    exists k0, lk, (FVal lk), history.
    split; [exact Hk|]. split; [exact Hloop|]. split; [exact Hh|].
    split.
    { intros i Hi. destruct (Hall i Hi) as [li Hli].
      destruct (clip_loss_scores_mse weight n k num_bits group_size scheme data_type
                                     enable_full_range i li Hsh Hli) as [cur [Hq [Hcs Hv]]].
      exists cur, li. split; [exact Hq|]. split; [exact Hcs|]. split; [exact Hli|exact Hv]. }
    split.
    { unfold search_clip.
      replace (Z.to_nat (Qtrunc (max_shrink * n_grid))) with 40%nat by reflexivity.
      rewrite Hloop. reflexivity. }
    split; [exact Hlk|]. split; [exact Hmin|]. split; [exact Hfirst|].
    split; [intros l0 H0; apply (Hmin 0%nat l0); [lia|exact H0]|].
    split; [reflexivity|]. split; [reflexivity|].
    intros i. unfold clip_ratio, n_grid.
    apply Qplus_lt_r. apply Qopp_lt_compat.
    apply Qmult_lt_compat_r; [reflexivity|].
    rewrite <- Zlt_Qlt. lia.
Qed.

Lemma search_clip_minimizer_witness :
  shape_is sample_outlier 2 3 /\
  exists k0 lk best_error history,
    (k0 < 40)%nat /\
    clip_loop sample_outlier 4 32 "asym" "int" false (seq 0 40) (FInf, None, [])
    = Ok (best_error, Some (clip_ratio k0), history) /\
    map Ok history = map (clip_loss sample_outlier 4 32 "asym" "int" false) (seq 0 40) /\
    (forall i, (i < 40)%nat ->
       exists cur_weight li,
         quant_weight sample_outlier 4 32 "asym" (clip_ratio i) "int" false false
         = Ok (QFloat cur_weight) /\
         shape_is cur_weight 2 3 /\
         clip_loss sample_outlier 4 32 "asym" "int" false i = Ok (FVal li) /\
         li == spec_mean_squared_error sample_outlier cur_weight) /\
    search_clip sample_outlier 4 32 "asym" "int" false = Ok (Some (clip_ratio k0)) /\
    clip_loss sample_outlier 4 32 "asym" "int" false k0 = Ok (FVal lk) /\
    (forall i li, (i < 40)%nat ->
             clip_loss sample_outlier 4 32 "asym" "int" false i = Ok (FVal li) -> lk <= li) /\
    (forall i li, (i < k0)%nat ->
             clip_loss sample_outlier 4 32 "asym" "int" false i = Ok (FVal li) -> lk < li) /\
    (forall l0, clip_loss sample_outlier 4 32 "asym" "int" false 0%nat = Ok (FVal l0) -> lk <= l0) /\
    clip_ratio 0 == 1 /\ clip_ratio 39 == 0.805 /\
    (forall i, clip_ratio (S i) < clip_ratio i).
Proof.
  assert (Hsh : shape_is sample_outlier 2 3).
  { split; [reflexivity|]. split; [reflexivity|]. repeat constructor. }
  split; [exact Hsh|].
  apply (search_clip_minimizer sample_outlier 2 3 4 32 "asym" "int" false Hsh).
  intros i Hi.
  do 40 (destruct i as [|i]; [eexists; vm_compute; reflexivity|]).
  lia.
Defined.

(** ** When the search returns *)

Lemma clip_loss_total (weight : tensor Q) (n k : nat) (num_bits group_size : Z)
      (scheme data_type : string) (enable_full_range : bool) (i_s : nat) :
  shape_is weight n k -> n <> 0%nat -> k <> 0%nat -> (2 <= num_bits)%Z ->
  supported data_type -> (group_size = -1 \/ 1 <= group_size)%Z ->
  exists l,
    clip_loss weight num_bits group_size scheme data_type enable_full_range i_s = Ok (FVal l).
Proof.
  intros Hsh Hn Hk Hb Hsup Hg. unfold clip_loss.
  destruct (quant_weight_float_ok weight n k num_bits group_size scheme (clip_ratio i_s)
              data_type enable_full_range Hsh Hk Hb Hsup Hg) as [cw [Hcw Hcws]].
  rewrite Hcw. cbn [bind unpack1].
  exact (mse_loss_finite weight cw n k Hsh Hcws Hn Hk).
Qed.



(** ** Integer ranges of the codecs *)

Lemma In_firstn {A : Type} (x : A) (n : nat) (l : list A) : In x (firstn n l) -> In x l.
Proof. intros H. rewrite <- (firstn_skipn n l). apply in_or_app. left. exact H. Qed.

Lemma In_skipn {A : Type} (x : A) (n : nat) (l : list A) : In x (skipn n l) -> In x l.
Proof. intros H. rewrite <- (firstn_skipn n l). apply in_or_app. right. exact H. Qed.

Lemma reshape_to_entries {A : Type} (P : A -> Prop) (n k : nat) (t : tensor A) :
  Forall (Forall P) (trows t) -> Forall (Forall P) (trows (reshape_to n k t)).
Proof.
  intros H. unfold reshape_to. cbn [trows]. apply Forall_map, Forall_forall. intros i _.
  apply Forall_forall. intros x Hx. apply In_firstn, In_skipn in Hx.
  unfold flat in Hx. apply in_concat in Hx. destruct Hx as [row [Hrow Hx]].
  rewrite Forall_forall in H. specialize (H row Hrow). rewrite Forall_forall in H.
  exact (H x Hx).
Qed.

Lemma reshape_entries {A : Type} (P : A -> Prop) (n k : nat) (t t' : tensor A) :
  reshape n k t = Ok t' -> Forall (Forall P) (trows t) -> Forall (Forall P) (trows t').
Proof.
  unfold reshape. destruct (_ =? _)%nat; [|discriminate].
  intros H. inversion H. apply reshape_to_entries.
Qed.

Lemma reshape_cols_entries {A : Type} (P : A -> Prop) (n : nat) (t t' : tensor A) :
  reshape_cols n t = Ok t' -> Forall (Forall P) (trows t) -> Forall (Forall P) (trows t').
Proof.
  unfold reshape_cols. destruct (n =? 0)%nat; [discriminate|].
  destruct (_ =? _)%nat; [|discriminate].
  intros H. inversion H. apply reshape_to_entries.
Qed.

Lemma cat1_entries {A : Type} (P : A -> Prop) (t1 t2 t : tensor A) :
  cat1 t1 t2 = Ok t -> Forall (Forall P) (trows t1) -> Forall (Forall P) (trows t2) ->
  Forall (Forall P) (trows t).
Proof.
  unfold cat1. destruct (_ =? _)%nat; [|discriminate].
  intros H H1 H2. inversion H. cbn [trows].
  apply Forall_map, Forall_forall. intros [r1 r2] Hin. cbn [fst snd].
  apply Forall_app. rewrite Forall_forall in H1, H2. split.
  - apply H1. exact (in_combine_l _ _ _ _ Hin).
  - apply H2. exact (in_combine_r _ _ _ _ Hin).
Qed.

(** What holds of every integer and of every zero point the actor
    returns holds of every integer and zero point [quant_weight]
    returns, for any group size: grouping only re-arranges them. *)
Lemma quant_weight_int_entries (P Pz : Z -> Prop) (num_bits : Z) (scheme : string)
      (quantile : Q) (data_type : string) (full_range : bool) :
  (forall w q s zp,
      qdq_weight_actor w num_bits scheme quantile data_type true full_range = Ok (QInt q s zp) ->
      Forall (Forall P) (trows q) /\
      forall z, zp = Some z -> Forall (Forall Pz) (trows z)) ->
  forall weight group_size q s zp,
    quant_weight weight num_bits group_size scheme quantile data_type true full_range
    = Ok (QInt q s zp) ->
    Forall (Forall P) (trows q) /\
    forall z, zp = Some z -> Forall (Forall Pz) (trows z).
Proof.
  intros Hact weight group_size q s zp H. unfold quant_weight in H.
  destruct (num_bits <=? 0)%Z; [discriminate|].
  destruct ((group_size =? -1)%Z || (Z.of_nat (ncols weight) <? group_size)%Z).
  { exact (Hact _ _ _ _ H). }
  destruct (group_size =? 0)%Z; [discriminate|].
  destruct (group_size <? 0)%Z; [discriminate|].
  cbv zeta in H.
  destruct (_ =? 0)%nat.
  - apply bind_Ok in H. destruct H as [w1 [_ H]].
    apply bind_Ok in H. destruct H as [r [Hr H]].
    destruct r as [?|q1 s1 zp1]; [discriminate|]. cbn [unpack3 bind] in H.
    destruct (Hact _ _ _ _ Hr) as [Hq1 Hz1].
    apply bind_Ok in H. destruct H as [q2 [Hq2 H]].
    apply bind_Ok in H. destruct H as [s2 [_ H]].
    apply bind_Ok in H. destruct H as [zp2 [Hzp2 H]].
    inversion H; subst. split.
    + exact (reshape_entries P _ _ _ _ Hq2 Hq1).
    + intros z Hz. subst zp. unfold reshape_zp in Hzp2.
      destruct zp1 as [z1|]; [|discriminate].
      apply bind_Ok in Hzp2. destruct Hzp2 as [z' [Hz' Hzp2]]. inversion Hzp2; subst.
      exact (reshape_cols_entries Pz _ _ _ Hz' (Hz1 z1 eq_refl)).
  - apply bind_Ok in H. destruct H as [w1 [_ H]].
    apply bind_Ok in H. destruct H as [r1 [Hr1 H]].
    destruct r1 as [?|q1 s1 zp1]; [discriminate|]. cbn [unpack3 bind] in H.
    destruct (Hact _ _ _ _ Hr1) as [Hq1 Hz1].
    apply bind_Ok in H. destruct H as [s1' [_ H]].
    apply bind_Ok in H. destruct H as [zp1' [Hzp1' H]].
    apply bind_Ok in H. destruct H as [q1' [Hq1' H]].
    apply bind_Ok in H. destruct H as [r2 [Hr2 H]].
    destruct r2 as [?|q2 s2 zp2]; [discriminate|]. cbn [unpack3 bind] in H.
    destruct (Hact _ _ _ _ Hr2) as [Hq2 Hz2].
    apply bind_Ok in H. destruct H as [qc [Hqc H]].
    apply bind_Ok in H. destruct H as [sc [_ H]].
    pose proof (cat1_entries P _ _ _ Hqc (reshape_entries P _ _ _ _ Hq1' Hq1) Hq2) as Hq.
    destruct zp2 as [z2|].
    + destruct zp1' as [z1'|]; [|discriminate].
      apply bind_Ok in H. destruct H as [zc [Hzc H]]. inversion H; subst.
      split; [exact Hq|]. intros z Hz. inversion Hz; subst z.
      unfold reshape_zp in Hzp1'. destruct zp1 as [z1|]; [|discriminate].
      apply bind_Ok in Hzp1'. destruct Hzp1' as [z' [Hz' Hzp1']]. inversion Hzp1'; subst.
      exact (cat1_entries Pz _ _ _ Hzc (reshape_cols_entries Pz _ _ _ Hz' (Hz1 z1 eq_refl))
                          (Hz2 z2 eq_refl)).
    + inversion H; subst. split; [exact Hq|]. intros z Hz. discriminate.
Qed.

Lemma actor_sym_int_range (w : tensor Q) (num_bits : Z) (quantile : Q) (data_type : string)
      (full_range : bool) (q : tensor Z) (s : tensor Q) (zp : option (tensor Z)) :
  (2 <= num_bits <= 8)%Z -> has_int data_type = true ->
  qdq_weight_actor w num_bits "sym" quantile data_type true full_range = Ok (QInt q s zp) ->
  Forall (Forall (fun x => (- 2 ^ (num_bits - 1) <= x <= 2 ^ (num_bits - 1) - 1)%Z)) (trows q).
Proof.
  intros Hb Hint H. unfold qdq_weight_actor in H.
  apply bind_Ok in H. destruct H as [_ [_ H]].
  rewrite Hint in H. cbn [negb andb String.eqb Ascii.eqb Bool.eqb] in H.
  unfold qdq_weight_sym in H. destruct (ncols w =? 0)%nat; [discriminate|].
  apply bind_Ok in H. destruct H as [rs [Hrs H]]. inversion H. cbn [trows].
  apply Forall_map.
  apply (mapM_Forall_out _ _ _ _ Hrs). intros row [qr sc] Hrow. cbn [fst].
  assert (Hb1 : (1 <= num_bits)%Z) by lia.
  pose proof (qdq_weight_sym_row_range num_bits quantile full_range row qr sc Hb1 Hrow)
    as Hrange.
  rewrite sym_bounds_ge2 in Hrange by lia. cbn [fst snd] in Hrange.
  apply Forall_map. apply (Forall_impl _ (P := fun x => (- 2 ^ (num_bits - 1) <= x
                                                         <= 2 ^ (num_bits - 1) - 1)%Z));
    [|exact Hrange].
  intros x Hx.
  assert (H27 : (2 ^ (num_bits - 1) <= 2 ^ 7)%Z) by (apply Z.pow_le_mono_r; lia).
  change (2 ^ 7)%Z with 128%Z in H27.
  rewrite to_int8_small by lia. exact Hx.
Qed.

(** The zero point of one row of the asymmetric codec lies in
    [[0, 2^bits - 1]] when the quantile is not negative. *)
Lemma qdq_weight_asym_row_zp_range (num_bits : Z) (quantile : Q)
      (row : list Q) (q : list Z) (scale : Q) (zp : Z) :
  (1 <= num_bits)%Z -> 0 <= quantile ->
  qdq_weight_asym_row num_bits quantile row = Ok (q, scale, zp) ->
  (0 <= zp <= 2 ^ num_bits - 1)%Z.
Proof.
  intros Hb Hq H.
  destruct row as [|x r]; [discriminate|].
  destruct (asym_row_refines num_bits quantile (x :: r) Hb Hq ltac:(discriminate))
    as [scale' [Heq [Hsc Hnz]]].
  rewrite Heq in H. inversion H; subst.
  apply spec_asym_zero_point_bounds; [exact Hb|].
  intros Hz. apply Hnz. rewrite Hsc. exact Hz.
Qed.

Lemma pow2_le_256 (num_bits : Z) : (num_bits <= 8)%Z -> (2 ^ num_bits <= 256)%Z.
Proof.
  intros Hb. destruct (Z.ltb_spec num_bits 0).
  - rewrite Z.pow_neg_r by lia. lia.
  - change 256%Z with (2 ^ 8)%Z. apply Z.pow_le_mono_r; lia.
Qed.

Lemma actor_asym_int_range (w : tensor Q) (num_bits : Z) (scheme : string) (quantile : Q)
      (data_type : string) (full_range : bool) (q : tensor Z) (s : tensor Q)
      (zp : option (tensor Z)) :
  (1 <= num_bits <= 8)%Z -> has_int data_type = true -> String.eqb scheme "sym" = false ->
  0 <= quantile ->
  qdq_weight_actor w num_bits scheme quantile data_type true full_range = Ok (QInt q s zp) ->
  Forall (Forall (fun x => (0 <= x <= 2 ^ num_bits - 1)%Z)) (trows q) /\
  forall z, zp = Some z -> Forall (Forall (fun x => (0 <= x <= 2 ^ num_bits - 1)%Z)) (trows z).
Proof.
  intros Hb Hint Hs Hq H. unfold qdq_weight_actor in H.
  apply bind_Ok in H. destruct H as [_ [_ H]].
  rewrite Hint, Hs in H. cbn [negb andb] in H.
  unfold qdq_weight_asym in H. destruct (ncols w =? 0)%nat; [discriminate|].
  apply bind_Ok in H. destruct H as [rs [Hrs H]]. inversion H. cbn [trows].
  pose proof (pow2_le_256 num_bits ltac:(lia)) as H256.
  split.
  - apply Forall_map.
    apply (mapM_Forall_out _ _ _ _ Hrs). intros row [[qr sc] z] Hrow.
    assert (Hb0 : (0 <= num_bits)%Z) by lia.
    pose proof (qdq_weight_asym_row_range num_bits quantile row qr sc z Hb0 Hrow) as Hrange.
    apply Forall_map.
    apply (Forall_impl _ (P := fun x => (0 <= x <= 2 ^ num_bits - 1)%Z)); [|exact Hrange].
    intros x Hx. rewrite to_uint8_small by lia. exact Hx.
  - intros z0 Hz0. inversion Hz0. unfold column. cbn [trows]. rewrite map_map.
    apply Forall_map.
    apply (mapM_Forall_out _ _ _ _ Hrs). intros row [[qr sc] z] Hrow.
    assert (Hb1 : (1 <= num_bits)%Z) by lia.
    pose proof (qdq_weight_asym_row_zp_range num_bits quantile row qr sc z Hb1 Hq Hrow) as Hz.
    constructor; [|constructor]. rewrite to_uint8_small by lia. exact Hz.
Qed.

(** X10.  The symmetric integer codec never leaves its code range:
    for an integer data type, 2 to 8 bits, any group size, any quantile
    and either setting of [full_range], every integer [quant_weight]
    returns lies in [[-2^(bits-1), 2^(bits-1) - 1]], the signed range of
    a field of [bits] bits. *)
Theorem quant_weight_sym_int_range (weight : tensor Q) (num_bits group_size : Z)
        (quantile : Q) (data_type : string) (full_range : bool)
        (q : tensor Z) (s : tensor Q) (zp : option (tensor Z)) :
  (2 <= num_bits <= 8)%Z -> has_int data_type = true ->
  quant_weight weight num_bits group_size "sym" quantile data_type true full_range
  = Ok (QInt q s zp) ->
  Forall (Forall (fun x => (- 2 ^ (num_bits - 1) <= x <= 2 ^ (num_bits - 1) - 1)%Z)) (trows q).
Proof.
  intros Hb Hint H.
  refine (proj1 (quant_weight_int_entries _ (fun _ => True) num_bits "sym" quantile data_type
                   full_range _ weight group_size q s zp H)).
  intros w q0 s0 zp0 Hact. split.
  - exact (actor_sym_int_range w num_bits quantile data_type full_range q0 s0 zp0 Hb Hint Hact).
  - intros z _. apply Forall_forall. intros r _. apply Forall_forall. intros x _. exact I.
Qed.

Lemma quant_weight_sym_int_range_witness :
  Forall (Forall (fun x => (- 2 ^ (4 - 1) <= x <= 2 ^ (4 - 1) - 1)%Z))
         (trows (mkT 3 [[2; 5; 7]; [0; 1; - (7)]]%Z)).
Proof.
  apply (quant_weight_sym_int_range sample_outlier 4 (-1) 1 "int" false
           (mkT 3 [[2; 5; 7]; [0; 1; - (7)]]%Z) (column [3 # 7; 60 # 7]) None).
  - lia.
  - reflexivity.
  - vm_compute. reflexivity.
Defined.

(** X11.  The asymmetric integer codec never leaves the unsigned
    range: for an integer data type, 1 to 8 bits, any group size and a
    quantile that is not negative, every integer and every zero point
    [quant_weight] returns lies in [[0, 2^bits - 1]] (so the conversion
    to uint8 loses nothing). *)
Theorem quant_weight_asym_int_range (weight : tensor Q) (num_bits group_size : Z)
        (scheme : string) (quantile : Q) (data_type : string) (full_range : bool)
        (q : tensor Z) (s : tensor Q) (zp : option (tensor Z)) :
  (1 <= num_bits <= 8)%Z -> has_int data_type = true -> String.eqb scheme "sym" = false ->
  0 <= quantile ->
  quant_weight weight num_bits group_size scheme quantile data_type true full_range
  = Ok (QInt q s zp) ->
  Forall (Forall (fun x => (0 <= x <= 2 ^ num_bits - 1)%Z)) (trows q) /\
  forall z, zp = Some z -> Forall (Forall (fun x => (0 <= x <= 2 ^ num_bits - 1)%Z)) (trows z).
Proof.
  intros Hb Hint Hs Hq H.
  refine (quant_weight_int_entries _ _ num_bits scheme quantile data_type
            full_range _ weight group_size q s zp H).
  intros w q0 s0 zp0 Hact.
  exact (actor_asym_int_range w num_bits scheme quantile data_type full_range q0 s0 zp0
           Hb Hint Hs Hq Hact).
Qed.

Lemma quant_weight_asym_int_range_witness :
  Forall (Forall (fun x => (0 <= x <= 2 ^ 4 - 1)%Z))
         (trows (mkT 3 [[8; 15; 15]; [12; 15; 0]]%Z)) /\
  forall z, Some (mkT 2 [[0; 0]; [0; 15]]%Z) = Some z ->
            Forall (Forall (fun x => (0 <= x <= 2 ^ 4 - 1)%Z)) (trows z).
Proof.
  apply (quant_weight_asym_int_range sample_outlier 4 2 "asym" 1 "int" false
           (mkT 3 [[8; 15; 15]; [12; 15; 0]]%Z)
           (mkT 2 [[2 # 15; 3 # 15]; [5 # 15; 60 # 15]])
           (Some (mkT 2 [[0; 0]; [0; 15]]%Z))).
  - lia.
  - reflexivity.
  - reflexivity.
  - discriminate.
  - vm_compute. reflexivity.
Defined.

(** ** Reconstruction error of the integer codecs *)

(** [torch.round] moves a number by at most one half. *)
Lemma round_half_even_error (x : Q) :
  inject_Z (round_half_even x) - (1 # 2) <= x /\ x <= inject_Z (round_half_even x) + (1 # 2).
Proof.
  pose proof (Qfloor_le x) as Hf1. pose proof (Qlt_floor x) as Hf2.
  rewrite inject_Z_plus in Hf2. change (inject_Z 1) with 1 in Hf2.
  unfold round_half_even.
  destruct (Qcompare_spec (x - inject_Z (Qfloor x)) (1 # 2)) as [E|E|E].
  - destruct (Z.even (Qfloor x)).
    + split; lra.
    + rewrite inject_Z_plus. change (inject_Z 1) with 1. split; lra.
  - split; lra.
  - rewrite inject_Z_plus. change (inject_Z 1) with 1. split; lra.
Qed.

Lemma fold_left_Qmax_ge_init (r : list Q) : forall x, x <= fold_left Qmax r x.
Proof.
  induction r as [|y r IH]; intros x; cbn [fold_left]; [apply Qle_refl|].
  apply Qle_trans with (Qmax x y); [apply Q.le_max_l|apply IH].
Qed.

Lemma fold_left_Qmax_ge (r : list Q) : forall x w, In w (x :: r) -> w <= fold_left Qmax r x.
Proof.
  induction r as [|y r IH]; intros x w Hin.
  - destruct Hin as [<-|[]]. apply Qle_refl.
  - cbn [fold_left]. destruct Hin as [Hin|Hin].
    + subst w. apply Qle_trans with (Qmax x y); [apply Q.le_max_l|apply fold_left_Qmax_ge_init].
    + destruct Hin as [Hin|Hin].
      * subst w. apply Qle_trans with (Qmax x y); [apply Q.le_max_r|apply fold_left_Qmax_ge_init].
      * apply IH. right. exact Hin.
Qed.

Lemma fold_left_Qmin_le_init (r : list Q) : forall x, fold_left Qmin r x <= x.
Proof.
  induction r as [|y r IH]; intros x; cbn [fold_left]; [apply Qle_refl|].
  apply Qle_trans with (Qmin x y); [apply IH|apply Q.le_min_l].
Qed.

Lemma fold_left_Qmin_le (r : list Q) : forall x w, In w (x :: r) -> fold_left Qmin r x <= w.
Proof.
  induction r as [|y r IH]; intros x w Hin.
  - destruct Hin as [<-|[]]. apply Qle_refl.
  - cbn [fold_left]. destruct Hin as [Hin|Hin].
    + subst w. apply Qle_trans with (Qmin x y); [apply fold_left_Qmin_le_init|apply Q.le_min_l].
    + destruct Hin as [Hin|Hin].
      * subst w. apply Qle_trans with (Qmin x y); [apply fold_left_Qmin_le_init|apply Q.le_min_r].
      * apply IH. right. exact Hin.
Qed.

Ltac z_to_q :=
  repeat match goal with
         | H : (_ < _)%Z |- _ => apply Z.le_succ_l in H; unfold Z.succ in H
         | H : (_ <= _)%Z |- _ => rewrite Zle_Qle in H; rewrite ?inject_Z_plus in H
         end;
  change (inject_Z 1) with 1 in *; change (inject_Z 0) with 0 in *.

(** The arithmetic of an affine quantizer.  With a zero point rounded
    from [z] and a value [t] (in steps) between [-z] and [maxq - z],
    rounding, shifting by the zero point and clamping to [[0, maxq]]
    moves the value by at most half a step. *)
Lemma affine_steps_error (t z : Q) (maxq : Z) :
  - z <= t -> t <= inject_Z maxq - z ->
  let zp := round_half_even z in
  let x := clamp (round_half_even t + zp) 0 maxq in
  - (1 # 2) <= t - inject_Z (x - zp) /\ t - inject_Z (x - zp) <= 1 # 2.
Proof.
  intros Hlo Hhi zp x.
  destruct (round_half_even_error t) as [Ht1 Ht2].
  destruct (round_half_even_error z) as [Hz1 Hz2].
  fold zp in Hz1, Hz2.
  unfold Z.sub. rewrite inject_Z_plus, inject_Z_opp.
  unfold x, clamp.
  destruct (Z.max_spec (round_half_even t + zp) 0) as [[Hc ->]|[Hc ->]];
    destruct (Z.min_spec (round_half_even t + zp) maxq) as [[Hd Hmin]|[Hd Hmin]];
    destruct (Z.min_spec 0 maxq) as [[He Hmin0]|[He Hmin0]];
    try rewrite Hmin; try rewrite Hmin0; clear Hmin Hmin0; try lia.
  all: z_to_q; rewrite ?inject_Z_plus; change (inject_Z 0) with 0; split; lra.
Qed.

(** The asymmetric quantizer on a value inside its range
    [[wmin, wmax]]: the reconstruction is off by at most half a step. *)
Lemma affine_quant_error (wmin wmax w : Q) (maxq : Z) :
  (1 <= maxq)%Z -> wmin < wmax -> wmin <= w -> w <= wmax ->
  let s := (wmax - wmin) / inject_Z maxq in
  let zp := round_half_even (- wmin / s) in
  let x := clamp (round_half_even (w / s) + zp) 0 maxq in
  0 < s /\ Qabs (w - s * inject_Z (x - zp)) <= s / 2.
Proof.
  intros Hm Hlt Hlo Hhi s zp x.
  assert (Hmq : 0 < inject_Z maxq).
  { change 0 with (inject_Z 0). rewrite <- Zlt_Qlt. lia. }
  assert (Hs : 0 < s).
  { unfold s. apply Qlt_shift_div_l; [exact Hmq|]. lra. }
  assert (Hsnz : ~ s == 0) by lra.
  assert (Hsm : s * inject_Z maxq == wmax - wmin).
  { unfold s. rewrite Qmult_comm. apply Qmult_div_r. lra. }
  assert (Hw : s * (w / s) == w) by (apply Qmult_div_r; exact Hsnz).
  assert (Hz : s * (- wmin / s) == - wmin) by (apply Qmult_div_r; exact Hsnz).
  set (t := w / s) in *. set (z := - wmin / s) in *.
  assert (H1 : - z <= t) by nra.
  assert (H2 : t <= inject_Z maxq - z) by nra.
  destruct (affine_steps_error t z maxq H1 H2) as [Hd1 Hd2].
  fold zp in Hd1, Hd2. fold x in Hd1, Hd2.
  split; [exact Hs|].
  apply Qabs_Qle_condition.
  set (d := inject_Z (x - zp)) in *.
  assert (Ha : 0 <= s * (t - d + (1 # 2))) by (apply Qmult_le_0_compat; lra).
  assert (Hb : 0 <= s * ((1 # 2) - (t - d))) by (apply Qmult_le_0_compat; lra).
  clear H1 H2 Hz Hsm Hd1 Hd2. clearbody d t z.
  setoid_replace (s / 2) with (s * (1 # 2)) by (unfold Qdiv; reflexivity).
  split; lra.
Qed.

(** With a quantile of at least 1 the clipping range of the
    asymmetric codec contains the whole row. *)
Lemma asym_range_covers (mn mx quantile w : Q) :
  1 <= quantile -> mn <= w -> w <= mx ->
  let wmin0 := Qmin mn 0 * quantile in
  let wmax0 := Qmax mx 0 * quantile in
  let tmp := Qeq_bool wmin0 0 && Qeq_bool wmax0 0 in
  let wmin := if tmp then - (1) else wmin0 in
  let wmax := if tmp then 1 else wmax0 in
  wmin < wmax /\ wmin <= w /\ w <= wmax.
Proof.
  intros Hq Hlo Hhi wmin0 wmax0 tmp wmin wmax.
  pose proof (Q.le_min_l mn 0) as Hm1. pose proof (Q.le_min_r mn 0) as Hm2.
  pose proof (Q.le_max_l mx 0) as HM1. pose proof (Q.le_max_r mx 0) as HM2.
  assert (Hmin_cases : Qmin mn 0 == mn \/ Qmin mn 0 == 0).
  { destruct (Q.min_spec mn 0) as [[_ E]|[_ E]]; [left|right]; exact E. }
  assert (Hmax_cases : Qmax mx 0 == mx \/ Qmax mx 0 == 0).
  { destruct (Q.max_spec mx 0) as [[_ E]|[_ E]]; [right|left]; exact E. }
  unfold wmin, wmax, tmp, wmin0, wmax0.
  set (a := Qmin mn 0) in *. set (b := Qmax mx 0) in *. clearbody a b.
  assert (Ha : a * quantile <= a) by nra.
  assert (Hb : b <= b * quantile) by nra.
  destruct (Qeq_bool (a * quantile) 0) eqn:E1; cbn [andb].
  - destruct (Qeq_bool (b * quantile) 0) eqn:E2.
    + apply Qeq_bool_eq in E1. apply Qeq_bool_eq in E2.
      assert (a == 0) by nra. assert (b == 0) by nra.
      split; [reflexivity|]. split; lra.
    + apply Qeq_bool_neq in E2. apply Qeq_bool_eq in E1.
      split; [|split; lra].
      assert (0 <= b * quantile) by nra. lra.
  - apply Qeq_bool_neq in E1.
    split; [|split; lra].
    assert (a * quantile <= 0) by nra. assert (0 <= b * quantile) by nra. lra.
Qed.

Lemma Forall2_map_r_in {A B : Type} (R : A -> B -> Prop) (f : A -> B) (l : list A) :
  (forall a, In a l -> R a (f a)) -> Forall2 R l (map f l).
Proof.
  induction l as [|x l IH]; intros H; cbn [map]; constructor.
  - apply H. left. reflexivity.
  - apply IH. intros a Ha. apply H. right. exact Ha.
Qed.

Lemma Ok_triple_inv {A B C : Type} (a a' : A) (b b' : B) (c c' : C) :
  Ok (a, b, c) = Ok (a', b', c') -> a = a' /\ b = b' /\ c = c'.
Proof. intros H. injection H as Ha Hb Hc. auto. Qed.

Lemma Ok_pair_inv {A B : Type} (a a' : A) (b b' : B) :
  Ok (a, b) = Ok (a', b') -> a = a' /\ b = b'.
Proof. intros H. injection H as Ha Hb. auto. Qed.

(** One row of the asymmetric codec, quantile at least 1: the scale
    is positive and every weight is reconstructed within half a scale. *)
Lemma asym_row_error (num_bits : Z) (quantile : Q) (row : list Q)
      (q : list Z) (scale : Q) (zp : Z) :
  (1 <= num_bits)%Z -> 1 <= quantile ->
  qdq_weight_asym_row num_bits quantile row = Ok (q, scale, zp) ->
  0 < scale /\
  Forall2 (fun w x => Qabs (w - scale * inject_Z (x - zp)) <= scale / 2) row q.
Proof.
  intros Hb Hq H. destruct row as [|x0 r]; [discriminate|].
  pose proof (asym_row_value num_bits quantile x0 r Hb) as Hv. cbv zeta in Hv.
  destruct Hv as [_ Heq]. rewrite Heq in H. clear Heq.
  apply Ok_triple_inv in H. destruct H as [Hq' [Hs' Hz']]. subst q scale zp.
  pose proof (pow2_ge2 num_bits Hb) as Hp.
  assert (Hm : (1 <= 2 ^ num_bits - 1)%Z) by lia.
  pose proof (fun w Hin =>
                asym_range_covers (fold_left Qmin r x0) (fold_left Qmax r x0) quantile w Hq
                                  (fold_left_Qmin_le r x0 w Hin) (fold_left_Qmax_ge r x0 w Hin))
    as Hrange.
  cbv zeta in Hrange.
  split.
  - destruct (Hrange x0 (or_introl eq_refl)) as [Hlt [Hlo Hhi]].
    exact (proj1 (affine_quant_error _ _ x0 (2 ^ num_bits - 1) Hm Hlt Hlo Hhi)).
  - apply Forall2_map_r_in. intros w Hin.
    destruct (Hrange w Hin) as [Hlt [Hlo Hhi]].
    exact (proj2 (affine_quant_error _ _ w (2 ^ num_bits - 1) Hm Hlt Hlo Hhi)).
Qed.

(** The arithmetic of a symmetric quantizer, in steps: a value of
    magnitude at most [M] rounded and clamped to [[lo, hi]] with
    [lo <= -M] moves by at most one half when [hi] reaches [M], and by
    at most one when [hi] is [M - 1]. *)
Lemma sym_steps_error (t : Q) (M lo hi : Z) :
  (lo <= - M)%Z -> - inject_Z M <= t -> t <= inject_Z M ->
  let x := clamp (round_half_even t) lo hi in
  ((M <= hi)%Z -> - (1 # 2) <= t - inject_Z x /\ t - inject_Z x <= 1 # 2) /\
  ((M - 1 <= hi)%Z -> - (1) <= t - inject_Z x /\ t - inject_Z x <= 1).
Proof.
  intros Hlo Ht1 Ht2 x.
  destruct (round_half_even_error t) as [Hr1 Hr2].
  set (R := round_half_even t) in *.
  assert (HR1 : (- M <= R)%Z).
  { assert (H : inject_Z (- M) - 1 < inject_Z R) by (rewrite inject_Z_opp; lra).
    change 1 with (inject_Z 1) in H. unfold Qminus in H.
    rewrite <- inject_Z_opp, <- inject_Z_plus, <- Zlt_Qlt in H. lia. }
  assert (HR2 : (R <= M)%Z).
  { assert (H : inject_Z R < inject_Z M + 1) by lra.
    change 1 with (inject_Z 1) in H.
    rewrite <- inject_Z_plus, <- Zlt_Qlt in H. lia. }
  split; intros Hhi.
  - assert (Hx : x = R) by (unfold x, clamp; lia). rewrite Hx. split; lra.
  - destruct (Z.eq_dec R M) as [E|E].
    + assert (Hx1 : (M <= x + 1)%Z) by (unfold x, clamp; lia).
      assert (Hx2 : (x <= M)%Z) by (unfold x, clamp; lia).
      rewrite Zle_Qle in Hx1, Hx2. rewrite inject_Z_plus in Hx1.
      change (inject_Z 1) with 1 in Hx1.
      rewrite E in Hr1. split; lra.
    + assert (Hx : x = R) by (unfold x, clamp; lia). rewrite Hx. split; lra.
Qed.

Lemma Qabs_bound_scaled (s d c : Q) :
  0 <= c -> - c <= d -> d <= c -> Qabs (s * d) <= Qabs s * c.
Proof.
  intros Hc H1 H2. rewrite Qabs_Qmult.
  assert (Hd : Qabs d <= c) by (apply Qabs_Qle_condition; split; assumption).
  pose proof (Qabs_nonneg s) as Hs.
  rewrite (Qmult_comm (Qabs s) (Qabs d)), (Qmult_comm (Qabs s) c).
  apply Qmult_le_compat_r; assumption.
Qed.

Lemma Qabs_le_max_abs (mn mx w : Q) :
  mn <= w -> w <= mx -> Qabs w <= Qmax (Qabs mx) (Qabs mn).
Proof.
  intros H1 H2.
  pose proof (Q.le_max_l (Qabs mx) (Qabs mn)) as Ha.
  pose proof (Q.le_max_r (Qabs mx) (Qabs mn)) as Hb.
  pose proof (Qle_Qabs mx) as Hc.
  pose proof (Qle_Qabs (- mn)) as Hd. rewrite Qabs_opp in Hd.
  apply Qabs_Qle_condition. split; lra.
Qed.

(** With a quantile of at least 1, [wmax] of the symmetric codec is
    positive and bounds the magnitude of every weight of the row. *)
Lemma sym_wmax_covers (quantile mn mx w : Q) :
  1 <= quantile -> mn <= w -> w <= mx ->
  0 < sym_wmax quantile mx mn /\ Qabs w <= sym_wmax quantile mx mn.
Proof.
  intros Hq H1 H2. pose proof (Qabs_le_max_abs mn mx w H1 H2) as Hw.
  pose proof (Qabs_nonneg w) as Hw0.
  unfold sym_wmax. set (A := Qmax (Qabs mx) (Qabs mn)) in *. clearbody A.
  assert (HA : A <= A * quantile) by nra.
  destruct (Qeq_bool (A * quantile) 0) eqn:E.
  - apply Qeq_bool_eq in E. split; lra.
  - apply Qeq_bool_neq in E. split; lra.
Qed.

(** The symmetric quantizer on a value of magnitude at most
    [|s| * M]. *)
Lemma sym_quant_error (s w : Q) (M lo hi : Z) :
  ~ s == 0 -> Qabs w <= Qabs s * inject_Z M -> (lo <= - M)%Z ->
  let x := clamp (round_half_even (w / s)) lo hi in
  ((M <= hi)%Z -> Qabs (w - s * inject_Z x) <= Qabs s * (1 # 2)) /\
  ((M - 1 <= hi)%Z -> Qabs (w - s * inject_Z x) <= Qabs s * 1).
Proof.
  intros Hs Hw Hlo x.
  assert (Hws : s * (w / s) == w) by (apply Qmult_div_r; exact Hs).
  assert (Hs0 : 0 < Qabs s).
  { pose proof (Qabs_nonneg s) as H0.
    destruct (Qeq_dec (Qabs s) 0) as [E|E]; [|lra].
    exfalso. apply Hs. destruct (Qabs_Qle_condition s 0) as [Hc _].
    assert (Hle : Qabs s <= 0) by lra. specialize (Hc Hle). lra. }
  assert (Ht : Qabs (w / s) <= inject_Z M).
  { rewrite <- Hws in Hw. rewrite Qabs_Qmult in Hw.
    apply (Qmult_le_l _ _ (Qabs s) Hs0). exact Hw. }
  apply Qabs_Qle_condition in Ht. destruct Ht as [Ht1 Ht2].
  destruct (sym_steps_error (w / s) M lo hi Hlo Ht1 Ht2) as [Hhalf Hone].
  fold x in Hhalf, Hone.
  assert (Heq : w - s * inject_Z x == s * (w / s - inject_Z x)).
  { rewrite <- Hws at 1. ring. }
  split; intros Hhi; rewrite Heq.
  - destruct (Hhalf Hhi) as [Ha Hb]. apply Qabs_bound_scaled; lra.
  - destruct (Hone Hhi) as [Ha Hb]. apply Qabs_bound_scaled; lra.
Qed.

(** One row of the symmetric codec, two or more bits, quantile at
    least 1: the scale is not zero and every weight is reconstructed
    within half a scale, within one scale under [full_range]. *)
Lemma sym_row_error (num_bits : Z) (quantile : Q) (full_range : bool) (row : list Q)
      (q : list Z) (scale : Q) :
  (2 <= num_bits)%Z -> 1 <= quantile ->
  qdq_weight_sym_row num_bits quantile full_range row = Ok (q, scale) ->
  ~ scale == 0 /\
  Forall2 (fun w x => Qabs (w - scale * inject_Z x)
                      <= Qabs scale * (if full_range then 1 else 1 # 2)) row q.
Proof.
  intros Hb Hq H. destruct row as [|x0 r].
  { unfold qdq_weight_sym_row, sym_scale in H. destruct (sym_bounds num_bits).
    discriminate. }
  set (l := x0 :: r) in *.
  unfold qdq_weight_sym_row in H. rewrite sym_bounds_ge2 in H by exact Hb.
  apply bind_Ok in H. destruct H as [sc [Hsc H]].
  apply bind_Ok in H. destruct H as [q' [Hq' H]].
  apply Ok_pair_inv in H. destruct H as [-> ->].
  set (mx := fold_left Qmax r x0). set (mn := fold_left Qmin r x0).
  destruct (sym_scale_value num_bits quantile full_range l mx mn Hb eq_refl eq_refl)
    as [scale' [Hs' Hv]].
  rewrite Hs' in Hsc. inversion Hsc. subst scale'. clear Hsc Hs'.
  pose proof (pow2_ge2 (num_bits - 1) ltac:(lia)) as Hp.
  set (M := if full_range then (2 ^ (num_bits - 1))%Z else (2 ^ (num_bits - 1) - 1)%Z).
  assert (HM : (1 <= M)%Z) by (unfold M; destruct full_range; lia).
  assert (HMq : 0 < inject_Z M).
  { change 0 with (inject_Z 0). rewrite <- Zlt_Qlt. lia. }
  destruct (sym_wmax_covers quantile mn mx x0 Hq
              (fold_left_Qmin_le r x0 x0 (or_introl eq_refl))
              (fold_left_Qmax_ge r x0 x0 (or_introl eq_refl))) as [HW _].
  set (W := sym_wmax quantile mx mn) in *.
  assert (Habs : Qabs scale * inject_Z M == W).
  { assert (Hpos : 0 < W / inject_Z M) by (apply Qlt_shift_div_l; [exact HMq|lra]).
    assert (Hsc : Qabs scale == W / inject_Z M).
    { rewrite Hv. unfold M. destruct full_range.
      - rewrite Qabs_Qmult. rewrite (Qabs_pos (W / _)) by (apply Qlt_le_weak; exact Hpos).
        destruct (Qle_bool (Qabs mx) (Qabs mn)).
        + change (Qabs 1) with 1. ring.
        + change (Qabs (- (1))) with 1. ring.
      - apply Qabs_pos. apply Qlt_le_weak. exact Hpos. }
    rewrite Hsc. rewrite Qmult_comm. apply Qmult_div_r. lra. }
  assert (Hnz : ~ scale == 0).
  { intros E. rewrite E in Habs. change (Qabs 0) with 0 in Habs. lra. }
  split; [exact Hnz|].
  assert (Hmap : mapM (fun w => t <- qdiv w scale ;;
                                 Ok (clamp (round_half_even t) (- 2 ^ (num_bits - 1))
                                           (2 ^ (num_bits - 1) - 1))) l
                 = Ok (map (fun w => clamp (round_half_even (w / scale))
                                           (- 2 ^ (num_bits - 1)) (2 ^ (num_bits - 1) - 1)) l)).
  { apply mapM_pure. intros w _. rewrite qdiv_ok by exact Hnz. reflexivity. }
  rewrite Hmap in Hq'. apply Ok_inv in Hq'. subst q. clear Hmap.
  apply Forall2_map_r_in. intros w Hin.
  destruct (sym_wmax_covers quantile mn mx w Hq (fold_left_Qmin_le r x0 w Hin)
                            (fold_left_Qmax_ge r x0 w Hin)) as [_ Hw].
  fold W in Hw. rewrite <- Habs in Hw.
  destruct (sym_quant_error scale w M (- 2 ^ (num_bits - 1)) (2 ^ (num_bits - 1) - 1)
                            Hnz Hw ltac:(unfold M; destruct full_range; lia))
    as [Hhalf Hone].
  unfold M in Hhalf, Hone. destruct full_range.
  - apply Hone. lia.
  - apply Hhalf. lia.
Qed.

Lemma Forall2_map_r {A B C : Type} (R : A -> C -> Prop) (h : B -> C)
      (l : list A) (bs : list B) :
  Forall2 (fun a b => R a (h b)) l bs -> Forall2 R l (map h bs).
Proof. induction 1; cbn [map]; constructor; assumption. Qed.

(** X12.  Reconstruction error of the asymmetric codec.  With one or
    more bits and a quantile of at least 1 (the default is 1.0), the
    scale of every row is positive and every weight the
    quantize-dequantize path writes back differs from the original by
    at most half the scale of its row. *)
Theorem qdq_weight_asym_error (weight : tensor Q) (num_bits : Z) (quantile : Q)
        (w' : tensor Q) :
  (1 <= num_bits)%Z -> 1 <= quantile ->
  qdq_weight_asym weight num_bits quantile false = Ok (QFloat w') ->
  Forall2 (fun row orow =>
             exists q scale zp,
               qdq_weight_asym_row num_bits quantile row = Ok (q, scale, zp) /\
               0 < scale /\
               Forall2 (fun w o => Qabs (w - o) <= scale / 2) row orow)
          (trows weight) (trows w').
Proof.
  intros Hb Hq H. unfold qdq_weight_asym in H.
  destruct (ncols weight =? 0)%nat; [discriminate|].
  apply bind_Ok in H. destruct H as [rs [Hrs H]]. inversion H. cbn [trows].
  apply (Forall2_map_right (fun row r => qdq_weight_asym_row num_bits quantile row = Ok r));
    [exact (mapM_inv _ _ _ Hrs)|].
  intros row [[q scale] zp] Hrow.
  destruct (asym_row_error num_bits quantile row q scale zp Hb Hq Hrow) as [Hs Herr].
  exists q, scale, zp. split; [exact Hrow|]. split; [exact Hs|].
  apply Forall2_map_r. exact Herr.
Qed.

Lemma qdq_weight_asym_error_witness :
  Forall2 (fun row orow =>
             exists q scale zp,
               qdq_weight_asym_row 4 1 row = Ok (q, scale, zp) /\
               0 < scale /\
               Forall2 (fun w o => Qabs (w - o) <= scale / 2) row orow)
          (trows sample_outlier)
          (trows (mkT 3 [[(3 # 15) * inject_Z (5 - 0); (3 # 15) * inject_Z (10 - 0);
                          (3 # 15) * inject_Z (15 - 0)];
                         [(65 # 15) * inject_Z (15 - 14); (65 # 15) * inject_Z (15 - 14);
                          (65 # 15) * inject_Z (0 - 14)]])).
Proof.
  apply (qdq_weight_asym_error sample_outlier 4 1).
  - lia.
  - discriminate.
  - vm_compute. reflexivity.
Defined.

(** X13.  Reconstruction error of the symmetric codec.  With two or
    more bits and a quantile of at least 1, the scale of every row is
    not zero and every weight the quantize-dequantize path writes back
    differs from the original by at most half the magnitude of the
    scale of its row; with [full_range] the bound is the whole
    magnitude of the scale (the positive extreme code is one short). *)
Theorem qdq_weight_sym_error (weight : tensor Q) (num_bits : Z) (quantile : Q)
        (full_range : bool) (w' : tensor Q) :
  (2 <= num_bits)%Z -> 1 <= quantile ->
  qdq_weight_sym weight num_bits quantile false full_range = Ok (QFloat w') ->
  Forall2 (fun row orow =>
             exists q scale,
               qdq_weight_sym_row num_bits quantile full_range row = Ok (q, scale) /\
               ~ scale == 0 /\
               Forall2 (fun w o => Qabs (w - o)
                                   <= Qabs scale * (if full_range then 1 else 1 # 2))
                       row orow)
          (trows weight) (trows w').
Proof.
  intros Hb Hq H. unfold qdq_weight_sym in H.
  destruct (ncols weight =? 0)%nat; [discriminate|].
  apply bind_Ok in H. destruct H as [rs [Hrs H]]. inversion H. cbn [trows].
  apply (Forall2_map_right
           (fun row r => qdq_weight_sym_row num_bits quantile full_range row = Ok r));
    [exact (mapM_inv _ _ _ Hrs)|].
  intros row [q scale] Hrow. cbn [fst snd].
  destruct (sym_row_error num_bits quantile full_range row q scale Hb Hq Hrow) as [Hs Herr].
  exists q, scale. split; [exact Hrow|]. split; [exact Hs|].
  apply Forall2_map_r. exact Herr.
Qed.

Lemma qdq_weight_sym_error_witness :
  Forall2 (fun row orow =>
             exists q scale,
               qdq_weight_sym_row 4 1 true row = Ok (q, scale) /\
               ~ scale == 0 /\
               Forall2 (fun w o => Qabs (w - o) <= Qabs scale * (if true then 1 else 1 # 2))
                       row orow)
          (trows sample_outlier)
          (trows (mkT 3 [[72 # 64; 120 # 64; 192 # 64];
                         [480 # 64; 480 # 64; Qmake (-3840) 64]])).
Proof.
  apply (qdq_weight_sym_error sample_outlier 4 1 true).
  - lia.
  - discriminate.
  - vm_compute. reflexivity.
Defined.

(** ** Grouped round trip, zeros and edge cases *)

Lemma concat_chunks {A : Type} (k n : nat) : forall (l : list A),
  length l = (n * k)%nat ->
  concat (map (fun i => firstn k (skipn (i * k) l)) (seq 0 n)) = l.
Proof.
  induction n as [|n IH]; intros l Hl.
  - cbn [seq map concat]. destruct l; [reflexivity|discriminate].
  - cbn [seq map concat]. rewrite <- seq_shift, map_map. cbn [Nat.mul Nat.add skipn].
    rewrite (map_ext (fun i => firstn k (skipn (k + i * k) l))
                     (fun i => firstn k (skipn (i * k) (skipn k l)))).
    + rewrite IH by (rewrite length_skipn; lia). apply firstn_skipn.
    + intros i. rewrite skipn_skipn. f_equal. f_equal. lia.
Qed.

Lemma flat_reshape_to {A : Type} (t : tensor A) (n k : nat) :
  length (flat t) = (n * k)%nat -> flat (reshape_to n k t) = flat t.
Proof. intros H. unfold reshape_to, flat at 1. cbn [trows]. apply concat_chunks. exact H. Qed.

Lemma reshape_to_flat_eq {A : Type} (t t' : tensor A) (n k : nat) :
  flat t = flat t' -> reshape_to n k t = reshape_to n k t'.
Proof. intros H. unfold reshape_to. rewrite H. reflexivity. Qed.

(** Reshaping to another shape and back gives the tensor back. *)
Lemma reshape_to_back {A : Type} (t : tensor A) (m g n k : nat) :
  shape_is t m g -> (m * g = n * k)%nat -> reshape_to m g (reshape_to n k t) = t.
Proof.
  intros Hsh Heq.
  rewrite (reshape_to_flat_eq (reshape_to n k t) t m g).
  - apply reshape_to_id. exact Hsh.
  - apply flat_reshape_to. rewrite (flat_length t m g Hsh). exact Heq.
Qed.

Lemma flat_tmap {A B : Type} (f : A -> B) (t : tensor A) : flat (tmap f t) = map f (flat t).
Proof. unfold flat, tmap. cbn [trows]. symmetry. apply concat_map. Qed.

Lemma tmap_reshape_to {A B : Type} (f : A -> B) (t : tensor A) (n k : nat) :
  tmap f (reshape_to n k t) = reshape_to n k (tmap f t).
Proof.
  unfold reshape_to at 2. rewrite flat_tmap. unfold reshape_to, tmap. cbn [ncols trows].
  f_equal. rewrite map_map. apply map_ext. intros i.
  rewrite <- firstn_map, <- skipn_map. reflexivity.
Qed.

Lemma reshape_rows_eq {A : Type} (t : tensor A) (n k g : nat) :
  shape_is t n k -> g <> 0%nat -> ((n * k) mod g = 0)%nat ->
  reshape_rows g t = Ok (reshape_to (n * k / g) g t).
Proof.
  intros Hsh Hg Hmod. unfold reshape_rows. rewrite (shape_numel t n k Hsh).
  destruct (Nat.eqb_spec g 0); [contradiction|]. rewrite Hmod. reflexivity.
Qed.

Lemma reshape_eq {A : Type} (t : tensor A) (m g n k : nat) :
  shape_is t m g -> (m * g = n * k)%nat -> reshape n k t = Ok (reshape_to n k t).
Proof.
  intros Hsh Heq. unfold reshape. rewrite (shape_numel t m g Hsh), Heq, Nat.eqb_refl.
  reflexivity.
Qed.

Lemma reshape_cols_eq {A : Type} (t : tensor A) (m c n : nat) :
  shape_is t m c -> n <> 0%nat -> ((m * c) mod n = 0)%nat ->
  reshape_cols n t = Ok (reshape_to n (m * c / n) t).
Proof.
  intros Hsh Hn Hmod. unfold reshape_cols. rewrite (shape_numel t m c Hsh).
  destruct (Nat.eqb_spec n 0); [contradiction|]. rewrite Hmod. reflexivity.
Qed.

(** [pack] into a fresh store with compression along the input
    channels and no zero points, then [recover], for any group size:
    the unpacking loops give back the signed reading of every field, and
    what is left of [recover] is the scaling of the groups. *)
Lemma recover_after_pack (q : tensor Z) (sc : tensor Q) (n k c : nat) (b cb gz : Z)
      (data_type : string) (mp : list (Z * Q)) :
  shape_is q n k -> shape_is sc n c -> k <> 0%nat ->
  (1 <= b <= 8)%Z -> (b < cb)%Z ->
  exists s1,
    WeightOnlyLinear.pack
      (WeightOnlyLinear.mk data_type mp k n b gz 1 cb (cb / b) (zeros 0 n c)
         (zeros 0%Z n (Z.to_nat (- (- Z.of_nat k / (cb / b))))) None None)
      q sc None None = Ok s1 /\
    WeightOnlyLinear.recover s1
    = scale_groups k n gz sc
        (tmap (fun x => to_float_weight data_type mp (wrap_signed b x)) q).
Proof.
  intros Hq Hs Hk Hb Hbcb.
  pose proof Hq as [Hqn [Hqk Hqwf]]. pose proof Hs as [Hsn [Hsk Hswf]].
  set (m := Z.to_nat (- (- Z.of_nat k / (cb / b)))).
  assert (Hnp : (1 <= cb / b)%Z) by (apply Z.div_le_lower_bound; lia).
  assert (Hmask : forall s0 pw,
             WeightOnlyLinear.mask_of
               (WeightOnlyLinear.mk data_type mp k n b gz 1 cb (cb / b) s0 pw None None)
             = Ok (2 ^ b - 1)%Z).
  { intros s0 pw. unfold WeightOnlyLinear.mask_of.
    cbn [WeightOnlyLinear.bits WeightOnlyLinear.compress_bits].
    destruct (Z.ltb_spec b 0); [lia|].
    assert (H2 : (2 ^ b <= 2 ^ (cb - 1))%Z) by (apply Z.pow_le_mono_r; lia).
    destruct (Z.ltb_spec (2 ^ b - 1) (2 ^ (cb - 1))); [reflexivity|lia]. }
  set (packed := mkT m (map (fun qrow =>
                   WeightOnlyLinear.pack_row
                     (WeightOnlyLinear.mk data_type mp k n b gz 1 cb (cb / b)
                        (zeros 0 n c) (zeros 0%Z n m) None None)
                     (2 ^ b - 1)%Z qrow (repeat 0%Z m)) (trows q))).
  exists (WeightOnlyLinear.mk data_type mp k n b gz 1 cb (cb / b) sc packed None None).
  split.
  - (* pack *)
    unfold WeightOnlyLinear.pack.
    cbn [WeightOnlyLinear.scale WeightOnlyLinear.compression_dim WeightOnlyLinear.packed_weight
         WeightOnlyLinear.packed_zp WeightOnlyLinear.bias WeightOnlyLinear.dtype
         WeightOnlyLinear.int2float_mapping WeightOnlyLinear.in_features
         WeightOnlyLinear.out_features WeightOnlyLinear.bits WeightOnlyLinear.groupsize
         WeightOnlyLinear.compress_bits WeightOnlyLinear.n_pack].
    destruct (zeros_shape 0 n c) as [Hz1n [Hz1k _]].
    destruct (zeros_shape 0%Z n m) as [Hzmn [Hzmk _]].
    rewrite Hsn, Hz1n, Hsk, Hz1k, !Nat.eqb_refl. cbn [andb assert bind].
    change (1 =? 0)%Z with false. cbv iota.
    rewrite Hqn, Hzmn, Nat.eqb_refl. cbn [assert bind].
    rewrite Hmask. cbn [bind].
    unfold WeightOnlyLinear.pack_loops. rewrite Hqn, Hzmn, Nat.eqb_refl. cbn [bind].
    unfold packed. do 2 f_equal.
    cbn [zeros ncols trows]. rewrite <- Hqn. unfold nrows.
    rewrite map_combine_repeat. reflexivity.
  - (* recover *)
    unfold WeightOnlyLinear.recover. rewrite Hmask. cbn [bind].
    cbn [WeightOnlyLinear.scale WeightOnlyLinear.compression_dim WeightOnlyLinear.packed_weight
         WeightOnlyLinear.dtype WeightOnlyLinear.int2float_mapping WeightOnlyLinear.in_features
         WeightOnlyLinear.out_features WeightOnlyLinear.groupsize].
    change (1 =? 0)%Z with false. cbv iota.
    destruct (zeros_shape 0%Z n k) as [Hzn [Hzk _]].
    assert (Hpn : nrows packed = n)
      by (unfold packed, nrows; cbn [trows]; rewrite length_map; exact Hqn).
    rewrite Hzn, Hpn, Nat.eqb_refl. cbn [bind].
    assert (Hun :
      mkT (ncols (zeros 0%Z n k))
          (map (fun p => WeightOnlyLinear.unpack_row
                           (WeightOnlyLinear.mk data_type mp k n b gz 1 cb (cb / b)
                              sc packed None None)
                           (ncols (zeros 0%Z n k)) (ncols packed) (fst p) (snd p))
               (combine (trows packed) (trows (zeros 0%Z n k))))
      = tmap (wrap_signed b) q).
    { cbn [zeros ncols trows]. unfold tmap. rewrite Hqk. f_equal.
      change (trows packed) with (map (fun qrow =>
                   WeightOnlyLinear.pack_row
                     (WeightOnlyLinear.mk data_type mp k n b gz 1 cb (cb / b)
                        (zeros 0 n c) (zeros 0%Z n m) None None)
                     (2 ^ b - 1)%Z qrow (repeat 0%Z m)) (trows q)).
      change (ncols packed) with m.
      rewrite map_combine_map_l. cbn [fst snd].
      replace (repeat (repeat 0%Z k) n) with (repeat (repeat 0%Z k) (length (trows q)))
        by (f_equal; exact Hqn).
      rewrite map_combine_repeat. cbn [fst snd].
      apply map_ext_in. intros qrow Hin.
      assert (Hlr : length qrow = k).
      { unfold wf in Hqwf. rewrite Forall_forall in Hqwf. rewrite <- Hqk. apply Hqwf. exact Hin. }
      match goal with
      | |- WeightOnlyLinear.unpack_row ?S _ _ _ _ = _ =>
          pose proof (pack_unpack_row S (2 ^ b - 1)%Z qrow (repeat 0%Z k) m) as Hrt
      end.
      cbn [WeightOnlyLinear.bits WeightOnlyLinear.compress_bits WeightOnlyLinear.n_pack] in Hrt.
      rewrite Hlr in Hrt. apply Hrt.
      - exact Hb.
      - lia.
      - reflexivity.
      - apply Hmask.
      - apply ceil_words_cover. exact Hnp.
      - apply repeat_length. }
    rewrite Hun, to_float_weight_tmap.
    unfold scale_groups.
    replace (tmap (to_float_weight data_type mp) (tmap (wrap_signed b) q))
      with (tmap (fun x => to_float_weight data_type mp (wrap_signed b x)) q)
      by (unfold tmap; cbn [ncols trows]; f_equal; rewrite map_map;
          apply map_ext; intros r; rewrite map_map; reflexivity).
    reflexivity.
Qed.

(** [__init__] for a positive group size, no zero points, no bias,
    compression along the input channels. *)
Lemma init_groups (k n : nat) (b cb g : Z) (data_type : string) (mp : list (Z * Q)) :
  k <> 0%nat -> (1 <= b)%Z -> (b <= cb)%Z ->
  (cb = 8 \/ cb = 16 \/ cb = 32 \/ cb = 64)%Z ->
  int2float_mapping_of data_type = Ok mp -> (1 <= g)%Z ->
  WeightOnlyLinear.init k n b g data_type false false cb 1
  = Ok (WeightOnlyLinear.mk data_type mp k n b g 1 cb (cb / b)
          (zeros 0 n (Z.to_nat (- (- Z.of_nat k / g))))
          (zeros 0%Z n (Z.to_nat (- (- Z.of_nat k / (cb / b)))))
          None None).
Proof.
  intros Hk Hb Hbcb Hcb Hmp Hg. unfold WeightOnlyLinear.init.
  unfold int2float_mapping_of in Hmp. rewrite Hmp.
  cbn [negb bind]. destruct (Z.eqb_spec g (-1)); [lia|].
  assert (Ha : assert ((cb =? 8) || (cb =? 16) || (cb =? 32) || (cb =? 64))%Z
                      "Only support torch.int8|16|32|64 as compressed dtype." = Ok tt).
  { destruct Hcb as [-> | [-> | [-> | ->]]]; reflexivity. }
  rewrite Ha. cbn [bind]. destruct (Z.eqb_spec b 0); [lia|]. cbn [bind assert Z.eqb orb].
  assert (Hnp : (1 <= cb / b)%Z) by (apply Z.div_le_lower_bound; lia).
  unfold py_ceil_div.
  destruct (Z.eqb_spec g 0); [lia|]. destruct (Z.eqb_spec (cb / b) 0); [lia|]. cbn [bind].
  unfold zeros_dim.
  assert (Hneg1 : (- Z.of_nat k / g <= 0)%Z) by (apply Z.div_le_upper_bound; lia).
  assert (Hneg2 : (- Z.of_nat k / (cb / b) <= 0)%Z) by (apply Z.div_le_upper_bound; lia).
  destruct (Z.ltb_spec (- (- Z.of_nat k / g)) 0); [lia|]. cbn [bind].
  destruct (Z.ltb_spec (- (- Z.of_nat k / (cb / b))) 0); [lia|]. reflexivity.
Qed.

(** The number of groups [ceil(k / g)] when [g] divides [k]. *)
Lemma ceil_groups_exact (k : nat) (g : Z) :
  (1 <= g)%Z -> (k mod Z.to_nat g = 0)%nat ->
  Z.to_nat (- (- Z.of_nat k / g)) = (k / Z.to_nat g)%nat.
Proof.
  intros Hg Hmod.
  pose proof (Nat.div_mod_eq k (Z.to_nat g)) as Hk. rewrite Hmod, Nat.add_0_r in Hk.
  set (c := (k / Z.to_nat g)%nat) in *.
  assert (Hz : Z.of_nat k = (Z.of_nat c * g)%Z) by (rewrite Hk at 1; nia).
  rewrite Hz, <- Z.mul_opp_l, Z.div_mul by lia. lia.
Qed.

(** The symmetric codec asked for integers and for floats, on a
    weight with columns. *)
Lemma sym_actor_rows (weight : tensor Q) (num_bits : Z) (quantile : Q)
      (data_type : string) (full_range : bool) (w : tensor Q) :
  (0 < num_bits)%Z -> has_int data_type = true -> ncols weight <> 0%nat ->
  qdq_weight_actor weight num_bits "sym" quantile data_type false full_range = Ok (QFloat w) ->
  exists rs,
    mapM (qdq_weight_sym_row num_bits quantile full_range) (trows weight) = Ok rs /\
    w = mkT (ncols weight) (map (fun r => map (fun x => snd r * inject_Z x) (fst r)) rs) /\
    qdq_weight_actor weight num_bits "sym" quantile data_type true full_range
    = Ok (QInt (mkT (ncols weight) (map (fun r => map to_int8 (fst r)) rs))
               (column (map snd rs)) None).
Proof.
  intros Hb Hint Hk H.
  rewrite actor_sym_int_unfold in H by assumption.
  rewrite actor_sym_int_unfold by assumption.
  destruct (mapM (qdq_weight_sym_row num_bits quantile full_range) (trows weight))
    as [rs| |]; cbn [bind] in *; try discriminate.
  exists rs. split; [reflexivity|]. split; [|reflexivity].
  apply Ok_inv in H. injection H as H. symmetry. exact H.
Qed.

(** The symmetric round trip for a group size that divides the
    number of input features. *)
Lemma sym_round_trip_divides (weight : tensor Q) (n k : nat) (num_bits group_size cb : Z)
        (quantile : Q) (data_type : string) (full_range : bool) (w : tensor Q) :
  shape_is weight n k -> n <> 0%nat -> k <> 0%nat ->
  (2 <= num_bits <= 8)%Z -> (num_bits < cb)%Z ->
  (cb = 8 \/ cb = 16 \/ cb = 32 \/ cb = 64)%Z ->
  has_int data_type = true ->
  (1 <= group_size)%Z -> (k mod Z.to_nat group_size = 0)%nat ->
  quant_weight weight num_bits group_size "sym" quantile data_type false full_range
  = Ok (QFloat w) ->
  exists m,
    rtn_quantize_int weight None num_bits group_size "sym" quantile data_type full_range 1 cb 1
    = Ok m /\
    WeightOnlyLinear.recover m = Ok w.
Proof.
  intros Hw Hn Hk Hb Hbcb Hcb Hint Hg Hdiv Hfloat.
  pose proof Hw as [Hwn [Hwk Hwwf]].
  set (gn := Z.to_nat group_size) in *.
  set (c := (k / gn)%nat).
  assert (Hgn : gn <> 0%nat) by (unfold gn; lia).
  assert (Hkc : k = (c * gn)%nat).
  { pose proof (Nat.div_mod_eq k gn) as E. rewrite Hdiv in E. unfold c. lia. }
  assert (Hc : c <> 0%nat) by (intros E; rewrite E in Hkc; cbn in Hkc; lia).
  assert (A1 : ((n * k) mod gn = 0)%nat) by (apply mul_mod_zero; exact Hdiv).
  assert (A2 : (n * k / gn = n * c)%nat).
  { rewrite Hkc, Nat.mul_assoc. apply Nat.div_mul. exact Hgn. }
  assert (A3 : (n * c * gn = n * k)%nat) by (rewrite Hkc; lia).
  assert (A4 : ((n * c * 1) mod n = 0)%nat).
  { rewrite Nat.mul_1_r, (Nat.mul_comm n c). apply Nat.Div0.mod_mul. }
  assert (A4' : (n * c * 1 / n = c)%nat).
  { rewrite Nat.mul_1_r, (Nat.mul_comm n c). apply Nat.div_mul. exact Hn. }
  assert (A5 : ((n * c) mod 1 = 0)%nat) by apply Nat.mod_1_r.
  assert (A5' : (n * c / 1 = n * c)%nat) by apply Nat.div_1_r.
  assert (A6 : ((n * c * gn) mod n = 0)%nat).
  { rewrite A3, (Nat.mul_comm n k). apply Nat.Div0.mod_mul. }
  assert (A6' : (n * c * gn / n = k)%nat).
  { rewrite A3, (Nat.mul_comm n k). apply Nat.div_mul. exact Hn. }
  set (W1 := reshape_to (n * c) gn weight).
  assert (HW1 : shape_is W1 (n * c) gn).
  { apply reshape_to_shape. rewrite (flat_length weight n k Hw). lia. }
  (* the branch [quant_weight] takes *)
  assert (Hqw : forall ri,
    quant_weight weight num_bits group_size "sym" quantile data_type ri full_range
    = if ri then
        r <- qdq_weight_actor W1 num_bits "sym" quantile data_type true full_range ;;
        '(q, s, zp) <- unpack3 r ;;
        q <- reshape n k q ;;
        s <- reshape_cols n s ;;
        zp <- reshape_zp n zp ;;
        Ok (QInt q s zp)
      else
        r <- qdq_weight_actor W1 num_bits "sym" quantile data_type false full_range ;;
        w0 <- unpack1 r ;;
        w0 <- reshape n k w0 ;;
        Ok (QFloat w0)).
  { intros ri. unfold quant_weight.
    destruct (Z.leb_spec num_bits 0); [lia|].
    destruct (Z.eqb_spec group_size (-1)); [lia|].
    rewrite Hwk, Hwn.
    destruct (Z.ltb_spec (Z.of_nat k) group_size) as [Hlt|_].
    { exfalso. assert (gn <= k)%nat by (rewrite Hkc; nia). unfold gn in *. lia. }
    cbn [orb]. destruct (Z.eqb_spec group_size 0); [lia|].
    destruct (Z.ltb_spec group_size 0); [lia|].
    cbv zeta. fold gn. rewrite Hdiv. cbn [Nat.eqb].
    rewrite (reshape_rows_eq weight n k gn Hw Hgn A1), A2. cbn [bind]. fold W1.
    destruct ri; reflexivity. }
  rewrite (Hqw false) in Hfloat.
  apply bind_Ok in Hfloat. destruct Hfloat as [r [Hr Hfloat]].
  apply bind_Ok in Hfloat. destruct Hfloat as [w2 [Hw2 Hfloat]].
  destruct r as [w2'|]; [|discriminate]. apply Ok_inv in Hw2. subst w2'.
  apply bind_Ok in Hfloat. destruct Hfloat as [w3 [Hw3 Hfloat]].
  apply Ok_inv in Hfloat. injection Hfloat as Hfloat. subst w3.
  assert (HW1k : ncols W1 <> 0%nat) by (destruct HW1 as [_ [E _]]; rewrite E; exact Hgn).
  destruct (sym_actor_rows W1 num_bits quantile data_type full_range w2
              ltac:(lia) Hint HW1k Hr) as [rs [Hrs [Hw2eq Hint_res]]].
  destruct (actor_int_shape _ (n * c)%nat gn _ _ _ _ _ _ _ _ HW1 Hint_res) as [HQ1 [HS1 _]].
  pose proof (actor_float_shape _ (n * c)%nat gn _ _ _ _ _ _ HW1 Hr) as Hw2s.
  rewrite (reshape_eq w2 (n * c) gn n k Hw2s A3) in Hw3. apply Ok_inv in Hw3.
  assert (HW1c : ncols W1 = gn) by (destruct HW1 as [_ [E _]]; exact E).
  rewrite HW1c in *.
  set (Q1 := mkT gn (map (fun r => map to_int8 (fst r)) rs)) in *.
  set (S1 := column (map snd rs)) in *.
  set (Qi := reshape_to n k Q1).
  set (Si := reshape_to n c S1).
  assert (HQi : shape_is Qi n k).
  { apply reshape_to_shape. rewrite (flat_length Q1 _ _ HQ1). exact A3. }
  assert (HSi : shape_is Si n c).
  { apply reshape_to_shape. rewrite (flat_length S1 _ _ HS1). lia. }
  destruct (recover_after_pack Qi Si n k c num_bits cb group_size data_type []
              HQi HSi Hk ltac:(lia) Hbcb) as [s1 [Hpack Hrec]].
  exists s1. split.
  - unfold rtn_quantize_int. change (1 =? 0)%Z with false. cbv iota.
    rewrite (Hqw true), Hint_res. cbn [bind unpack3].
    rewrite (reshape_eq Q1 (n * c) gn n k HQ1 A3). cbn [bind].
    rewrite (reshape_cols_eq S1 (n * c) 1 n HS1 Hn A4), A4'. cbn [bind reshape_zp].
    cbn [bind unpack3]. rewrite Hwk, Hwn.
    assert (Hmp : int2float_mapping_of data_type = Ok []).
    { unfold int2float_mapping_of. rewrite Hint. reflexivity. }
    rewrite (init_groups k n num_bits cb group_size data_type [] Hk ltac:(lia) ltac:(lia)
                         Hcb Hmp Hg).
    cbn [bind]. rewrite (ceil_groups_exact k group_size Hg Hdiv). fold gn. fold c.
    exact Hpack.
  - rewrite Hrec. unfold scale_groups.
    destruct (Z.eqb_spec group_size 0); [lia|]. cbn [bind]. cbv zeta. fold gn.
    rewrite Hdiv. cbn [Nat.eqb negb].
    set (D := fun x => to_float_weight data_type [] (wrap_signed num_bits x)).
    assert (HDQi : shape_is (tmap D Qi) n k) by (apply tmap_shape; exact HQi).
    assert (HDQ1 : shape_is (tmap D Q1) (n * c) gn) by (apply tmap_shape; exact HQ1).
    rewrite (reshape_rows_eq (tmap D Qi) n k gn HDQi Hgn A1), A2. cbn [bind].
    unfold Qi at 1. rewrite tmap_reshape_to.
    rewrite (reshape_to_back (tmap D Q1) (n * c) gn n k HDQ1 A3).
    rewrite (reshape_rows_eq Si n c 1 HSi ltac:(lia) A5), A5'. cbn [bind].
    unfold Si at 1.
    rewrite (reshape_to_back S1 (n * c) 1 n c HS1 ltac:(lia)).
    destruct (mul_scale_shape _ _ (n * c)%nat gn HDQ1 HS1) as [p [Hp Hps]].
    rewrite Hp. cbn [bind].
    rewrite (reshape_cols_eq p (n * c) gn n Hps Hn A6), A6'.
    f_equal. rewrite <- Hw3. f_equal.
    (* the product is the de-quantized group matrix *)
    unfold WeightOnlyLinear.mul_scale in Hp.
    destruct HDQ1 as [HDn _]. destruct HS1 as [HSn [HSk _]].
    rewrite HDn, HSn, HSk, !Nat.eqb_refl in Hp. cbn [andb] in Hp.
    apply Ok_inv in Hp. rewrite <- Hp, Hw2eq. unfold Q1, S1, column, tmap.
    cbn [ncols trows]. f_equal.
    rewrite (map_map snd (fun x => [x]) rs), !map_map.
    rewrite combine_map_map, map_map. cbn [fst snd hd].
    apply map_ext_in. intros [q sc] Hin. cbn [fst snd].
    destruct (Forall2_In_r _ _ _ _ (mapM_inv _ _ _ Hrs) Hin) as [row [_ Hrow]].
    assert (Hb1 : (1 <= num_bits)%Z) by lia.
    pose proof (qdq_weight_sym_row_range num_bits quantile full_range row q sc Hb1 Hrow)
      as Hrange.
    rewrite sym_bounds_ge2 in Hrange by lia. cbn [fst snd] in Hrange.
    rewrite !map_map. rewrite Forall_forall in Hrange.
    apply map_ext_in. intros x Hx. specialize (Hrange x Hx).
    assert (H27 : (2 ^ (num_bits - 1) <= 2 ^ 7)%Z) by (apply Z.pow_le_mono_r; lia).
    change (2 ^ 7)%Z with 128%Z in H27.
    unfold D. rewrite to_int8_small by lia. rewrite wrap_signed_id by lia.
    unfold to_float_weight. rewrite Hint. cbn [negb]. apply Qmult_comm_eq.
Qed.

Lemma round_half_even_zero (t : Q) : t == 0 -> round_half_even t = 0%Z.
Proof. intros H. rewrite (round_half_even_comp t 0 H). reflexivity. Qed.

Lemma Qdiv_zero_l (w s : Q) : w == 0 -> w / s == 0.
Proof. intros H. unfold Qdiv. rewrite H. apply Qmult_0_l. Qed.

(** One row of the asymmetric codec writes zero back as zero. *)
Lemma asym_row_keeps_zero (num_bits : Z) (quantile : Q) (row : list Q)
      (q : list Z) (scale : Q) (zp : Z) :
  (1 <= num_bits)%Z -> 0 <= quantile ->
  qdq_weight_asym_row num_bits quantile row = Ok (q, scale, zp) ->
  Forall2 (fun w x => w == 0 -> scale * inject_Z (x - zp) == 0) row q.
Proof.
  intros Hb Hq H. destruct row as [|x0 r]; [discriminate|].
  set (l := x0 :: r) in *.
  destruct (asym_row_refines num_bits quantile l Hb Hq ltac:(discriminate))
    as [scale' [Heq [Hsc Hnz]]].
  rewrite Heq in H. apply Ok_triple_inv in H. destruct H as [Hq' [Hs' Hz']]. subst q scale' zp.
  apply Forall2_map_r_in. intros w _ Hw.
  assert (Hspec : ~ spec_asym_scale num_bits quantile l == 0).
  { intros E. apply Hnz. rewrite Hsc. exact E. }
  pose proof (spec_asym_zero_point_bounds num_bits quantile l Hb Hspec) as Hzp.
  unfold spec_asym_q.
  rewrite (round_half_even_zero _ (Qdiv_zero_l w _ Hw)).
  replace (clamp (0 + spec_asym_zero_point num_bits quantile l) 0 (2 ^ num_bits - 1))
    with (spec_asym_zero_point num_bits quantile l) by (unfold clamp; lia).
  rewrite Z.sub_diag. apply Qmult_0_r.
Qed.

Lemma Forall2_weaken {A B : Type} (P R : A -> B -> Prop) (l : list A) (l' : list B) :
  Forall2 P l l' -> (forall a b, P a b -> R a b) -> Forall2 R l l'.
Proof. intros H HPR. induction H; constructor; auto. Qed.

(** One row of the symmetric codec writes zero back as zero. *)
Lemma sym_row_keeps_zero (num_bits : Z) (quantile : Q) (full_range : bool) (row : list Q)
      (q : list Z) (scale : Q) :
  (1 <= num_bits)%Z ->
  qdq_weight_sym_row num_bits quantile full_range row = Ok (q, scale) ->
  Forall2 (fun w x => w == 0 -> scale * inject_Z x == 0) row q.
Proof.
  intros Hb H. pose proof (sym_bounds_ordered num_bits Hb) as Hord.
  assert (Hz : (fst (sym_bounds num_bits) <= 0 <= snd (sym_bounds num_bits))%Z).
  { unfold sym_bounds. destruct (Z.eqb_spec num_bits 1) as [->|Hne]; cbn [fst snd].
    - cbn. lia.
    - assert (0 < 2 ^ (num_bits - 1))%Z by (apply Z.pow_pos_nonneg; lia). lia. }
  unfold qdq_weight_sym_row in H. destruct (sym_bounds num_bits) as [minq maxq].
  cbn [fst snd] in *.
  apply bind_Ok in H. destruct H as [sc [_ H]].
  apply bind_Ok in H. destruct H as [q' [Hq' H]].
  apply Ok_pair_inv in H. destruct H as [-> ->].
  apply (Forall2_weaken (fun w x => (t <- qdiv w scale ;;
                                     Ok (clamp (round_half_even t) minq maxq)) = Ok x));
    [exact (mapM_inv _ _ _ Hq')|].
  intros w x Hx Hw. unfold qdiv in Hx.
  destruct (Qeq_bool scale 0); [discriminate|]. cbn [bind] in Hx. apply Ok_inv in Hx.
  rewrite (round_half_even_zero _ (Qdiv_zero_l w _ Hw)) in Hx.
  replace (clamp 0 minq maxq) with 0%Z in Hx by (unfold clamp; lia).
  subst x. apply Qmult_0_r.
Qed.

Lemma bucket_index_zero (mid : list Q) (t : Q) :
  t == 0 -> bucket_index mid t = bucket_index mid 0.
Proof.
  intros H. unfold bucket_index. f_equal. apply filter_ext. intros m.
  rewrite H. reflexivity.
Qed.

(** One row of the lookup codec writes zero back as zero. *)
Lemma quantize_4bit_row_keeps_zero (fam : list Q * list Z) (quantile : Q) (row : list Q)
      (q : list Q) (scale : Q) :
  In fam families ->
  quantize_4bit_row (fst fam) (fst fam) quantile row = Ok (q, scale) ->
  Forall2 (fun w x => w == 0 -> x * scale == 0) row q.
Proof.
  intros Hfam H. unfold quantize_4bit_row in H.
  apply bind_Ok in H. destruct H as [sc [_ H]].
  apply Ok_pair_inv in H. destruct H as [Hq ->]. subst q.
  rewrite map_map. apply Forall2_map_r_in. intros w _ Hw.
  unfold float_div. destruct (Qeq_bool scale 0) eqn:E.
  - apply Qeq_bool_eq in E. rewrite E. apply Qmult_0_r.
  - destruct (families_mid_sorted fam Hfam) as [Hsorted [Hn [H1 _]]].
    rewrite Hn, bucket_sum_value by assumption.
    rewrite (bucket_index_zero _ _ (Qdiv_zero_l w scale Hw)).
    assert (Hlevel : nth (bucket_index (mid_data (fst fam)) 0) (fst fam) 0 == 0).
    { clear - Hfam. unfold families in Hfam. cbn [In] in Hfam.
      destruct Hfam as [<-|[<-|[<-|[]]]]; vm_compute; reflexivity. }
    rewrite Hlevel. apply Qmult_0_l.
Qed.

(** The symmetric codec on a row, one or more bits, without
    [full_range]: the divisor [maxq] is at least 1. *)
Lemma qdq_weight_sym_row_total_plain (num_bits : Z) (quantile : Q) (row : list Q) :
  (1 <= num_bits)%Z -> row <> [] ->
  exists res, qdq_weight_sym_row num_bits quantile false row = Ok res.
Proof.
  intros Hb Hne. destruct (Z.eq_dec num_bits 1) as [->|Hb1].
  - destruct row as [|x r]; [congruence|].
    unfold qdq_weight_sym_row, sym_scale. cbn [sym_bounds Z.eqb Pos.eqb row_max row_min bind].
    change (2 ^ (1 - 1))%Z with 1%Z. change (1 - 1)%Z with 0%Z.
    fold (sym_wmax quantile (fold_left Qmax r x) (fold_left Qmin r x)).
    pose proof (sym_wmax_nonzero quantile (fold_left Qmax r x) (fold_left Qmin r x)) as Hw.
    rewrite qdiv_ok by discriminate. cbn [bind].
    assert (Hs : ~ sym_wmax quantile (fold_left Qmax r x) (fold_left Qmin r x) / inject_Z 1 == 0).
    { intros E. apply Qdiv_zero_num in E; [contradiction|discriminate]. }
    rewrite (mapM_pure _ (fun w => clamp (round_half_even
               (w / (sym_wmax quantile (fold_left Qmax r x) (fold_left Qmin r x) / inject_Z 1)))
               0 1)).
    + eexists. reflexivity.
    + intros a _. rewrite (qdiv_ok _ _ Hs). reflexivity.
  - apply qdq_weight_sym_row_total; [lia|exact Hne].
Qed.

(** The quantize-dequantize path of the actor returns for one or more
    bits, except for the 1-bit symmetric codec with [full_range]. *)
Lemma actor_float_total (weight : tensor Q) (n k : nat) (num_bits : Z) (scheme : string)
      (quantile : Q) (data_type : string) (full_range : bool) :
  shape_is weight n k -> k <> 0%nat -> (1 <= num_bits)%Z -> supported data_type ->
  (num_bits = 1%Z -> String.eqb scheme "sym" = true -> full_range = false) ->
  exists w',
    qdq_weight_actor weight num_bits scheme quantile data_type false full_range
    = Ok (QFloat w').
Proof.
  intros Hsh Hk0 Hb Hsup Hcorner.
  destruct (Z.eq_dec num_bits 1) as [Hb1|Hb1].
  - pose proof Hsh as [Hn [Hk Hwf]].
    assert (Hrows : forall row, In row (trows weight) -> row <> []).
    { intros row Hin. apply (wf_rows_nonempty weight row Hwf); [congruence|exact Hin]. }
    assert (Hc : (ncols weight =? 0)%nat = false) by (apply Nat.eqb_neq; congruence).
    unfold qdq_weight_actor, assert.
    destruct (Z.ltb_spec 0 num_bits); [|lia]. cbn [bind].
    replace (num_bits =? 4)%Z with false by (subst num_bits; reflexivity).
    rewrite andb_false_r.
    destruct (String.eqb scheme "sym") eqn:Es.
    + rewrite (Hcorner Hb1 eq_refl).
      unfold qdq_weight_sym. rewrite Hc.
      destruct (mapM_total (qdq_weight_sym_row num_bits quantile false) (trows weight))
        as [rs Hrs].
      { intros row Hin. apply qdq_weight_sym_row_total_plain; [exact Hb|]. apply Hrows. exact Hin. }
      rewrite Hrs. cbn [bind]. eexists. reflexivity.
    + unfold qdq_weight_asym. rewrite Hc.
      destruct (mapM_total (qdq_weight_asym_row num_bits quantile) (trows weight))
        as [rs Hrs].
      { intros row Hin. apply qdq_weight_asym_row_total; [exact Hb|]. apply Hrows. exact Hin. }
      rewrite Hrs. cbn [bind]. eexists. reflexivity.
  - destruct (actor_total weight n k num_bits scheme quantile data_type false full_range
                          Hsh Hk0 ltac:(lia) Hsup) as [r [Hr [w' ->]]].
    exists w'. exact Hr.
Qed.

(** Whenever the quantize-dequantize path of the actor returns, a
    weight equal to zero is written back as zero. *)
Lemma actor_zero_kept (weight : tensor Q) (num_bits : Z) (scheme : string)
      (quantile : Q) (data_type : string) (full_range : bool) (w' : tensor Q) :
  (1 <= num_bits)%Z -> 0 <= quantile ->
  qdq_weight_actor weight num_bits scheme quantile data_type false full_range
  = Ok (QFloat w') ->
  Forall2 (Forall2 (fun w o => w == 0 -> o == 0)) (trows weight) (trows w').
Proof.
  intros Hb Hq H. unfold qdq_weight_actor in H.
  apply bind_Ok in H. destruct H as [_ [_ H]].
  destruct (negb (has_int data_type) && (num_bits =? 4)%Z).
  - unfold quantize_4bit in H.
    destruct (dict_get FLOAT_MAPPING data_type) as [allow_data|] eqn:Hfl;
      [|destruct (dict_get INT_MAPPING data_type); discriminate].
    destruct (lookup_keys data_type allow_data Hfl) as [bits [Hil [Hfam _]]].
    rewrite Hil in H. destruct (ncols weight =? 0)%nat; [discriminate|].
    apply bind_Ok in H. destruct H as [rs [Hrs H]].
    apply Ok_inv in H. injection H as H. subst w'. cbn [trows].
    apply (Forall2_map_right
             (fun row r => quantize_4bit_row allow_data allow_data quantile row = Ok r));
      [exact (mapM_inv _ _ _ Hrs)|].
    intros row [q sc] Hrow. cbn [fst snd]. apply Forall2_map_r.
    exact (quantize_4bit_row_keeps_zero (allow_data, bits) quantile row q sc Hfam Hrow).
  - destruct (String.eqb scheme "sym").
    + unfold qdq_weight_sym in H. destruct (ncols weight =? 0)%nat; [discriminate|].
      apply bind_Ok in H. destruct H as [rs [Hrs H]].
      apply Ok_inv in H. injection H as H. subst w'. cbn [trows].
      apply (Forall2_map_right
               (fun row r => qdq_weight_sym_row num_bits quantile full_range row = Ok r));
        [exact (mapM_inv _ _ _ Hrs)|].
      intros row [q sc] Hrow. cbn [fst snd]. apply Forall2_map_r.
      exact (sym_row_keeps_zero num_bits quantile full_range row q sc Hb Hrow).
    + unfold qdq_weight_asym in H. destruct (ncols weight =? 0)%nat; [discriminate|].
      apply bind_Ok in H. destruct H as [rs [Hrs H]].
      apply Ok_inv in H. injection H as H. subst w'. cbn [trows].
      apply (Forall2_map_right
               (fun row r => qdq_weight_asym_row num_bits quantile row = Ok r));
        [exact (mapM_inv _ _ _ Hrs)|].
      intros row [[q sc] zp] Hrow. apply Forall2_map_r.
      exact (asym_row_keeps_zero num_bits quantile row q sc zp Hb Hq Hrow).
Qed.



(** X15.  The 1-bit special case of the symmetric codec.  With
    [num_bits = 1] the bounds are [minq = 0], [maxq = 1]: under
    [full_range] the scale is [wmax / -minq], a division by zero, so on
    any weight with a row and a column the codec ends with a
    non-finite scale; without [full_range] every code is 0 or 1, so
    no negative value is ever represented. *)
Theorem qdq_weight_sym_one_bit (weight : tensor Q) (n k : nat) (quantile : Q)
        (return_int : bool) :
  shape_is weight n k -> n <> 0%nat -> k <> 0%nat ->
  qdq_weight_sym weight 1 quantile return_int true = NonFinite /\
  (forall q scale zp,
      qdq_weight_sym weight 1 quantile true false = Ok (QInt q scale zp) ->
      Forall (Forall (fun x => x = 0 \/ x = 1)%Z) (trows q)).
Proof.
  intros [Hn [Hk Hwf]] Hn0 Hk0. split.
  - unfold qdq_weight_sym. destruct (Nat.eqb_spec (ncols weight) 0); [congruence|].
    unfold nrows in Hn. destruct (trows weight) as [|row rows] eqn:E; [cbn in Hn; congruence|].
    assert (Hrow : row <> []).
    { apply (wf_rows_nonempty weight row Hwf); [congruence|]. rewrite E. left. reflexivity. }
    destruct row as [|x0 r]; [congruence|].
    cbn [mapM]. unfold qdq_weight_sym_row at 1. unfold sym_scale.
    cbn [sym_bounds Z.eqb Pos.eqb fst snd row_max row_min bind].
    reflexivity.
  - intros q scale zp H. unfold qdq_weight_sym in H.
    destruct (ncols weight =? 0)%nat; [discriminate|].
    apply bind_Ok in H. destruct H as [rs [Hrs H]].
    apply Ok_inv in H. injection H as Hq _ _. subst q. cbn [trows].
    apply Forall_map. apply (mapM_Forall_out _ _ _ _ Hrs). intros row [qr sc] Hrow.
    cbn [fst].
    pose proof (qdq_weight_sym_row_range 1 quantile false row qr sc ltac:(lia) Hrow) as Hr.
    cbn in Hr. apply Forall_map.
    apply (Forall_impl _ (P := fun x => (0 <= x <= 1)%Z)); [|exact Hr].
    intros x Hx. rewrite to_int8_small by lia. lia.
Qed.

Lemma qdq_weight_sym_one_bit_witness :
  qdq_weight_sym sample_weight 1 1 false true = NonFinite /\
  (forall q scale zp,
      qdq_weight_sym sample_weight 1 1 true false = Ok (QInt q scale zp) ->
      Forall (Forall (fun x => x = 0 \/ x = 1)%Z) (trows q)).
Proof.
  apply (qdq_weight_sym_one_bit sample_weight 1 2 1 false).
  - repeat split; repeat constructor.
  - discriminate.
  - discriminate.
Defined.

(** X16.  A field wider than the compression word cannot be stored,
    and it is [__init__] that fails, by a division by zero: when
    [bits] is larger than the width of the compression dtype,
    [n_pack = compress_bits // bits] is 0, so for either compression
    dimension, any group size (-1 or positive), with or without zero
    points and bias, the layer is never built: sizing the buffers
    divides by [n_pack] (or, for an empty layer with group size -1, by
    the group size) and raises [ZeroDivisionError]. *)
Theorem store_field_wider_than_word (in_features out_features : nat) (bits groupsize : Z)
        (dtype : string) (mp : list (Z * Q)) (zp bias : bool)
        (compress_bits compression_dim : Z) :
  (compress_bits = 8 \/ compress_bits = 16 \/ compress_bits = 32 \/ compress_bits = 64)%Z ->
  (compress_bits < bits)%Z ->
  (compression_dim = 0 \/ compression_dim = 1)%Z ->
  (groupsize = -1 \/ 1 <= groupsize)%Z ->
  int2float_mapping_of dtype = Ok mp ->
  (compress_bits / bits = 0)%Z /\
  WeightOnlyLinear.init in_features out_features bits groupsize dtype zp bias
                        compress_bits compression_dim
  = Raise ZeroDivisionError.
Proof.
  intros Hcb Hb Hcd Hg Hmp.
  assert (Hnp : (compress_bits / bits = 0)%Z) by (apply Z.div_small; lia).
  split; [exact Hnp|].
  unfold WeightOnlyLinear.init.
  unfold int2float_mapping_of in Hmp. rewrite Hmp. cbn [bind].
  assert (Ha : assert ((compress_bits =? 8) || (compress_bits =? 16) || (compress_bits =? 32)
                       || (compress_bits =? 64))%Z
                      "Only support torch.int8|16|32|64 as compressed dtype." = Ok tt).
  { destruct Hcb as [-> | [-> | [-> | ->]]]; reflexivity. }
  rewrite Ha. cbn [bind]. destruct (Z.eqb_spec bits 0); [lia|]. cbn [bind].
  assert (Hd : assert ((compression_dim =? 0) || (compression_dim =? 1))%Z
                      "Only support 0 or 1 as compression dimension, 0 is output channel, 1 is input channel."
               = Ok tt).
  { destruct Hcd as [-> | ->]; reflexivity. }
  rewrite Hd. cbn [bind]. rewrite Hnp.
  set (g := if (groupsize =? -1)%Z then Z.of_nat in_features else groupsize).
  unfold py_ceil_div at 1.
  destruct (Z.eqb_spec g 0) as [Hg0|Hg0]; [reflexivity|].
  assert (Hgpos : (1 <= g)%Z).
  { unfold g in *. destruct (Z.eqb_spec groupsize (-1)); lia. }
  cbn [bind]. unfold zeros_dim at 1.
  assert (Hneg : (- Z.of_nat in_features / g <= 0)%Z) by (apply Z.div_le_upper_bound; lia).
  destruct (Z.ltb_spec (- (- Z.of_nat in_features / g)) 0); [lia|]. cbn [bind].
  destruct (compression_dim =? 1)%Z; reflexivity.
Qed.

Lemma store_field_wider_than_word_witness :
  (8 / 16 = 0)%Z /\
  WeightOnlyLinear.init 64 8 16 32 "int" true false 8 1 = Raise ZeroDivisionError.
Proof.
  apply (store_field_wider_than_word 64 8 16 32 "int" [] true false 8 1).
  - left. reflexivity.
  - lia.
  - right. reflexivity.
  - right. lia.
  - reflexivity.
Defined.

(** ** Grouping along the output channels *)

(** [__init__] with whole-row groups succeeds and its scale buffer
    has one column. *)
Lemma init_whole_rows_scale (k n : nat) (b cb cd : Z) (data_type : string) (zp bias : bool) :
  k <> 0%nat -> (1 <= b <= cb)%Z -> (cb = 8 \/ cb = 16 \/ cb = 32 \/ cb = 64)%Z ->
  cd = 0%Z \/ cd = 1%Z -> supported data_type ->
  exists s,
    WeightOnlyLinear.init k n b (-1) data_type zp bias cb cd = Ok s /\
    WeightOnlyLinear.scale s = zeros 0 n 1.
Proof.
  intros Hk Hb Hcb Hcd Hsup. unfold WeightOnlyLinear.init.
  assert (Hmap : exists mapping,
             (if negb (has_int data_type)
              then match dict_get FLOAT_MAPPING data_type, dict_get INT_MAPPING data_type with
                   | Some float_list, Some int_list =>
                       Ok (fold_left (fun d kv => dict_set d (fst kv) (snd kv))
                                     (combine int_list float_list) [])
                   | _, _ => Raise KeyError
                   end
              else Ok []) = Ok mapping).
  { destruct (has_int data_type) eqn:E; cbn [negb]; [eauto|].
    destruct Hsup as [Hs|[fl Hf]]; [congruence|].
    destruct (float_mapping_int_mapping data_type fl Hf) as [il Hi].
    rewrite Hf, Hi. eauto. }
  destruct Hmap as [mapping ->]. cbn [bind].
  change (-1 =? -1)%Z with true. cbv iota.
  assert (Ha : assert ((cb =? 8) || (cb =? 16) || (cb =? 32) || (cb =? 64))%Z
                      "Only support torch.int8|16|32|64 as compressed dtype." = Ok tt).
  { destruct Hcb as [-> | [-> | [-> | ->]]]; reflexivity. }
  rewrite Ha. cbn [bind]. destruct (Z.eqb_spec b 0); [lia|]. cbn [bind].
  assert (Hnp : (0 < cb / b)%Z) by (apply Z.div_str_pos; lia).
  assert (Hg : (d <- py_ceil_div (Z.of_nat k) (Z.of_nat k) ;; zeros_dim d) = Ok 1%nat).
  { unfold py_ceil_div. destruct (Z.eqb_spec (Z.of_nat k) 0); [lia|]. cbn [bind].
    rewrite Z.div_opp_l_z by (try lia; apply Z_mod_same_full).
    rewrite Z.div_same by lia. reflexivity. }
  destruct Hcd as [-> | ->]; cbn [assert Z.eqb orb bind]; rewrite Hg; cbn [bind].
  - destruct (ceil_dim_ok (Z.of_nat n) (cb / b) ltac:(lia) Hnp) as [m ->].
    cbn [bind]. destruct zp; cbn [bind]; eexists; (split; reflexivity).
  - destruct (ceil_dim_ok (Z.of_nat k) (cb / b) ltac:(lia) Hnp) as [m ->].
    cbn [bind]. destruct zp; cbn [bind].
    + destruct (ceil_dim_ok (Z.of_nat k) (Z.of_nat k * (cb / b)) ltac:(lia) ltac:(nia))
        as [kz ->].
      cbn [bind]. eexists. split; reflexivity.
    + eexists. split; reflexivity.
Qed.

(** X17.  Grouping along the output channels does not survive
    packing.  With [group_dim = 0] and whole-row groups the scales come
    back transposed, of shape (1, in_features), while the store expects
    (out_features, 1): on every layer that is not 1 x 1 (two or more
    bits that fit the word, a supported data type) the [return_int]
    path of [rtn_quantize] ends in the assertion error of [pack] on the
    scale shape. *)
Theorem rtn_quantize_int_group_dim_0 (weight : tensor Q) (n k : nat) (num_bits cb cd : Z)
        (scheme : string) (quantile : Q) (data_type : string) (full_range : bool) :
  shape_is weight n k -> n <> 0%nat -> k <> 0%nat -> ~ (n = 1%nat /\ k = 1%nat) ->
  (2 <= num_bits <= cb)%Z -> (cb = 8 \/ cb = 16 \/ cb = 32 \/ cb = 64)%Z ->
  cd = 0%Z \/ cd = 1%Z -> supported data_type ->
  rtn_quantize_int weight None num_bits (-1) scheme quantile data_type full_range 0 cb cd
  = Raise (AssertionError "Scale shape is mismatched").
Proof.
  intros Hw Hn Hk Hnk Hb Hcb Hcd Hsup.
  pose proof Hw as [Hwn [Hwk _]].
  unfold rtn_quantize_int. change (0 =? 0)%Z with true. cbv iota.
  pose proof (transpose_shape 0 weight) as Ht. rewrite Hwn, Hwk in Ht.
  unfold quant_weight. destruct (Z.leb_spec num_bits 0); [lia|].
  change (-1 =? -1)%Z with true. cbn [orb].
  destruct (actor_total (transpose 0 weight) k n num_bits scheme quantile data_type true
                        full_range Ht Hn ltac:(lia) Hsup) as [r [Hr [q [s [zp ->]]]]].
  rewrite Hr. cbn [bind unpack3].
  destruct (actor_int_shape _ k n _ _ _ _ _ _ _ _ Ht Hr) as [_ [[Hsn [Hsk _]] _]].
  rewrite Hwk, Hwn.
  destruct (init_whole_rows_scale k n num_bits cb cd data_type
              (match match zp with
                     | Some z => Some (transpose 0%Z z)
                     | None => None
                     end with Some _ => true | None => false end)
              false Hk ltac:(lia) Hcb Hcd Hsup) as [s0 [Hinit Hscale]].
  rewrite Hinit. cbn [bind].
  unfold WeightOnlyLinear.pack. rewrite Hscale.
  destruct (transpose_shape 0 s) as [Htn [Htk _]]. rewrite Hsn, Hsk in *.
  rewrite Htn, Htk. destruct (zeros_shape 0 n 1) as [Hzn [Hzk _]]. rewrite Hzn, Hzk.
  assert (Hmis : ((1 =? n)%nat && (k =? 1)%nat) = false).
  { destruct (Nat.eqb_spec 1 n); destruct (Nat.eqb_spec k 1); cbn [andb]; try reflexivity.
    exfalso. apply Hnk. split; congruence. }
  rewrite Hmis. reflexivity.
Qed.

Lemma rtn_quantize_int_group_dim_0_witness :
  rtn_quantize_int sample_outlier None 4 (-1) "asym" 1 "int" false 0 32 1
  = Raise (AssertionError "Scale shape is mismatched").
Proof.
  apply (rtn_quantize_int_group_dim_0 sample_outlier 2 3 4 32 1 "asym" 1 "int" false).
  - repeat split; repeat constructor.
  - discriminate.
  - discriminate.
  - intros [H _]. discriminate H.
  - lia.
  - right. right. left. reflexivity.
  - right. reflexivity.
  - left. reflexivity.
Defined.

(** ** Symmetric round trip for every group size *)

Lemma cat1_tmap {A B : Type} (f : A -> B) (t1 t2 t : tensor A) :
  cat1 t1 t2 = Ok t -> cat1 (tmap f t1) (tmap f t2) = Ok (tmap f t).
Proof.
  unfold cat1. intros H.
  assert (Hn : forall u : tensor A, nrows (tmap f u) = nrows u)
    by (intros u; unfold nrows, tmap; cbn [trows]; apply length_map).
  rewrite !Hn. destruct (nrows t1 =? nrows t2)%nat; [|discriminate].
  apply Ok_inv in H. subst t. unfold tmap. cbn [ncols trows]. do 2 f_equal.
  rewrite map_map.
  generalize (trows t1) (trows t2). intros l1. induction l1 as [|x l1 IH]; intros [|y l2];
    try reflexivity.
  cbn [map combine fst snd]. rewrite map_app, IH. reflexivity.
Qed.

(** The number of groups [ceil(k / g)] when [g] leaves a remainder. *)
Lemma ceil_groups_rem (k : nat) (g : Z) :
  (1 <= g)%Z -> (k mod Z.to_nat g <> 0)%nat ->
  Z.to_nat (- (- Z.of_nat k / g)) = (k / Z.to_nat g + 1)%nat.
Proof.
  intros Hg Hmod.
  pose proof (Nat.div_mod_eq k (Z.to_nat g)) as Hk.
  pose proof (Nat.mod_upper_bound k (Z.to_nat g) ltac:(lia)) as Hub.
  set (c := (k / Z.to_nat g)%nat) in *. set (r := (k mod Z.to_nat g)%nat) in *.
  assert (Hdiv : (- Z.of_nat k / g = - (Z.of_nat c + 1))%Z).
  { symmetry. apply (Z.div_unique_pos _ _ _ (g - Z.of_nat r)); [lia|]. nia. }
  rewrite Hdiv. lia.
Qed.

(** The scales times the integers of the symmetric codec are its
    de-quantized rows. *)
Lemma sym_dequant_product (weight : tensor Q) (m g : nat) (num_bits : Z) (quantile : Q)
      (data_type : string) (full_range : bool) (rs : list (list Z * Q)) :
  shape_is weight m g -> (2 <= num_bits <= 8)%Z -> has_int data_type = true ->
  mapM (qdq_weight_sym_row num_bits quantile full_range) (trows weight) = Ok rs ->
  WeightOnlyLinear.mul_scale
    (tmap (fun x => to_float_weight data_type [] (wrap_signed num_bits x))
          (mkT g (map (fun r => map to_int8 (fst r)) rs)))
    (column (map snd rs))
  = Ok (mkT g (map (fun r => map (fun x => snd r * inject_Z x) (fst r)) rs)).
Proof.
  intros Hw Hb Hint Hrs. unfold WeightOnlyLinear.mul_scale, tmap, column, nrows.
  cbn [ncols trows]. rewrite !length_map, !Nat.eqb_refl. cbn [andb]. do 2 f_equal.
  rewrite (map_map snd (fun x => [x]) rs), !map_map.
  rewrite combine_map_map, map_map. cbn [fst snd hd].
  apply map_ext_in. intros [q sc] Hin. cbn [fst snd].
  destruct (Forall2_In_r _ _ _ _ (mapM_inv _ _ _ Hrs) Hin) as [row [_ Hrow]].
  assert (Hb1 : (1 <= num_bits)%Z) by lia.
  pose proof (qdq_weight_sym_row_range num_bits quantile full_range row q sc Hb1 Hrow)
    as Hrange.
  rewrite sym_bounds_ge2 in Hrange by lia. cbn [fst snd] in Hrange.
  rewrite !map_map. rewrite Forall_forall in Hrange.
  apply map_ext_in. intros x Hx. specialize (Hrange x Hx).
  assert (H27 : (2 ^ (num_bits - 1) <= 2 ^ 7)%Z) by (apply Z.pow_le_mono_r; lia).
  change (2 ^ 7)%Z with 128%Z in H27.
  rewrite to_int8_small by lia. rewrite wrap_signed_id by lia.
  unfold to_float_weight. rewrite Hint. cbn [negb]. apply Qmult_comm_eq.
Qed.

(** The symmetric round trip across a remainder group: a group size
    smaller than the number of input features that does not divide it. *)
Lemma sym_round_trip_remainder (weight : tensor Q) (n k : nat)
        (num_bits group_size cb : Z) (quantile : Q) (data_type : string) (full_range : bool)
        (w : tensor Q) :
  shape_is weight n k -> n <> 0%nat ->
  (2 <= num_bits <= 8)%Z -> (num_bits < cb)%Z ->
  (cb = 8 \/ cb = 16 \/ cb = 32 \/ cb = 64)%Z ->
  has_int data_type = true ->
  (1 <= group_size)%Z -> (Z.to_nat group_size <= k)%nat ->
  (k mod Z.to_nat group_size <> 0)%nat ->
  quant_weight weight num_bits group_size "sym" quantile data_type false full_range
  = Ok (QFloat w) ->
  exists m,
    rtn_quantize_int weight None num_bits group_size "sym" quantile data_type full_range 1 cb 1
    = Ok m /\
    WeightOnlyLinear.recover m = Ok w.
Proof.
  intros Hw Hn Hb Hbcb Hcb Hint Hg Hgk Hrem Hfloat.
  pose proof Hw as [Hwn [Hwk Hwwf]].
  set (gn := Z.to_nat group_size) in *.
  set (c := (k / gn)%nat).
  set (split_index := (c * gn)%nat).
  set (rem := (k - split_index)%nat).
  assert (Hgn : gn <> 0%nat) by (unfold gn; lia).
  pose proof (Nat.div_mod_eq k gn) as Hdm. fold c in Hdm.
  assert (Hk : k <> 0%nat) by lia.
  assert (Hsplit : (split_index <= k)%nat) by (unfold split_index; lia).
  assert (Hrem0 : rem <> 0%nat) by (unfold rem, split_index; lia).
  assert (Hksum : (split_index + rem = k)%nat) by (unfold rem; lia).
  assert (A1 : ((n * split_index) mod gn = 0)%nat).
  { unfold split_index. rewrite Nat.mul_assoc. apply Nat.Div0.mod_mul. }
  assert (A2 : (n * split_index / gn = n * c)%nat).
  { unfold split_index. rewrite Nat.mul_assoc. apply Nat.div_mul. exact Hgn. }
  assert (A3 : (n * c * gn = n * split_index)%nat) by (unfold split_index; lia).
  assert (A4 : ((n * c * 1) mod n = 0)%nat).
  { rewrite Nat.mul_1_r, (Nat.mul_comm n c). apply Nat.Div0.mod_mul. }
  assert (A4' : (n * c * 1 / n = c)%nat).
  { rewrite Nat.mul_1_r, (Nat.mul_comm n c). apply Nat.div_mul. exact Hn. }
  assert (A5 : ((n * c) mod 1 = 0)%nat) by apply Nat.mod_1_r.
  assert (A5' : (n * c / 1 = n * c)%nat) by apply Nat.div_1_r.
  assert (A6 : ((n * c * gn) mod n = 0)%nat).
  { rewrite A3, (Nat.mul_comm n split_index). apply Nat.Div0.mod_mul. }
  assert (A6' : (n * c * gn / n = split_index)%nat).
  { rewrite A3, (Nat.mul_comm n split_index). apply Nat.div_mul. exact Hn. }
  assert (Hl : shape_is (slice_cols 0 split_index weight) n split_index).
  { replace split_index with (split_index - 0)%nat at 2 by lia.
    apply (slice_cols_shape weight n k 0 split_index Hw). lia. }
  pose proof (from_col_shape weight n k split_index Hw Hsplit) as Hr. fold rem in Hr.
  set (W1 := reshape_to (n * c) gn (slice_cols 0 split_index weight)).
  set (W2 := from_col split_index weight) in *.
  assert (HW1 : shape_is W1 (n * c) gn).
  { apply reshape_to_shape. rewrite (flat_length _ n split_index Hl). lia. }
  (* the branch [quant_weight] takes *)
  assert (Hqw : forall ri,
    quant_weight weight num_bits group_size "sym" quantile data_type ri full_range
    = if ri then
        r1 <- qdq_weight_actor W1 num_bits "sym" quantile data_type true full_range ;;
        '(weight1, scale1, zp1) <- unpack3 r1 ;;
        scale1 <- reshape_cols n scale1 ;;
        zp1 <- reshape_zp n zp1 ;;
        weight1 <- reshape n split_index weight1 ;;
        r2 <- qdq_weight_actor W2 num_bits "sym" quantile data_type true full_range ;;
        '(weight2, scale2, zp2) <- unpack3 r2 ;;
        weight <- cat1 weight1 weight2 ;;
        scale <- cat1 scale1 scale2 ;;
        match zp2, zp1 with
        | Some zp2, Some zp1 => zp <- cat1 zp1 zp2 ;; Ok (QInt weight scale (Some zp))
        | Some _, None => Raise RuntimeError
        | None, _ => Ok (QInt weight scale None)
        end
      else
        r1 <- qdq_weight_actor W1 num_bits "sym" quantile data_type false full_range ;;
        weight1 <- unpack1 r1 ;;
        weight1 <- reshape n split_index weight1 ;;
        r2 <- qdq_weight_actor W2 num_bits "sym" quantile data_type false full_range ;;
        weight2 <- unpack1 r2 ;;
        weight <- cat1 weight1 weight2 ;;
        Ok (QFloat weight)).
  { intros ri. unfold quant_weight.
    destruct (Z.leb_spec num_bits 0); [lia|].
    destruct (Z.eqb_spec group_size (-1)); [lia|].
    rewrite Hwk, Hwn.
    destruct (Z.ltb_spec (Z.of_nat k) group_size) as [Hlt|_]; [unfold gn in *; lia|].
    cbn [orb]. destruct (Z.eqb_spec group_size 0); [lia|].
    destruct (Z.ltb_spec group_size 0); [lia|].
    cbv zeta. fold gn. fold c. fold split_index. fold W2.
    destruct (Nat.eqb_spec (k mod gn) 0); [contradiction|].
    rewrite (reshape_rows_eq _ n split_index gn Hl Hgn A1), A2. cbn [bind]. fold W1.
    destruct ri; reflexivity. }
  rewrite (Hqw false) in Hfloat.
  apply bind_Ok in Hfloat. destruct Hfloat as [r1 [Hr1 Hfloat]].
  apply bind_Ok in Hfloat. destruct Hfloat as [w1 [Hw1 Hfloat]].
  destruct r1 as [w1'|]; [|discriminate]. apply Ok_inv in Hw1. subst w1'.
  apply bind_Ok in Hfloat. destruct Hfloat as [w1r [Hw1r Hfloat]].
  apply bind_Ok in Hfloat. destruct Hfloat as [r2 [Hr2 Hfloat]].
  apply bind_Ok in Hfloat. destruct Hfloat as [w2 [Hw2 Hfloat]].
  destruct r2 as [w2'|]; [|discriminate]. apply Ok_inv in Hw2. subst w2'.
  apply bind_Ok in Hfloat. destruct Hfloat as [wc [Hwc Hfloat]].
  apply Ok_inv in Hfloat. injection Hfloat as Hfloat. subst wc.
  assert (HW1c : ncols W1 = gn) by (destruct HW1 as [_ [E _]]; exact E).
  assert (HW2c : ncols W2 = rem) by (destruct Hr as [_ [E _]]; exact E).
  destruct (sym_actor_rows W1 num_bits quantile data_type full_range w1
              ltac:(lia) Hint ltac:(rewrite HW1c; exact Hgn) Hr1)
    as [rs1 [Hrs1 [Hw1eq Hint1]]].
  destruct (sym_actor_rows W2 num_bits quantile data_type full_range w2
              ltac:(lia) Hint ltac:(rewrite HW2c; exact Hrem0) Hr2)
    as [rs2 [Hrs2 [Hw2eq Hint2]]].
  destruct (actor_int_shape _ (n * c)%nat gn _ _ _ _ _ _ _ _ HW1 Hint1) as [HQ1 [HS1 _]].
  destruct (actor_int_shape _ n rem _ _ _ _ _ _ _ _ Hr Hint2) as [HQ2 [HS2 _]].
  pose proof (actor_float_shape _ (n * c)%nat gn _ _ _ _ _ _ HW1 Hr1) as Hw1s.
  pose proof (actor_float_shape _ n rem _ _ _ _ _ _ Hr Hr2) as Hw2s.
  rewrite (reshape_eq w1 (n * c) gn n split_index Hw1s A3) in Hw1r. apply Ok_inv in Hw1r.
  rewrite HW1c, HW2c in *.
  set (Q1 := mkT gn (map (fun r => map to_int8 (fst r)) rs1)) in *.
  set (S1 := column (map snd rs1)) in *.
  set (Q2 := mkT rem (map (fun r => map to_int8 (fst r)) rs2)) in *.
  set (S2 := column (map snd rs2)) in *.
  set (Q1r := reshape_to n split_index Q1).
  set (S1r := reshape_to n c S1).
  assert (HQ1r : shape_is Q1r n split_index).
  { apply reshape_to_shape. rewrite (flat_length Q1 _ _ HQ1). exact A3. }
  assert (HS1r : shape_is S1r n c).
  { apply reshape_to_shape. rewrite (flat_length S1 _ _ HS1). lia. }
  destruct (cat1_shape Q1r Q2 n split_index rem HQ1r HQ2) as [Qc [HQc [HQcs _]]].
  destruct (cat1_shape S1r S2 n c 1 HS1r HS2) as [Sc [HSc [HScs _]]].
  rewrite Hksum in HQcs.
  destruct (recover_after_pack Qc Sc n k (c + 1) num_bits cb group_size data_type []
              HQcs HScs Hk ltac:(lia) Hbcb) as [s1 [Hpack Hrec]].
  exists s1. split.
  - unfold rtn_quantize_int. change (1 =? 0)%Z with false. cbv iota.
    rewrite (Hqw true), Hint1. cbn [bind unpack3].
    rewrite (reshape_cols_eq S1 (n * c) 1 n HS1 Hn A4), A4'. cbn [bind reshape_zp].
    rewrite (reshape_eq Q1 (n * c) gn n split_index HQ1 A3). cbn [bind].
    rewrite Hint2. cbn [bind unpack3]. fold Q1r. fold S1r.
    rewrite HQc. cbn [bind]. rewrite HSc. cbn [bind unpack3].
    rewrite Hwk, Hwn.
    assert (Hmp : int2float_mapping_of data_type = Ok []).
    { unfold int2float_mapping_of. rewrite Hint. reflexivity. }
    rewrite (init_groups k n num_bits cb group_size data_type [] Hk ltac:(lia) ltac:(lia)
                         Hcb Hmp Hg).
    cbn [bind]. rewrite (ceil_groups_rem k group_size Hg Hrem). fold gn. fold c.
    exact Hpack.
  - rewrite Hrec. unfold scale_groups.
    destruct (Z.eqb_spec group_size 0); [lia|]. cbn [bind]. cbv zeta. fold gn.
    destruct (Nat.eqb_spec (k mod gn) 0); [contradiction|]. cbn [negb].
    fold c. fold split_index.
    set (D := fun x => to_float_weight data_type [] (wrap_signed num_bits x)).
    pose proof (cat1_tmap D Q1r Q2 Qc HQc) as HDc.
    pose proof (tmap_shape D Q1r n split_index HQ1r) as HDQ1r.
    pose proof (tmap_shape D Q2 n rem HQ2) as HDQ2.
    pose proof (tmap_shape D Q1 (n * c)%nat gn HQ1) as HDQ1.
    rewrite (slice_cols_cat1_left _ _ _ n split_index rem HDQ1r HDQ2 HDc).
    rewrite (from_col_cat1_right _ _ _ n split_index rem HDQ1r HDQ2 HDc).
    assert (HScc : ncols Sc = (c + 1)%nat) by (destruct HScs as [_ [E _]]; exact E).
    rewrite HScc. replace (c + 1 - 1)%nat with c by lia.
    rewrite (slice_cols_cat1_left _ _ _ n c 1 HS1r HS2 HSc).
    rewrite (from_col_cat1_right _ _ _ n c 1 HS1r HS2 HSc).
    rewrite (reshape_rows_eq (tmap D Q1r) n split_index gn HDQ1r Hgn A1), A2. cbn [bind].
    unfold Q1r at 1. rewrite tmap_reshape_to.
    rewrite (reshape_to_back (tmap D Q1) (n * c) gn n split_index HDQ1 A3).
    rewrite (reshape_rows_eq S1r n c 1 HS1r ltac:(lia) A5), A5'. cbn [bind].
    unfold S1r at 1.
    rewrite (reshape_to_back S1 (n * c) 1 n c HS1 ltac:(lia)).
    unfold D, Q1, S1.
    rewrite (sym_dequant_product W1 (n * c) gn num_bits quantile data_type full_range rs1
               HW1 Hb Hint Hrs1).
    cbn [bind]. rewrite <- Hw1eq.
    rewrite (reshape_cols_eq w1 (n * c) gn n Hw1s Hn A6), A6'. cbn [bind].
    rewrite Hw1r. unfold Q2, S2.
    rewrite (sym_dequant_product W2 n rem num_bits quantile data_type full_range rs2
               Hr Hb Hint Hrs2).
    cbn [bind]. rewrite <- Hw2eq. exact Hwc.
Qed.

Lemma from_col_zero {A : Type} (t : tensor A) (n k : nat) :
  shape_is t n k -> from_col 0 t = t.
Proof.
  intros [Hn [Hk Hwf]]. unfold from_col, slice_cols. destruct t as [c rows].
  cbn [ncols trows] in *. subst c. f_equal; [lia|].
  rewrite <- (map_id rows) at 2. apply map_ext_in. intros r Hr. cbn [skipn].
  unfold wf in Hwf. cbn [ncols trows] in Hwf. rewrite Forall_forall in Hwf.
  rewrite <- (Hwf r Hr). apply firstn_all.
Qed.

Lemma cat1_empty_left {A : Type} (t0 t : tensor A) (n k : nat) :
  shape_is t0 n 0 -> shape_is t n k -> cat1 t0 t = Ok t.
Proof.
  intros [H0n [H0k H0wf]] [Hn [Hk Hwf]]. unfold cat1.
  rewrite H0n, Hn, Nat.eqb_refl, H0k. destruct t as [c rows]. cbn [ncols trows Nat.add] in *.
  do 2 f_equal. unfold nrows in *. cbn [trows] in *.
  rewrite <- (map_snd_combine (trows t0) rows) at 2 by lia.
  apply map_ext_in. intros [r0 r] Hin. cbn [fst snd].
  unfold wf in H0wf. rewrite Forall_forall in H0wf.
  pose proof (H0wf r0 (in_combine_l _ _ _ _ Hin)) as Hl. rewrite H0k in Hl.
  destruct r0; [reflexivity|discriminate].
Qed.

(** The symmetric round trip when the group size exceeds the number
    of input features: [quant_weight] treats the row as one group, the
    store keeps one scale per row and [recover] goes through its
    remainder branch with an empty leading part. *)
Lemma sym_round_trip_wide (weight : tensor Q) (n k : nat)
      (num_bits group_size cb : Z) (quantile : Q) (data_type : string) (full_range : bool)
      (w : tensor Q) :
  shape_is weight n k -> n <> 0%nat -> k <> 0%nat ->
  (2 <= num_bits <= 8)%Z -> (num_bits < cb)%Z ->
  (cb = 8 \/ cb = 16 \/ cb = 32 \/ cb = 64)%Z ->
  has_int data_type = true ->
  (Z.of_nat k < group_size)%Z ->
  quant_weight weight num_bits group_size "sym" quantile data_type false full_range
  = Ok (QFloat w) ->
  exists m,
    rtn_quantize_int weight None num_bits group_size "sym" quantile data_type full_range 1 cb 1
    = Ok m /\
    WeightOnlyLinear.recover m = Ok w.
Proof.
  intros Hw Hn Hk Hb Hbcb Hcb Hint Hgk Hfloat.
  pose proof Hw as [Hwn [Hwk Hwwf]].
  set (gn := Z.to_nat group_size) in *.
  assert (Hgn : gn <> 0%nat) by (unfold gn; lia).
  assert (Hlt : (k < gn)%nat) by (unfold gn; lia).
  assert (Hmod : (k mod gn = k)%nat) by (apply Nat.mod_small; exact Hlt).
  assert (Hdiv : (k / gn = 0)%nat) by (apply Nat.div_small; exact Hlt).
  assert (Hqw : forall ri,
    quant_weight weight num_bits group_size "sym" quantile data_type ri full_range
    = qdq_weight_actor weight num_bits "sym" quantile data_type ri full_range).
  { intros ri. unfold quant_weight. destruct (Z.leb_spec num_bits 0); [lia|].
    rewrite Hwk. destruct (Z.ltb_spec (Z.of_nat k) group_size); [|lia].
    rewrite orb_true_r. reflexivity. }
  rewrite (Hqw false) in Hfloat.
  destruct (sym_actor_rows weight num_bits quantile data_type full_range w
              ltac:(lia) Hint ltac:(rewrite Hwk; exact Hk) Hfloat)
    as [rs [Hrs [Hweq Hint_res]]].
  destruct (actor_int_shape _ n k _ _ _ _ _ _ _ _ Hw Hint_res) as [HQ [HS _]].
  pose proof (actor_float_shape _ n k _ _ _ _ _ _ Hw Hfloat) as Hws.
  rewrite Hwk in *.
  set (Q0 := mkT k (map (fun r => map to_int8 (fst r)) rs)) in *.
  set (S0 := column (map snd rs)) in *.
  destruct (recover_after_pack Q0 S0 n k 1 num_bits cb group_size data_type []
              HQ HS Hk ltac:(lia) Hbcb) as [s1 [Hpack Hrec]].
  exists s1. split.
  - unfold rtn_quantize_int. change (1 =? 0)%Z with false. cbv iota.
    rewrite (Hqw true), Hint_res. cbn [bind unpack3]. rewrite Hwk, Hwn.
    assert (Hmp : int2float_mapping_of data_type = Ok []).
    { unfold int2float_mapping_of. rewrite Hint. reflexivity. }
    rewrite (init_groups k n num_bits cb group_size data_type [] Hk ltac:(lia) ltac:(lia)
                         Hcb Hmp ltac:(lia)).
    cbn [bind].
    rewrite (ceil_groups_rem k group_size ltac:(lia) ltac:(fold gn; lia)). fold gn.
    rewrite Hdiv. exact Hpack.
  - rewrite Hrec. unfold scale_groups.
    destruct (Z.eqb_spec group_size 0); [lia|]. cbn [bind]. cbv zeta. fold gn.
    rewrite Hmod, Hdiv. destruct (Nat.eqb_spec k 0); [contradiction|]. cbn [negb Nat.mul].
    set (D := fun x => to_float_weight data_type [] (wrap_signed num_bits x)).
    pose proof (tmap_shape D Q0 n k HQ) as HDQ.
    assert (HScol : ncols S0 = 1%nat) by (destruct HS as [_ [E _]]; exact E).
    rewrite HScol. cbn [Nat.sub].
    pose proof (slice_cols_shape (tmap D Q0) n k 0 0 HDQ ltac:(lia)) as Hl.
    pose proof (slice_cols_shape S0 n 1 0 0 HS ltac:(lia)) as Hsl.
    cbn [Nat.sub] in Hl, Hsl.
    rewrite (reshape_rows_eq _ n 0 gn Hl Hgn) by (rewrite Nat.mul_0_r; apply Nat.Div0.mod_0_l).
    rewrite (reshape_rows_eq _ n 0 1 Hsl ltac:(lia))
      by (rewrite Nat.mul_0_r; reflexivity).
    cbn [bind]. rewrite Nat.mul_0_r, !Nat.Div0.div_0_l.
    change (reshape_to 0 gn (slice_cols 0 0 (tmap D Q0))) with (mkT gn ([] : list (list Q))).
    change (reshape_to 0 1 (slice_cols 0 0 S0)) with (mkT 1 ([] : list (list Q))).
    change (WeightOnlyLinear.mul_scale (mkT gn []) (mkT 1 [])) with (Ok (mkT gn ([] : list (list Q)))).
    cbn [bind].
    assert (Hrc : reshape_cols n (mkT gn ([] : list (list Q)))
                  = Ok (reshape_to n 0 (mkT gn ([] : list (list Q))))).
    { unfold reshape_cols, numel, nrows. cbn [trows length Nat.mul].
      destruct (Nat.eqb_spec n 0); [contradiction|].
      rewrite Nat.Div0.mod_0_l. cbn [Nat.eqb]. rewrite Nat.Div0.div_0_l. reflexivity. }
    rewrite Hrc. cbn [bind].
    rewrite (from_col_zero _ n k HDQ), (from_col_zero _ n 1 HS).
    unfold D, Q0, S0.
    rewrite (sym_dequant_product weight n k num_bits quantile data_type full_range rs
               Hw Hb Hint Hrs).
    cbn [bind]. rewrite <- Hweq.
    apply (cat1_empty_left _ w n k); [|exact Hws].
    apply reshape_to_shape. cbn. lia.
Qed.

(** X4.  The symmetric round trip, end to end and for every group
    size.  For an integer data type, scheme "sym", 2 to 8 bits, a
    compression word wider than the field and any group size (-1, one
    that divides the number of input features, one that leaves a
    remainder group, one that exceeds it), on a weight with at least
    one row and one column: the quantize-dequantize path of
    [quant_weight] returns a weight [w], the [return_int] path of
    [rtn_quantize] builds a packed layer, and [recover] on that layer
    returns exactly the same [w], with or without [full_range] and for
    any quantile. *)
Theorem rtn_sym_pack_recover (weight : tensor Q) (n k : nat) (num_bits group_size cb : Z)
        (quantile : Q) (data_type : string) (full_range : bool) :
  shape_is weight n k -> n <> 0%nat -> k <> 0%nat ->
  (2 <= num_bits <= 8)%Z -> (num_bits < cb)%Z ->
  (cb = 8 \/ cb = 16 \/ cb = 32 \/ cb = 64)%Z ->
  has_int data_type = true ->
  (group_size = -1 \/ 1 <= group_size)%Z ->
  exists w m,
    quant_weight weight num_bits group_size "sym" quantile data_type false full_range
    = Ok (QFloat w) /\
    rtn_quantize_int weight None num_bits group_size "sym" quantile data_type full_range 1 cb 1
    = Ok m /\
    WeightOnlyLinear.recover m = Ok w.
Proof.
  intros Hw Hn Hk Hb Hbcb Hcb Hint Hg.
  destruct (quant_weight_float_ok weight n k num_bits group_size "sym" quantile data_type
              full_range Hw Hk ltac:(lia) (or_introl Hint) Hg) as [w [Hfloat _]].
  exists w.
  assert (Hm : exists m,
             rtn_quantize_int weight None num_bits group_size "sym" quantile data_type
                              full_range 1 cb 1 = Ok m /\
             WeightOnlyLinear.recover m = Ok w).
  { destruct Hg as [-> | Hg].
    - exact (sym_round_trip_whole weight n k num_bits cb quantile data_type full_range w
               Hw Hn Hk Hb Hbcb Hcb Hint Hfloat).
    - destruct (Z.ltb_spec (Z.of_nat k) group_size) as [Hwide | Hfit].
      + exact (sym_round_trip_wide weight n k num_bits group_size cb quantile data_type
                 full_range w Hw Hn Hk Hb Hbcb Hcb Hint Hwide Hfloat).
      + destruct (Nat.eq_dec (k mod Z.to_nat group_size) 0) as [Hdiv | Hrem].
        * exact (sym_round_trip_divides weight n k num_bits group_size cb quantile data_type
                   full_range w Hw Hn Hk Hb Hbcb Hcb Hint Hg Hdiv Hfloat).
        * exact (sym_round_trip_remainder weight n k num_bits group_size cb quantile
                   data_type full_range w Hw Hn Hb Hbcb Hcb Hint Hg ltac:(lia) Hrem Hfloat). }
  destruct Hm as [m [Hq Hr]]. exists m. split; [exact Hfloat|]. split; assumption.
Qed.

Lemma rtn_sym_pack_recover_witness :
  exists w m,
    quant_weight sample_outlier 4 2 "sym" 1 "int" false false = Ok (QFloat w) /\
    rtn_quantize_int sample_outlier None 4 2 "sym" 1 "int" false 1 32 1 = Ok m /\
    WeightOnlyLinear.recover m = Ok w.
Proof.
  apply (rtn_sym_pack_recover sample_outlier 2 3 4 2 32 1 "int" false).
  - repeat split; repeat constructor.
  - discriminate.
  - discriminate.
  - lia.
  - lia.
  - right. right. left. reflexivity.
  - reflexivity.
  - right. lia.
Defined.

(** ** Compression along the output channels *)

Lemma transpose_zeros {A : Type} (z : A) (n k : nat) :
  transpose z (zeros z n k) = zeros z k n.
Proof.
  unfold transpose, zeros, nrows. cbn [ncols trows]. rewrite repeat_length. f_equal.
  rewrite (map_ext_in _ (fun _ => repeat z n)).
  - generalize 0%nat. induction k as [|k IH]; intros a; [reflexivity|].
    cbn [seq map repeat]. f_equal. apply IH.
  - intros j _. induction n as [|n IH]; [reflexivity|].
    cbn [repeat map]. rewrite IH. f_equal.
    clear. revert j. induction k as [|k IH]; intros [|j]; cbn [repeat nth]; auto.
Qed.

Lemma transpose_tmap {A B : Type} (f : A -> B) (d : A) (t : tensor A) :
  transpose (f d) (tmap f t) = tmap f (transpose d t).
Proof.
  unfold transpose, tmap, nrows. cbn [ncols trows]. rewrite length_map. f_equal.
  rewrite map_map. apply map_ext. intros j. rewrite !map_map. apply map_ext. intros r.
  apply map_nth.
Qed.

(** Transposing twice gives the tensor back. *)
Lemma transpose_involutive {A : Type} (d : A) (t : tensor A) (n k : nat) :
  shape_is t n k -> transpose d (transpose d t) = t.
Proof.
  intros [Hn [Hk Hwf]]. destruct t as [c rows]. unfold nrows, wf in *.
  cbn [ncols trows] in *. subst c n.
  unfold transpose, nrows. cbn [ncols trows]. rewrite length_map, length_seq. f_equal.
  apply (nth_ext _ _ [] []).
  - rewrite length_map, length_seq. reflexivity.
  - intros i Hi. rewrite length_map, length_seq in Hi.
    rewrite (nth_indep _ [] (map (fun r => nth 0 r d)
                                 (map (fun j => map (fun r => nth j r d) rows) (seq 0 k))))
      by (rewrite length_map, length_seq; exact Hi).
    rewrite (map_nth (fun j => map (fun r => nth j r d)
                                   (map (fun j0 => map (fun r => nth j0 r d) rows) (seq 0 k)))
                     (seq 0 (length rows)) 0%nat i).
    rewrite seq_nth by exact Hi. cbn [Nat.add]. rewrite map_map.
    rewrite Forall_forall in Hwf.
    assert (Hrow : length (nth i rows []) = k) by (apply Hwf, nth_In; exact Hi).
    apply (nth_ext _ _ d d).
    + rewrite length_map, length_seq. symmetry. exact Hrow.
    + intros j Hj. rewrite length_map, length_seq in Hj.
      rewrite (nth_indep _ d (nth i (map (fun r => nth 0 r d) rows) d))
        by (rewrite length_map, length_seq; exact Hj).
      rewrite (map_nth (fun j0 => nth i (map (fun r => nth j0 r d) rows) d) (seq 0 k) 0%nat j).
      rewrite seq_nth by exact Hj. cbn [Nat.add].
      rewrite (nth_indep _ d (nth j [] d)) by (rewrite length_map; exact Hi).
      rewrite (map_nth (fun r => nth j r d) rows [] i). reflexivity.
Qed.

(** [pack] into a fresh store with compression along the output
    channels and no zero points, then [recover]: the integer matrix is
    packed column by column, and what comes back is again the signed
    reading of every field, followed by the scaling of the groups. *)
Lemma recover_after_pack_dim0 (q : tensor Z) (sc : tensor Q) (n k c : nat) (b cb gz : Z)
      (data_type : string) (mp : list (Z * Q)) :
  shape_is q n k -> shape_is sc n c ->
  (1 <= b <= 8)%Z -> (b < cb)%Z ->
  exists s1,
    WeightOnlyLinear.pack
      (WeightOnlyLinear.mk data_type mp k n b gz 0 cb (cb / b) (zeros 0 n c)
         (zeros 0%Z (Z.to_nat (- (- Z.of_nat n / (cb / b)))) k) None None)
      q sc None None = Ok s1 /\
    WeightOnlyLinear.recover s1
    = scale_groups k n gz sc
        (tmap (fun x => to_float_weight data_type mp (wrap_signed b x)) q).
Proof.
  intros Hq Hs Hb Hbcb.
  pose proof Hq as [Hqn [Hqk Hqwf]]. pose proof Hs as [Hsn [Hsk Hswf]].
  set (m := Z.to_nat (- (- Z.of_nat n / (cb / b)))).
  assert (Hnp : (1 <= cb / b)%Z) by (apply Z.div_le_lower_bound; lia).
  assert (Hmask : forall s0 pw,
             WeightOnlyLinear.mask_of
               (WeightOnlyLinear.mk data_type mp k n b gz 0 cb (cb / b) s0 pw None None)
             = Ok (2 ^ b - 1)%Z).
  { intros s0 pw. unfold WeightOnlyLinear.mask_of.
    cbn [WeightOnlyLinear.bits WeightOnlyLinear.compress_bits].
    destruct (Z.ltb_spec b 0); [lia|].
    assert (H2 : (2 ^ b <= 2 ^ (cb - 1))%Z) by (apply Z.pow_le_mono_r; lia).
    destruct (Z.ltb_spec (2 ^ b - 1) (2 ^ (cb - 1))); [reflexivity|lia]. }
  pose proof (transpose_shape 0%Z q) as HqT. rewrite Hqn, Hqk in HqT.
  destruct HqT as [HqTn [HqTk HqTwf]].
  (* the packed words, one row per input channel *)
  set (P := mkT m (map (fun qrow =>
                   WeightOnlyLinear.pack_row
                     (WeightOnlyLinear.mk data_type mp k n b gz 0 cb (cb / b)
                        (zeros 0 n c) (zeros 0%Z m k) None None)
                     (2 ^ b - 1)%Z qrow (repeat 0%Z m)) (trows (transpose 0%Z q)))).
  assert (HP : shape_is P k m).
  { unfold shape_is, nrows, wf, P. cbn [ncols trows]. rewrite length_map.
    split; [exact HqTn|]. split; [reflexivity|].
    apply Forall_map, Forall_forall. intros r _.
    unfold WeightOnlyLinear.pack_row.
    rewrite length_map, length_combine, length_seq, repeat_length. lia. }
  exists (WeightOnlyLinear.mk data_type mp k n b gz 0 cb (cb / b) sc (transpose 0%Z P)
            None None).
  split.
  - (* pack *)
    unfold WeightOnlyLinear.pack.
    cbn [WeightOnlyLinear.scale WeightOnlyLinear.compression_dim WeightOnlyLinear.packed_weight
         WeightOnlyLinear.packed_zp WeightOnlyLinear.bias WeightOnlyLinear.dtype
         WeightOnlyLinear.int2float_mapping WeightOnlyLinear.in_features
         WeightOnlyLinear.out_features WeightOnlyLinear.bits WeightOnlyLinear.groupsize
         WeightOnlyLinear.compress_bits WeightOnlyLinear.n_pack].
    destruct (zeros_shape 0 n c) as [Hz1n [Hz1k _]].
    rewrite Hsn, Hz1n, Hsk, Hz1k, !Nat.eqb_refl. cbn [andb assert bind].
    change (0 =? 0)%Z with true. cbv iota.
    rewrite transpose_zeros.
    destruct (zeros_shape 0%Z k m) as [Hzn [Hzk _]].
    rewrite HqTn, Hzn, Nat.eqb_refl. cbn [assert bind].
    rewrite Hmask. cbn [bind].
    unfold WeightOnlyLinear.pack_loops. rewrite HqTn, Hzn, Nat.eqb_refl. cbn [bind].
    do 2 f_equal. unfold P. f_equal.
    cbn [zeros ncols trows]. rewrite <- HqTn. unfold nrows.
    rewrite map_combine_repeat. reflexivity.
  - (* recover *)
    unfold WeightOnlyLinear.recover. rewrite Hmask. cbn [bind].
    cbn [WeightOnlyLinear.scale WeightOnlyLinear.compression_dim WeightOnlyLinear.packed_weight
         WeightOnlyLinear.dtype WeightOnlyLinear.int2float_mapping WeightOnlyLinear.in_features
         WeightOnlyLinear.out_features WeightOnlyLinear.groupsize].
    change (0 =? 0)%Z with true. cbv iota.
    rewrite transpose_zeros, (transpose_involutive 0%Z P k m HP).
    destruct (zeros_shape 0%Z k n) as [Hzn [Hzk _]].
    destruct HP as [HPn [HPk _]].
    rewrite Hzn, HPn, Nat.eqb_refl. cbn [bind].
    assert (Hun :
      mkT (ncols (zeros 0%Z k n))
          (map (fun p => WeightOnlyLinear.unpack_row
                           (WeightOnlyLinear.mk data_type mp k n b gz 0 cb (cb / b)
                              sc (transpose 0%Z P) None None)
                           (ncols (zeros 0%Z k n)) (ncols P) (fst p) (snd p))
               (combine (trows P) (trows (zeros 0%Z k n))))
      = tmap (wrap_signed b) (transpose 0%Z q)).
    { cbn [zeros ncols trows]. unfold tmap. rewrite HqTk. f_equal.
      change (trows P) with (map (fun qrow =>
                   WeightOnlyLinear.pack_row
                     (WeightOnlyLinear.mk data_type mp k n b gz 0 cb (cb / b)
                        (zeros 0 n c) (zeros 0%Z m k) None None)
                     (2 ^ b - 1)%Z qrow (repeat 0%Z m)) (trows (transpose 0%Z q))).
      change (ncols P) with m.
      rewrite map_combine_map_l. cbn [fst snd].
      replace (repeat (repeat 0%Z n) k)
        with (repeat (repeat 0%Z n) (length (trows (transpose 0%Z q))))
        by (f_equal; exact HqTn).
      rewrite map_combine_repeat. cbn [fst snd].
      apply map_ext_in. intros qrow Hin.
      assert (Hlr : length qrow = n).
      { unfold wf in HqTwf. rewrite Forall_forall in HqTwf. rewrite <- HqTk.
        apply HqTwf. exact Hin. }
      match goal with
      | |- WeightOnlyLinear.unpack_row ?S _ _ _ _ = _ =>
          pose proof (pack_unpack_row S (2 ^ b - 1)%Z qrow (repeat 0%Z n) m) as Hrt
      end.
      cbn [WeightOnlyLinear.bits WeightOnlyLinear.compress_bits WeightOnlyLinear.n_pack] in Hrt.
      rewrite Hlr in Hrt. apply Hrt.
      - exact Hb.
      - lia.
      - reflexivity.
      - apply Hmask.
      - apply ceil_words_cover. exact Hnp.
      - apply repeat_length. }
    rewrite Hun.
    assert (Hw0 : wrap_signed b 0 = 0%Z).
    { apply wrap_signed_id; [lia|]. pose proof (pow2_pos (b - 1) ltac:(lia)). lia. }
    replace (transpose 0%Z (tmap (wrap_signed b) (transpose 0%Z q)))
      with (tmap (wrap_signed b) q).
    2:{ pose proof (transpose_tmap (wrap_signed b) 0%Z (transpose 0%Z q)) as Ht.
        rewrite Hw0 in Ht. rewrite Ht.
        rewrite (transpose_involutive 0%Z q n k Hq). reflexivity. }
    rewrite to_float_weight_tmap.
    unfold scale_groups.
    replace (tmap (to_float_weight data_type mp) (tmap (wrap_signed b) q))
      with (tmap (fun x => to_float_weight data_type mp (wrap_signed b x)) q)
      by (unfold tmap; cbn [ncols trows]; f_equal; rewrite map_map;
          apply map_ext; intros r; rewrite map_map; reflexivity).
    reflexivity.
Qed.

(** [__init__] with compression along the output channels, no zero
    points, no bias: the packed weight has one row per word of output
    channels and one column per input channel. *)
Lemma init_output_channels (k n : nat) (b cb g : Z) (data_type : string)
      (mp : list (Z * Q)) :
  (1 <= b)%Z -> (b <= cb)%Z ->
  (cb = 8 \/ cb = 16 \/ cb = 32 \/ cb = 64)%Z ->
  int2float_mapping_of data_type = Ok mp ->
  (1 <= (if (g =? -1)%Z then Z.of_nat k else g))%Z ->
  WeightOnlyLinear.init k n b g data_type false false cb 0
  = Ok (WeightOnlyLinear.mk data_type mp k n b
          (if (g =? -1)%Z then Z.of_nat k else g) 0 cb (cb / b)
          (zeros 0 n (Z.to_nat (- (- Z.of_nat k / (if (g =? -1)%Z then Z.of_nat k else g)))))
          (zeros 0%Z (Z.to_nat (- (- Z.of_nat n / (cb / b)))) k)
          None None).
Proof.
  intros Hb Hbcb Hcb Hmp Hg. unfold WeightOnlyLinear.init.
  unfold int2float_mapping_of in Hmp. rewrite Hmp.
  cbn [negb bind].
  set (g' := if (g =? -1)%Z then Z.of_nat k else g) in *.
  assert (Ha : assert ((cb =? 8) || (cb =? 16) || (cb =? 32) || (cb =? 64))%Z
                      "Only support torch.int8|16|32|64 as compressed dtype." = Ok tt).
  { destruct Hcb as [-> | [-> | [-> | ->]]]; reflexivity. }
  rewrite Ha. cbn [bind]. destruct (Z.eqb_spec b 0); [lia|]. cbn [bind assert Z.eqb orb].
  assert (Hnp : (1 <= cb / b)%Z) by (apply Z.div_le_lower_bound; lia).
  unfold py_ceil_div.
  destruct (Z.eqb_spec g' 0); [lia|]. destruct (Z.eqb_spec (cb / b) 0); [lia|]. cbn [bind].
  unfold zeros_dim.
  assert (Hneg1 : (- Z.of_nat k / g' <= 0)%Z) by (apply Z.div_le_upper_bound; lia).
  assert (Hneg2 : (- Z.of_nat n / (cb / b) <= 0)%Z) by (apply Z.div_le_upper_bound; lia).
  destruct (Z.ltb_spec (- (- Z.of_nat k / g')) 0); [lia|]. cbn [bind].
  destruct (Z.ltb_spec (- (- Z.of_nat n / (cb / b))) 0); [lia|]. reflexivity.
Qed.

(** [__init__] with compression along the input channels, for every
    group size. *)
Lemma init_input_channels (k n : nat) (b cb g : Z) (data_type : string)
      (mp : list (Z * Q)) :
  k <> 0%nat -> (1 <= b)%Z -> (b <= cb)%Z ->
  (cb = 8 \/ cb = 16 \/ cb = 32 \/ cb = 64)%Z ->
  int2float_mapping_of data_type = Ok mp ->
  (g = -1 \/ 1 <= g)%Z ->
  WeightOnlyLinear.init k n b g data_type false false cb 1
  = Ok (WeightOnlyLinear.mk data_type mp k n b
          (if (g =? -1)%Z then Z.of_nat k else g) 1 cb (cb / b)
          (zeros 0 n (Z.to_nat (- (- Z.of_nat k / (if (g =? -1)%Z then Z.of_nat k else g)))))
          (zeros 0%Z n (Z.to_nat (- (- Z.of_nat k / (cb / b)))))
          None None).
Proof.
  intros Hk Hb Hbcb Hcb Hmp [-> | Hg].
  - change (-1 =? -1)%Z with true. cbv iota.
    rewrite (init_whole_rows k n b cb data_type mp Hk Hb Hbcb Hcb Hmp).
    replace (Z.to_nat (- (- Z.of_nat k / Z.of_nat k))) with 1%nat; [reflexivity|].
    rewrite (Z.div_opp_l_z (Z.of_nat k) (Z.of_nat k)) by (try lia; apply Z_mod_same_full).
    rewrite Z.div_same by lia. reflexivity.
  - destruct (Z.eqb_spec g (-1)); [lia|].
    apply init_groups; assumption.
Qed.

(** The loops of [pack] fill the target in place: the result has the
    shape of the target. *)
Lemma pack_loops_shape (s : WeightOnlyLinear.t) (mask : Z) (iw packed out : tensor Z)
      (r c : nat) :
  shape_is packed r c ->
  WeightOnlyLinear.pack_loops s mask iw packed = Ok out -> shape_is out r c.
Proof.
  intros [Hn [Hc Hwf]] H. unfold WeightOnlyLinear.pack_loops in H.
  destruct (Nat.eqb_spec (nrows iw) (nrows packed)) as [E|]; [|discriminate].
  apply Ok_inv in H. subst out.
  unfold shape_is, nrows, wf. cbn [ncols trows].
  unfold nrows in E, Hn.
  rewrite length_map, length_combine, E, Nat.min_id.
  split; [exact Hn|]. split; [exact Hc|].
  apply Forall_map, Forall_forall. intros [a p] Hin. cbn [fst snd].
  unfold WeightOnlyLinear.pack_row.
  rewrite length_map, length_combine, length_seq, Nat.min_id.
  apply in_combine_r in Hin. unfold wf in Hwf. rewrite Forall_forall in Hwf.
  apply Hwf. exact Hin.
Qed.

(** [pack] keeps the shape of the packed weight [__init__] allocated,
    for either compression dimension. *)
Lemma pack_packed_weight_shape (s s' : WeightOnlyLinear.t) (iw : tensor Z) (sc : tensor Q)
      (zp : option (tensor Z)) (bias : option (list Q)) (r c : nat) :
  shape_is (WeightOnlyLinear.packed_weight s) r c ->
  WeightOnlyLinear.pack s iw sc zp bias = Ok s' ->
  shape_is (WeightOnlyLinear.packed_weight s') r c.
Proof.
  intros Hs H. unfold WeightOnlyLinear.pack in H.
  destruct (assert _ "Scale shape is mismatched"); try discriminate. cbn [bind] in H.
  destruct (assert _ "output channels mismatch, please check."); try discriminate.
  cbn [bind] in H.
  destruct (WeightOnlyLinear.mask_of s) as [mask| |]; try discriminate. cbn [bind] in H.
  destruct (WeightOnlyLinear.pack_loops s mask _ _) as [out| |] eqn:Hl; try discriminate.
  cbn [bind] in H.
  match type of H with
  | bind ?m _ = _ => destruct m as [pz| |]; try discriminate
  end.
  cbn [bind] in H. apply Ok_inv in H. subst s'. cbn [WeightOnlyLinear.packed_weight].
  destruct Hs as [Hn [Hc Hwf]].
  destruct (WeightOnlyLinear.compression_dim s =? 0)%Z.
  - pose proof (transpose_shape 0%Z (WeightOnlyLinear.packed_weight s)) as Ht.
    rewrite Hn, Hc in Ht.
    pose proof (pack_loops_shape _ _ _ _ _ _ _ Ht Hl) as [Hon [Hoc _]].
    pose proof (transpose_shape 0%Z out) as Ho. rewrite Hon, Hoc in Ho. exact Ho.
  - apply (pack_loops_shape _ _ _ _ _ _ _ (conj Hn (conj Hc Hwf)) Hl).
Qed.

(** X18.  The compression dimension is a choice of layout only.  For
    a supported data type, 1 to 8 bits, a compression word wider than
    the field and any group size, packing the same integers and scales
    (no zero points) into a layer built with [compression_dim = 0] and
    into one built with [compression_dim = 1] succeeds both times, the
    two packed weights have the shapes
    [(ceil(out_features / n_pack), in_features)] and
    [(out_features, ceil(in_features / n_pack))], and [recover] gives
    the same result on both. *)
Theorem compression_dim_is_layout (q : tensor Z) (sc : tensor Q) (n k : nat)
        (b cb g : Z) (data_type : string) (mp : list (Z * Q)) :
  shape_is q n k -> k <> 0%nat ->
  (1 <= b <= 8)%Z -> (b < cb)%Z ->
  (cb = 8 \/ cb = 16 \/ cb = 32 \/ cb = 64)%Z ->
  int2float_mapping_of data_type = Ok mp ->
  (g = -1 \/ 1 <= g)%Z ->
  shape_is sc n (Z.to_nat (- (- Z.of_nat k / (if (g =? -1)%Z then Z.of_nat k else g)))) ->
  exists l0 l1 s0 s1,
    WeightOnlyLinear.init k n b g data_type false false cb 0 = Ok l0 /\
    WeightOnlyLinear.init k n b g data_type false false cb 1 = Ok l1 /\
    WeightOnlyLinear.pack l0 q sc None None = Ok s0 /\
    WeightOnlyLinear.pack l1 q sc None None = Ok s1 /\
    shape_is (WeightOnlyLinear.packed_weight s0)
             (Z.to_nat (- (- Z.of_nat n / (cb / b)))) k /\
    shape_is (WeightOnlyLinear.packed_weight s1)
             n (Z.to_nat (- (- Z.of_nat k / (cb / b)))) /\
    WeightOnlyLinear.recover s0 = WeightOnlyLinear.recover s1.
Proof.
  intros Hq Hk Hb Hbcb Hcb Hmp Hg Hsc.
  set (g' := if (g =? -1)%Z then Z.of_nat k else g) in *.
  assert (Hg' : (1 <= g')%Z).
  { unfold g'. destruct Hg as [-> | Hg]; [cbn; lia|].
    destruct (Z.eqb_spec g (-1)); lia. }
  destruct (recover_after_pack_dim0 q sc n k _ b cb g' data_type mp Hq Hsc Hb Hbcb)
    as [s0 [Hp0 Hr0]].
  destruct (recover_after_pack q sc n k _ b cb g' data_type mp Hq Hsc Hk Hb Hbcb)
    as [s1 [Hp1 Hr1]].
  eexists _, _, s0, s1.
  split.
  { apply (init_output_channels k n b cb g data_type mp);
      [lia | lia | exact Hcb | exact Hmp | exact Hg']. }
  split.
  { apply (init_input_channels k n b cb g data_type mp Hk);
      [lia | lia | exact Hcb | exact Hmp | exact Hg]. }
  fold g'. split; [exact Hp0|]. split; [exact Hp1|].
  split; [|split; [|rewrite Hr0, Hr1; reflexivity]].
  - eapply pack_packed_weight_shape; [|exact Hp0]. apply zeros_shape.
  - eapply pack_packed_weight_shape; [|exact Hp1]. apply zeros_shape.
Qed.

Lemma compression_dim_is_layout_witness :
  exists l0 l1 s0 s1,
    WeightOnlyLinear.init 3 2 4 2 "int" false false 8 0 = Ok l0 /\
    WeightOnlyLinear.init 3 2 4 2 "int" false false 8 1 = Ok l1 /\
    WeightOnlyLinear.pack l0 (mkT 3 [[- (8); 0; 7]; [1; - (1); 3]]%Z)
                          (mkT 2 [[1 # 7; 2 # 7]; [3; 1 # 2]]) None None = Ok s0 /\
    WeightOnlyLinear.pack l1 (mkT 3 [[- (8); 0; 7]; [1; - (1); 3]]%Z)
                          (mkT 2 [[1 # 7; 2 # 7]; [3; 1 # 2]]) None None = Ok s1 /\
    shape_is (WeightOnlyLinear.packed_weight s0)
             (Z.to_nat (- (- Z.of_nat 2 / (8 / 4)))) 3 /\
    shape_is (WeightOnlyLinear.packed_weight s1)
             2 (Z.to_nat (- (- Z.of_nat 3 / (8 / 4)))) /\
    WeightOnlyLinear.recover s0 = WeightOnlyLinear.recover s1.
Proof.
  apply (compression_dim_is_layout (mkT 3 [[- (8); 0; 7]; [1; - (1); 3]]%Z)
                                   (mkT 2 [[1 # 7; 2 # 7]; [3; 1 # 2]]) 2 3 4 8 2 "int" []).
  - repeat split; repeat constructor.
  - discriminate.
  - lia.
  - lia.
  - left. reflexivity.
  - reflexivity.
  - right. lia.
  - repeat split; repeat constructor.
Defined.
